(** * clox: a shallow embedding of the bytecode interpreter

    The development follows the C sources of the interpreter: [value.h] and
    [value.c] (NaN-boxed values), [table.c] (the open-addressed hash table),
    [scanner.c], the parameter and argument loops of [compiler.c], and the
    call dispatch, global-variable opcodes and open-upvalue list of [vm.c].

    Conventions.
    - C integers are modelled by [Z]; a 64-bit [Value] is a [Z] in
      [0, 2^64) and its bit operations are [Z.land], [Z.lor], [Z.lxor].
    - A pointer to a heap object is an address, a [Z]; [NULL] keys of the
      hash table are [None].
    - A function that loops in C takes its bound from the data it walks; a
      result [None] stands for a run that does not return (or that reads
      outside an array), [Some r] for a run that returns [r]. *)

From Stdlib Require Import ZArith Lia Bool Ascii String.
From Stdlib Require Import Floats.SpecFloat.
From stdpp Require Import base option list sorting gmap strings.

Local Open Scope Z_scope.

(* ===================================================================== *)
(** * Part I: the model                                                   *)
(* ===================================================================== *)

(** ** value.h, value.c: NaN-boxed values ([NAN_BOXING] is defined in
    common.h, so the [#else] branches are the compiled ones). *)
Module Value.

(** [typedef uint64_t Value;] *)
Definition Value : Type := Z.

Definition SIGN_BIT : Z := 0x8000000000000000.
Definition QNAN : Z := 0x7ffc000000000000.

Definition TAG_NIL : Z := 1.
Definition TAG_FALSE : Z := 2.
Definition TAG_TRUE : Z := 3.

Definition FALSE_VAL : Value := Z.lor QNAN TAG_FALSE.
Definition TRUE_VAL : Value := Z.lor QNAN TAG_TRUE.
Definition NIL_VAL : Value := Z.lor QNAN TAG_NIL.

Definition BOOL_VAL (b : bool) : Value := if b then TRUE_VAL else FALSE_VAL.

(** [(Value)(SIGN_BIT | QNAN | (uint64_t)(uintptr_t)(obj))] *)
Definition OBJ_VAL (obj : Z) : Value := Z.lor (Z.lor SIGN_BIT QNAN) obj.

Definition IS_BOOL (value : Value) : bool := Z.lor value 1 =? TRUE_VAL.
Definition IS_NIL (value : Value) : bool := value =? NIL_VAL.
Definition IS_NUMBER (value : Value) : bool :=
  negb (Z.land value QNAN =? QNAN).
Definition IS_OBJ (value : Value) : bool :=
  Z.land value (Z.lor QNAN SIGN_BIT) =? Z.lor QNAN SIGN_BIT.

Definition AS_BOOL (value : Value) : bool := value =? TRUE_VAL.

(** [~x] on a [uint64_t]. *)
Definition uint64_not (x : Z) : Z := Z.lxor x (Z.ones 64).

(** [(Obj* )(uintptr_t)((value) & ~(SIGN_BIT | QNAN))] *)
Definition AS_OBJ (value : Value) : Z :=
  Z.land value (uint64_not (Z.lor SIGN_BIT QNAN)).

(** [valueToNum]: the [memcpy] of the 64 bits into a [double], read as an
    IEEE-754 binary64 datum: sign bit 63, biased exponent in bits 62..52,
    fraction in bits 51..0. *)
Definition valueToNum (value : Value) : spec_float :=
  let s := Z.testbit value 63 in
  let e := Z.land (Z.shiftr value 52) 0x7ff in
  let m := Z.land value 0xfffffffffffff in
  if e =? 0 then
    match m with
    | Zpos p => S754_finite s p (-1074)
    | _ => S754_zero s
    end
  else if e =? 0x7ff then
    (if m =? 0 then S754_infinity s else S754_nan)
  else
    match Z.lor m 0x10000000000000 with
    | Zpos p => S754_finite s p (e - 1075)
    | _ => S754_nan
    end.

Definition AS_NUMBER (value : Value) : spec_float := valueToNum value.

(** The type tags of value.h, and the order in which [printValue] tests
    them on a NaN-boxed value. *)
Inductive ValueType := VAL_BOOL | VAL_NIL | VAL_NUMBER | VAL_OBJ.

Definition valueType (value : Value) : option ValueType :=
  if IS_BOOL value then Some VAL_BOOL
  else if IS_NIL value then Some VAL_NIL
  else if IS_NUMBER value then Some VAL_NUMBER
  else if IS_OBJ value then Some VAL_OBJ
  else None.

(** [valuesEqual]: the C comparison [==] of two doubles is the IEEE-754
    equality [SFeqb]. *)
Definition valuesEqual (a b : Value) : bool :=
  if IS_NUMBER a && IS_NUMBER b then
    SFeqb (AS_NUMBER a) (AS_NUMBER b)
  else a =? b.

End Value.

(** ** Loops of the form [for (int i = 0; i < n; i++) body]. *)
Fixpoint for_loop {St : Type} (n : nat) (i : Z) (body : Z -> St -> option St)
    (s : St) : option St :=
  match n with
  | O => Some s
  | S n' => s' ← body i s; for_loop n' (i + 1) body s'
  end.

(** ** table.h, table.c: the open-addressed hash table. *)
Module Table.
Import Value.

(** [Entry]: [key] is an [ObjString*], [None] for [NULL]. *)
Record Entry := { key : option Z; value : Value }.

Record Table := { count : Z; capacity : Z; entries : list Entry }.

(** [GROW_CAPACITY] of memory.h. *)
Definition GROW_CAPACITY (cap : Z) : Z := if cap <? 8 then 8 else cap * 2.

Definition initTable : Table := {| count := 0; capacity := 0; entries := [] |}.

Section WithHeap.
(** [key->hash], a [uint32_t] field of the string object at address
    [key]; [key->obj.isMarked], its mark bit. *)
Variable hash : Z -> Z.
Variable isMarked : Z -> bool.

(** The [for (;;)] loop of [findEntry].  An entry pointer is returned as
    its index in [entries].  The loop is run for at most [fuel]
    iterations. *)
Fixpoint findEntry_loop (fuel : nat) (ents : list Entry) (cap : Z)
    (k : Z) (index : Z) (tombstone : option Z) : option Z :=
  match fuel with
  | O => None
  | S fuel' =>
      entry ← ents !! Z.to_nat index;
      match key entry with
      | None =>
          if IS_NIL (value entry) then
            Some (match tombstone with Some t => t | None => index end)
          else
            findEntry_loop fuel' ents cap k
              (Z.land (index + 1) (cap - 1))
              (match tombstone with Some t => Some t | None => Some index end)
      | Some k' =>
          if k' =? k then Some index
          else findEntry_loop fuel' ents cap k
                 (Z.land (index + 1) (cap - 1)) tombstone
      end
  end.

(** [findEntry].  The probe sequence stays inside [0, cap), so a run that
    has not returned after [cap] iterations has seen every slot it will
    ever see and never returns: [cap] iterations decide the result. *)
Definition findEntry (ents : list Entry) (cap : Z) (k : Z) : option Z :=
  findEntry_loop (Z.to_nat cap) ents cap k
    (Z.land (hash k) (cap - 1)) None.

(** [tableGet]: [Some (Some v)] when it returns [true] with [*value = v],
    [Some None] when it returns [false]. *)
Definition tableGet (table : Table) (k : Z) : option (option Value) :=
  if count table =? 0 then Some None
  else
    i ← findEntry (entries table) (capacity table) k;
    entry ← entries table !! Z.to_nat i;
    match key entry with
    | None => Some None
    | Some _ => Some (Some (value entry))
    end.

(** Body of the second loop of [adjustCapacity]; the state is the new
    array and [table->count]. *)
Definition adjustCapacity_body (old : list Entry) (cap : Z) (i : Z)
    (st : list Entry * Z) : option (list Entry * Z) :=
  entry ← old !! Z.to_nat i;
  match key entry with
  | None => Some st
  | Some k =>
      dest ← findEntry (fst st) cap k;
      Some (<[Z.to_nat dest := {| key := Some k; value := value entry |}]> (fst st),
            snd st + 1)
  end.

Definition adjustCapacity (table : Table) (cap : Z) : option Table :=
  let ents := replicate (Z.to_nat cap) {| key := None; value := NIL_VAL |} in
  st ← for_loop (Z.to_nat (capacity table)) 0
         (adjustCapacity_body (entries table) cap) (ents, 0);
  Some {| count := snd st; capacity := cap; entries := fst st |}.

(** [tableSet].  The test [table->count + 1 > table->capacity *
    TABLE_MAX_LOAD] with [TABLE_MAX_LOAD = 0.75] is the integer test
    [4 * (count + 1) > 3 * capacity]. *)
Definition tableSet (table : Table) (k : Z) (v : Value)
    : option (bool * Table) :=
  table ← (if 3 * capacity table <? 4 * (count table + 1)
           then adjustCapacity table (GROW_CAPACITY (capacity table))
           else Some table);
  i ← findEntry (entries table) (capacity table) k;
  entry ← entries table !! Z.to_nat i;
  let isNewKey := bool_decide (key entry = None) in
  Some (isNewKey,
        {| count := if isNewKey && IS_NIL (value entry)
                    then count table + 1 else count table;
           capacity := capacity table;
           entries := <[Z.to_nat i := {| key := Some k; value := v |}]>
                        (entries table) |}).

(** [tableDelete].  The statement [entry->key == NULL;] is a comparison
    whose result is dropped: the key of the entry is left as it is, only
    the value is overwritten. *)
Definition tableDelete (table : Table) (k : Z) : option (bool * Table) :=
  if count table =? 0 then Some (false, table)
  else
    i ← findEntry (entries table) (capacity table) k;
    entry ← entries table !! Z.to_nat i;
    match key entry with
    | None => Some (false, table)
    | Some _ =>
        Some (true,
              {| count := count table;
                 capacity := capacity table;
                 entries := <[Z.to_nat i := {| key := key entry;
                                               value := BOOL_VAL true |}]>
                              (entries table) |})
    end.

Definition tableAddAll_body (from : Table) (i : Z) (to : Table)
    : option Table :=
  entry ← entries from !! Z.to_nat i;
  match key entry with
  | Some k => r ← tableSet to k (value entry); Some (snd r)
  | None => Some to
  end.

Definition tableAddAll (from to : Table) : option Table :=
  for_loop (Z.to_nat (capacity from)) 0 (tableAddAll_body from) to.

Definition tableRemoveWhite_body (i : Z) (table : Table) : option Table :=
  entry ← entries table !! Z.to_nat i;
  match key entry with
  | Some k =>
      if negb (isMarked k) then r ← tableDelete table k; Some (snd r)
      else Some table
  | None => Some table
  end.

Definition tableRemoveWhite (table : Table) : option Table :=
  for_loop (Z.to_nat (capacity table)) 0 tableRemoveWhite_body table.

End WithHeap.

End Table.


(** ** Loops of the form [while (cond) body], run for at most [fuel]
    iterations. *)
Fixpoint while_loop {St : Type} (fuel : nat) (cond : St -> bool)
    (body : St -> St) (s : St) : option St :=
  match fuel with
  | O => None
  | S fuel' => if cond s then while_loop fuel' cond body (body s) else Some s
  end.

(** ** scanner.h: tokens.  The pointer [start] of a token is modelled by the
    [length] characters it points at. *)
Module Token.

Inductive TokenType :=
| TOKEN_LEFT_PAREN | TOKEN_RIGHT_PAREN | TOKEN_LEFT_BRACE | TOKEN_RIGHT_BRACE
| TOKEN_COMMA | TOKEN_DOT | TOKEN_MINUS | TOKEN_PLUS | TOKEN_SEMICOLON
| TOKEN_SLASH | TOKEN_STAR
| TOKEN_BANG | TOKEN_BANG_EQUAL | TOKEN_EQUAL | TOKEN_EQUAL_EQUAL
| TOKEN_GREATER | TOKEN_GREATER_EQUAL | TOKEN_LESS | TOKEN_LESS_EQUAL
| TOKEN_IDENTIFIER | TOKEN_STRING | TOKEN_NUMBER
| TOKEN_AND | TOKEN_CLASS | TOKEN_ELSE | TOKEN_FALSE | TOKEN_FOR | TOKEN_FUN
| TOKEN_IF | TOKEN_NIL | TOKEN_OR | TOKEN_PRINT | TOKEN_RETURN | TOKEN_SUPER
| TOKEN_THIS | TOKEN_TRUE | TOKEN_VAR | TOKEN_WHILE
| TOKEN_ERROR | TOKEN_EOF.

#[global] Instance TokenType_eq_dec : EqDecision TokenType.
Proof. solve_decision. Defined.

Record Token := {
  type : TokenType;
  start : string;
  length : Z;
  line : Z
}.

End Token.

(** ** scanner.c *)
Module Scanner.
Import Token.

(** The global [scanner]; the pointers [start] and [current] are offsets
    into [source], whose terminating NUL is read at offset
    [String.length source]. *)
Record Scanner := {
  source : string;
  start : Z;
  current : Z;
  line : Z
}.

Definition NUL : ascii := "000"%char.

Definition charAt (s : string) (i : Z) : ascii :=
  match String.get (Z.to_nat i) s with
  | Some c => c
  | None => NUL
  end.

Definition initScanner (src : string) : Scanner :=
  {| source := src; start := 0; current := 0; line := 1 |}.

Definition isAlpha (c : ascii) : bool :=
  (Ascii.leb "a" c && Ascii.leb c "z")
  || (Ascii.leb "A" c && Ascii.leb c "Z")
  || Ascii.eqb c "_".

Definition isDigit (c : ascii) : bool :=
  Ascii.leb "0" c && Ascii.leb c "9".

Definition isAtEnd (sc : Scanner) : bool :=
  Ascii.eqb (charAt (source sc) (current sc)) NUL.

Definition set_current (sc : Scanner) (cur : Z) : Scanner :=
  {| source := source sc; start := start sc; current := cur; line := line sc |}.

Definition advance (sc : Scanner) : ascii * Scanner :=
  (charAt (source sc) (current sc), set_current sc (current sc + 1)).

Definition peek (sc : Scanner) : ascii := charAt (source sc) (current sc).

Definition peekNext (sc : Scanner) : ascii :=
  if isAtEnd sc then NUL else charAt (source sc) (current sc + 1).

Definition match_ (expected : ascii) (sc : Scanner) : bool * Scanner :=
  if isAtEnd sc then (false, sc)
  else if negb (Ascii.eqb (charAt (source sc) (current sc)) expected)
       then (false, sc)
       else (true, set_current sc (current sc + 1)).

Definition makeToken (ty : TokenType) (sc : Scanner) : Token :=
  {| type := ty;
     Token.start := String.substring (Z.to_nat (start sc))
                      (Z.to_nat (current sc - start sc)) (source sc);
     length := current sc - start sc;
     Token.line := line sc |}.

Definition errorToken (message : string) (sc : Scanner) : Token :=
  {| type := TOKEN_ERROR;
     Token.start := message;
     length := Z.of_nat (String.length message);
     Token.line := line sc |}.

(** Every loop of the scanner consumes one character per iteration and
    stops at the terminating NUL at the latest. *)
Definition scan_fuel (sc : Scanner) : nat := S (String.length (source sc)).

(** [skipWhitespace].  In the ['/'] case the comment branch has no [break]
    after it: once the comment is skipped, control falls through into
    [default: return;]. *)
Fixpoint skipWhitespace_loop (fuel : nat) (sc : Scanner) : option Scanner :=
  match fuel with
  | O => None
  | S fuel' =>
      let c := peek sc in
      if Ascii.eqb c " " || Ascii.eqb c "013" || Ascii.eqb c "009" then
        skipWhitespace_loop fuel' (snd (advance sc))
      else if Ascii.eqb c "010" then
        skipWhitespace_loop fuel'
          (snd (advance {| source := source sc; start := start sc;
                           current := current sc; line := line sc + 1 |}))
      else if Ascii.eqb c "/" then
        if Ascii.eqb (peekNext sc) "/" then
          while_loop (scan_fuel sc)
            (fun s => negb (Ascii.eqb (peek s) "010") && negb (isAtEnd s))
            (fun s => snd (advance s)) sc
        else Some sc
      else Some sc
  end.

Definition skipWhitespace (sc : Scanner) : option Scanner :=
  skipWhitespace_loop (scan_fuel sc) sc.

(** [checkKeyword(start, length, rest, type)] *)
Definition checkKeyword (st len : Z) (rest : string) (ty : TokenType)
    (sc : Scanner) : TokenType :=
  if (current sc - start sc =? st + len)
     && String.eqb (String.substring (Z.to_nat (start sc + st)) (Z.to_nat len)
                      (source sc)) rest
  then ty else TOKEN_IDENTIFIER.

Definition identifierType (sc : Scanner) : TokenType :=
  let c0 := charAt (source sc) (start sc) in
  let c1 := charAt (source sc) (start sc + 1) in
  if Ascii.eqb c0 "a" then checkKeyword 1 2 "nd" TOKEN_AND sc
  else if Ascii.eqb c0 "c" then checkKeyword 1 4 "lass" TOKEN_CLASS sc
  else if Ascii.eqb c0 "e" then checkKeyword 1 3 "lse" TOKEN_ELSE sc
  else if Ascii.eqb c0 "f" then
    if 1 <? current sc - start sc then
      if Ascii.eqb c1 "a" then checkKeyword 2 3 "lse" TOKEN_FALSE sc
      else if Ascii.eqb c1 "o" then checkKeyword 2 1 "r" TOKEN_FOR sc
      else if Ascii.eqb c1 "u" then checkKeyword 2 1 "n" TOKEN_FUN sc
      else TOKEN_IDENTIFIER
    else TOKEN_IDENTIFIER
  else if Ascii.eqb c0 "i" then checkKeyword 1 1 "f" TOKEN_IF sc
  else if Ascii.eqb c0 "n" then checkKeyword 1 2 "il" TOKEN_NIL sc
  else if Ascii.eqb c0 "o" then checkKeyword 1 1 "r" TOKEN_OR sc
  else if Ascii.eqb c0 "p" then checkKeyword 1 4 "rint" TOKEN_PRINT sc
  else if Ascii.eqb c0 "r" then checkKeyword 1 5 "eturn" TOKEN_RETURN sc
  else if Ascii.eqb c0 "s" then checkKeyword 1 4 "uper" TOKEN_SUPER sc
  else if Ascii.eqb c0 "t" then
    if 1 <? current sc - start sc then
      if Ascii.eqb c1 "h" then checkKeyword 2 2 "is" TOKEN_THIS sc
      else if Ascii.eqb c1 "r" then checkKeyword 2 2 "ue" TOKEN_TRUE sc
      else TOKEN_IDENTIFIER
    else TOKEN_IDENTIFIER
  else if Ascii.eqb c0 "v" then checkKeyword 1 2 "ar" TOKEN_VAR sc
  else if Ascii.eqb c0 "w" then checkKeyword 1 4 "hile" TOKEN_WHILE sc
  else TOKEN_IDENTIFIER.

Definition identifier (sc : Scanner) : option (Token * Scanner) :=
  sc ← while_loop (scan_fuel sc)
         (fun s => isAlpha (peek s) || isDigit (peek s))
         (fun s => snd (advance s)) sc;
  Some (makeToken (identifierType sc) sc, sc).

Definition number (sc : Scanner) : option (Token * Scanner) :=
  sc ← while_loop (scan_fuel sc) (fun s => isDigit (peek s))
         (fun s => snd (advance s)) sc;
  sc ← (if Ascii.eqb (peek sc) "." && isDigit (peekNext sc) then
          while_loop (scan_fuel sc) (fun s => isDigit (peek s))
            (fun s => snd (advance s)) (snd (advance sc))
        else Some sc);
  Some (makeToken TOKEN_NUMBER sc, sc).

Definition string_ (sc : Scanner) : option (Token * Scanner) :=
  sc ← while_loop (scan_fuel sc)
         (fun s => negb (Ascii.eqb (peek s) "034") && negb (isAtEnd s))
         (fun s =>
            snd (advance
                   (if Ascii.eqb (peek s) "010"
                    then {| source := source s; start := start s;
                            current := current s; line := line s + 1 |}
                    else s))) sc;
  if isAtEnd sc then Some (errorToken "Unterminated string." sc, sc)
  else
    let sc := snd (advance sc) in
    Some (makeToken TOKEN_STRING sc, sc).

Definition scanToken (sc : Scanner) : option (Token * Scanner) :=
  sc ← skipWhitespace sc;
  let sc := {| source := source sc; start := current sc;
               current := current sc; line := line sc |} in
  if isAtEnd sc then Some (makeToken TOKEN_EOF sc, sc)
  else
    let '(c, sc) := advance sc in
    if isAlpha c then identifier sc
    else if isDigit c then number sc
    else if Ascii.eqb c "(" then Some (makeToken TOKEN_LEFT_PAREN sc, sc)
    else if Ascii.eqb c ")" then Some (makeToken TOKEN_RIGHT_PAREN sc, sc)
    else if Ascii.eqb c "{" then Some (makeToken TOKEN_LEFT_BRACE sc, sc)
    else if Ascii.eqb c "}" then Some (makeToken TOKEN_RIGHT_BRACE sc, sc)
    else if Ascii.eqb c ";" then Some (makeToken TOKEN_SEMICOLON sc, sc)
    else if Ascii.eqb c "," then Some (makeToken TOKEN_COMMA sc, sc)
    else if Ascii.eqb c "." then Some (makeToken TOKEN_DOT sc, sc)
    else if Ascii.eqb c "-" then Some (makeToken TOKEN_MINUS sc, sc)
    else if Ascii.eqb c "+" then Some (makeToken TOKEN_PLUS sc, sc)
    else if Ascii.eqb c "/" then Some (makeToken TOKEN_SLASH sc, sc)
    else if Ascii.eqb c "*" then Some (makeToken TOKEN_STAR sc, sc)
    else if Ascii.eqb c "!" then
      let '(m, sc) := match_ "=" sc in
      Some (makeToken (if m then TOKEN_BANG_EQUAL else TOKEN_BANG) sc, sc)
    else if Ascii.eqb c "=" then
      let '(m, sc) := match_ "=" sc in
      Some (makeToken (if m then TOKEN_EQUAL_EQUAL else TOKEN_EQUAL) sc, sc)
    else if Ascii.eqb c "<" then
      let '(m, sc) := match_ "=" sc in
      Some (makeToken (if m then TOKEN_LESS_EQUAL else TOKEN_LESS) sc, sc)
    else if Ascii.eqb c ">" then
      let '(m, sc) := match_ "=" sc in
      Some (makeToken (if m then TOKEN_GREATER_EQUAL else TOKEN_GREATER) sc, sc)
    else if Ascii.eqb c "034" then string_ sc
    else Some (errorToken "Unexpected character." sc, sc).

End Scanner.


(** ** chunk.h, object.h, memory.c, vm.h, vm.c: the virtual machine.

    Heap objects live in a finite map from addresses to objects.  The
    header of an object is kept apart from it: the link [next] is the list
    [objects] of the machine, and the mark bits, which are all clear
    whenever the collector is not running, are a set of addresses that
    lives for the time of one collection. *)
Module VM.
Import Value Table.

Definition FRAMES_MAX : Z := 64.
Definition UINT8_COUNT : Z := 255 + 1.
Definition STACK_MAX : Z := FRAMES_MAX * UINT8_COUNT.

(** [Chunk]: [code] and [lines] are parallel arrays of [chunk_capacity]
    bytes and ints ([capacity] in chunk.h), the first [count] of them in
    use; [constants] is the [ValueArray], of capacity
    [constants_capacity]. *)
Record Chunk := {
  code : list Z;
  lines : list Z;
  constants : list Value;
  chunk_capacity : Z;
  constants_capacity : Z
}.

(** [typedef Value ( *NativeFn)(int argCount, Value* args);] where [args]
    is given as the [argCount] values it points at. *)
Definition NativeFn : Type := Z -> list Value -> Value.

(** [Value* location] of an upvalue: a slot of [vm.stack], or the
    upvalue's own [closed] field. *)
Inductive Location :=
| StackSlot (slot : Z)
| ClosedField.

(** The object structs of object.h, fields in declaration order.  The
    [next] link of [ObjUpvalue] is represented by the order of
    [openUpvalues] below. *)
Inductive Obj :=
| ObjFunction (arity : Z) (upvalueCount : Z) (chunk : Chunk) (name : option Z)
| ObjNative (function : NativeFn)
| ObjString (length : Z) (chars : string) (hash : Z)
| ObjUpvalue (location : Location) (closed : Value)
| ObjClosure (function : Z) (upvalues : list (option Z)) (upvalueCount : Z)
| ObjClass (name : Z) (methods : Table)
| ObjInstance (klass : Z) (fields : Table)
| ObjBoundMethod (receiver : Value) (method : Z).

Record CallFrame := {
  closure : Z;
  ip : Z;
  slots : Z
}.

Inductive InterpretResult :=
| INTERPRET_OK
| INTERPRET_COMPILE_ERROR
| INTERPRET_RUNTIME_ERROR.

(** An argument of the [printf]-style call of [runtimeError]. *)
Inductive FormatArg :=
| ArgInt (n : Z)
| ArgStr (s : string).

(** The global [vm].  [stack] and [frames] are the fixed arrays,
    [stackTop] an offset into [stack]; [openUpvalues] is the linked list
    of open upvalues, head first; [objects] is the linked list of all
    objects, head first; [compilers] holds the [function] of the compiler
    [current] of compiler.c and of the compilers that enclose it (none
    while the machine runs); [nextObj] is the address the allocator hands
    out next; [errors] collects what [runtimeError] printed and [printed]
    the values that [OP_PRINT] printed. *)
Record VM := {
  frames : list CallFrame;
  frameCount : Z;
  stack : list Value;
  stackTop : Z;
  globals : Table;
  strings : Table;
  initString : Z;
  openUpvalues : list Z;
  bytesAllocated : Z;
  nextGC : Z;
  objects : list Z;
  compilers : list Z;
  heap : gmap Z Obj;
  nextObj : Z;
  errors : list (string * list FormatArg);
  printed : list Value
}.

(** State passing with failure: [None] is a run that leaves the arrays or
    follows a dangling pointer. *)
Definition M (A : Type) : Type := VM -> option (A * VM).

#[global] Instance M_ret : MRet M := fun A a vm => Some (a, vm).
#[global] Instance M_bind : MBind M := fun A B f m vm =>
  match m vm with
  | Some (a, vm') => f a vm'
  | None => None
  end.

Definition get : M VM := fun vm => Some (vm, vm).
Definition put (vm : VM) : M unit := fun _ => Some (tt, vm).
Definition lift {A : Type} (o : option A) : M A :=
  fun vm => match o with Some a => Some (a, vm) | None => None end.

Definition index {A : Type} (l : list A) (i : Z) : option A :=
  if 0 <=? i then l !! Z.to_nat i else None.

Definition update {A : Type} (l : list A) (i : Z) (x : A) : option (list A) :=
  if (0 <=? i) && (i <? Z.of_nat (length l))
  then Some (<[Z.to_nat i := x]> l) else None.

Definition set_stack (vm : VM) (st : list Value) (top : Z) : VM :=
  {| frames := frames vm; frameCount := frameCount vm;
     stack := st; stackTop := top;
     globals := globals vm; strings := strings vm;
     initString := initString vm; openUpvalues := openUpvalues vm;
     bytesAllocated := bytesAllocated vm; nextGC := nextGC vm;
     objects := objects vm; compilers := compilers vm;
     heap := heap vm; nextObj := nextObj vm;
     errors := errors vm; printed := printed vm |}.

Definition set_globals (vm : VM) (g : Table) : VM :=
  {| frames := frames vm; frameCount := frameCount vm;
     stack := stack vm; stackTop := stackTop vm;
     globals := g; strings := strings vm;
     initString := initString vm; openUpvalues := openUpvalues vm;
     bytesAllocated := bytesAllocated vm; nextGC := nextGC vm;
     objects := objects vm; compilers := compilers vm;
     heap := heap vm; nextObj := nextObj vm;
     errors := errors vm; printed := printed vm |}.

Definition set_frames (vm : VM) (fs : list CallFrame) (n : Z) : VM :=
  {| frames := fs; frameCount := n;
     stack := stack vm; stackTop := stackTop vm;
     globals := globals vm; strings := strings vm;
     initString := initString vm; openUpvalues := openUpvalues vm;
     bytesAllocated := bytesAllocated vm; nextGC := nextGC vm;
     objects := objects vm; compilers := compilers vm;
     heap := heap vm; nextObj := nextObj vm;
     errors := errors vm; printed := printed vm |}.

Definition set_upvalues (vm : VM) (open : list Z) (h : gmap Z Obj)
    (next : Z) : VM :=
  {| frames := frames vm; frameCount := frameCount vm;
     stack := stack vm; stackTop := stackTop vm;
     globals := globals vm; strings := strings vm;
     initString := initString vm; openUpvalues := open;
     bytesAllocated := bytesAllocated vm; nextGC := nextGC vm;
     objects := objects vm; compilers := compilers vm;
     heap := h; nextObj := next;
     errors := errors vm; printed := printed vm |}.

Definition set_strings (vm : VM) (s : Table) : VM :=
  {| frames := frames vm; frameCount := frameCount vm;
     stack := stack vm; stackTop := stackTop vm;
     globals := globals vm; strings := s;
     initString := initString vm; openUpvalues := openUpvalues vm;
     bytesAllocated := bytesAllocated vm; nextGC := nextGC vm;
     objects := objects vm; compilers := compilers vm;
     heap := heap vm; nextObj := nextObj vm;
     errors := errors vm; printed := printed vm |}.

Definition set_memory (vm : VM) (bytes next : Z) : VM :=
  {| frames := frames vm; frameCount := frameCount vm;
     stack := stack vm; stackTop := stackTop vm;
     globals := globals vm; strings := strings vm;
     initString := initString vm; openUpvalues := openUpvalues vm;
     bytesAllocated := bytes; nextGC := next;
     objects := objects vm; compilers := compilers vm;
     heap := heap vm; nextObj := nextObj vm;
     errors := errors vm; printed := printed vm |}.

Definition set_objects (vm : VM) (objs : list Z) (h : gmap Z Obj) : VM :=
  {| frames := frames vm; frameCount := frameCount vm;
     stack := stack vm; stackTop := stackTop vm;
     globals := globals vm; strings := strings vm;
     initString := initString vm; openUpvalues := openUpvalues vm;
     bytesAllocated := bytesAllocated vm; nextGC := nextGC vm;
     objects := objs; compilers := compilers vm;
     heap := h; nextObj := nextObj vm;
     errors := errors vm; printed := printed vm |}.

Definition set_printed (vm : VM) (out : list Value) : VM :=
  {| frames := frames vm; frameCount := frameCount vm;
     stack := stack vm; stackTop := stackTop vm;
     globals := globals vm; strings := strings vm;
     initString := initString vm; openUpvalues := openUpvalues vm;
     bytesAllocated := bytesAllocated vm; nextGC := nextGC vm;
     objects := objects vm; compilers := compilers vm;
     heap := heap vm; nextObj := nextObj vm;
     errors := errors vm; printed := out |}.

(** [resetStack] *)
Definition resetStack : M unit :=
  vm ← get;
  put {| frames := frames vm; frameCount := 0;
         stack := stack vm; stackTop := 0;
         globals := globals vm; strings := strings vm;
         initString := initString vm; openUpvalues := [];
         bytesAllocated := bytesAllocated vm; nextGC := nextGC vm;
         objects := objects vm; compilers := compilers vm;
         heap := heap vm; nextObj := nextObj vm;
         errors := errors vm; printed := printed vm |}.

(** [runtimeError]: the message goes to [stderr], then the stack is
    reset.  The stack trace printed in between only reads the frames and
    is left out. *)
Definition runtimeError (format : string) (args : list FormatArg) : M unit :=
  vm ← get;
  put {| frames := frames vm; frameCount := frameCount vm;
         stack := stack vm; stackTop := stackTop vm;
         globals := globals vm; strings := strings vm;
         initString := initString vm; openUpvalues := openUpvalues vm;
         bytesAllocated := bytesAllocated vm; nextGC := nextGC vm;
         objects := objects vm; compilers := compilers vm;
         heap := heap vm; nextObj := nextObj vm;
         errors := errors vm ++ [(format, args)]; printed := printed vm |};;
  resetStack.

Definition push (v : Value) : M unit :=
  vm ← get;
  st ← lift (update (stack vm) (stackTop vm) v);
  put (set_stack vm st (stackTop vm + 1)).

Definition pop : M Value :=
  vm ← get;
  put (set_stack vm (stack vm) (stackTop vm - 1));;
  lift (index (stack vm) (stackTop vm - 1)).

Definition peek (distance : Z) : M Value :=
  vm ← get;
  lift (index (stack vm) (stackTop vm - 1 - distance)).

(** [vm.stackTop[i] = v] *)
Definition stackTop_set (i : Z) (v : Value) : M unit :=
  vm ← get;
  st ← lift (update (stack vm) (stackTop vm + i) v);
  put (set_stack vm st (stackTop vm)).

Definition deref (p : Z) : M Obj :=
  vm ← get; lift (heap vm !! p).

(** [hashString]: FNV-1a on [uint32_t]. *)
Fixpoint hashString_loop (key : string) (hash : Z) : Z :=
  match key with
  | EmptyString => hash
  | String c rest =>
      hashString_loop rest
        ((Z.lxor hash (Z.of_N (N_of_ascii c)) * 16777619) mod 2 ^ 32)
  end.

Definition hashString (key : string) : Z := hashString_loop key 2166136261.

(** [key->hash] for the string object at [key]. *)
Definition hashOf (h : gmap Z Obj) (k : Z) : Z :=
  match h !! k with
  | Some (ObjString _ _ hash) => hash
  | _ => 0
  end.

(** *** memory.c

    [sizeof] of the types that are allocated, for the LP64 data model
    (4-byte [int] and [enum], 8-byte pointers and [size_t], natural
    alignment).  The two [FREE]s of [freeObject] that name the enumerators
    [OBJ_BOUND_METHOD] and [OBJ_NATIVE] instead of the struct types
    release [sizeof (int)] bytes. *)
Definition sizeof_char : Z := 1.
Definition sizeof_uint8_t : Z := 1.
Definition sizeof_int : Z := 4.
Definition sizeof_pointer : Z := 8.
Definition sizeof_Value : Z := 8.
Definition sizeof_Entry : Z := 16.
Definition sizeof_ObjFunction : Z := 72.
Definition sizeof_ObjNative : Z := 24.
Definition sizeof_ObjString : Z := 40.
Definition sizeof_ObjUpvalue : Z := 40.
Definition sizeof_ObjClosure : Z := 40.
Definition sizeof_ObjClass : Z := 40.
Definition sizeof_ObjInstance : Z := 40.
Definition sizeof_ObjBoundMethod : Z := 32.

Definition GC_HEAP_GROW_FACTOR : Z := 2.

(** The mark bits that are set, and [vm.grayStack], top first. *)
Record Marking := {
  marked : gset Z;
  grayStack : list Z
}.

(** A pointer that may be [NULL]. *)
Definition pointer (p : option Z) : Z := default 0 p.

(** [markObject]; reading the mark bit of an object that is not there is
    a run that follows a dangling pointer. *)
Definition markObject (h : gmap Z Obj) (object : Z) (m : Marking)
    : option Marking :=
  if object =? 0 then Some m
  else
    _ ← h !! object;
    if bool_decide (object ∈ marked m) then Some m
    else Some {| marked := {[object]} ∪ marked m;
                 grayStack := object :: grayStack m |}.

Definition markValue (h : gmap Z Obj) (value : Value) (m : Marking)
    : option Marking :=
  if IS_OBJ value then markObject h (AS_OBJ value) m else Some m.

Fixpoint markArray (h : gmap Z Obj) (values : list Value) (m : Marking)
    : option Marking :=
  match values with
  | [] => Some m
  | v :: rest => m' ← markValue h v m; markArray h rest m'
  end.

(** [markTable] of table.c *)
Definition markTable (h : gmap Z Obj) (table : Table) (m : Marking)
    : option Marking :=
  for_loop (Z.to_nat (capacity table)) 0
    (fun i m =>
       entry ← entries table !! Z.to_nat i;
       m' ← markObject h (pointer (key entry)) m;
       markValue h (value entry) m') m.

Fixpoint markObjects (h : gmap Z Obj) (l : list Z) (m : Marking)
    : option Marking :=
  match l with
  | [] => Some m
  | object :: rest => m' ← markObject h object m; markObjects h rest m'
  end.

(** [blackenObject] *)
Definition blackenObject (h : gmap Z Obj) (object : Z) (m : Marking)
    : option Marking :=
  o ← h !! object;
  match o with
  | ObjBoundMethod receiver method =>
      m' ← markValue h receiver m;
      markObject h method m'
  | ObjClass name methods =>
      m' ← markObject h name m;
      markTable h methods m'
  | ObjClosure function upvalues upvalueCount =>
      m' ← markObject h function m;
      for_loop (Z.to_nat upvalueCount) 0
        (fun i m =>
           u ← upvalues !! Z.to_nat i;
           markObject h (pointer u) m) m'
  | ObjFunction _ _ chunk name =>
      m' ← markObject h (pointer name) m;
      markArray h (constants chunk) m'
  | ObjInstance klass fields =>
      m' ← markObject h klass m;
      markTable h fields m'
  | ObjUpvalue _ closed => markValue h closed m
  | ObjNative _ => Some m
  | ObjString _ _ _ => Some m
  end.

(** [markRoots]; [markCompilerRoots] of compiler.c walks the chain of
    compilers. *)
Definition markRoots (vm : VM) (m : Marking) : option Marking :=
  m ← for_loop (Z.to_nat (stackTop vm)) 0
        (fun i m => v ← stack vm !! Z.to_nat i; markValue (heap vm) v m) m;
  m ← for_loop (Z.to_nat (frameCount vm)) 0
        (fun i m =>
           frame ← frames vm !! Z.to_nat i;
           markObject (heap vm) (closure frame) m) m;
  m ← markObjects (heap vm) (openUpvalues vm) m;
  m ← markTable (heap vm) (globals vm) m;
  m ← markObjects (heap vm) (compilers vm) m;
  markObject (heap vm) (initString vm) m.

(** [traceReferences].  An object enters the gray stack when its mark bit
    is set, hence once, so the loop ends within as many iterations as
    there are objects. *)
Fixpoint traceReferences (fuel : nat) (h : gmap Z Obj) (m : Marking)
    : option Marking :=
  match fuel with
  | O => None
  | S fuel' =>
      match grayStack m with
      | [] => Some m
      | object :: rest =>
          m' ← blackenObject h object
                 {| marked := marked m; grayStack := rest |};
          traceReferences fuel' h m'
      end
  end.

(** [vm.bytesAllocated += newSize - oldSize] on [size_t]. *)
Definition account (oldSize newSize : Z) (vm : VM) : VM :=
  set_memory vm ((bytesAllocated vm + newSize - oldSize) mod 2 ^ 64)
    (nextGC vm).

(** What [freeObject] releases: each [FREE] and [FREE_ARRAY] is a call
    of [reallocate] with a new size of zero, which does not enter the
    collector. *)
Definition freeObject (object : Z) (vm : VM) : option VM :=
  o ← heap vm !! object;
  let vm :=
    match o with
    | ObjBoundMethod _ _ => account sizeof_int 0 vm
    | ObjClass _ methods =>
        account sizeof_ObjClass 0
          (account (sizeof_Entry * capacity methods) 0 vm)
    | ObjClosure _ _ upvalueCount =>
        account sizeof_ObjClosure 0
          (account (sizeof_pointer * upvalueCount) 0 vm)
    | ObjFunction _ _ chunk _ =>
        account sizeof_ObjFunction 0
          (account (sizeof_Value * constants_capacity chunk) 0
             (account (sizeof_int * chunk_capacity chunk) 0
                (account (sizeof_uint8_t * chunk_capacity chunk) 0 vm)))
    | ObjInstance _ fields =>
        account sizeof_ObjInstance 0
          (account (sizeof_Entry * capacity fields) 0 vm)
    | ObjNative _ => account sizeof_int 0 vm
    | ObjString length _ _ =>
        account sizeof_ObjString 0
          (account (sizeof_char * (length + 1)) 0 vm)
    | ObjUpvalue _ _ => account sizeof_ObjUpvalue 0 vm
    end in
  Some (set_objects vm (objects vm) (delete object (heap vm))).

(** [sweep]: the loop over the list [l] of objects; the result is the list
    of those that stay.  The mark bit of an object that stays is cleared,
    which is the end of the set [marks]. *)
Fixpoint sweep_loop (l : list Z) (marks : gset Z) (vm : VM)
    : option (list Z * VM) :=
  match l with
  | [] => Some ([], vm)
  | object :: rest =>
      _ ← heap vm !! object;
      if bool_decide (object ∈ marks) then
        r ← sweep_loop rest marks vm;
        Some (object :: fst r, snd r)
      else
        vm' ← freeObject object vm;
        sweep_loop rest marks vm'
  end.

Definition sweep (marks : gset Z) : M unit :=
  fun vm =>
    r ← sweep_loop (objects vm) marks vm;
    Some (tt, set_objects (snd r) (fst r) (heap (snd r))).

(** The test [!entry->key->obj.isMarked] of [tableRemoveWhite] reads the
    mark bit of every key of the table; the function writes no key. *)
Definition keys_read (h : gmap Z Obj) (table : Table) : option unit :=
  for_loop (Z.to_nat (capacity table)) 0
    (fun i _ =>
       entry ← entries table !! Z.to_nat i;
       match key entry with
       | Some k => _ ← h !! k; Some tt
       | None => Some tt
       end) tt.

(** [collectGarbage].  No mark bit is set when it starts: an object is
    allocated with the bit cleared, and [sweep] clears the bit of every
    object that stays. *)
Definition collectGarbage : M unit :=
  vm ← get;
  m ← lift (markRoots vm {| marked := ∅; grayStack := [] |});
  m ← lift (traceReferences (S (size (heap vm))) (heap vm) m);
  lift (keys_read (heap vm) (strings vm));;
  s ← lift (tableRemoveWhite (hashOf (heap vm))
              (fun k => bool_decide (k ∈ marked m)) (strings vm));
  put (set_strings vm s);;
  sweep (marked m);;
  vm ← get;
  put (set_memory vm (bytesAllocated vm)
         ((bytesAllocated vm * GC_HEAP_GROW_FACTOR) mod 2 ^ 64)).

(** [reallocate], as far as the machine is concerned: the pointer it
    returns is the business of its caller, and [realloc] is taken to
    return memory.  [DEBUG_STRESS_GC] is not defined. *)
Definition reallocate (oldSize newSize : Z) : M unit :=
  vm ← get;
  put (account oldSize newSize vm);;
  if oldSize <? newSize then
    vm ← get;
    if nextGC vm <? bytesAllocated vm then collectGarbage else mret tt
  else mret tt.

(** The memory that [tableSet] asks for when [table] has to grow:
    [adjustCapacity] allocates the new array before it reads the table,
    and frees the old array at its end.  The collector, when the request
    enters it, changes neither the count nor the capacity of a table. *)
Definition tableSet_memory (table : Table) : M unit :=
  if 3 * capacity table <? 4 * (count table + 1) then
    reallocate 0 (sizeof_Entry * GROW_CAPACITY (capacity table));;
    reallocate (sizeof_Entry * capacity table) 0
  else mret tt.

(** *** object.c

    [allocateObject]: the object is linked into [vm.objects] at an address
    that is not in use; [o] is the object once its fields are
    initialised. *)
Definition linkObject (o : Obj) : M Z :=
  vm ← get;
  put (set_objects
         (set_upvalues vm (openUpvalues vm) (heap vm) (nextObj vm + 1))
         (nextObj vm :: objects vm) (<[nextObj vm := o]> (heap vm)));;
  mret (nextObj vm).

Definition allocateObject (size : Z) (o : Obj) : M Z :=
  reallocate 0 size;;
  linkObject o.

Definition newBoundMethod (receiver : Value) (method : Z) : M Z :=
  allocateObject sizeof_ObjBoundMethod (ObjBoundMethod receiver method).

Definition newClass (name : Z) : M Z :=
  allocateObject sizeof_ObjClass (ObjClass name initTable).

(** [newClosure]: [function->upvalueCount] is read before the array is
    allocated, for the loop that clears the array, and once more when the
    closure is initialised. *)
Definition upvalueCount_of (function : Z) : M Z :=
  f ← deref function;
  match f with
  | ObjFunction _ upvalueCount _ _ => mret upvalueCount
  | _ => lift None
  end.

Definition newClosure (function : Z) : M Z :=
  n ← upvalueCount_of function;
  reallocate 0 (sizeof_pointer * n);;
  n1 ← upvalueCount_of function;
  reallocate 0 sizeof_ObjClosure;;
  n2 ← upvalueCount_of function;
  linkObject (ObjClosure function (replicate (Z.to_nat n1) None) n2).

Definition newInstance (klass : Z) : M Z :=
  allocateObject sizeof_ObjInstance (ObjInstance klass initTable).

Definition newUpvalue (slot : Z) : M Z :=
  allocateObject sizeof_ObjUpvalue (ObjUpvalue (StackSlot slot) NIL_VAL).

(** [clock()] of [<time.h>] is external: [now] stands for the value
    [NUMBER_VAL((double)clock() / CLOCKS_PER_SEC)] at the time of the
    call. *)
Definition clockNative (now : Value) : NativeFn :=
  fun argCount args => now.

(** [call] *)
Definition call (clos : Z) (argCount : Z) : M bool :=
  c ← deref clos;
  match c with
  | ObjClosure function _ _ =>
      f ← deref function;
      match f with
      | ObjFunction arity _ _ _ =>
          if negb (argCount =? arity) then
            runtimeError "Expected %d arguments but got %d"
              [ArgInt arity; ArgInt argCount];;
            mret false
          else
            vm ← get;
            if frameCount vm =? FRAMES_MAX then
              runtimeError "Stack overflow." [];;
              mret false
            else
              fs ← lift (update (frames vm) (frameCount vm)
                           {| closure := clos; ip := 0;
                              slots := stackTop vm - argCount - 1 |});
              put (set_frames vm fs (frameCount vm + 1));;
              mret true
      | _ => lift None
      end
  | _ => lift None
  end.

(** [callValue] *)
Definition callValue (callee : Value) (argCount : Z) : M bool :=
  if IS_OBJ callee then
    o ← deref (AS_OBJ callee);
    match o with
    | ObjBoundMethod receiver method =>
        stackTop_set (- argCount - 1) receiver;;
        call method argCount
    | ObjClass _ _ =>
        let klass := AS_OBJ callee in
        inst ← newInstance klass;
        stackTop_set (- argCount - 1) (OBJ_VAL inst);;
        k ← deref klass;
        match k with
        | ObjClass _ methods =>
            vm ← get;
            r ← lift (tableGet (hashOf (heap vm)) methods (initString vm));
            match r with
            | Some initializer => call (AS_OBJ initializer) argCount
            | None =>
                if negb (argCount =? 0) then
                  runtimeError "Expected 0  arguments but got %d."
                    [ArgInt argCount];;
                  mret false
                else mret true
            end
        | _ => lift None
        end
    | ObjClosure _ _ _ => call (AS_OBJ callee) argCount
    | ObjNative native =>
        vm ← get;
        let result :=
          native argCount
            (take (Z.to_nat argCount)
                  (drop (Z.to_nat (stackTop vm - argCount)) (stack vm))) in
        put (set_stack vm (stack vm) (stackTop vm - (argCount + 1)));;
        push result;;
        mret true
    | _ =>
        runtimeError "Can only call functions and classes." [];;
        mret false
    end
  else
    runtimeError "Can only call functions and classes." [];;
    mret false.

(** [upvalue->location] of an open upvalue, as a stack slot. *)
Definition location_of (h : gmap Z Obj) (u : Z) : option Z :=
  match h !! u with
  | Some (ObjUpvalue (StackSlot slot) _) => Some slot
  | _ => None
  end.

(** The [while] loop of [captureUpvalue]: the nodes walked past, and the
    rest of the list, which starts at [upvalue]. *)
Fixpoint captureUpvalue_walk (h : gmap Z Obj) (local : Z) (l : list Z)
    : option (list Z * list Z) :=
  match l with
  | [] => Some ([], [])
  | upvalue :: rest =>
      loc ← location_of h upvalue;
      if loc >? local then
        r ← captureUpvalue_walk h local rest;
        Some (upvalue :: fst r, snd r)
      else Some ([], l)
  end.

(** [captureUpvalue] *)
Definition captureUpvalue (local : Z) : M Z :=
  vm ← get;
  w ← lift (captureUpvalue_walk (heap vm) local (openUpvalues vm));
  let found :=
    match snd w with
    | upvalue :: _ =>
        if bool_decide (location_of (heap vm) upvalue = Some local)
        then Some upvalue else None
    | [] => None
    end in
  match found with
  | Some upvalue => mret upvalue
  | None =>
      createdUpvalue ← newUpvalue local;
      vm ← get;
      put (set_upvalues vm (fst w ++ createdUpvalue :: snd w)
             (heap vm) (nextObj vm));;
      mret createdUpvalue
  end.

(** The loop of [closeUpvalues], on the list [l = vm.openUpvalues]. *)
Fixpoint closeUpvalues_loop (last : Z) (l : list Z) (vm : VM) : option VM :=
  match l with
  | [] => Some (set_upvalues vm [] (heap vm) (nextObj vm))
  | upvalue :: rest =>
      loc ← location_of (heap vm) upvalue;
      if loc >=? last then
        v ← index (stack vm) loc;
        closeUpvalues_loop last rest
          (set_upvalues vm rest
             (<[upvalue := ObjUpvalue ClosedField v]> (heap vm)) (nextObj vm))
      else Some (set_upvalues vm l (heap vm) (nextObj vm))
  end.

Definition closeUpvalues (last : Z) : M unit :=
  fun vm =>
    vm' ← closeUpvalues_loop last (openUpvalues vm) vm;
    Some (tt, vm').

(** The decoding macros of [run], on the current frame
    [vm.frames[vm.frameCount - 1]]. *)
Definition currentChunk : M Chunk :=
  vm ← get;
  frame ← lift (index (frames vm) (frameCount vm - 1));
  c ← deref (closure frame);
  match c with
  | ObjClosure function _ _ =>
      f ← deref function;
      match f with
      | ObjFunction _ _ chunk _ => mret chunk
      | _ => lift None
      end
  | _ => lift None
  end.

Definition READ_BYTE : M Z :=
  chunk ← currentChunk;
  vm ← get;
  frame ← lift (index (frames vm) (frameCount vm - 1));
  byte ← lift (index (code chunk) (ip frame));
  fs ← lift (update (frames vm) (frameCount vm - 1)
               {| closure := closure frame; ip := ip frame + 1;
                  slots := slots frame |});
  put (set_frames vm fs (frameCount vm));;
  mret byte.

Definition READ_CONSTANT : M Value :=
  chunk ← currentChunk;
  i ← READ_BYTE;
  lift (index (constants chunk) i).

Definition READ_STRING : M Z :=
  v ← READ_CONSTANT; mret (AS_OBJ v).

Definition chars_of (p : Z) : M string :=
  o ← deref p;
  match o with
  | ObjString _ chars _ => mret chars
  | _ => lift None
  end.

(** The cases of the [switch] in [run]: [None] is [break] (the loop goes
    on to the next instruction), [Some r] is [return r]. *)
Definition run_OP_GET_GLOBAL : M (option InterpretResult) :=
  name ← READ_STRING;
  vm ← get;
  r ← lift (tableGet (hashOf (heap vm)) (globals vm) name);
  match r with
  | None =>
      chars ← chars_of name;
      runtimeError "Undefined variable '%s'." [ArgStr chars];;
      mret (Some INTERPRET_RUNTIME_ERROR)
  | Some value => push value;; mret None
  end.

Definition run_OP_DEFINE_GLOBAL : M (option InterpretResult) :=
  name ← READ_STRING;
  v ← peek 0;
  vm ← get;
  r ← lift (tableSet (hashOf (heap vm)) (globals vm) name v);
  put (set_globals vm (snd r));;
  pop;;
  mret None.

Definition run_OP_SET_GLOBAL : M (option InterpretResult) :=
  name ← READ_STRING;
  v ← peek 0;
  vm ← get;
  '(isNewKey, g) ← lift (tableSet (hashOf (heap vm)) (globals vm) name v);
  put (set_globals vm g);;
  if (isNewKey : bool) then
    vm ← get;
    d ← lift (tableDelete (hashOf (heap vm)) (globals vm) name);
    put (set_globals vm (snd d));;
    chars ← chars_of name;
    runtimeError "Undefined variable '%s'." [ArgStr chars];;
    mret (Some INTERPRET_RUNTIME_ERROR)
  else mret None.

Definition run_OP_CALL : M (option InterpretResult) :=
  argCount ← READ_BYTE;
  callee ← peek argCount;
  ok ← callValue callee argCount;
  if negb ok then mret (Some INTERPRET_RUNTIME_ERROR) else mret None.

End VM.


(** ** Concrete machine states, used to run the model on small programs. *)
Module Examples.
Import Value Table VM.
Local Open Scope string_scope.

(** The doubles 1.0 and 2.0 as NaN-boxed values. *)
Definition ONE : Value := 0x3ff0000000000000.
Definition TWO : Value := 0x4000000000000000.

(** Addresses of the heap objects. *)
Definition str_init : Z := 4096.
Definition str_clock : Z := 4128.
Definition native_clock : Z := 4160.
Definition str_a : Z := 4192.
Definition str_tmp : Z := 4224.
Definition fn_script : Z := 4256.
Definition cl_script : Z := 4288.

(** The heap once [initVM] has run and a script has been compiled into
    [chunk]: the interned strings, the native [clock], the script function
    and its closure. *)
Definition heap_with (chunk : Chunk) (now : Value) : gmap Z Obj :=
  <[str_init := ObjString 4 "init" (hashString "init")]>
  (<[str_clock := ObjString 5 "clock" (hashString "clock")]>
  (<[native_clock := ObjNative (clockNative now)]>
  (<[str_a := ObjString 1 "a" (hashString "a")]>
  (<[str_tmp := ObjString 3 "tmp" (hashString "tmp")]>
  (<[fn_script := ObjFunction 0 0 chunk None]>
  (<[cl_script := ObjClosure fn_script [] 0]> ∅)))))).

Definition empty_chunk : Chunk :=
  {| code := []; lines := []; constants := [];
     chunk_capacity := 0; constants_capacity := 0 |}.

Definition string_hash : Z -> Z :=
  hashOf (heap_with empty_chunk NIL_VAL).

Definition table_of (o : option (bool * Table)) : Table :=
  match o with
  | Some (_, t) => t
  | None => initTable
  end.

(** [vm.globals] after [initVM]: the native [clock]. *)
Definition globals_init : Table :=
  table_of (tableSet string_hash initTable str_clock (OBJ_VAL native_clock)).

(** [vm.globals] after [var a = 1;]. *)
Definition globals_a : Table :=
  table_of (tableSet string_hash globals_init str_a ONE).

(** [vm.strings]: each interned string is a key with value nil. *)
Definition strings_all : Table :=
  table_of (tableSet string_hash
    (table_of (tableSet string_hash
      (table_of (tableSet string_hash
        (table_of (tableSet string_hash initTable str_init NIL_VAL))
        str_clock NIL_VAL))
      str_a NIL_VAL))
    str_tmp NIL_VAL).

(** After a mark phase in which the string ["tmp"] was not reached. *)
Definition marked (k : Z) : bool := negb (Z.eqb k str_tmp).

Definition no_frame : CallFrame := {| closure := 0; ip := 0; slots := 0 |}.

(** A machine inside [run], in the top-level frame of the script, with
    [values] on the stack above the script closure. *)
Definition vm_in_script (chunk : Chunk) (at_ip : Z) (g : Table)
    (values : list Value) : VM :=
  {| frames := {| closure := cl_script; ip := at_ip; slots := 0 |}
               :: replicate (Z.to_nat (FRAMES_MAX - 1)) no_frame;
     frameCount := 1;
     stack := (OBJ_VAL cl_script :: values)
              ++ replicate (Z.to_nat (STACK_MAX - 1)
                            - List.length values)%nat NIL_VAL;
     stackTop := 1 + Z.of_nat (List.length values);
     globals := g;
     strings := strings_all;
     initString := str_init;
     openUpvalues := [];
     bytesAllocated := 2048;
     nextGC := 1024 * 1024;
     objects := [cl_script; fn_script; str_tmp; str_a; native_clock;
                 str_clock; str_init];
     compilers := [];
     heap := heap_with chunk NIL_VAL;
     nextObj := 4320;
     errors := [];
     printed := [] |}.

(** [var a = 1; var a = 2;] compiles to
    [OP_CONSTANT 1; OP_DEFINE_GLOBAL 0; OP_CONSTANT 3; OP_DEFINE_GLOBAL 2;
     OP_NIL; OP_RETURN]. *)
Definition chunk_redefine : Chunk :=
  {| code := [0; 1; 8; 0; 0; 3; 8; 2; 1; 33];
     lines := replicate 10 1;
     constants := [OBJ_VAL str_a; ONE; OBJ_VAL str_a; TWO];
     chunk_capacity := 16; constants_capacity := 8 |}.

(** The machine about to read the operand of the second
    [OP_DEFINE_GLOBAL]. *)
Definition vm_redefine : VM := vm_in_script chunk_redefine 7 globals_a [TWO].

(** [a = 1;] compiles to
    [OP_CONSTANT 1; OP_SET_GLOBAL 0; OP_POP; OP_NIL; OP_RETURN]. *)
Definition chunk_assign : Chunk :=
  {| code := [0; 1; 9; 0; 4; 1; 33];
     lines := replicate 7 1;
     constants := [OBJ_VAL str_a; ONE];
     chunk_capacity := 8; constants_capacity := 8 |}.

(** The machine about to read the operand of [OP_SET_GLOBAL], in a fresh
    interpreter where [a] was never defined. *)
Definition vm_assign : VM := vm_in_script chunk_assign 3 globals_init [ONE].

(** A class [B] whose only method is [init(x)], at the addresses after
    those of the script. *)
Definition fn_init : Z := 4320.
Definition cl_init : Z := 4352.
Definition class_B : Z := 4384.

Definition methods_B : Table :=
  table_of (tableSet string_hash initTable str_init (OBJ_VAL cl_init)).

Definition chunk_init : Chunk :=
  {| code := [5; 0; 33]; lines := [1; 1; 1]; constants := [];
     chunk_capacity := 8; constants_capacity := 0 |}.

(** The machine inside the script [B(1);] or [clock(1, 2);], about to
    dispatch the call: [values] are the callee and its arguments. *)
Definition vm_calling (values : list Value) : VM :=
  {| frames := {| closure := cl_script; ip := 6; slots := 0 |}
               :: replicate (Z.to_nat (FRAMES_MAX - 1)) no_frame;
     frameCount := 1;
     stack := (OBJ_VAL cl_script :: values)
              ++ replicate (Z.to_nat (STACK_MAX - 1)
                            - List.length values)%nat NIL_VAL;
     stackTop := 1 + Z.of_nat (List.length values);
     globals := globals_init;
     strings := strings_all;
     initString := str_init;
     openUpvalues := [];
     bytesAllocated := 2048;
     nextGC := 1024 * 1024;
     objects := [class_B; cl_init; fn_init; cl_script; fn_script; str_tmp;
                 str_a; native_clock; str_clock; str_init];
     compilers := [];
     heap := <[fn_init := ObjFunction 1 0 chunk_init (Some str_init)]>
             (<[cl_init := ObjClosure fn_init [] 0]>
             (<[class_B := ObjClass str_tmp methods_B]>
             (heap_with empty_chunk ONE)));
     nextObj := 4416;
     errors := [];
     printed := [] |}.

Definition vm_call_class : VM := vm_calling [OBJ_VAL class_B; ONE].

Definition vm_call_clock : VM := vm_calling [OBJ_VAL native_clock; ONE; TWO].

(** Two functions that close over the locals of a block: [f], named
    ["tmp"], uses [a] and [c], and [g], named ["a"], uses [b] and [a]. *)
Definition fn_f : Z := 4320.
Definition fn_g : Z := 4352.

(** [{ var a = 1; var b = 2; var c = 1; { fun f() { a; c; } }
      fun g() { b; a; } }] compiles to
    [OP_CONSTANT 0; OP_CONSTANT 1; OP_CONSTANT 2;
     OP_CLOSURE 3 (local 1) (local 3); OP_POP;
     OP_CLOSURE 4 (local 2) (local 1); OP_POP;
     OP_CLOSE_UPVALUE; OP_CLOSE_UPVALUE; OP_CLOSE_UPVALUE;
     OP_NIL; OP_RETURN]. *)
Definition chunk_closures : Chunk :=
  {| code := [0; 0; 0; 1; 0; 2; 31; 3; 1; 1; 1; 3; 4;
              31; 4; 1; 2; 1; 1; 4; 32; 32; 32; 1; 33];
     lines := replicate 25 1;
     constants := [ONE; TWO; ONE; OBJ_VAL fn_f; OBJ_VAL fn_g];
     chunk_capacity := 32; constants_capacity := 8 |}.

(** The machine at the first instruction of that script, 150 bytes away
    from the next collection. *)
Definition vm_closures : VM :=
  {| frames := {| closure := cl_script; ip := 0; slots := 0 |}
               :: replicate (Z.to_nat (FRAMES_MAX - 1)) no_frame;
     frameCount := 1;
     stack := OBJ_VAL cl_script
              :: replicate (Z.to_nat (STACK_MAX - 1)) NIL_VAL;
     stackTop := 1;
     globals := globals_init;
     strings := strings_all;
     initString := str_init;
     openUpvalues := [];
     bytesAllocated := 1898;
     nextGC := 2048;
     objects := [fn_g; fn_f; cl_script; fn_script; str_tmp; str_a;
                 native_clock; str_clock; str_init];
     compilers := [];
     heap := <[fn_f := ObjFunction 0 2 empty_chunk (Some str_tmp)]>
             (<[fn_g := ObjFunction 0 2 empty_chunk (Some str_a)]>
             (heap_with chunk_closures NIL_VAL));
     nextObj := 4384;
     errors := [];
     printed := [] |}.

(** A source text whose first line is a comment. *)
Definition source_comment : string :=
  "// c" ++ String "010" "var a;".

End Examples.


(** ** compiler.c: the parser state, error reporting, local variables, and
    the loops over parameters (in [function]) and arguments
    ([argumentList]).

    [scanToken] does not depend on the parser, so the tokens it returns, one
    per call, are given as the list [tokens]; once the list is exhausted it
    returns [TOKEN_EOF] on line [eof_line].  Of the [Compiler] struct and
    its [function] the model keeps what the parser writes here; the chain of
    enclosing compilers is not needed. *)
Module Compiler.
Import Token.

Definition UINT8_COUNT : Z := 255 + 1.

Record Parser := {
  current : Token;
  previous : Token;
  hadError : bool;
  panicMode : bool
}.

Record Local := {
  name : Token;
  depth : Z;
  isCaptured : bool
}.

Inductive FunctionType :=
| TYPE_FUNCTION
| TYPE_INITIALIZER
| TYPE_METHOD
| TYPE_SCRIPT.

(** [arity], [code] and [lines] stand for [function->arity] and the two
    arrays of [function->chunk]; [locals] holds the [localCount] entries in
    use. *)
Record Compiler := {
  arity : Z;
  code : list Z;
  lines : list Z;
  type : FunctionType;
  locals : list Local;
  localCount : Z;
  scopeDepth : Z
}.

(** The globals [parser] and [current], the scanner's output still to be
    read, and the lines written to [stderr] (line and message). *)
Record State := {
  tokens : list Token;
  eof_line : Z;
  parser : Parser;
  compiler : Compiler;
  stderr : list (Z * string)
}.

Definition set_parser (st : State) (p : Parser) : State :=
  {| tokens := tokens st; eof_line := eof_line st; parser := p;
     compiler := compiler st; stderr := stderr st |}.

Definition set_compiler (st : State) (c : Compiler) : State :=
  {| tokens := tokens st; eof_line := eof_line st; parser := parser st;
     compiler := c; stderr := stderr st |}.

(** [errorAt] *)
Definition errorAt (token : Token) (message : string) (st : State) : State :=
  if panicMode (parser st) then st
  else
    {| tokens := tokens st; eof_line := eof_line st;
       parser := {| current := current (parser st);
                    previous := previous (parser st);
                    hadError := true;
                    panicMode := true |};
       compiler := compiler st;
       stderr := stderr st ++ [(Token.line token, message)] |}.

Definition error (message : string) (st : State) : State :=
  errorAt (previous (parser st)) message st.

Definition errorAtCurrent (message : string) (st : State) : State :=
  errorAt (current (parser st)) message st.

Definition set_current (st : State) (t : Token) (rest : list Token) : State :=
  {| tokens := rest; eof_line := eof_line st;
     parser := {| current := t;
                  previous := previous (parser st);
                  hadError := hadError (parser st);
                  panicMode := panicMode (parser st) |};
     compiler := compiler st; stderr := stderr st |}.

(** The [for (;;)] loop of [advance], on the tokens [ts] still to come. *)
Fixpoint advance_loop (ts : list Token) (st : State) : State :=
  match ts with
  | [] =>
      set_current st
        {| Token.type := TOKEN_EOF; start := ""; length := 0;
           Token.line := eof_line st |} []
  | t :: rest =>
      let st := set_current st t rest in
      if decide (Token.type t = TOKEN_ERROR)
      then advance_loop rest (errorAtCurrent (start t) st)
      else st
  end.

Definition advance (st : State) : State :=
  advance_loop (tokens st)
    (set_parser st {| current := current (parser st);
                      previous := current (parser st);
                      hadError := hadError (parser st);
                      panicMode := panicMode (parser st) |}).

Definition check (ty : TokenType) (st : State) : bool :=
  bool_decide (Token.type (current (parser st)) = ty).

Definition consume (ty : TokenType) (message : string) (st : State) : State :=
  if check ty st then advance st else errorAtCurrent message st.

Definition match_ (ty : TokenType) (st : State) : bool * State :=
  if negb (check ty st) then (false, st) else (true, advance st).

(** [emitByte] writes the byte and [parser.previous.line]. *)
Definition emitByte (byte : Z) (st : State) : State :=
  set_compiler st
    {| arity := arity (compiler st);
       code := code (compiler st) ++ [byte];
       lines := lines (compiler st) ++ [Token.line (previous (parser st))];
       type := type (compiler st);
       locals := locals (compiler st);
       localCount := localCount (compiler st);
       scopeDepth := scopeDepth (compiler st) |}.

Definition emitBytes (byte1 byte2 : Z) (st : State) : State :=
  emitByte byte2 (emitByte byte1 st).

Definition OP_DEFINE_GLOBAL : Z := 8.
Definition OP_CALL : Z := 28.

Definition set_locals (st : State) (ls : list Local) (n : Z) : State :=
  set_compiler st
    {| arity := arity (compiler st);
       code := code (compiler st);
       lines := lines (compiler st);
       type := type (compiler st);
       locals := ls;
       localCount := n;
       scopeDepth := scopeDepth (compiler st) |}.

(** [initCompiler]: a compiler for a new function, slot zero of the locals
    claimed for ["this"] or for the function itself. *)
Definition initCompiler (ty : FunctionType) (st : State) : State :=
  set_compiler st
    {| arity := 0; code := []; lines := [];
       type := ty;
       locals := [ {| name := {| Token.type := TOKEN_IDENTIFIER;
                                 start := match ty with
                                          | TYPE_FUNCTION => ""
                                          | _ => "this"
                                          end;
                                 length := match ty with
                                           | TYPE_FUNCTION => 0
                                           | _ => 4
                                           end;
                                 Token.line := 0 |};
                      depth := 0;
                      isCaptured := false |} ];
       localCount := 1;
       scopeDepth := 0 |}.

Definition beginScope (st : State) : State :=
  set_compiler st
    {| arity := arity (compiler st);
       code := code (compiler st);
       lines := lines (compiler st);
       type := type (compiler st);
       locals := locals (compiler st);
       localCount := localCount (compiler st);
       scopeDepth := scopeDepth (compiler st) + 1 |}.

(** [identifiersEqual]: same length and same characters. *)
Definition identifiersEqual (a b : Token) : bool :=
  if negb (length a =? length b) then false
  else String.eqb (start a) (start b).

(** [addLocal] *)
Definition addLocal (nm : Token) (st : State) : State :=
  if localCount (compiler st) =? UINT8_COUNT then
    error "Too many local variables in function." st
  else
    set_locals st
      (locals (compiler st)
       ++ [ {| name := nm; depth := -1; isCaptured := false |} ])
      (localCount (compiler st) + 1).

(** The loop of [declareVariable], for [i] from [n - 1] down to zero. *)
Fixpoint declareVariable_loop (n : nat) (nm : Token) (st : State)
    : option State :=
  match n with
  | O => Some st
  | S i =>
      local ← locals (compiler st) !! i;
      if negb (depth local =? -1) && (depth local <? scopeDepth (compiler st))
      then Some st
      else
        declareVariable_loop i nm
          (if identifiersEqual nm (name local)
           then error "Already a variable with this name in this scope." st
           else st)
  end.

Definition declareVariable (st : State) : option State :=
  if scopeDepth (compiler st) =? 0 then Some st
  else
    let nm := previous (parser st) in
    st ← declareVariable_loop (Z.to_nat (localCount (compiler st))) nm st;
    Some (addLocal nm st).

Definition markInitialized (st : State) : State :=
  if scopeDepth (compiler st) =? 0 then st
  else
    match locals (compiler st) !! Z.to_nat (localCount (compiler st) - 1) with
    | Some local =>
        set_locals st
          (<[Z.to_nat (localCount (compiler st) - 1) :=
               {| name := name local;
                  depth := scopeDepth (compiler st);
                  isCaptured := isCaptured local |}]> (locals (compiler st)))
          (localCount (compiler st))
    | None => st
    end.

Section WithCodeGenerator.
(** [identifierConstant] interns a name and adds it to the constant pool;
    [expression] is the Pratt parser.  Both belong to the code generator and
    are taken as given. *)
Variable identifierConstant : Token -> State -> Z * State.
Variable expression : State -> State.

Definition parseVariable (errorMessage : string) (st : State)
    : option (Z * State) :=
  st ← declareVariable (consume TOKEN_IDENTIFIER errorMessage st);
  if 0 <? scopeDepth (compiler st) then Some (0, st)
  else Some (identifierConstant (previous (parser st)) st).

Definition defineVariable (global : Z) (st : State) : State :=
  if 0 <? scopeDepth (compiler st) then markInitialized st
  else emitBytes OP_DEFINE_GLOBAL global st.

(** The [do ... while (match(TOKEN_COMMA))] loop over the parameters in
    [function], run for at most [fuel] iterations. *)
Fixpoint function_parameters (fuel : nat) (st : State) : option State :=
  match fuel with
  | O => None
  | S fuel' =>
      let st := set_compiler st
                  {| arity := arity (compiler st) + 1;
                     code := code (compiler st);
                     lines := lines (compiler st);
                     type := type (compiler st);
                     locals := locals (compiler st);
                     localCount := localCount (compiler st);
                     scopeDepth := scopeDepth (compiler st) |} in
      let st := if 255 <? arity (compiler st)
                then errorAtCurrent "Can't have more than 255 parameters." st
                else st in
      '(constant, st) ← parseVariable "Expect parameter name." st;
      let st := defineVariable constant st in
      let '(more, st) := match_ TOKEN_COMMA st in
      if more then function_parameters fuel' st else Some st
  end.

(** [function], from its start to the [')'] that closes the parameter
    list. *)
Definition function_head (fuel : nat) (ty : FunctionType) (st : State)
    : option State :=
  let st := initCompiler ty st in
  let st := beginScope st in
  let st := consume TOKEN_LEFT_PAREN "Expect '(' after function name." st in
  st ← (if negb (check TOKEN_RIGHT_PAREN st)
        then function_parameters fuel st else Some st);
  Some (consume TOKEN_RIGHT_PAREN "Expect ')' after parameters." st).

(** The [do ... while] loop of [argumentList]; [argCount] is a [uint8_t],
    so that [argCount++] wraps around at 256. *)
Fixpoint argumentList_loop (fuel : nat) (argCount : Z) (st : State)
    : option (Z * State) :=
  match fuel with
  | O => None
  | S fuel' =>
      let st := expression st in
      let st := if argCount =? 255
                then error "Can't have more than 255 arguments" st
                else st in
      let argCount := (argCount + 1) mod 256 in
      let '(more, st) := match_ TOKEN_COMMA st in
      if more then argumentList_loop fuel' argCount st
      else Some (argCount, st)
  end.

Definition argumentList (fuel : nat) (st : State) : option (Z * State) :=
  '(argCount, st) ← (if negb (check TOKEN_RIGHT_PAREN st)
                     then argumentList_loop fuel 0 st
                     else Some (0, st));
  Some (argCount, consume TOKEN_RIGHT_PAREN "Expect ')' after arguments." st).

End WithCodeGenerator.

End Compiler.


(** ** object.c and table.c: string interning. *)
Module Object.
Import Value Table VM.

(** [memcmp(a, b, n) == 0] on character arrays that hold at least [n]
    characters. *)
Definition memcmp_eq (a b : string) (n : Z) : bool :=
  String.eqb (String.substring 0 (Z.to_nat n) a)
             (String.substring 0 (Z.to_nat n) b).

(** The [for (;;)] loop of [tableFindString], run for at most [fuel]
    iterations; [Some None] is the result [NULL]. *)
Fixpoint tableFindString_loop (fuel : nat) (h : gmap Z Obj)
    (ents : list Entry) (cap : Z) (chars : string) (length hash : Z)
    (index : Z) : option (option Z) :=
  match fuel with
  | O => None
  | S fuel' =>
      entry ← ents !! Z.to_nat index;
      match key entry with
      | None =>
          if IS_NIL (value entry) then Some None
          else tableFindString_loop fuel' h ents cap chars length hash
                 (Z.land (index + 1) (cap - 1))
      | Some k =>
          o ← h !! k;
          match o with
          | ObjString klength kchars khash =>
              if (klength =? length) && (khash =? hash)
                 && memcmp_eq kchars chars length
              then Some (Some k)
              else tableFindString_loop fuel' h ents cap chars length hash
                     (Z.land (index + 1) (cap - 1))
          | _ => None
          end
      end
  end.

(** [tableFindString]; as for [findEntry], [capacity] iterations decide
    the result. *)
Definition tableFindString (h : gmap Z Obj) (table : Table) (chars : string)
    (length hash : Z) : option (option Z) :=
  if count table =? 0 then Some None
  else
    tableFindString_loop (Z.to_nat (capacity table)) h (entries table)
      (capacity table) chars length hash
      (Z.land hash (capacity table - 1)).

(** [tableSet (&vm.strings, key, value)] *)
Definition tableSet_strings (k : Z) (v : Value) : M bool :=
  vm ← get;
  tableSet_memory (strings vm);;
  vm ← get;
  r ← lift (tableSet (hashOf (heap vm)) (strings vm) k v);
  put (set_strings vm (snd r));;
  mret (fst r).

(** [allocateString]: the characters [chars] are the [length] characters
    the C pointer points at. *)
Definition allocateString (chars : string) (length hash : Z) : M Z :=
  string ← allocateObject sizeof_ObjString (ObjString length chars hash);
  push (OBJ_VAL string);;
  tableSet_strings string NIL_VAL;;
  pop;;
  mret string.

(** [takeString] *)
Definition takeString (chars : string) (length : Z) : M Z :=
  let hash := hashString chars in
  vm ← get;
  interned ← lift (tableFindString (heap vm) (strings vm) chars length hash);
  match interned with
  | Some string =>
      reallocate (sizeof_char * (length + 1)) 0;;
      mret string
  | None => allocateString chars length hash
  end.

(** [copyString]; the copy [heapChars] holds the same characters. *)
Definition copyString (chars : string) (length : Z) : M Z :=
  let hash := hashString chars in
  vm ← get;
  interned ← lift (tableFindString (heap vm) (strings vm) chars length hash);
  match interned with
  | Some string => mret string
  | None =>
      reallocate 0 (sizeof_char * (length + 1));;
      allocateString chars length hash
  end.

(** [concatenate] of vm.c; the characters are copied out of the two
    strings after the array for them is allocated. *)
Definition concatenate : M unit :=
  vb ← peek 0;
  va ← peek 1;
  b ← deref (AS_OBJ vb);
  a ← deref (AS_OBJ va);
  match a, b with
  | ObjString alength _ _, ObjString blength _ _ =>
      let length := alength + blength in
      reallocate 0 (sizeof_char * (length + 1));;
      b ← deref (AS_OBJ vb);
      a ← deref (AS_OBJ va);
      match a, b with
      | ObjString alength achars _, ObjString blength bchars _ =>
          let chars :=
            (String.substring 0 (Z.to_nat alength) achars
             ++ String.substring 0 (Z.to_nat blength) bchars)%string in
          result ← takeString chars length;
          pop;;
          pop;;
          push (OBJ_VAL result)
      | _, _ => lift None
      end
  | _, _ => lift None
  end.

End Object.


(** ** vm.c: truthiness, jumps, return, and methods. *)
Module Interp.
Import Value Table VM.

Definition isFalsey (value : Value) : bool :=
  IS_NIL value || (IS_BOOL value && negb (AS_BOOL value)).

(** [frame->ip += delta] on the current frame. *)
Definition move_ip (delta : Z) : M unit :=
  vm ← get;
  frame ← lift (index (frames vm) (frameCount vm - 1));
  fs ← lift (update (frames vm) (frameCount vm - 1)
               {| closure := closure frame; ip := ip frame + delta;
                  slots := slots frame |});
  put (set_frames vm fs (frameCount vm)).

(** [READ_SHORT]: [frame->ip += 2], then the two bytes behind [ip], the
    first one shifted left by 8, cast to [uint16_t]. *)
Definition READ_SHORT : M Z :=
  chunk ← currentChunk;
  move_ip 2;;
  vm ← get;
  frame ← lift (index (frames vm) (frameCount vm - 1));
  hi ← lift (index (code chunk) (ip frame - 2));
  lo ← lift (index (code chunk) (ip frame - 1));
  mret (Z.lor (Z.shiftl hi 8) lo mod 2 ^ 16).

Definition run_OP_JUMP : M (option InterpretResult) :=
  offset ← READ_SHORT;
  move_ip offset;;
  mret None.

Definition run_OP_JUMP_IF_FALSE : M (option InterpretResult) :=
  offset ← READ_SHORT;
  v ← peek 0;
  if isFalsey v then move_ip offset;; mret None else mret None.

Definition run_OP_LOOP : M (option InterpretResult) :=
  offset ← READ_SHORT;
  move_ip (- offset);;
  mret None.

(** [OP_RETURN]; [frame] is the current frame when the instruction
    starts. *)
Definition run_OP_RETURN : M (option InterpretResult) :=
  vm ← get;
  frame ← lift (index (frames vm) (frameCount vm - 1));
  result ← pop;
  closeUpvalues (slots frame);;
  vm ← get;
  put (set_frames vm (frames vm) (frameCount vm - 1));;
  vm ← get;
  if frameCount vm =? 0 then
    pop;;
    mret (Some INTERPRET_OK)
  else
    put (set_stack vm (stack vm) (slots frame));;
    push result;;
    mret None.

(** [defineMethod]; the table of methods is a field of the class object,
    so the class is written back to the heap. *)
Definition defineMethod (name : Z) : M unit :=
  method ← peek 0;
  kv ← peek 1;
  let klass := AS_OBJ kv in
  o ← deref klass;
  match o with
  | ObjClass cname methods =>
      vm ← get;
      r ← lift (tableSet (hashOf (heap vm)) methods name method);
      put (set_upvalues vm (openUpvalues vm)
             (<[klass := ObjClass cname (snd r)]> (heap vm)) (nextObj vm));;
      pop;;
      mret tt
  | _ => lift None
  end.

(** [invokeFromClass] *)
Definition invokeFromClass (klass name argCount : Z) : M bool :=
  o ← deref klass;
  match o with
  | ObjClass _ methods =>
      vm ← get;
      r ← lift (tableGet (hashOf (heap vm)) methods name);
      match r with
      | None =>
          chars ← chars_of name;
          runtimeError "Undefined property '%s'." [ArgStr chars];;
          mret false
      | Some method => call (AS_OBJ method) argCount
      end
  | _ => lift None
  end.

End Interp.

(** ** compiler.c: jumps, loops, scopes and the resolution of locals. *)
Module Emit.
Import Token Compiler.

Definition UINT16_MAX : Z := 65535.

Definition OP_POP : Z := 4.
Definition OP_JUMP : Z := 25.
Definition OP_JUMP_IF_FALSE : Z := 26.
Definition OP_LOOP : Z := 27.
Definition OP_CLOSE_UPVALUE : Z := 32.

(** [currentChunk()->count] *)
Definition count (st : State) : Z := Z.of_nat (List.length (code (compiler st))).

Definition set_code (st : State) (c : list Z) : State :=
  set_compiler st
    {| arity := arity (compiler st);
       code := c;
       lines := lines (compiler st);
       type := type (compiler st);
       locals := locals (compiler st);
       localCount := localCount (compiler st);
       scopeDepth := scopeDepth (compiler st) |}.

(** [emitLoop] *)
Definition emitLoop (loopStart : Z) (st : State) : State :=
  let st := emitByte OP_LOOP st in
  let offset := count st - loopStart + 2 in
  let st := if UINT16_MAX <? offset then error "Loop body to large." st
            else st in
  let st := emitByte (Z.land (Z.shiftr offset 8) 0xff) st in
  emitByte (Z.land offset 0xff) st.

(** [emitJump] *)
Definition emitJump (instruction : Z) (st : State) : Z * State :=
  let st := emitByte instruction st in
  let st := emitByte 0xff st in
  let st := emitByte 0xff st in
  (count st - 2, st).

(** [patchJump]; [None] when [offset] is not the place of two bytes of the
    chunk. *)
Definition patchJump (offset : Z) (st : State) : option State :=
  let jump := count st - offset - 2 in
  let st := if UINT16_MAX <? jump then error "Too much code to jump over;" st
            else st in
  c ← VM.update (code (compiler st)) offset (Z.land (Z.shiftr jump 8) 0xff);
  c ← VM.update c (offset + 1) (Z.land jump 0xff);
  Some (set_code st c).

(** [endScope]: the loop drops the topmost local as long as it belongs to
    the scope that ends. *)
Definition endScope_cond (st : State) : bool :=
  (0 <? localCount (compiler st))
  && match locals (compiler st) !! Z.to_nat (localCount (compiler st) - 1) with
     | Some local => depth local >? scopeDepth (compiler st)
     | None => false
     end.

Definition endScope_body (st : State) : State :=
  let captured :=
    match locals (compiler st) !! Z.to_nat (localCount (compiler st) - 1) with
    | Some local => isCaptured local
    | None => false
    end in
  let st := if captured then emitByte OP_CLOSE_UPVALUE st
            else emitByte OP_POP st in
  set_locals st
    (take (Z.to_nat (localCount (compiler st) - 1)) (locals (compiler st)))
    (localCount (compiler st) - 1).

Definition endScope (st : State) : option State :=
  let st :=
    set_compiler st
      {| arity := arity (compiler st);
         code := code (compiler st);
         lines := lines (compiler st);
         type := type (compiler st);
         locals := locals (compiler st);
         localCount := localCount (compiler st);
         scopeDepth := scopeDepth (compiler st) - 1 |} in
  while_loop (S (Z.to_nat (localCount (compiler st))))
    endScope_cond endScope_body st.

(** [resolveLocal]: the loop for [i] from [n - 1] down to zero. *)
Fixpoint resolveLocal_loop (n : nat) (ls : list Local) (nm : Token)
    (st : State) : option (Z * State) :=
  match n with
  | O => Some (-1, st)
  | S i =>
      local ← ls !! i;
      if identifiersEqual nm (name local) then
        Some (Z.of_nat i,
              if depth local =? -1
              then error "Can't read local variable in its own initializer." st
              else st)
      else resolveLocal_loop i ls nm st
  end.

Definition resolveLocal (c : Compiler) (nm : Token) (st : State)
    : option (Z * State) :=
  resolveLocal_loop (Z.to_nat (localCount c)) (locals c) nm st.

End Emit.

(** ** vm.c: the instruction loop [run]. *)
Module Run.
Import Value Table VM Object Interp.

(** [enum OpCode] of chunk.h, in the order of declaration. *)
Inductive OpCode :=
| OP_CONSTANT | OP_NIL | OP_TRUE | OP_FALSE | OP_POP
| OP_GET_LOCAL | OP_SET_LOCAL
| OP_GET_GLOBAL | OP_DEFINE_GLOBAL | OP_SET_GLOBAL
| OP_GET_UPVALUE | OP_SET_UPVALUE
| OP_GET_PROPERTY | OP_SET_PROPERTY | OP_GET_SUPER
| OP_EQUAL | OP_GREATER | OP_LESS
| OP_ADD | OP_SUBTRACT | OP_MULTIPLY | OP_DIVIDE
| OP_NOT | OP_NEGATE | OP_PRINT
| OP_JUMP | OP_JUMP_IF_FALSE | OP_LOOP
| OP_CALL | OP_INVOKE | OP_SUPER_INVOKE
| OP_CLOSURE | OP_CLOSE_UPVALUE | OP_RETURN
| OP_CLASS | OP_INHERIT | OP_METHOD.

Definition opcodes : list OpCode :=
  [OP_CONSTANT; OP_NIL; OP_TRUE; OP_FALSE; OP_POP;
   OP_GET_LOCAL; OP_SET_LOCAL;
   OP_GET_GLOBAL; OP_DEFINE_GLOBAL; OP_SET_GLOBAL;
   OP_GET_UPVALUE; OP_SET_UPVALUE;
   OP_GET_PROPERTY; OP_SET_PROPERTY; OP_GET_SUPER;
   OP_EQUAL; OP_GREATER; OP_LESS;
   OP_ADD; OP_SUBTRACT; OP_MULTIPLY; OP_DIVIDE;
   OP_NOT; OP_NEGATE; OP_PRINT;
   OP_JUMP; OP_JUMP_IF_FALSE; OP_LOOP;
   OP_CALL; OP_INVOKE; OP_SUPER_INVOKE;
   OP_CLOSURE; OP_CLOSE_UPVALUE; OP_RETURN;
   OP_CLASS; OP_INHERIT; OP_METHOD].

(** The enumerator whose value is [byte], if there is one. *)
Definition opcode_of (byte : Z) : option OpCode := index opcodes byte.

(** [enum ObjType] of object.h, and the [type] field of an object. *)
Inductive ObjType :=
| OBJ_BOUND_METHOD | OBJ_CLASS | OBJ_CLOSURE | OBJ_FUNCTION
| OBJ_INSTANCE | OBJ_NATIVE | OBJ_STRING | OBJ_UPVALUE.

Definition type_of (o : Obj) : ObjType :=
  match o with
  | ObjBoundMethod _ _ => OBJ_BOUND_METHOD
  | ObjClass _ _ => OBJ_CLASS
  | ObjClosure _ _ _ => OBJ_CLOSURE
  | ObjFunction _ _ _ _ => OBJ_FUNCTION
  | ObjInstance _ _ => OBJ_INSTANCE
  | ObjNative _ => OBJ_NATIVE
  | ObjString _ _ _ => OBJ_STRING
  | ObjUpvalue _ _ => OBJ_UPVALUE
  end.

Definition ObjType_eqb (a b : ObjType) : bool :=
  match a, b with
  | OBJ_BOUND_METHOD, OBJ_BOUND_METHOD | OBJ_CLASS, OBJ_CLASS
  | OBJ_CLOSURE, OBJ_CLOSURE | OBJ_FUNCTION, OBJ_FUNCTION
  | OBJ_INSTANCE, OBJ_INSTANCE | OBJ_NATIVE, OBJ_NATIVE
  | OBJ_STRING, OBJ_STRING | OBJ_UPVALUE, OBJ_UPVALUE => true
  | _, _ => false
  end.

(** [isObjType]: [IS_OBJ(value) && AS_OBJ(value)->type == type] *)
Definition isObjType (value : Value) (type : ObjType) : M bool :=
  if IS_OBJ value then
    o ← deref (AS_OBJ value);
    mret (ObjType_eqb (type_of o) type)
  else mret false.

(** [numToValue]: the 64 bits of a [double].  [num] is a binary64 datum
    as [valueToNum] and the operations on such numbers give it: the
    mantissa of a finite number below [2^52] is that of a subnormal
    number.  The sign and the payload of a NaN that an operation returns
    are the choice of the processor; it is given the bits of the positive
    quiet NaN, which [IS_NUMBER] takes for a number. *)
Definition numToValue (num : spec_float) : Value :=
  match num with
  | S754_zero s => if s then SIGN_BIT else 0
  | S754_infinity s =>
      Z.lor (if s then SIGN_BIT else 0) 0x7ff0000000000000
  | S754_nan => 0x7ff8000000000000
  | S754_finite s m e =>
      let sign := if s then SIGN_BIT else 0 in
      if Z.pos m <? 0x10000000000000 then Z.lor sign (Z.pos m)
      else
        Z.lor sign
          (Z.lor (Z.shiftl (e + 1075) 52)
                 (Z.land (Z.pos m) 0xfffffffffffff))
  end.

Definition NUMBER_VAL (num : spec_float) : Value := numToValue num.

(** The arithmetic of [double]: binary64, rounding to nearest. *)
Definition double_add : spec_float -> spec_float -> spec_float :=
  SFadd 53 1024.
Definition double_sub : spec_float -> spec_float -> spec_float :=
  SFsub 53 1024.
Definition double_mul : spec_float -> spec_float -> spec_float :=
  SFmul 53 1024.
Definition double_div : spec_float -> spec_float -> spec_float :=
  SFdiv 53 1024.
Definition double_gt (a b : spec_float) : bool := SFltb b a.
Definition double_lt (a b : spec_float) : bool := SFltb a b.

(** [frame]: the frame [&vm.frames[vm.frameCount - 1]] that [run] keeps
    in a local variable, and sets again after each call and return. *)
Definition current_frame : M CallFrame :=
  vm ← get;
  lift (index (frames vm) (frameCount vm - 1)).

(** [vm.stack[i]], read and written. *)
Definition slot_get (i : Z) : M Value :=
  vm ← get;
  lift (index (stack vm) i).

Definition slot_set (i : Z) (v : Value) : M unit :=
  vm ← get;
  st ← lift (update (stack vm) i v);
  put (set_stack vm st (stackTop vm)).

(** A write to the fields of the object at [p]; [o] is the object with
    the fields as they are after the write. *)
Definition store (p : Z) (o : Obj) : M unit :=
  vm ← get;
  _ ← lift (heap vm !! p);
  put (set_objects vm (objects vm) (<[p := o]> (heap vm))).

(** Loops [for (int i = 0; i < n; i++) body] of the machine. *)
Fixpoint for_M (n : nat) (i : Z) (body : Z -> M unit) : M unit :=
  match n with
  | O => mret tt
  | S n' => body i;; for_M n' (i + 1) body
  end.

(** [tableSet (&instance->fields, name, value)] *)
Definition setField (instance name : Z) (value : Value) : M bool :=
  o ← deref instance;
  match o with
  | ObjInstance _ fields =>
      tableSet_memory fields;;
      o ← deref instance;
      match o with
      | ObjInstance klass fields =>
          vm ← get;
          r ← lift (tableSet (hashOf (heap vm)) fields name value);
          store instance (ObjInstance klass (snd r));;
          mret (fst r)
      | _ => lift None
      end
  | _ => lift None
  end.

(** [tableSet (&klass->methods, name, value)] *)
Definition setMethod (klass name : Z) (value : Value) : M bool :=
  o ← deref klass;
  match o with
  | ObjClass _ methods =>
      tableSet_memory methods;;
      o ← deref klass;
      match o with
      | ObjClass cname methods =>
          vm ← get;
          r ← lift (tableSet (hashOf (heap vm)) methods name value);
          store klass (ObjClass cname (snd r));;
          mret (fst r)
      | _ => lift None
      end
  | _ => lift None
  end.

Definition methods_of (klass : Z) : M Table :=
  o ← deref klass;
  match o with
  | ObjClass _ methods => mret methods
  | _ => lift None
  end.

(** [tableAddAll (&superclass->methods, &subclass->methods)]: the loop
    reads [from->capacity] and [from->entries[i]] in every round. *)
Fixpoint tableAddAll_loop (fuel : nat) (from to : Z) (i : Z) : M unit :=
  match fuel with
  | O => lift None
  | S fuel' =>
      table ← methods_of from;
      if i <? capacity table then
        entry ← lift (index (entries table) i);
        match key entry with
        | Some k => setMethod to k (value entry);; mret tt
        | None => mret tt
        end;;
        tableAddAll_loop fuel' from to (i + 1)
      else mret tt
  end.

(** The table [from] grows in the loop only when it is the table [to],
    and then once. *)
Definition tableAddAll_methods (from to : Z) : M unit :=
  table ← methods_of from;
  tableAddAll_loop (S (Z.to_nat (GROW_CAPACITY (capacity table)))) from to 0.

(** [bindMethod] *)
Definition bindMethod (klass name : Z) : M bool :=
  methods ← methods_of klass;
  vm ← get;
  r ← lift (tableGet (hashOf (heap vm)) methods name);
  match r with
  | None =>
      chars ← chars_of name;
      runtimeError "Undefined property '%s'." [ArgStr chars];;
      mret false
  | Some method =>
      receiver ← peek 0;
      bound ← newBoundMethod receiver (AS_OBJ method);
      pop;;
      push (OBJ_VAL bound);;
      mret true
  end.

(** [invoke] *)
Definition invoke (name argCount : Z) : M bool :=
  receiver ← peek argCount;
  is_instance ← isObjType receiver OBJ_INSTANCE;
  if negb is_instance then
    runtimeError "Only instances have methods." [];;
    mret false
  else
    o ← deref (AS_OBJ receiver);
    match o with
    | ObjInstance klass fields =>
        vm ← get;
        r ← lift (tableGet (hashOf (heap vm)) fields name);
        match r with
        | Some value =>
            stackTop_set (- argCount - 1) value;;
            callValue value argCount
        | None => invokeFromClass klass name argCount
        end
    | _ => lift None
    end.

(** [*upvalue->location], read and written, for the upvalue
    [closure->upvalues[slot]]. *)
Definition closure_upvalue (clos slot : Z) : M (option Z) :=
  c ← deref clos;
  match c with
  | ObjClosure _ upvalues _ => lift (index upvalues slot)
  | _ => lift None
  end.

Definition upvalue_get (upvalue : option Z) : M Value :=
  u ← lift upvalue;
  o ← deref u;
  match o with
  | ObjUpvalue (StackSlot slot) _ => slot_get slot
  | ObjUpvalue ClosedField closed => mret closed
  | _ => lift None
  end.

Definition upvalue_set (upvalue : option Z) (v : Value) : M unit :=
  u ← lift upvalue;
  o ← deref u;
  match o with
  | ObjUpvalue (StackSlot slot) _ => slot_set slot v
  | ObjUpvalue ClosedField _ => store u (ObjUpvalue ClosedField v)
  | _ => lift None
  end.

(** [closure->upvalues[i] = upvalue] *)
Definition closure_upvalue_set (clos i : Z) (upvalue : option Z) : M unit :=
  c ← deref clos;
  match c with
  | ObjClosure function upvalues upvalueCount =>
      ups ← lift (update upvalues i upvalue);
      store clos (ObjClosure function ups upvalueCount)
  | _ => lift None
  end.

(** [printValue (value); printf ("\n")]: the value that is printed is
    recorded. *)
Definition printValue (v : Value) : M unit :=
  vm ← get;
  put (set_printed vm (printed vm ++ [v])).

(** [BINARY_OP]: [!IS_NUMBER(peek(0)) || !IS_NUMBER(peek(1))] looks at
    the second operand only when the first is a number. *)
Definition numbers_on_top : M bool :=
  v0 ← peek 0;
  if IS_NUMBER v0 then v1 ← peek 1; mret (IS_NUMBER v1) else mret false.

Definition BINARY_OP {A : Type} (valueType : A -> Value)
    (op : spec_float -> spec_float -> A) : M (option InterpretResult) :=
  ok ← numbers_on_top;
  if negb ok then
    runtimeError "Operands must be numbers." [];;
    mret (Some INTERPRET_RUNTIME_ERROR)
  else
    vb ← pop;
    va ← pop;
    push (valueType (op (AS_NUMBER va) (AS_NUMBER vb)));;
    mret None.

Definition strings_on_top : M bool :=
  v0 ← peek 0;
  s0 ← isObjType v0 OBJ_STRING;
  if (s0 : bool) then v1 ← peek 1; isObjType v1 OBJ_STRING
  else mret false.

Definition run_OP_GET_PROPERTY : M (option InterpretResult) :=
  v ← peek 0;
  is_instance ← isObjType v OBJ_INSTANCE;
  if negb is_instance then
    runtimeError "Only instances have properties." [];;
    mret (Some INTERPRET_RUNTIME_ERROR)
  else
    let instance := AS_OBJ v in
    name ← READ_STRING;
    o ← deref instance;
    match o with
    | ObjInstance klass fields =>
        vm ← get;
        r ← lift (tableGet (hashOf (heap vm)) fields name);
        match r with
        | Some value => pop;; push value;; mret None
        | None =>
            ok ← bindMethod klass name;
            if negb ok then mret (Some INTERPRET_RUNTIME_ERROR)
            else mret None
        end
    | _ => lift None
    end.

Definition run_OP_SET_PROPERTY : M (option InterpretResult) :=
  v ← peek 1;
  is_instance ← isObjType v OBJ_INSTANCE;
  if negb is_instance then
    runtimeError "Only instances have fields." [];;
    mret (Some INTERPRET_RUNTIME_ERROR)
  else
    let instance := AS_OBJ v in
    name ← READ_STRING;
    value ← peek 0;
    setField instance name value;;
    value ← pop;
    pop;;
    push value;;
    mret None.

Definition run_OP_GET_SUPER : M (option InterpretResult) :=
  name ← READ_STRING;
  superclass ← pop;
  ok ← bindMethod (AS_OBJ superclass) name;
  if negb ok then mret (Some INTERPRET_RUNTIME_ERROR) else mret None.

Definition run_OP_ADD : M (option InterpretResult) :=
  strings ← strings_on_top;
  if (strings : bool) then concatenate;; mret None
  else
    numbers ← numbers_on_top;
    if (numbers : bool) then
      vb ← pop;
      va ← pop;
      push (NUMBER_VAL (double_add (AS_NUMBER va) (AS_NUMBER vb)));;
      mret None
    else
      runtimeError "Operands must be two numbers or two strings." [];;
      mret (Some INTERPRET_RUNTIME_ERROR).

Definition run_OP_NEGATE : M (option InterpretResult) :=
  v ← peek 0;
  if negb (IS_NUMBER v) then
    runtimeError "Operand must be a number." [];;
    mret (Some INTERPRET_RUNTIME_ERROR)
  else
    v ← pop;
    push (NUMBER_VAL (SFopp (AS_NUMBER v)));;
    mret None.

Definition run_OP_INVOKE : M (option InterpretResult) :=
  method ← READ_STRING;
  argCount ← READ_BYTE;
  ok ← invoke method argCount;
  if negb ok then mret (Some INTERPRET_RUNTIME_ERROR) else mret None.

Definition run_OP_SUPER_INVOKE : M (option InterpretResult) :=
  method ← READ_STRING;
  argCount ← READ_BYTE;
  superclass ← pop;
  ok ← invokeFromClass (AS_OBJ superclass) method argCount;
  if negb ok then mret (Some INTERPRET_RUNTIME_ERROR) else mret None.

(** One round of the loop of [OP_CLOSURE]. *)
Definition run_OP_CLOSURE_upvalue (clos : Z) (i : Z) : M unit :=
  isLocal ← READ_BYTE;
  index ← READ_BYTE;
  frame ← current_frame;
  if negb (isLocal =? 0) then
    upvalue ← captureUpvalue (slots frame + index);
    closure_upvalue_set clos i (Some upvalue)
  else
    upvalue ← closure_upvalue (closure frame) index;
    closure_upvalue_set clos i upvalue.

(** [OP_CLOSURE]; nothing in the loop writes [closure->upvalueCount]. *)
Definition run_OP_CLOSURE : M (option InterpretResult) :=
  function ← READ_CONSTANT;
  clos ← newClosure (AS_OBJ function);
  push (OBJ_VAL clos);;
  c ← deref clos;
  match c with
  | ObjClosure _ _ upvalueCount =>
      for_M (Z.to_nat upvalueCount) 0 (run_OP_CLOSURE_upvalue clos);;
      mret None
  | _ => lift None
  end.

Definition run_OP_CLOSE_UPVALUE : M (option InterpretResult) :=
  vm ← get;
  closeUpvalues (stackTop vm - 1);;
  pop;;
  mret None.

Definition run_OP_CLASS : M (option InterpretResult) :=
  name ← READ_STRING;
  klass ← newClass name;
  push (OBJ_VAL klass);;
  mret None.

Definition run_OP_INHERIT : M (option InterpretResult) :=
  superclass ← peek 1;
  is_class ← isObjType superclass OBJ_CLASS;
  if negb is_class then
    runtimeError "Superclass must be a class." [];;
    mret (Some INTERPRET_RUNTIME_ERROR)
  else
    subclass ← peek 0;
    tableAddAll_methods (AS_OBJ superclass) (AS_OBJ subclass);;
    pop;;
    mret None.

(** The memory that the [tableSet] of [defineMethod] asks for. *)
Definition defineMethod_memory : M unit :=
  kv ← peek 1;
  methods ← methods_of (AS_OBJ kv);
  tableSet_memory methods.

(** The cases of the [switch]: [None] is [break].  A byte that is no
    enumerator has no case, and the loop goes on.  The three instructions
    on the globals and [OP_METHOD] are given with the request for memory
    of their [tableSet] first: up to that request they move [frame->ip]
    and read the stack, which the collector neither reads nor writes. *)
Definition run_case (instruction : option OpCode)
    : M (option InterpretResult) :=
  match instruction with
  | Some OP_CONSTANT =>
      constant ← READ_CONSTANT;
      push constant;;
      mret None
  | Some OP_NIL => push NIL_VAL;; mret None
  | Some OP_TRUE => push (BOOL_VAL true);; mret None
  | Some OP_FALSE => push (BOOL_VAL false);; mret None
  | Some OP_POP => pop;; mret None
  | Some OP_GET_LOCAL =>
      slot ← READ_BYTE;
      frame ← current_frame;
      v ← slot_get (slots frame + slot);
      push v;;
      mret None
  | Some OP_SET_LOCAL =>
      slot ← READ_BYTE;
      frame ← current_frame;
      v ← peek 0;
      slot_set (slots frame + slot) v;;
      mret None
  | Some OP_GET_GLOBAL => run_OP_GET_GLOBAL
  | Some OP_DEFINE_GLOBAL =>
      vm ← get;
      tableSet_memory (globals vm);;
      run_OP_DEFINE_GLOBAL
  | Some OP_SET_GLOBAL =>
      vm ← get;
      tableSet_memory (globals vm);;
      run_OP_SET_GLOBAL
  | Some OP_GET_UPVALUE =>
      slot ← READ_BYTE;
      frame ← current_frame;
      upvalue ← closure_upvalue (closure frame) slot;
      v ← upvalue_get upvalue;
      push v;;
      mret None
  | Some OP_SET_UPVALUE =>
      slot ← READ_BYTE;
      frame ← current_frame;
      upvalue ← closure_upvalue (closure frame) slot;
      v ← peek 0;
      upvalue_set upvalue v;;
      mret None
  | Some OP_GET_PROPERTY => run_OP_GET_PROPERTY
  | Some OP_SET_PROPERTY => run_OP_SET_PROPERTY
  | Some OP_GET_SUPER => run_OP_GET_SUPER
  | Some OP_EQUAL =>
      b ← pop;
      a ← pop;
      push (BOOL_VAL (valuesEqual a b));;
      mret None
  | Some OP_GREATER => BINARY_OP BOOL_VAL double_gt
  | Some OP_LESS => BINARY_OP BOOL_VAL double_lt
  | Some OP_ADD => run_OP_ADD
  | Some OP_SUBTRACT => BINARY_OP NUMBER_VAL double_sub
  | Some OP_MULTIPLY => BINARY_OP NUMBER_VAL double_mul
  | Some OP_DIVIDE => BINARY_OP NUMBER_VAL double_div
  | Some OP_NOT =>
      v ← pop;
      push (BOOL_VAL (isFalsey v));;
      mret None
  | Some OP_NEGATE => run_OP_NEGATE
  | Some OP_PRINT =>
      v ← pop;
      printValue v;;
      mret None
  | Some OP_JUMP => run_OP_JUMP
  | Some OP_JUMP_IF_FALSE => run_OP_JUMP_IF_FALSE
  | Some OP_LOOP => run_OP_LOOP
  | Some OP_CALL => run_OP_CALL
  | Some OP_INVOKE => run_OP_INVOKE
  | Some OP_SUPER_INVOKE => run_OP_SUPER_INVOKE
  | Some OP_CLOSURE => run_OP_CLOSURE
  | Some OP_CLOSE_UPVALUE => run_OP_CLOSE_UPVALUE
  | Some OP_RETURN => run_OP_RETURN
  | Some OP_CLASS => run_OP_CLASS
  | Some OP_INHERIT => run_OP_INHERIT
  | Some OP_METHOD =>
      name ← READ_STRING;
      defineMethod_memory;;
      defineMethod name;;
      mret None
  | None => mret None
  end.

(** One round of the [for (;;)] of [run]. *)
Definition run_step : M (option InterpretResult) :=
  instruction ← READ_BYTE;
  run_case (opcode_of instruction).

(** [run], for at most [fuel] instructions. *)
Fixpoint run (fuel : nat) : M InterpretResult :=
  match fuel with
  | O => lift None
  | S fuel' =>
      r ← run_step;
      match r with
      | Some result => mret result
      | None => run fuel'
      end
  end.

(** The machine after [n] instructions, none of which returns from
    [run]: a state between two instructions. *)
Fixpoint run_steps (n : nat) : M unit :=
  match n with
  | O => mret tt
  | S n' =>
      r ← run_step;
      match r with
      | Some _ => lift None
      | None => run_steps n'
      end
  end.

(** The end of [interpret], once [compile] has returned [function]. *)
Definition interpret_function (function : Z) (fuel : nat)
    : M InterpretResult :=
  push (OBJ_VAL function);;
  clos ← newClosure function;
  pop;;
  push (OBJ_VAL clos);;
  call clos 0;;
  run fuel.

End Run.

(* ===================================================================== *)
(** * Part II: properties                                                 *)
(* ===================================================================== *)

Section ValueFacts.
Import Value.

Lemma is_bool_not_number (v : Value) : IS_BOOL v = true -> IS_NUMBER v = false.
Proof.
  unfold IS_BOOL, IS_NUMBER. intros H%Z.eqb_eq.
  assert (Hq : Z.land (Z.lor v 1) QNAN = QNAN) by (rewrite H; reflexivity).
  rewrite Z.land_lor_distr_l in Hq.
  change (Z.land 1 QNAN) with 0 in Hq. rewrite Z.lor_0_r in Hq.
  rewrite Hq, Z.eqb_refl. reflexivity.
Qed.

Lemma is_nil_not_number (v : Value) : IS_NIL v = true -> IS_NUMBER v = false.
Proof. unfold IS_NIL. intros ->%Z.eqb_eq. reflexivity. Qed.

Lemma number_valueType (v : Value) :
  IS_NUMBER v = true -> valueType v = Some VAL_NUMBER.
Proof.
  intros Hn. unfold valueType.
  destruct (IS_BOOL v) eqn:Hb.
  { apply is_bool_not_number in Hb. congruence. }
  destruct (IS_NIL v) eqn:Hnil.
  { apply is_nil_not_number in Hnil. congruence. }
  rewrite Hn. reflexivity.
Qed.

Lemma AS_OBJ_OBJ_VAL (p : Z) : 0 <= p < 2 ^ 50 -> AS_OBJ (OBJ_VAL p) = p.
Proof.
  intros Hp. unfold AS_OBJ, OBJ_VAL.
  change (uint64_not (Z.lor SIGN_BIT QNAN)) with (Z.ones 50).
  rewrite Z.land_lor_distr_l.
  change (Z.land (Z.lor SIGN_BIT QNAN) (Z.ones 50)) with 0.
  rewrite Z.lor_0_l, Z.land_ones by lia. apply Z.mod_small. lia.
Qed.

Lemma OBJ_VAL_not_number (p : Z) : IS_NUMBER (OBJ_VAL p) = false.
Proof.
  unfold IS_NUMBER, OBJ_VAL.
  rewrite Z.land_lor_distr_l.
  change (Z.land (Z.lor SIGN_BIT QNAN) QNAN) with QNAN.
  replace (Z.lor QNAN (Z.land p QNAN)) with QNAN.
  - rewrite Z.eqb_refl. reflexivity.
  - apply Z.bits_inj'. intros n _.
    rewrite Z.lor_spec, Z.land_spec.
    destruct (Z.testbit QNAN n), (Z.testbit p n); reflexivity.
Qed.

End ValueFacts.

Section ValueEquality.
Import Value.

Lemma is_obj_not_number (v : Value) : IS_OBJ v = true -> IS_NUMBER v = false.
Proof.
  unfold IS_OBJ, IS_NUMBER. intros H%Z.eqb_eq.
  assert (Hq : Z.land (Z.land v (Z.lor QNAN SIGN_BIT)) QNAN = QNAN)
    by (rewrite H; reflexivity).
  rewrite <- Z.land_assoc in Hq.
  change (Z.land (Z.lor QNAN SIGN_BIT) QNAN) with QNAN in Hq.
  rewrite Hq, Z.eqb_refl. reflexivity.
Qed.

(** A 64-bit object value is its tag bits glued to its address bits. *)
Lemma obj_value_split (v : Value) :
  0 <= v < 2 ^ 64 -> IS_OBJ v = true ->
  v = Z.lor (Z.lor QNAN SIGN_BIT) (AS_OBJ v).
Proof.
  intros Hv H. unfold IS_OBJ in H. apply Z.eqb_eq in H.
  unfold AS_OBJ. rewrite <- H at 1.
  rewrite <- Z.land_lor_distr_r.
  change (Z.lor (Z.lor QNAN SIGN_BIT) (uint64_not (Z.lor SIGN_BIT QNAN)))
    with (Z.ones 64).
  rewrite Z.land_ones by lia. symmetry. apply Z.mod_small. lia.
Qed.

Lemma valuesEqual_non_number (a b : Value) :
  IS_NUMBER a = false -> valuesEqual a b = (a =? b).
Proof. intros H. unfold valuesEqual. rewrite H. reflexivity. Qed.

Lemma valuesEqual_same_type (a b : Value) :
  valuesEqual a b = true -> valueType a = valueType b.
Proof.
  unfold valuesEqual.
  destruct (IS_NUMBER a) eqn:Ha, (IS_NUMBER b) eqn:Hb; simpl.
  - intros _. rewrite !number_valueType by assumption. reflexivity.
  - intros ->%Z.eqb_eq. reflexivity.
  - intros ->%Z.eqb_eq. reflexivity.
  - intros ->%Z.eqb_eq. reflexivity.
Qed.

End ValueEquality.

(** C8. [valuesEqual] implements the equality contract of values: values of
    different variants are never equal; nil equals nil; two booleans are
    equal iff they have the same truth value; two numbers compare by IEEE
    numeric equality, so a NaN equals nothing (not even itself) while -0.0
    equals +0.0; two object values are equal iff they hold the same
    reference. *)
Theorem valuesEqual_contract :
  (forall a b : Value.Value,
      Value.valueType a <> Value.valueType b -> Value.valuesEqual a b = false)
  /\ Value.valuesEqual Value.NIL_VAL Value.NIL_VAL = true
  /\ (forall x y : bool,
        Value.valuesEqual (Value.BOOL_VAL x) (Value.BOOL_VAL y) = Bool.eqb x y)
  /\ (forall a b : Value.Value,
        Value.IS_NUMBER a = true -> Value.IS_NUMBER b = true ->
        Value.valuesEqual a b = SFeqb (Value.valueToNum a) (Value.valueToNum b))
  /\ (forall a b : Value.Value,
        Value.IS_NUMBER a = true -> Value.valueToNum a = S754_nan ->
        Value.valuesEqual a b = false /\ Value.valuesEqual b a = false)
  /\ (forall a b : Value.Value,
        Value.IS_NUMBER a = true -> Value.IS_NUMBER b = true ->
        Value.valueToNum a = S754_zero true ->
        Value.valueToNum b = S754_zero false ->
        Value.valuesEqual a b = true /\ Value.valuesEqual b a = true)
  /\ (forall a b : Value.Value,
        0 <= a < 2 ^ 64 -> 0 <= b < 2 ^ 64 ->
        Value.IS_OBJ a = true -> Value.IS_OBJ b = true ->
        (Value.valuesEqual a b = true <-> Value.AS_OBJ a = Value.AS_OBJ b)).
Proof.
  split; [|split; [|split; [|split; [|split; [|split]]]]].
  - intros a b Hne. destruct (Value.valuesEqual a b) eqn:E; [|reflexivity].
    apply valuesEqual_same_type in E. contradiction.
  - reflexivity.
  - intros [] []; reflexivity.
  - intros a b Ha Hb. unfold Value.valuesEqual. rewrite Ha, Hb. reflexivity.
  - intros a b Ha Hnan. unfold Value.valuesEqual, Value.AS_NUMBER.
    rewrite Ha, Hnan. destruct (Value.IS_NUMBER b) eqn:Hb; simpl.
    + split; [reflexivity|]. destruct (Value.valueToNum b); reflexivity.
    + split; apply Z.eqb_neq; intros ->; congruence.
  - intros a b Ha Hb Hza Hzb. unfold Value.valuesEqual, Value.AS_NUMBER.
    rewrite Ha, Hb, Hza, Hzb. split; reflexivity.
  - intros a b Hra Hrb Ha Hb.
    rewrite valuesEqual_non_number by (apply is_obj_not_number; assumption).
    split.
    + intros ->%Z.eqb_eq. reflexivity.
    + intros Heq. apply Z.eqb_eq.
      rewrite (obj_value_split a), (obj_value_split b) by assumption.
      rewrite Heq. reflexivity.
Qed.

(** The contract at concrete values: nil against true, the quiet NaN
    [0x7ff8000000000000], the two zeros, and two object addresses. *)
Lemma valuesEqual_contract_witness :
  Value.valuesEqual Value.NIL_VAL Value.TRUE_VAL = false
  /\ Value.valuesEqual 0x7ff8000000000000 0x7ff8000000000000 = false
  /\ Value.valuesEqual Value.SIGN_BIT 0 = true
  /\ (Value.valuesEqual (Value.OBJ_VAL 4096) (Value.OBJ_VAL 4096) = true
      <-> Value.AS_OBJ (Value.OBJ_VAL 4096) = Value.AS_OBJ (Value.OBJ_VAL 4096))
  /\ (Value.valuesEqual (Value.OBJ_VAL 4096) (Value.OBJ_VAL 8192) = true
      <-> Value.AS_OBJ (Value.OBJ_VAL 4096) = Value.AS_OBJ (Value.OBJ_VAL 8192)).
Proof.
  destruct valuesEqual_contract as (Hty & _ & _ & _ & Hnan & Hzero & Hobj).
  split; [|split; [|split; [|split]]].
  - apply Hty. vm_compute. discriminate.
  - apply (Hnan 0x7ff8000000000000 0x7ff8000000000000); reflexivity.
  - apply (Hzero Value.SIGN_BIT 0); reflexivity.
  - apply Hobj; vm_compute; first [reflexivity | split; [discriminate | reflexivity]].
  - apply Hobj; vm_compute; first [reflexivity | split; [discriminate | reflexivity]].
Defined.

(** ** The hash table: probing, well-formedness, and set-then-get. *)

Lemma for_loop_inv {St : Type} (P : Z -> St -> Prop) (body : Z -> St -> option St) :
  forall (n : nat) (i : Z) (s : St),
    P i s ->
    (forall j s0, i <= j < i + Z.of_nat n -> P j s0 ->
                  exists s1, body j s0 = Some s1 /\ P (j + 1) s1) ->
    exists s', for_loop n i body s = Some s' /\ P (i + Z.of_nat n) s'.
Proof.
  induction n as [|n IH]; intros i s HP Hstep.
  - exists s. simpl. rewrite Z.add_0_r. auto.
  - destruct (Hstep i s) as (s1 & Hb & HP1); [lia | assumption |].
    destruct (IH (i + 1) s1 HP1) as (s' & Hl & HP').
    { intros j s0 Hj. apply Hstep. lia. }
    exists s'. simpl. rewrite Hb. simpl. split; [assumption|].
    replace (i + Z.of_nat (S n)) with (i + 1 + Z.of_nat n) by lia. assumption.
Qed.

Section TableFacts.
Import Value Table.

(** A slot is truly empty when its key is [NULL] and its value is nil. *)
Definition is_empty (e : Entry) : bool :=
  bool_decide (key e = None) && IS_NIL (value e).

(** Number of slots that are not truly empty (keys and tombstones). *)
Fixpoint filled (ents : list Entry) : Z :=
  match ents with
  | [] => 0
  | e :: rest => (if is_empty e then 0 else 1) + filled rest
  end.

Lemma filled_bounds (ents : list Entry) :
  0 <= filled ents <= Z.of_nat (length ents).
Proof.
  induction ents as [|e r IH]; simpl; [lia|]. destruct (is_empty e); lia.
Qed.

Lemma filled_insert (ents : list Entry) (i : nat) (old new : Entry) :
  ents !! i = Some old ->
  filled (<[i := new]> ents)
  = filled ents - (if is_empty old then 0 else 1)
    + (if is_empty new then 0 else 1).
Proof.
  revert i. induction ents as [|e r IH]; intros [|i] H; simpl in *;
    try discriminate.
  - injection H as ->. lia.
  - rewrite (IH i H). lia.
Qed.

Lemma filled_lookup_nonempty (ents : list Entry) (i : nat) (e : Entry) :
  ents !! i = Some e -> is_empty e = false -> 1 <= filled ents.
Proof.
  revert i. induction ents as [|e0 r IH]; intros [|i] H He; simpl in *;
    try discriminate.
  - injection H as ->. rewrite He. pose proof (filled_bounds r). lia.
  - specialize (IH i H He). destruct (is_empty e0); lia.
Qed.

Lemma filled_lt_empty_slot (ents : list Entry) :
  filled ents < Z.of_nat (length ents) ->
  exists (p : nat) (e : Entry), ents !! p = Some e /\ is_empty e = true.
Proof.
  induction ents as [|e r IH]; simpl; [lia|]. intros H.
  destruct (is_empty e) eqn:He.
  - exists 0%nat, e. auto.
  - destruct IH as (p & e' & Hp & He'); [lia|]. exists (S p), e'. auto.
Qed.

Lemma filled_replicate (n : nat) :
  filled (replicate n {| key := None; value := NIL_VAL |}) = 0.
Proof. induction n as [|n IH]; simpl; [reflexivity | exact IH]. Qed.

(** The step [index = (index + 1) & (capacity - 1)] on a power of two. *)
Lemma next_index (n idx : Z) :
  0 <= n -> 0 <= idx < 2 ^ n ->
  Z.land (idx + 1) (2 ^ n - 1) = if idx + 1 =? 2 ^ n then 0 else idx + 1.
Proof.
  intros Hn Hidx. replace (2 ^ n - 1) with (Z.ones n)
    by (rewrite Z.ones_equiv; lia).
  rewrite Z.land_ones by lia.
  destruct (idx + 1 =? 2 ^ n) eqn:E.
  - apply Z.eqb_eq in E. rewrite E. apply Z_mod_same_full.
  - apply Z.eqb_neq in E. apply Z.mod_small. lia.
Qed.

Lemma first_index (n h : Z) :
  0 <= n -> 0 <= Z.land h (2 ^ n - 1) < 2 ^ n.
Proof.
  intros Hn. replace (2 ^ n - 1) with (Z.ones n)
    by (rewrite Z.ones_equiv; lia).
  rewrite Z.land_ones by lia. apply Z.mod_pos_bound. lia.
Qed.

(** Probe distance from [idx] forward (with wrap-around) to [p]. *)
Definition dist (cap idx p : Z) : Z :=
  if idx <=? p then p - idx else p - idx + cap.

(** The probe loop returns as soon as its walk meets a truly empty slot,
    and the slot it returns is inside the array. *)
Lemma findEntry_loop_returns (ents : list Entry) (n k : Z) (p : nat) (e : Entry) :
  0 <= n -> Z.of_nat (length ents) = 2 ^ n ->
  ents !! p = Some e -> is_empty e = true ->
  forall (fuel : nat) (idx : Z) (tomb : option Z),
    0 <= idx < 2 ^ n ->
    dist (2 ^ n) idx (Z.of_nat p) < Z.of_nat fuel ->
    (forall t, tomb = Some t -> 0 <= t < 2 ^ n) ->
    exists i, findEntry_loop fuel ents (2 ^ n) k idx tomb = Some i
              /\ 0 <= i < 2 ^ n.
Proof.
  intros Hn Hlen Hp He.
  assert (Hpr : Z.of_nat p < 2 ^ n).
  { apply lookup_lt_Some in Hp. lia. }
  induction fuel as [|fuel IH]; intros idx tomb Hidx Hd Htomb.
  - unfold dist in Hd. destruct (idx <=? Z.of_nat p) eqn:E;
      [apply Z.leb_le in E | apply Z.leb_gt in E]; lia.
  - simpl.
    destruct (ents !! Z.to_nat idx) as [entry|] eqn:Hl.
    2:{ apply lookup_ge_None in Hl. lia. }
    simpl.
    assert (Hnext : is_empty entry = false ->
              forall tomb', (forall t, tomb' = Some t -> 0 <= t < 2 ^ n) ->
              exists i, findEntry_loop fuel ents (2 ^ n) k
                          (Z.land (idx + 1) (2 ^ n - 1)) tomb' = Some i
                        /\ 0 <= i < 2 ^ n).
    { intros Hne tomb' Ht'.
      assert (Hneq : idx <> Z.of_nat p).
      { intros ->. rewrite Nat2Z.id in Hl. congruence. }
      apply IH; [| |assumption].
      - rewrite next_index by lia. destruct (Z.eqb_spec (idx + 1) (2 ^ n)); lia.
      - rewrite next_index by lia. unfold dist in *.
        destruct (Z.eqb_spec (idx + 1) (2 ^ n));
          destruct (Z.leb_spec0 idx (Z.of_nat p));
          repeat match goal with
                 | |- context [?a <=? ?b] => destruct (Z.leb_spec0 a b)
                 end; lia. }
    destruct (key entry) as [k'|] eqn:Hk.
    + destruct (k' =? k).
      * exists idx. auto.
      * apply Hnext; [|assumption].
        unfold is_empty. rewrite Hk. reflexivity.
    + destruct (IS_NIL (value entry)) eqn:Hnil.
      * destruct tomb as [t|]; eauto.
      * apply Hnext.
        -- unfold is_empty. rewrite Hnil. apply andb_false_r.
        -- intros t. destruct tomb as [t0|]; intros [= <-]; eauto.
Qed.

End TableFacts.

Section TableInvariant.
Import Value Table.
Variable hash : Z -> Z.

(** Once [k] has been written to the slot that a probe for [k] returned,
    the same probe returns that slot again. *)
Lemma findEntry_loop_replay (ents : list Entry) (cap k i : Z) (v : Value) :
  0 <= i ->
  forall (fuel : nat) (idx : Z) (tomb tomb' : option Z),
    0 <= idx -> tomb <> Some i ->
    findEntry_loop fuel ents cap k idx tomb = Some i ->
    findEntry_loop fuel
      (<[Z.to_nat i := {| key := Some k; value := v |}]> ents)
      cap k idx tomb' = Some i.
Proof.
  intros Hi. induction fuel as [|fuel IH]; intros idx tomb tomb' Hidx Ht H.
  { discriminate H. }
  simpl in H |- *.
  destruct (ents !! Z.to_nat idx) as [entry|] eqn:Hl; [|discriminate H].
  simpl in H.
  destruct (Z.eq_dec idx i) as [->|Hne].
  - rewrite list_lookup_insert_eq by (eapply lookup_lt_Some; eassumption).
    simpl. rewrite Z.eqb_refl. reflexivity.
  - rewrite list_lookup_insert_ne by lia. rewrite Hl. simpl.
    assert (Hnext : 0 <= Z.land (idx + 1) (cap - 1)).
    { apply Z.land_nonneg. left. lia. }
    destruct (key entry) as [k'|].
    + destruct (k' =? k).
      * congruence.
      * eapply IH; eassumption.
    + destruct (IS_NIL (value entry)).
      * destruct tomb; congruence.
      * eapply IH; [assumption| |eassumption].
        destruct tomb; congruence.
Qed.

(** Well-formed tables: the array has [capacity] slots, [capacity] is zero
    or a power of two, [count] bounds the number of slots that are not
    truly empty, and the load factor is at most 0.75. *)
Record wf (t : Table) : Prop := {
  wf_len : Z.of_nat (length (entries t)) = capacity t;
  wf_pow2 : capacity t = 0 \/ exists n, 0 <= n /\ capacity t = 2 ^ n;
  wf_filled : filled (entries t) <= count t;
  wf_load : 4 * count t <= 3 * capacity t
}.

Lemma wf_initTable : wf initTable.
Proof. split; simpl; lia. Qed.

Lemma findEntry_returns (ents : list Entry) (n k : Z) :
  0 <= n -> Z.of_nat (length ents) = 2 ^ n ->
  filled ents < 2 ^ n ->
  exists i, findEntry hash ents (2 ^ n) k = Some i /\ 0 <= i < 2 ^ n.
Proof.
  intros Hn Hlen Hf.
  destruct (filled_lt_empty_slot ents) as (p & e & Hp & He); [lia|].
  unfold findEntry.
  pose proof (first_index n (hash k) Hn) as Hfirst.
  eapply findEntry_loop_returns; try eassumption.
  - apply lookup_lt_Some in Hp. unfold dist.
    destruct (Z.leb_spec0 (Z.land (hash k) (2 ^ n - 1)) (Z.of_nat p)); lia.
  - intros t [=].
Qed.

Lemma wf_count_zero_or_pow2 (t : Table) :
  wf t -> count t = 0 \/ exists n, 0 <= n /\ capacity t = 2 ^ n.
Proof.
  intros [Hlen [H0|Hp] Hf Hl]; [left|right; assumption].
  pose proof (filled_bounds (entries t)). lia.
Qed.

Lemma wf_filled_lt (t : Table) (n : Z) :
  wf t -> 0 <= n -> capacity t = 2 ^ n -> filled (entries t) < 2 ^ n.
Proof.
  intros [Hlen _ Hf Hl] Hn Hc. assert (0 < 2 ^ n) by (apply Z.pow_pos_nonneg; lia).
  lia.
Qed.

(** [tableGet] returns on every well-formed table. *)
Lemma tableGet_total (t : Table) (k : Z) :
  wf t -> exists r, tableGet hash t k = Some r.
Proof.
  intros Hwf. unfold tableGet.
  destruct (Z.eqb_spec (count t) 0) as [|Hc]; [eauto|].
  destruct (wf_count_zero_or_pow2 t Hwf) as [|(n & Hn & Hcap)]; [contradiction|].
  destruct (findEntry_returns (entries t) n k) as (i & Hi & Hr);
    [assumption | rewrite <- Hcap; apply Hwf | eapply wf_filled_lt; eassumption |].
  rewrite Hcap, Hi. simpl.
  destruct (entries t !! Z.to_nat i) as [entry|] eqn:Hl.
  - simpl. destruct (key entry); eauto.
  - apply lookup_ge_None in Hl. pose proof (wf_len t Hwf). lia.
Qed.

End TableInvariant.

Section TableSetGet.
Import Value Table.
Variable hash : Z -> Z.

Lemma GROW_CAPACITY_pow2 (t : Table) :
  wf t ->
  exists n', 0 <= n' /\ GROW_CAPACITY (capacity t) = 2 ^ n'
             /\ capacity t < 2 ^ n'
             /\ 4 * (capacity t + 1) <= 3 * 2 ^ n'.
Proof.
  intros Hwf. unfold GROW_CAPACITY.
  destruct (wf_pow2 t Hwf) as [H0|(n & Hn & Hc)].
  - rewrite H0. exists 3. simpl. lia.
  - rewrite Hc. destruct (Z.ltb_spec (2 ^ n) 8) as [Hlt|Hge].
    + exists 3. change (2 ^ 3) with 8.
      assert (n < 3).
      { destruct (Z.lt_ge_cases n 3) as [|Hge]; [assumption|].
        apply (Z.pow_le_mono_r 2) in Hge; [|lia]. change (2 ^ 3) with 8 in Hge. lia. }
      assert (2 ^ n <= 2 ^ 2) by (apply Z.pow_le_mono_r; lia).
      change (2 ^ 2) with 4 in *. lia.
    + exists (n + 1). rewrite Z.pow_add_r by lia. change (2 ^ 1) with 2. lia.
Qed.

(** [adjustCapacity] returns; the fresh array has the requested size and
    [count] is recomputed as the number of keys moved over. *)
Lemma adjustCapacity_returns (t : Table) (n' : Z) :
  wf t -> 0 <= n' -> capacity t < 2 ^ n' ->
  exists t', adjustCapacity hash t (2 ^ n') = Some t'
             /\ capacity t' = 2 ^ n'
             /\ Z.of_nat (length (entries t')) = 2 ^ n'
             /\ filled (entries t') <= count t'
             /\ 0 <= count t' <= capacity t.
Proof.
  intros Hwf Hn' Hcap. unfold adjustCapacity.
  assert (Hpos : 0 < 2 ^ n') by (apply Z.pow_pos_nonneg; lia).
  pose proof (wf_len t Hwf) as Hlen.
  destruct (for_loop_inv
    (fun j (st : list Entry * Z) =>
       Z.of_nat (length (fst st)) = 2 ^ n'
       /\ filled (fst st) <= snd st /\ 0 <= snd st <= j)
    (adjustCapacity_body hash (entries t) (2 ^ n'))
    (Z.to_nat (capacity t)) 0
    (replicate (Z.to_nat (2 ^ n')) {| key := None; value := NIL_VAL |}, 0))
    as (st & Hloop & Hlen' & Hf & Hc).
  - simpl. rewrite length_replicate, filled_replicate. lia.
  - intros j [ents c] Hj (Hl & Hf & Hc). simpl in Hl, Hf, Hc.
    unfold adjustCapacity_body.
    destruct (entries t !! Z.to_nat j) as [entry|] eqn:Hold.
    2:{ apply lookup_ge_None in Hold. lia. }
    simpl. destruct (key entry) as [k|].
    + destruct (findEntry_returns hash ents n' k) as (d & Hd & Hdr);
        [assumption..|lia|].
      rewrite Hd. simpl. eexists. split; [reflexivity|]. simpl.
      destruct (ents !! Z.to_nat d) as [old|] eqn:Hdl.
      2:{ apply lookup_ge_None in Hdl. lia. }
      rewrite length_insert, (filled_insert _ _ old) by assumption.
      simpl. destruct (is_empty old); lia.
    + eexists. split; [reflexivity|]. simpl. lia.
  - rewrite Hloop. simpl. eexists. split; [reflexivity|]. simpl.
    repeat split; try assumption; lia.
Qed.

(** The table on which [tableSet] probes, after the optional growth. *)
Lemma tableSet_grow (t : Table) :
  wf t ->
  exists t1 m,
    (if 3 * capacity t <? 4 * (count t + 1)
     then adjustCapacity hash t (GROW_CAPACITY (capacity t))
     else Some t) = Some t1
    /\ 0 <= m /\ capacity t1 = 2 ^ m
    /\ Z.of_nat (length (entries t1)) = 2 ^ m
    /\ filled (entries t1) <= count t1
    /\ 4 * (count t1 + 1) <= 3 * 2 ^ m.
Proof.
  intros Hwf. pose proof (filled_bounds (entries t)) as Hfb.
  destruct (Z.ltb_spec (3 * capacity t) (4 * (count t + 1))) as [Hgrow|Hok].
  - destruct (GROW_CAPACITY_pow2 t Hwf) as (n' & Hn' & -> & Hlt & Hld).
    destruct (adjustCapacity_returns t n' Hwf Hn' Hlt)
      as (t' & -> & Hc & Hl & Hf & Hcnt).
    exists t', n'. repeat split; try assumption; lia.
  - destruct Hwf as [Hlen [H0|(n & Hn & Hc)] Hf Hl]; [lia|].
    exists t, n. rewrite <- Hc. repeat split; try assumption; lia.
Qed.

(** [tableSet] returns on every well-formed table, keeps it well-formed,
    and a following [tableGet] of the same key finds the value stored. *)
Lemma tableSet_spec (t : Table) (k : Z) (v : Value) :
  wf t ->
  exists isNew t', tableSet hash t k v = Some (isNew, t')
                   /\ wf t'
                   /\ tableGet hash t' k = Some (Some v).
Proof.
  intros Hwf. unfold tableSet.
  destruct (tableSet_grow t Hwf) as (t1 & m & -> & Hm & Hc & Hl & Hf & Hld).
  simpl.
  destruct (findEntry_returns hash (entries t1) m k) as (i & Hi & Hir);
    [assumption..|lia|].
  rewrite Hc, Hi. simpl.
  destruct (entries t1 !! Z.to_nat i) as [old|] eqn:Hold.
  2:{ apply lookup_ge_None in Hold. lia. }
  simpl. do 2 eexists. split; [reflexivity|].
  set (new := {| key := Some k; value := v |}).
  assert (Hfill : filled (<[Z.to_nat i := new]> (entries t1))
                  = filled (entries t1) - (if is_empty old then 0 else 1) + 1).
  { rewrite (filled_insert _ _ old) by assumption. reflexivity. }
  assert (Hpos : 1 <= filled (<[Z.to_nat i := new]> (entries t1))).
  { eapply (filled_lookup_nonempty _ (Z.to_nat i) new); [|reflexivity].
    apply list_lookup_insert_eq. eapply lookup_lt_Some; eassumption. }
  fold (is_empty old).
  split.
  - split; simpl.
    + rewrite length_insert. assumption.
    + right. eauto.
    + rewrite Hfill. destruct (is_empty old); lia.
    + destruct (is_empty old); lia.
  - unfold tableGet. simpl.
    destruct (Z.eqb_spec (if is_empty old then count t1 + 1 else count t1) 0)
      as [Hz|_].
    { destruct (is_empty old); lia. }
    unfold findEntry in *. subst new.
    erewrite findEntry_loop_replay; [| lia | | | eassumption].
    + simpl. rewrite list_lookup_insert_eq
        by (eapply lookup_lt_Some; eassumption). reflexivity.
    + apply first_index. assumption.
    + discriminate.
Qed.

(** [tableDelete] returns on every well-formed table and keeps it
    well-formed. *)
Lemma tableDelete_wf (t : Table) (k : Z) :
  wf t -> exists r t', tableDelete hash t k = Some (r, t') /\ wf t'.
Proof.
  intros Hwf. unfold tableDelete.
  destruct (Z.eqb_spec (count t) 0) as [|Hc]; [eauto|].
  destruct (wf_count_zero_or_pow2 t Hwf) as [|(n & Hn & Hcap)]; [contradiction|].
  destruct (findEntry_returns hash (entries t) n k) as (i & Hi & Hr);
    [assumption | rewrite <- Hcap; apply Hwf | eapply wf_filled_lt; eassumption |].
  rewrite Hcap, Hi. simpl.
  destruct (entries t !! Z.to_nat i) as [entry|] eqn:Hl.
  2:{ apply lookup_ge_None in Hl. pose proof (wf_len t Hwf). lia. }
  simpl. destruct (key entry) as [k'|] eqn:Hk.
  - do 2 eexists. split; [reflexivity|].
    destruct Hwf as [Hlen Hp Hf Hld]. split; simpl.
    + rewrite length_insert. lia.
    + right. eauto.
    + rewrite (filled_insert _ _ entry) by assumption.
      unfold is_empty at 1 2. rewrite Hk. simpl. lia.
    + lia.
  - do 2 eexists. split; [reflexivity|]. assumption.
Qed.

End TableSetGet.

(** ** The virtual machine: decoding and the global-variable opcodes. *)
Section VMGlobals.
Import Value Table VM.

Ltac unfold_M :=
  unfold mbind, M_bind, mret, M_ret, get, put, lift in *.

(** Reading an operand moves the instruction pointer of the current frame
    and nothing else. *)
Lemma READ_BYTE_inv (vm vm1 : VM) (b : Z) :
  READ_BYTE vm = Some (b, vm1) ->
  exists fs, vm1 = set_frames vm fs (frameCount vm).
Proof.
  unfold READ_BYTE, currentChunk, deref. unfold_M. intros H.
  repeat case_match; simplify_eq. eauto.
Qed.

Lemma READ_STRING_inv (vm vm1 : VM) (name : Z) :
  READ_STRING vm = Some (name, vm1) ->
  exists fs, vm1 = set_frames vm fs (frameCount vm).
Proof.
  unfold READ_STRING, READ_CONSTANT. unfold_M. intros H.
  destruct (currentChunk vm) as [[chunk vm0]|] eqn:Hc; [|discriminate].
  destruct (READ_BYTE vm0) as [[i vm2]|] eqn:Hb; [|discriminate].
  assert (vm0 = vm).
  { unfold currentChunk, deref in Hc. unfold_M.
    repeat case_match; simplify_eq. reflexivity. }
  subst vm0. apply READ_BYTE_inv in Hb as [fs ->].
  repeat case_match; simplify_eq. eauto.
Qed.

Lemma peek_eq (vm : VM) (d : Z) :
  peek d vm = match index (stack vm) (stackTop vm - 1 - d) with
              | Some v => Some (v, vm)
              | None => None
              end.
Proof. reflexivity. Qed.

(** C9. Executing [OP_DEFINE_GLOBAL] never produces a runtime error,
    whether or not the name is already bound in the globals table: the
    instruction goes on to the next one, pops the value, and the name is
    bound to that value afterwards, so that a later definition of the same
    global replaces the earlier one. *)
Theorem define_global_rebinds (vm vm1 : VM) (name : Z) (v : Value) :
  wf (globals vm) ->
  READ_STRING vm = Some (name, vm1) ->
  peek 0 vm1 = Some (v, vm1) ->
  exists vm',
    run_OP_DEFINE_GLOBAL vm = Some (None, vm')
    /\ tableGet (hashOf (heap vm')) (globals vm') name = Some (Some v)
    /\ wf (globals vm')
    /\ errors vm' = errors vm
    /\ stackTop vm' = stackTop vm - 1.
Proof.
  intros Hwf Hread Hpeek.
  destruct (READ_STRING_inv _ _ _ Hread) as [fs ->].
  destruct (tableSet_spec (hashOf (heap vm)) (globals vm) name v Hwf)
    as (isNew & g & Hset & Hwf' & Hget).
  rewrite peek_eq in Hpeek. simpl in Hpeek.
  destruct (index (stack vm) (stackTop vm - 1 - 0)) as [v0|] eqn:Hidx;
    [|discriminate].
  injection Hpeek as ->.
  replace (stackTop vm - 1 - 0) with (stackTop vm - 1) in Hidx by lia.
  eexists. split; [|split; [|split; [|split]]].
  - unfold run_OP_DEFINE_GLOBAL. unfold_M. rewrite Hread.
    rewrite peek_eq. simpl.
    replace (stackTop vm - 1 - 0) with (stackTop vm - 1) by lia.
    rewrite Hidx. simpl. rewrite Hset. simpl.
    unfold pop. unfold_M. simpl. rewrite Hidx. reflexivity.
  - simpl. exact Hget.
  - simpl. exact Hwf'.
  - reflexivity.
  - reflexivity.
Qed.

End VMGlobals.

(** ** The defect of [tableDelete] and what follows from it. *)
Section DeleteDefect.
Import Value Table VM Examples.

(** C1. [tableSet] of ["a"] to 1 followed by [tableDelete] of ["a"]: both
    return [true], yet the entry keeps its key, no tombstone (an entry
    with a null key and the value [true]) is planted, and [tableGet] still
    finds the key, now with the value [true]. *)
Theorem tableDelete_leaves_key_present :
  exists t1 t2,
    tableSet string_hash globals_init str_a ONE = Some (true, t1)
    /\ tableGet string_hash t1 str_a = Some (Some ONE)
    /\ tableDelete string_hash t1 str_a = Some (true, t2)
    /\ tableGet string_hash t2 str_a = Some (Some (BOOL_VAL true))
    /\ entries t2 !! 4%nat
       = Some {| key := Some str_a; value := BOOL_VAL true |}
    /\ Forall (fun e => ~ (key e = None /\ value e = BOOL_VAL true))
              (entries t2).
Proof.
  do 2 eexists.
  split; [vm_compute; reflexivity|].
  split; [vm_compute; reflexivity|].
  split; [vm_compute; reflexivity|].
  split; [vm_compute; reflexivity|].
  split; [vm_compute; reflexivity|].
  vm_compute. repeat constructor; intros [Hk Hv]; discriminate.
Qed.

(** C2. [OP_SET_GLOBAL] on the undefined name ["a"] in a fresh
    interpreter: the runtime error is reported, but the globals table is
    not what it was: ["a"] is now bound to [true]. *)
Theorem set_global_undefined_leaves_binding :
  exists vm',
    tableGet string_hash (globals vm_assign) str_a = Some None
    /\ run_OP_SET_GLOBAL vm_assign = Some (Some INTERPRET_RUNTIME_ERROR, vm')
    /\ errors vm' = [("Undefined variable '%s'."%string, [ArgStr "a"])]
    /\ tableGet string_hash (globals vm') str_a = Some (Some (BOOL_VAL true))
    /\ globals vm' <> globals vm_assign.
Proof.
  eexists.
  split; [vm_compute; reflexivity|].
  split; [vm_compute; reflexivity|].
  split; [vm_compute; reflexivity|].
  split; [vm_compute; reflexivity|].
  vm_compute. discriminate.
Qed.

(** C3. [tableRemoveWhite] on an intern table whose string ["tmp"] was
    not marked: the entry of ["tmp"] is still there afterwards, key
    included, and a lookup of ["tmp"] still succeeds. *)
Theorem tableRemoveWhite_keeps_unmarked_key :
  exists t',
    marked str_tmp = false
    /\ tableRemoveWhite string_hash marked strings_all = Some t'
    /\ entries t' !! 6%nat
       = Some {| key := Some str_tmp; value := BOOL_VAL true |}
    /\ tableGet string_hash t' str_tmp = Some (Some (BOOL_VAL true)).
Proof.
  eexists.
  split; [reflexivity|].
  split; [vm_compute; reflexivity|].
  split; vm_compute; reflexivity.
Qed.

(** Redefinition of the global ["a"], bound to 1, with the value 2. *)
Lemma define_global_rebinds_witness :
  tableGet string_hash (globals vm_redefine) str_a = Some (Some ONE)
  /\ exists vm',
       run_OP_DEFINE_GLOBAL vm_redefine = Some (None, vm')
       /\ tableGet (hashOf (heap vm')) (globals vm') str_a = Some (Some TWO)
       /\ wf (globals vm')
       /\ errors vm' = errors vm_redefine
       /\ stackTop vm' = stackTop vm_redefine - 1.
Proof.
  split; [vm_compute; reflexivity|].
  eapply define_global_rebinds.
  - split.
    + vm_compute; reflexivity.
    + right. exists 3. split; [lia | vm_compute; reflexivity].
    + vm_compute. discriminate.
    + vm_compute. discriminate.
  - vm_compute. reflexivity.
  - vm_compute. reflexivity.
Defined.

End DeleteDefect.

(** ** The scanner after a line comment. *)
Section ScannerComment.
Import Token Scanner Examples.

(** C4. On a source whose first line is a [//] comment, the first call of
    [scanToken] stops at the newline that ends the comment and returns an
    [Error] token for it; the line counter is not advanced, so the token
    of the second line is reported on line 1. *)
Theorem scanToken_after_comment_is_error :
  exists sc1 sc2,
    scanToken (initScanner source_comment)
    = Some ({| type := TOKEN_ERROR;
               Token.start := "Unexpected character.";
               length := 21;
               Token.line := 1 |}, sc1)
    /\ scanToken sc1
       = Some ({| type := TOKEN_VAR;
                  Token.start := "var";
                  length := 3;
                  Token.line := 1 |}, sc2).
Proof.
  do 2 eexists. split; vm_compute; reflexivity.
Qed.

End ScannerComment.

(** ** The collector: what a request for memory leaves in place. *)
Section Collector.
Import Value Table VM.

Lemma for_loop_keeps {St : Type} (P : Z -> St -> Prop)
    (body : Z -> St -> option St) (n : nat) :
  forall i s s',
    (forall j t t', i <= j < i + Z.of_nat n -> P j t ->
                    body j t = Some t' -> P (j + 1) t') ->
    P i s -> for_loop n i body s = Some s' -> P (i + Z.of_nat n) s'.
Proof.
  induction n as [|n IH]; intros i s s' Hbody HP Hrun; simpl in Hrun.
  - injection Hrun as <-. replace (i + Z.of_nat 0) with i by lia. exact HP.
  - destruct (body i s) as [t|] eqn:Hb; [|discriminate]. simpl in Hrun.
    replace (i + Z.of_nat (S n)) with (i + 1 + Z.of_nat n) by lia.
    apply (IH (i + 1) t s').
    + intros j u u' Hj. apply Hbody. lia.
    + apply (Hbody i s t); [lia | exact HP | exact Hb].
    + exact Hrun.
Qed.

(** A marking step sets mark bits and clears none. *)
Definition sets_marks (f : Marking -> option Marking) : Prop :=
  forall m m', f m = Some m' -> marked m ⊆ marked m'.

(** More precisely, it puts the objects whose mark bit it sets on the
    gray stack, and takes none from that stack. *)
Definition grays (f : Marking -> option Marking) : Prop :=
  forall m m', f m = Some m' ->
    marked m ⊆ marked m'
    /\ (forall a, a ∈ marked m' -> a ∈ marked m \/ a ∈ grayStack m')
    /\ (forall a, a ∈ grayStack m -> a ∈ grayStack m').

Lemma grays_sets (f : Marking -> option Marking) : grays f -> sets_marks f.
Proof. intros Hf m m' H. apply (Hf m m' H). Qed.

Lemma grays_ret : grays Some.
Proof. intros m m' [= <-]. auto. Qed.

Lemma grays_bind (f g : Marking -> option Marking) :
  grays f -> grays g -> grays (fun m => m' ← f m; g m').
Proof.
  intros Hf Hg m m'' H. destruct (f m) as [m'|] eqn:E; [|discriminate].
  simpl in H. destruct (Hf _ _ E) as (F1 & F2 & F3).
  destruct (Hg _ _ H) as (G1 & G2 & G3).
  split; [set_solver|]. split.
  - intros a Ha. destruct (G2 a Ha) as [Ha'|Ha']; [|auto].
    destruct (F2 a Ha') as [?|?]; auto.
  - auto.
Qed.

Lemma sets_marks_bind (f g : Marking -> option Marking) :
  sets_marks f -> sets_marks g -> sets_marks (fun m => m' ← f m; g m').
Proof.
  intros Hf Hg m m'' H. destruct (f m) as [m'|] eqn:E; [|discriminate].
  simpl in H. specialize (Hf _ _ E). specialize (Hg _ _ H). set_solver.
Qed.

Lemma markObject_grays (h : gmap Z Obj) (x : Z) : grays (markObject h x).
Proof.
  intros m m' H. unfold markObject in H.
  destruct (x =? 0); [injection H as <-; auto|].
  destruct (h !! x); [|discriminate]. simpl in H.
  destruct (bool_decide (x ∈ marked m)); injection H as <-; simpl;
    [auto|].
  split; [set_solver|]. split.
  - intros a Ha. apply elem_of_union in Ha as [Ha|Ha]; [|auto].
    apply elem_of_singleton in Ha as ->. right. left.
  - intros a Ha. right. exact Ha.
Qed.

Lemma markObject_sets (h : gmap Z Obj) (x : Z) : sets_marks (markObject h x).
Proof. apply grays_sets, markObject_grays. Qed.

Lemma markObject_marked (h : gmap Z Obj) (x : Z) (m m' : Marking) :
  markObject h x m = Some m' -> x <> 0 -> x ∈ marked m'.
Proof.
  intros H Hx. unfold markObject in H.
  destruct (Z.eqb_spec x 0); [contradiction|].
  destruct (h !! x); [|discriminate]. simpl in H.
  destruct (bool_decide (x ∈ marked m)) eqn:E; injection H as <-; simpl.
  - apply bool_decide_eq_true in E. exact E.
  - set_solver.
Qed.

Lemma markValue_grays (h : gmap Z Obj) (v : Value) : grays (markValue h v).
Proof.
  unfold markValue. destruct (IS_OBJ v);
    [apply markObject_grays | apply grays_ret].
Qed.

Lemma markValue_sets (h : gmap Z Obj) (v : Value) : sets_marks (markValue h v).
Proof. apply grays_sets, markValue_grays. Qed.

Lemma markValue_marked (h : gmap Z Obj) (v : Value) (m m' : Marking) :
  markValue h v m = Some m' -> IS_OBJ v = true -> AS_OBJ v <> 0 ->
  AS_OBJ v ∈ marked m'.
Proof.
  intros H Hv Hx. unfold markValue in H. rewrite Hv in H.
  eapply markObject_marked; eassumption.
Qed.

Lemma markArray_grays (h : gmap Z Obj) (values : list Value) :
  grays (markArray h values).
Proof.
  induction values as [|v rest IH]; cbn [markArray].
  - apply grays_ret.
  - apply grays_bind; [apply markValue_grays | exact IH].
Qed.

Lemma markArray_sets (h : gmap Z Obj) (values : list Value) :
  sets_marks (markArray h values).
Proof. apply grays_sets, markArray_grays. Qed.

Lemma markArray_marked (h : gmap Z Obj) (values : list Value) (v : Value) :
  forall m m', markArray h values m = Some m' -> v ∈ values ->
               IS_OBJ v = true -> AS_OBJ v <> 0 -> AS_OBJ v ∈ marked m'.
Proof.
  induction values as [|w rest IH]; intros m m' H Hin Hv Hx; simpl in H.
  - inversion Hin.
  - destruct (markValue h w m) as [m1|] eqn:E; [|discriminate]. simpl in H.
    apply elem_of_cons in Hin as [->|Hin].
    + apply (markArray_sets h rest _ _ H).
      eapply markValue_marked; eassumption.
    + eapply IH; eassumption.
Qed.

Lemma markObjects_grays (h : gmap Z Obj) (l : list Z) :
  grays (markObjects h l).
Proof.
  induction l as [|x rest IH]; cbn [markObjects].
  - apply grays_ret.
  - apply grays_bind; [apply markObject_grays | exact IH].
Qed.

Lemma markObjects_sets (h : gmap Z Obj) (l : list Z) :
  sets_marks (markObjects h l).
Proof. apply grays_sets, markObjects_grays. Qed.

Lemma markObjects_marked (h : gmap Z Obj) (l : list Z) (x : Z) :
  forall m m', markObjects h l m = Some m' -> x ∈ l -> x <> 0 ->
               x ∈ marked m'.
Proof.
  induction l as [|y rest IH]; intros m m' H Hin Hx; simpl in H.
  - inversion Hin.
  - destruct (markObject h y m) as [m1|] eqn:E; [|discriminate]. simpl in H.
    apply elem_of_cons in Hin as [->|Hin].
    + apply (markObjects_sets h rest _ _ H).
      eapply markObject_marked; eassumption.
    + eapply IH; eassumption.
Qed.

(** A loop of marking steps. *)
Lemma for_loop_grays (n : nat) (i : Z) (body : Z -> Marking -> option Marking) :
  (forall j, grays (body j)) -> grays (for_loop n i body).
Proof.
  intros Hb. revert i. induction n as [|n IH]; intros i; cbn [for_loop].
  - apply grays_ret.
  - apply grays_bind; [apply Hb | apply IH].
Qed.

Lemma for_loop_sets (n : nat) (i : Z) (body : Z -> Marking -> option Marking) :
  (forall j, sets_marks (body j)) -> sets_marks (for_loop n i body).
Proof.
  intros Hb m m' H.
  apply (for_loop_keeps (fun _ t => marked m ⊆ marked t) body n i m m');
    [|done|exact H].
  intros j t t' _ Ht E. apply Hb in E. set_solver.
Qed.

(** What the [j]-th round of a loop of marking steps marks stays marked. *)
Lemma for_loop_marked (n : nat) (body : Z -> Marking -> option Marking)
    (j : Z) (x : Z) (m m' : Marking) :
  (forall k, sets_marks (body k)) ->
  (forall t t', body j t = Some t' -> x ∈ marked t') ->
  0 <= j < Z.of_nat n ->
  for_loop n 0 body m = Some m' -> x ∈ marked m'.
Proof.
  intros Hb Hj Hrange H.
  assert (Hinv : (fun k t => j < k -> x ∈ marked t) (0 + Z.of_nat n) m').
  { apply (for_loop_keeps (fun k t => j < k -> x ∈ marked t) body n 0 m m');
      [|lia|exact H].
    intros k t t' _ Ht E Hk.
    destruct (Z.eq_dec k j) as [->|Hne].
    - eapply Hj. exact E.
    - apply (Hb _ _ _ E). apply Ht. lia. }
  apply Hinv. lia.
Qed.

Definition markTable_body (h : gmap Z Obj) (table : Table) (i : Z)
    (m : Marking) : option Marking :=
  entry ← entries table !! Z.to_nat i;
  m' ← markObject h (pointer (key entry)) m;
  markValue h (value entry) m'.

Lemma markTable_body_grays (h : gmap Z Obj) (table : Table) (i : Z) :
  grays (markTable_body h table i).
Proof.
  unfold markTable_body.
  destruct (entries table !! Z.to_nat i) as [e|]; [|intros m m' [=]].
  apply (grays_bind (markObject h (pointer (key e)))
           (markValue h (value e)));
    [apply markObject_grays | apply markValue_grays].
Qed.

Lemma markTable_body_sets (h : gmap Z Obj) (table : Table) (i : Z) :
  sets_marks (markTable_body h table i).
Proof. apply grays_sets, markTable_body_grays. Qed.

Lemma markTable_grays (h : gmap Z Obj) (table : Table) :
  grays (markTable h table).
Proof.
  unfold markTable. apply for_loop_grays. intros j.
  apply (markTable_body_grays h table j).
Qed.

Lemma markTable_sets (h : gmap Z Obj) (table : Table) :
  sets_marks (markTable h table).
Proof. apply grays_sets, markTable_grays. Qed.

(** [markTable] marks the keys and the values of the entries. *)
Lemma markTable_marked (h : gmap Z Obj) (table : Table) (m m' : Marking)
    (i : Z) (e : Entry) :
  markTable h table m = Some m' ->
  0 <= i < capacity table -> entries table !! Z.to_nat i = Some e ->
  (forall k, key e = Some k -> k <> 0 -> k ∈ marked m')
  /\ (IS_OBJ (value e) = true -> AS_OBJ (value e) <> 0 ->
      AS_OBJ (value e) ∈ marked m').
Proof.
  intros H Hi He. unfold markTable in H.
  split.
  - intros k Hk Hk0.
    apply (for_loop_marked (Z.to_nat (capacity table))
             (markTable_body h table) i k m m');
      [apply markTable_body_sets| |lia|exact H].
    intros t t' Hb. unfold markTable_body in Hb. rewrite He in Hb.
    simpl in Hb. rewrite Hk in Hb. simpl in Hb.
    destruct (markObject h k t) as [t1|] eqn:E; [|discriminate]. simpl in Hb.
    apply (markValue_sets _ _ _ _ Hb).
    eapply markObject_marked; eassumption.
  - intros Hv Hv0.
    apply (for_loop_marked (Z.to_nat (capacity table))
             (markTable_body h table) i _ m m');
      [apply markTable_body_sets| |lia|exact H].
    intros t t' Hb. unfold markTable_body in Hb. rewrite He in Hb.
    simpl in Hb.
    destruct (markObject h (pointer (key e)) t) as [t1|] eqn:E;
      [|discriminate]. simpl in Hb.
    eapply markValue_marked; eassumption.
Qed.

(** The loop of [blackenObject] over the upvalues of a closure. *)
Definition markUpvalues_body (h : gmap Z Obj) (upvalues : list (option Z))
    (i : Z) (m : Marking) : option Marking :=
  u ← upvalues !! Z.to_nat i;
  markObject h (pointer u) m.

Lemma markUpvalues_body_grays (h : gmap Z Obj) (upvalues : list (option Z))
    (i : Z) :
  grays (markUpvalues_body h upvalues i).
Proof.
  unfold markUpvalues_body.
  destruct (upvalues !! Z.to_nat i) as [u|]; [|intros m m' [=]].
  apply markObject_grays.
Qed.

Lemma blackenObject_grays (h : gmap Z Obj) (x : Z) :
  grays (blackenObject h x).
Proof.
  unfold blackenObject.
  destruct (h !! x) as [o|]; [|intros m m' [=]]. cbn [mbind option_bind].
  destruct o as [ar uc ch nm|fn|len chs hs|loc cl|fn ups uc|nm ms|kl fs|rc mt].
  - apply (grays_bind (markObject h (pointer nm)) (markArray h (constants ch)));
      [apply markObject_grays | apply markArray_grays].
  - apply grays_ret.
  - apply grays_ret.
  - apply markValue_grays.
  - apply (grays_bind (markObject h fn)
             (for_loop (Z.to_nat uc) 0 (markUpvalues_body h ups)));
      [apply markObject_grays|].
    apply for_loop_grays. intros j. apply markUpvalues_body_grays.
  - apply (grays_bind (markObject h nm) (markTable h ms));
      [apply markObject_grays | apply markTable_grays].
  - apply (grays_bind (markObject h kl) (markTable h fs));
      [apply markObject_grays | apply markTable_grays].
  - apply (grays_bind (markValue h rc) (markObject h mt));
      [apply markValue_grays | apply markObject_grays].
Qed.

Lemma blackenObject_sets (h : gmap Z Obj) (x : Z) :
  sets_marks (blackenObject h x).
Proof. apply grays_sets, blackenObject_grays. Qed.

(** The pointers in the fields of an object. *)
Inductive table_refers (t : Table) (b : Z) : Prop :=
| refers_key (i : Z) (e : Entry) :
    0 <= i < capacity t -> entries t !! Z.to_nat i = Some e ->
    key e = Some b -> table_refers t b
| refers_value (i : Z) (e : Entry) :
    0 <= i < capacity t -> entries t !! Z.to_nat i = Some e ->
    IS_OBJ (value e) = true -> AS_OBJ (value e) = b -> table_refers t b.

Inductive refers : Obj -> Z -> Prop :=
| refers_receiver (receiver : Value) (method : Z) :
    IS_OBJ receiver = true ->
    refers (ObjBoundMethod receiver method) (AS_OBJ receiver)
| refers_method (receiver : Value) (method : Z) :
    refers (ObjBoundMethod receiver method) method
| refers_class_name (name : Z) (methods : Table) :
    refers (ObjClass name methods) name
| refers_class_methods (name : Z) (methods : Table) (b : Z) :
    table_refers methods b -> refers (ObjClass name methods) b
| refers_function (function : Z) (upvalues : list (option Z)) (n : Z) :
    refers (ObjClosure function upvalues n) function
| refers_upvalue (function : Z) (upvalues : list (option Z)) (n i u : Z) :
    0 <= i < n -> upvalues !! Z.to_nat i = Some (Some u) ->
    refers (ObjClosure function upvalues n) u
| refers_function_name (arity count : Z) (chunk : Chunk) (name : Z) :
    refers (ObjFunction arity count chunk (Some name)) name
| refers_constant (arity count : Z) (chunk : Chunk) (name : option Z)
    (v : Value) :
    v ∈ constants chunk -> IS_OBJ v = true ->
    refers (ObjFunction arity count chunk name) (AS_OBJ v)
| refers_klass (klass : Z) (fields : Table) :
    refers (ObjInstance klass fields) klass
| refers_fields (klass : Z) (fields : Table) (b : Z) :
    table_refers fields b -> refers (ObjInstance klass fields) b
| refers_closed (location : Location) (closed : Value) :
    IS_OBJ closed = true ->
    refers (ObjUpvalue location closed) (AS_OBJ closed).

Lemma markTable_refers (h : gmap Z Obj) (t : Table) (m m' : Marking) (b : Z) :
  markTable h t m = Some m' -> table_refers t b -> b <> 0 -> b ∈ marked m'.
Proof.
  intros H [i e Hi He Hk|i e Hi He Hv <-] Hb.
  - destruct (markTable_marked _ _ _ _ i e H Hi He) as [Hkey _]. auto.
  - destruct (markTable_marked _ _ _ _ i e H Hi He) as [_ Hval]. auto.
Qed.

(** [blackenObject] marks what the object refers to. *)
Lemma blackenObject_marked (h : gmap Z Obj) (x b : Z) (o : Obj)
    (m m' : Marking) :
  blackenObject h x m = Some m' -> h !! x = Some o -> refers o b ->
  b <> 0 -> b ∈ marked m'.
Proof.
  intros H Hx Hr Hb. unfold blackenObject in H. rewrite Hx in H.
  cbn [mbind option_bind] in H.
  destruct Hr as [rc mt Hobj|rc mt|nm ms|nm ms b Ht|fn ups n
                 |fn ups n i u Hi Hu|ar uc ch nm|ar uc ch nm v Hv Hobj
                 |kl fs|kl fs b Ht|loc cl Hobj].
  - destruct (markValue h rc m) as [m1|] eqn:E; [|discriminate]. simpl in H.
    apply (markObject_sets _ _ _ _ H).
    eapply markValue_marked; eassumption.
  - destruct (markValue h rc m) as [m1|] eqn:E; [|discriminate]. simpl in H.
    eapply markObject_marked; eassumption.
  - destruct (markObject h nm m) as [m1|] eqn:E; [|discriminate]. simpl in H.
    apply (markTable_sets _ _ _ _ H).
    eapply markObject_marked; eassumption.
  - destruct (markObject h nm m) as [m1|] eqn:E; [|discriminate]. simpl in H.
    eapply markTable_refers; eassumption.
  - destruct (markObject h fn m) as [m1|] eqn:E; [|discriminate]. simpl in H.
    apply (for_loop_sets _ _ (markUpvalues_body h ups)
             (fun j => grays_sets _ (markUpvalues_body_grays h ups j)) _ _ H).
    eapply markObject_marked; eassumption.
  - destruct (markObject h fn m) as [m1|] eqn:E; [|discriminate]. simpl in H.
    apply (for_loop_marked (Z.to_nat n) (markUpvalues_body h ups) i u m1 m');
      [intros j; apply grays_sets, markUpvalues_body_grays| |lia|exact H].
    intros t t' Hbody. unfold markUpvalues_body in Hbody.
    rewrite Hu in Hbody. simpl in Hbody.
    eapply markObject_marked; eassumption.
  - change (pointer (Some nm)) with nm in H.
    destruct (markObject h nm m) as [m1|] eqn:E; [|discriminate]. simpl in H.
    apply (markArray_sets _ _ _ _ H).
    eapply markObject_marked; eassumption.
  - destruct (markObject h (pointer nm) m) as [m1|] eqn:E; [|discriminate].
    simpl in H. eapply markArray_marked; eassumption.
  - destruct (markObject h kl m) as [m1|] eqn:E; [|discriminate]. simpl in H.
    apply (markTable_sets _ _ _ _ H).
    eapply markObject_marked; eassumption.
  - destruct (markObject h kl m) as [m1|] eqn:E; [|discriminate]. simpl in H.
    eapply markTable_refers; eassumption.
  - eapply markValue_marked; eassumption.
Qed.

(** Black objects: marked, and so is everything they refer to. *)
Definition black (h : gmap Z Obj) (m : Marking) (a : Z) : Prop :=
  exists o, h !! a = Some o
            /\ forall b, refers o b -> b <> 0 -> b ∈ marked m.

(** The tricolour invariant: a marked object is on the gray stack or
    black. *)
Definition tricolour (h : gmap Z Obj) (m : Marking) : Prop :=
  forall a, a ∈ marked m -> a ∈ grayStack m \/ black h m a.

Lemma black_mono (h : gmap Z Obj) (m m' : Marking) (a : Z) :
  marked m ⊆ marked m' -> black h m a -> black h m' a.
Proof.
  intros Hsub (o & Ho & Hrefs). exists o. split; [exact Ho|].
  intros b Hb Hb0. apply Hsub. auto.
Qed.

Lemma grays_tricolour (f : Marking -> option Marking) (h : gmap Z Obj)
    (m m' : Marking) :
  grays f -> f m = Some m' -> tricolour h m -> tricolour h m'.
Proof.
  intros Hf H Hinv a Ha. destruct (Hf m m' H) as (F1 & F2 & F3).
  destruct (F2 a Ha) as [Ham|Hag]; [|left; exact Hag].
  destruct (Hinv a Ham) as [Hg|Hb]; [left; auto|].
  right. eapply black_mono; eassumption.
Qed.

Lemma traceReferences_sets (fuel : nat) (h : gmap Z Obj) :
  sets_marks (traceReferences fuel h).
Proof.
  induction fuel as [|fuel IH]; intros m m' H; simpl in H; [discriminate|].
  destruct (grayStack m) as [|x rest]; [injection H as <-; done|].
  destruct (blackenObject h x _) as [m1|] eqn:E; [|discriminate].
  simpl in H. apply blackenObject_sets in E. apply IH in H.
  simpl in E. set_solver.
Qed.

(** When [traceReferences] returns, every marked object is black. *)
Lemma traceReferences_black (fuel : nat) (h : gmap Z Obj) :
  forall m m', traceReferences fuel h m = Some m' -> tricolour h m ->
               forall a, a ∈ marked m' -> black h m' a.
Proof.
  induction fuel as [|fuel IH]; intros m m' H Hinv; simpl in H;
    [discriminate|].
  destruct (grayStack m) as [|x rest] eqn:Hgray.
  - injection H as <-. intros a Ha.
    destruct (Hinv a Ha) as [Hg|Hb]; [|exact Hb].
    rewrite Hgray in Hg. inversion Hg.
  - destruct (blackenObject h x _) as [m1|] eqn:E; [|discriminate].
    simpl in H. apply (IH m1 m' H).
    destruct (blackenObject_grays h x _ _ E) as (F1 & F2 & F3).
    cbn [marked grayStack] in F1, F2, F3.
    assert (Hx : black h m1 x).
    { destruct (h !! x) as [o|] eqn:Hx.
      - exists o. split; [exact Hx|]. intros b Hb Hb0.
        exact (blackenObject_marked h x b o _ m1 E Hx Hb Hb0).
      - unfold blackenObject in E. rewrite Hx in E. discriminate. }
    intros a Ha. destruct (F2 a Ha) as [Ham|Hag]; [|left; exact Hag].
    destruct (Hinv a Ham) as [Hg|Hb].
    + rewrite Hgray in Hg. apply elem_of_cons in Hg as [->|Hg].
      * right. exact Hx.
      * left. auto.
    + right. eapply black_mono; eassumption.
Qed.

(** The roots: what [markRoots] marks itself. *)
Inductive root (vm : VM) (a : Z) : Prop :=
| root_stack (i : Z) (v : Value) :
    0 <= i < stackTop vm -> stack vm !! Z.to_nat i = Some v ->
    IS_OBJ v = true -> AS_OBJ v = a -> root vm a
| root_frame (i : Z) (frame : CallFrame) :
    0 <= i < frameCount vm -> frames vm !! Z.to_nat i = Some frame ->
    closure frame = a -> root vm a
| root_upvalue : a ∈ openUpvalues vm -> root vm a
| root_global_key (i : Z) (e : Entry) :
    0 <= i < capacity (globals vm) ->
    entries (globals vm) !! Z.to_nat i = Some e ->
    key e = Some a -> root vm a
| root_global_value (i : Z) (e : Entry) :
    0 <= i < capacity (globals vm) ->
    entries (globals vm) !! Z.to_nat i = Some e ->
    IS_OBJ (value e) = true -> AS_OBJ (value e) = a -> root vm a
| root_compiler : a ∈ compilers vm -> root vm a
| root_initString : a = initString vm -> root vm a.

Lemma markRoots_sets (vm : VM) : sets_marks (markRoots vm).
Proof.
  intros m m' H. unfold markRoots in H.
  destruct (for_loop _ 0 _ m) as [m1|] eqn:E1; [|discriminate]. simpl in H.
  destruct (for_loop _ 0 _ m1) as [m2|] eqn:E2; [|discriminate]. simpl in H.
  destruct (markObjects _ _ m2) as [m3|] eqn:E3; [|discriminate]. simpl in H.
  destruct (markTable _ _ m3) as [m4|] eqn:E4; [|discriminate]. simpl in H.
  destruct (markObjects _ _ m4) as [m5|] eqn:E5; [|discriminate]. simpl in H.
  apply for_loop_sets in E1.
  2:{ intros j t t' Hb. destruct (stack vm !! Z.to_nat j); [|discriminate].
      eapply markValue_sets; eassumption. }
  apply for_loop_sets in E2.
  2:{ intros j t t' Hb. destruct (frames vm !! Z.to_nat j); [|discriminate].
      eapply markObject_sets; eassumption. }
  apply markObjects_sets in E3. apply markTable_sets in E4.
  apply markObjects_sets in E5. apply markObject_sets in H.
  set_solver.
Qed.

Lemma markRoots_marked (vm : VM) (m m' : Marking) (a : Z) :
  markRoots vm m = Some m' -> root vm a -> a <> 0 -> a ∈ marked m'.
Proof.
  intros H Hroot Ha. unfold markRoots in H.
  destruct (for_loop _ 0 _ m) as [m1|] eqn:E1; [|discriminate]. simpl in H.
  destruct (for_loop _ 0 _ m1) as [m2|] eqn:E2; [|discriminate]. simpl in H.
  destruct (markObjects _ _ m2) as [m3|] eqn:E3; [|discriminate]. simpl in H.
  destruct (markTable _ _ m3) as [m4|] eqn:E4; [|discriminate]. simpl in H.
  destruct (markObjects _ _ m4) as [m5|] eqn:E5; [|discriminate]. simpl in H.
  assert (S2 : marked m1 ⊆ marked m2).
  { apply for_loop_sets in E2; [exact E2|].
    intros j t t' Hb. destruct (frames vm !! Z.to_nat j); [|discriminate].
    eapply markObject_sets; eassumption. }
  pose proof (markObjects_sets _ _ _ _ E3) as S3.
  pose proof (markTable_sets _ _ _ _ E4) as S4.
  pose proof (markObjects_sets _ _ _ _ E5) as S5.
  pose proof (markObject_sets _ _ _ _ H) as S6.
  destruct Hroot as [i v Hi Hv Hobj <- | i frame Hi Hf <- | Hin | i e Hi He Hk
                    | i e Hi He Hobj <- | Hin | ->].
  - apply S6, S5, S4, S3, S2.
    refine (for_loop_marked (Z.to_nat (stackTop vm)) _ i (AS_OBJ v) m m1
              _ _ _ E1); [| |lia].
    + intros j t t' Hb. destruct (stack vm !! Z.to_nat j); [|discriminate].
      eapply markValue_sets; eassumption.
    + intros t t' Hb. rewrite Hv in Hb. simpl in Hb.
      eapply markValue_marked; eassumption.
  - apply S6, S5, S4, S3.
    refine (for_loop_marked (Z.to_nat (frameCount vm)) _ i (closure frame)
              m1 m2 _ _ _ E2); [| |lia].
    + intros j t t' Hb. destruct (frames vm !! Z.to_nat j); [|discriminate].
      eapply markObject_sets; eassumption.
    + intros t t' Hb. rewrite Hf in Hb. simpl in Hb.
      eapply markObject_marked; eassumption.
  - apply S6, S5, S4.
    eapply markObjects_marked; eassumption.
  - apply S6, S5.
    destruct (markTable_marked _ _ _ _ i e E4 Hi He) as [Hkey _].
    apply Hkey; assumption.
  - apply S6, S5.
    destruct (markTable_marked _ _ _ _ i e E4 Hi He) as [_ Hval].
    apply Hval; assumption.
  - apply S6.
    eapply markObjects_marked; eassumption.
  - eapply markObject_marked; eassumption.
Qed.

Lemma markRoots_grays (vm : VM) : grays (markRoots vm).
Proof.
  unfold markRoots.
  apply (grays_bind (for_loop (Z.to_nat (stackTop vm)) 0 _)).
  { apply for_loop_grays. intros j m m' H.
    destruct (stack vm !! Z.to_nat j); [|discriminate].
    exact (markValue_grays _ _ _ _ H). }
  apply (grays_bind (for_loop (Z.to_nat (frameCount vm)) 0 _)).
  { apply for_loop_grays. intros j m m' H.
    destruct (frames vm !! Z.to_nat j); [|discriminate].
    exact (markObject_grays _ _ _ _ H). }
  apply (grays_bind (markObjects (heap vm) (openUpvalues vm)));
    [apply markObjects_grays|].
  apply (grays_bind (markTable (heap vm) (globals vm)));
    [apply markTable_grays|].
  apply (grays_bind (markObjects (heap vm) (compilers vm)));
    [apply markObjects_grays|].
  apply markObject_grays.
Qed.

(** *** The end of [traceReferences].

    The gray objects and the objects whose mark bit is not set are the
    work that is left to the collector. *)
Definition work (h : gmap Z Obj) (m : Marking) : nat :=
  (length (grayStack m) + size (dom h ∖ marked m))%nat.

(** A marking step moves an object from the unmarked ones to the gray
    stack, or does nothing. *)
Definition keeps_work (h : gmap Z Obj) (f : Marking -> option Marking)
    : Prop :=
  forall m m', f m = Some m' -> work h m' = work h m.

Lemma keeps_work_ret (h : gmap Z Obj) : keeps_work h Some.
Proof. intros m m' [= <-]. reflexivity. Qed.

Lemma keeps_work_bind (h : gmap Z Obj) (f g : Marking -> option Marking) :
  keeps_work h f -> keeps_work h g ->
  keeps_work h (fun m => m' ← f m; g m').
Proof.
  intros Hf Hg m m'' H. destruct (f m) as [m'|] eqn:E; [|discriminate].
  simpl in H. rewrite (Hg _ _ H). exact (Hf _ _ E).
Qed.

Lemma markObject_work (h : gmap Z Obj) (x : Z) :
  keeps_work h (markObject h x).
Proof.
  intros m m' H. unfold markObject in H.
  destruct (x =? 0); [injection H as <-; reflexivity|].
  destruct (h !! x) as [o|] eqn:Hx; [|discriminate]. simpl in H.
  destruct (bool_decide (x ∈ marked m)) eqn:E; injection H as <-;
    [reflexivity|].
  apply bool_decide_eq_false in E.
  unfold work. cbn [marked grayStack length].
  assert (Hsplit : dom h ∖ marked m
                   = {[x]} ∪ dom h ∖ ({[x]} ∪ marked m)).
  { apply set_eq. intros a.
    rewrite elem_of_union, elem_of_singleton, !elem_of_difference,
      elem_of_union, elem_of_singleton, elem_of_dom.
    split.
    - intros [Hd Hn]. destruct (decide (a = x)) as [->|Hne]; [left; done|].
      right. split; [done|]. intros [?|?]; done.
    - intros [->|[Hd Hn]]; [split; [eauto|done]|].
      split; [done|]. intros ?. apply Hn. right. done. }
  assert (Hdisj : ({[x]} : gset Z) ## dom h ∖ ({[x]} ∪ marked m)).
  { intros a Ha Hb. apply elem_of_difference in Hb as [_ Hb].
    apply Hb, elem_of_union. left. exact Ha. }
  pose proof (size_union (C := gset Z) _ _ Hdisj) as Hsize.
  rewrite size_singleton in Hsize. rewrite Hsplit, Hsize. lia.
Qed.

Lemma markValue_work (h : gmap Z Obj) (v : Value) :
  keeps_work h (markValue h v).
Proof.
  unfold markValue. destruct (IS_OBJ v);
    [apply markObject_work | apply keeps_work_ret].
Qed.

Lemma markArray_work (h : gmap Z Obj) (values : list Value) :
  keeps_work h (markArray h values).
Proof.
  induction values as [|v rest IH]; cbn [markArray].
  - apply keeps_work_ret.
  - apply keeps_work_bind; [apply markValue_work | exact IH].
Qed.

Lemma markObjects_work (h : gmap Z Obj) (l : list Z) :
  keeps_work h (markObjects h l).
Proof.
  induction l as [|x rest IH]; cbn [markObjects].
  - apply keeps_work_ret.
  - apply keeps_work_bind; [apply markObject_work | exact IH].
Qed.

Lemma for_loop_work (h : gmap Z Obj) (n : nat) (i : Z)
    (body : Z -> Marking -> option Marking) :
  (forall j, keeps_work h (body j)) -> keeps_work h (for_loop n i body).
Proof.
  intros Hb. revert i. induction n as [|n IH]; intros i; cbn [for_loop].
  - apply keeps_work_ret.
  - apply keeps_work_bind; [apply Hb | apply IH].
Qed.

Lemma markTable_work (h : gmap Z Obj) (table : Table) :
  keeps_work h (markTable h table).
Proof.
  unfold markTable. apply for_loop_work. intros j.
  change (keeps_work h (markTable_body h table j)). unfold markTable_body.
  destruct (entries table !! Z.to_nat j) as [e|]; [|intros m m' [=]].
  apply (keeps_work_bind h (markObject h (pointer (key e)))
           (markValue h (value e)));
    [apply markObject_work | apply markValue_work].
Qed.

Lemma blackenObject_work (h : gmap Z Obj) (x : Z) :
  keeps_work h (blackenObject h x).
Proof.
  unfold blackenObject.
  destruct (h !! x) as [o|]; [|intros m m' [=]]. cbn [mbind option_bind].
  destruct o as [ar uc ch nm|fn|len chs hs|loc cl|fn ups uc|nm ms|kl fs|rc mt].
  - apply (keeps_work_bind h (markObject h (pointer nm))
             (markArray h (constants ch)));
      [apply markObject_work | apply markArray_work].
  - apply keeps_work_ret.
  - apply keeps_work_ret.
  - apply markValue_work.
  - apply (keeps_work_bind h (markObject h fn)
             (for_loop (Z.to_nat uc) 0 (markUpvalues_body h ups)));
      [apply markObject_work|].
    apply for_loop_work. intros j. unfold markUpvalues_body.
    destruct (ups !! Z.to_nat j) as [u|]; [|intros m m' [=]].
    apply markObject_work.
  - apply (keeps_work_bind h (markObject h nm) (markTable h ms));
      [apply markObject_work | apply markTable_work].
  - apply (keeps_work_bind h (markObject h kl) (markTable h fs));
      [apply markObject_work | apply markTable_work].
  - apply (keeps_work_bind h (markValue h rc) (markObject h mt));
      [apply markValue_work | apply markObject_work].
Qed.

Lemma markRoots_work (vm : VM) : keeps_work (heap vm) (markRoots vm).
Proof.
  unfold markRoots.
  apply (keeps_work_bind _ (for_loop (Z.to_nat (stackTop vm)) 0 _)).
  { apply for_loop_work. intros j m m' H.
    destruct (stack vm !! Z.to_nat j); [|discriminate].
    exact (markValue_work _ _ _ _ H). }
  apply (keeps_work_bind _ (for_loop (Z.to_nat (frameCount vm)) 0 _)).
  { apply for_loop_work. intros j m m' H.
    destruct (frames vm !! Z.to_nat j); [|discriminate].
    exact (markObject_work _ _ _ _ H). }
  apply (keeps_work_bind _ (markObjects (heap vm) (openUpvalues vm)));
    [apply markObjects_work|].
  apply (keeps_work_bind _ (markTable (heap vm) (globals vm)));
    [apply markTable_work|].
  apply (keeps_work_bind _ (markObjects (heap vm) (compilers vm)));
    [apply markObjects_work|].
  apply markObject_work.
Qed.

(** Each round of [traceReferences] takes one object from the gray
    stack, so the loop is at its end after as many rounds as there is
    work: a larger bound gives the same run. *)
Lemma traceReferences_rounds (h : gmap Z Obj) (fuel fuel' : nat) :
  forall m, (work h m < fuel)%nat -> (work h m < fuel')%nat ->
            traceReferences fuel h m = traceReferences fuel' h m.
Proof.
  revert fuel'. induction fuel as [|fuel IH]; intros fuel' m H H'; [lia|].
  destruct fuel' as [|fuel']; [lia|]. cbn [traceReferences].
  destruct (grayStack m) as [|x rest] eqn:Hg; [reflexivity|].
  destruct (blackenObject h x {| marked := marked m; grayStack := rest |})
    as [m'|] eqn:Hb; [|reflexivity].
  cbn [mbind option_bind].
  apply blackenObject_work in Hb.
  assert (work h m' = pred (work h m)) as Hw.
  { rewrite Hb. unfold work. rewrite Hg. reflexivity. }
  assert (0 < work h m)%nat by (unfold work; rewrite Hg; simpl; lia).
  apply IH; lia.
Qed.

(** The bound of [collectGarbage] is such a bound. *)
Lemma collectGarbage_rounds (vm : VM) (m : Marking) (fuel : nat) :
  markRoots vm {| marked := ∅; grayStack := [] |} = Some m ->
  (size (heap vm) < fuel)%nat ->
  traceReferences fuel (heap vm) m
  = traceReferences (S (size (heap vm))) (heap vm) m.
Proof.
  intros H Hfuel. apply markRoots_work in H.
  assert (work (heap vm) m = size (heap vm)) as Hw.
  { rewrite H. unfold work. cbn [marked grayStack length].
    rewrite difference_empty_L, size_dom. reflexivity. }
  apply traceReferences_rounds; lia.
Qed.

(** And the loop ends with an empty gray stack. *)
Lemma traceReferences_done (fuel : nat) (h : gmap Z Obj) :
  forall m m', traceReferences fuel h m = Some m' -> grayStack m' = [].
Proof.
  induction fuel as [|fuel IH]; intros m m' H; [discriminate|].
  cbn [traceReferences] in H.
  destruct (grayStack m) as [|x rest] eqn:Hg; [injection H as <-; exact Hg|].
  destruct (blackenObject h x {| marked := marked m; grayStack := rest |})
    as [m1|]; [|discriminate].
  exact (IH _ _ H).
Qed.

(** The objects that the machine can get at: the roots, and what a
    reachable object refers to. *)
Inductive reachable (vm : VM) : Z -> Prop :=
| reachable_root (a : Z) : root vm a -> reachable vm a
| reachable_ref (a b : Z) (o : Obj) :
    reachable vm a -> heap vm !! a = Some o -> refers o b ->
    reachable vm b.

(** The part of the machine that memory management does not write. *)
Definition machine_of (vm : VM) :=
  (frames vm, frameCount vm, stack vm, stackTop vm, globals vm,
   initString vm, openUpvalues vm, compilers vm, nextObj vm, errors vm,
   printed vm).

Lemma account_machine (oldSize newSize : Z) (vm : VM) :
  machine_of (account oldSize newSize vm) = machine_of vm
  /\ heap (account oldSize newSize vm) = heap vm
  /\ strings (account oldSize newSize vm) = strings vm
  /\ objects (account oldSize newSize vm) = objects vm
  /\ nextGC (account oldSize newSize vm) = nextGC vm.
Proof. repeat split. Qed.

Lemma freeObject_machine (x : Z) (vm vm' : VM) :
  freeObject x vm = Some vm' ->
  machine_of vm' = machine_of vm /\ strings vm' = strings vm
  /\ heap vm' = delete x (heap vm).
Proof.
  unfold freeObject. intros H.
  destruct (heap vm !! x) as [o|]; [|discriminate]. simpl in H.
  injection H as <-. destruct o; repeat split.
Qed.

(** [sweep] frees unmarked objects only, and writes no other object. *)
Lemma sweep_loop_spec (marks : gset Z) (l : list Z) :
  forall vm l' vm',
    sweep_loop l marks vm = Some (l', vm') ->
    machine_of vm' = machine_of vm /\ strings vm' = strings vm
    /\ (forall a, a ∈ marks -> heap vm' !! a = heap vm !! a)
    /\ (forall a o, heap vm' !! a = Some o -> heap vm !! a = Some o).
Proof.
  induction l as [|x rest IH]; intros vm l' vm' H; simpl in H.
  - injection H as <- <-. repeat split; auto.
  - destruct (heap vm !! x) as [o|] eqn:Hx; [|discriminate]. simpl in H.
    destruct (bool_decide (x ∈ marks)) eqn:Hm.
    + destruct (sweep_loop rest marks vm) as [[l1 vm1]|] eqn:E; [|discriminate].
      simpl in H. injection H as <- <-. exact (IH _ _ _ E).
    + apply bool_decide_eq_false in Hm.
      destruct (freeObject x vm) as [vm1|] eqn:E; [|discriminate].
      simpl in H. apply freeObject_machine in E as (Em & Es & Eh).
      destruct (IH _ _ _ H) as (Im & Is & Ik & Isub).
      split; [congruence|]. split; [congruence|]. split.
      * intros a Ha. rewrite (Ik a Ha), Eh.
        apply lookup_delete_ne. intros ->. contradiction.
      * intros a o' Ha. apply Isub in Ha. rewrite Eh in Ha.
        apply lookup_delete_Some in Ha as [_ Ha]. exact Ha.
Qed.

(** What a request for memory does to the machine: [vm'] is [vm] after
    the request.  Nothing but the heap, the list of objects, the table of
    strings and the two counters is written; no object appears or
    changes; a reachable object stays. *)
Record reallocated (vm vm' : VM) : Prop := {
  realloc_machine : machine_of vm' = machine_of vm;
  realloc_heap : forall a o, heap vm' !! a = Some o -> heap vm !! a = Some o;
  realloc_reachable :
    heap vm !! 0 = None ->
    forall a, reachable vm a -> heap vm' !! a = heap vm !! a
}.

Lemma reallocated_refl (vm : VM) : reallocated vm vm.
Proof. split; auto. Qed.

Lemma root_machine (vm vm' : VM) (a : Z) :
  machine_of vm' = machine_of vm -> root vm a -> root vm' a.
Proof.
  unfold machine_of. intros Hm Hroot.
  injection Hm as Hf Hfc Hs Hst Hg Hi Ho Hc _ _ _.
  destruct Hroot as [i v Hi' Hv Hobj Ha | i frame Hi' Hfr Ha | Hin
                    | i e Hi' He Hk | i e Hi' He Hobj Ha | Hin | Ha].
  - apply (root_stack vm' a i v); congruence.
  - apply (root_frame vm' a i frame); congruence.
  - apply root_upvalue. congruence.
  - apply (root_global_key vm' a i e); congruence.
  - apply (root_global_value vm' a i e); congruence.
  - apply root_compiler. congruence.
  - apply root_initString. congruence.
Qed.

Lemma reachable_machine (vm vm' : VM) (a : Z) :
  machine_of vm' = machine_of vm -> heap vm' = heap vm ->
  reachable vm a -> reachable vm' a.
Proof.
  intros Hm Hh. induction 1 as [a Hroot|a b o _ IH Ha Hb].
  - apply reachable_root. eapply root_machine; eassumption.
  - apply (reachable_ref vm' a b o); [exact IH| |exact Hb]. congruence.
Qed.

(** The collector keeps the reachable objects, and changes none. *)
Lemma collectGarbage_reallocated (vm vm' : VM) :
  collectGarbage vm = Some (tt, vm') -> reallocated vm vm'.
Proof.
  unfold collectGarbage, sweep.
  unfold mbind, M_bind, mret, M_ret, get, put, lift.
  intros H.
  destruct (markRoots vm _) as [m0|] eqn:E0; [|discriminate].
  destruct (traceReferences _ _ m0) as [m1|] eqn:E1; [|discriminate].
  destruct (keys_read _ _) as [[]|]; [|discriminate].
  destruct (tableRemoveWhite _ _ _) as [s|] eqn:E2; [|discriminate].
  simpl in H.
  destruct (sweep_loop _ _ _) as [[l1 vm1]|] eqn:E3; [|discriminate].
  simpl in H. injection H as <-.
  apply sweep_loop_spec in E3 as (Em & Es & Ek & Esub).
  cbn [set_strings heap] in Ek, Esub.
  split.
  - exact Em.
  - exact Esub.
  - intros Hnull a Ha. cbn [heap set_memory set_objects].
    assert (Hblack : forall x, x ∈ marked m1 -> black (heap vm) m1 x).
    { apply (traceReferences_black _ _ _ _ E1).
      apply (grays_tricolour _ _ _ _ (markRoots_grays vm) E0).
      intros x Hx. cbn [marked] in Hx. set_solver. }
    assert (Hmarked : forall x, reachable vm x -> x <> 0 -> x ∈ marked m1).
    { clear a Ha. induction 1 as [x Hroot|x y o _ IH Hx Hy]; intros Hne.
      - apply (traceReferences_sets _ _ _ _ E1).
        eapply markRoots_marked; eassumption.
      - assert (Hx0 : x <> 0) by (intros ->; congruence).
        destruct (Hblack x (IH Hx0)) as (o' & Ho' & Hrefs).
        assert (o' = o) as -> by congruence. auto. }
    destruct (Z.eq_dec a 0) as [->|Hne].
    + rewrite Hnull. destruct (heap vm1 !! 0) as [o|] eqn:E; [|reflexivity].
      apply Esub in E. congruence.
    + apply Ek. auto.
Qed.

Lemma account_reallocated (oldSize newSize : Z) (vm : VM) :
  reallocated vm (account oldSize newSize vm).
Proof. split; auto. Qed.

Lemma reallocate_reallocated (oldSize newSize : Z) (vm vm' : VM) :
  reallocate oldSize newSize vm = Some (tt, vm') -> reallocated vm vm'.
Proof.
  unfold reallocate.
  unfold mbind, M_bind, mret, M_ret, get, put, lift.
  intros H.
  destruct (oldSize <? newSize).
  - destruct (nextGC _ <? bytesAllocated _).
    + apply collectGarbage_reallocated in H. destruct H as [Hm Hh Hr].
      split.
      * exact Hm.
      * exact Hh.
      * intros Hnull a Ha. apply (Hr Hnull a).
        apply (reachable_machine vm); [reflexivity|reflexivity|exact Ha].
    + injection H as <-. apply account_reallocated.
  - injection H as <-. apply account_reallocated.
Qed.

Lemma reallocated_root (vm vm' : VM) (a : Z) :
  reallocated vm vm' -> heap vm !! 0 = None -> root vm a ->
  heap vm' !! a = heap vm !! a.
Proof.
  intros [_ _ Hr] Hnull Hroot. apply (Hr Hnull). apply reachable_root.
  exact Hroot.
Qed.



End Collector.

(** ** The open-upvalue list. *)
Section OpenUpvalues.
Import Value Table VM.

Ltac unfold_M :=
  unfold mbind, M_bind, mret, M_ret, get, put, lift in *.

(** [locs] are the stack slots of the open upvalues, in list order. *)
Definition slots_are (h : gmap Z Obj) (l locs : list Z) : Prop :=
  Forall2 (fun u loc => location_of h u = Some loc) l locs.

(** Strictly descending: sorted, and no slot occurs twice. *)
Definition descending (locs : list Z) : Prop :=
  StronglySorted (fun a b => a > b) locs.

(** The invariant of [vm.openUpvalues]: every node is an open upvalue on a
    slot of the stack, the slots are strictly descending along the list,
    and the allocator hands out addresses that are not in use. *)
Record upvalues_inv (vm : VM) : Prop := {
  inv_slots : exists locs,
    slots_are (heap vm) (openUpvalues vm) locs
    /\ descending locs
    /\ Forall (fun loc => 0 <= loc < Z.of_nat (length (stack vm))) locs;
  inv_fresh : forall a, nextObj vm <= a -> heap vm !! a = None
}.

Lemma descending_cons (x : Z) (locs : list Z) :
  descending (x :: locs) <-> Forall (fun y => x > y) locs /\ descending locs.
Proof. apply StronglySorted_cons. Qed.

Lemma slots_are_functional (h : gmap Z Obj) (l locs locs' : list Z) :
  slots_are h l locs -> slots_are h l locs' -> locs = locs'.
Proof.
  intros H. revert locs'. induction H as [|u loc l locs Hu _ IH];
    intros locs' H'; inversion H'; subst; [reflexivity|].
  f_equal; [congruence | auto].
Qed.

(** The walk of [captureUpvalue] stops at the first node whose slot is not
    above [local]. *)
Lemma captureUpvalue_walk_spec (h : gmap Z Obj) (local : Z) (l locs : list Z) :
  slots_are h l locs ->
  exists before after lb la,
    captureUpvalue_walk h local l = Some (before, after)
    /\ l = before ++ after /\ locs = lb ++ la
    /\ slots_are h before lb /\ slots_are h after la
    /\ Forall (fun x => x > local) lb
    /\ match la with x :: _ => x <= local | [] => True end.
Proof.
  induction 1 as [|u loc l locs Hu Hrest IH].
  - exists [], [], [], []. simpl.
    split; [reflexivity|]. split; [reflexivity|]. split; [reflexivity|].
    split; [constructor|]. split; [constructor|]. split; [constructor|exact I].
  - simpl. rewrite Hu. simpl.
    destruct (Z.gtb_spec loc local) as [Hgt|Hle].
    + destruct IH as (before & after & lb & la & Hw & -> & -> & Hb & Ha & Hf & Hh).
      rewrite Hw. simpl.
      exists (u :: before), after, (loc :: lb), la.
      split; [reflexivity|]. split; [reflexivity|]. split; [reflexivity|].
      split; [constructor; assumption|]. split; [assumption|].
      split; [constructor; [lia | assumption] | assumption].
    + exists [], (u :: l), [], (loc :: locs).
      split; [reflexivity|]. split; [reflexivity|]. split; [reflexivity|].
      split; [constructor|]. split; [constructor; assumption|].
      split; [constructor | lia].
Qed.

Lemma slots_are_elem (h : gmap Z Obj) (l locs : list Z) (u : Z) :
  slots_are h l locs -> u ∈ l ->
  exists loc, loc ∈ locs /\ location_of h u = Some loc.
Proof.
  induction 1 as [|u0 loc l locs Hu _ IH]; intros Hin.
  - inversion Hin.
  - apply elem_of_cons in Hin as [->|Hin].
    + exists loc. split; [left | assumption].
    + destruct (IH Hin) as (loc' & Hl & Hu'). exists loc'.
      split; [right; assumption | assumption].
Qed.

Lemma location_of_is_Some (h : gmap Z Obj) (u loc : Z) :
  location_of h u = Some loc -> h !! u <> None.
Proof. unfold location_of. intros H Hn. rewrite Hn in H. discriminate. Qed.

Lemma location_of_insert_ne (h : gmap Z Obj) (a u : Z) (o : Obj) :
  a <> u -> location_of (<[a := o]> h) u = location_of h u.
Proof. intros Hne. unfold location_of. rewrite lookup_insert_ne; done. Qed.

Lemma slots_are_insert_other (h : gmap Z Obj) (l locs : list Z) (a : Z) (o : Obj) :
  slots_are h l locs -> a ∉ l -> slots_are (<[a := o]> h) l locs.
Proof.
  induction 1 as [|u loc l locs Hu _ IH]; intros Hnin; constructor.
  - rewrite location_of_insert_ne; [assumption|].
    intros ->. apply Hnin. left.
  - apply IH. intros Hin. apply Hnin. right. assumption.
Qed.

Lemma slots_are_not_fresh (h : gmap Z Obj) (l locs : list Z) (a : Z) :
  slots_are h l locs -> h !! a = None -> a ∉ l.
Proof.
  intros Hs Hn Hin. destruct (slots_are_elem _ _ _ _ Hs Hin) as (loc & _ & Hl).
  eapply location_of_is_Some; eassumption.
Qed.


(** The allocator: the addresses from [vm.nextObj] on are not in use, and
    [NULL] is not the address of an object. *)
Record allocator_inv (vm : VM) : Prop := {
  alloc_fresh : forall a, nextObj vm <= a -> heap vm !! a = None;
  alloc_null : heap vm !! 0 = None;
  alloc_next : 0 < nextObj vm
}.

(** The order of the list alone: every node is an open upvalue, and the
    slots are strictly descending along the list. *)
Definition open_sorted (vm : VM) : Prop :=
  exists locs, slots_are (heap vm) (openUpvalues vm) locs /\ descending locs.

Lemma upvalues_inv_sorted (vm : VM) : upvalues_inv vm -> open_sorted vm.
Proof. intros [(locs & Hs & Hd & _) _]. exists locs. auto. Qed.

Lemma slots_are_frame (h h' : gmap Z Obj) (l locs : list Z) :
  slots_are h l locs -> (forall u, u ∈ l -> h' !! u = h !! u) ->
  slots_are h' l locs.
Proof.
  induction 1 as [|u loc l locs Hu _ IH]; intros Hsame; constructor.
  - unfold location_of in *. rewrite Hsame by left. assumption.
  - apply IH. intros u' Hin. apply Hsame. right. assumption.
Qed.

(** A request for memory keeps the open upvalues: they are roots. *)
Lemma reallocated_open (vm vm0 : VM) (u : Z) :
  reallocated vm vm0 -> heap vm !! 0 = None -> u ∈ openUpvalues vm ->
  heap vm0 !! u = heap vm !! u.
Proof.
  intros Hre Hnull Hin. apply (reallocated_root vm vm0 u Hre Hnull).
  apply root_upvalue. exact Hin.
Qed.

Lemma reallocated_slots (vm vm0 : VM) (locs : list Z) :
  reallocated vm vm0 -> heap vm !! 0 = None ->
  slots_are (heap vm) (openUpvalues vm) locs ->
  slots_are (heap vm0) (openUpvalues vm) locs.
Proof.
  intros Hre Hnull Hs. apply (slots_are_frame (heap vm)); [exact Hs|].
  intros u Hin. apply reallocated_open; assumption.
Qed.

Lemma reallocated_allocator (vm vm0 : VM) :
  reallocated vm vm0 -> allocator_inv vm -> allocator_inv vm0.
Proof.
  intros [Hm Hsub _] [Hfresh Hnull Hnext].
  unfold machine_of in Hm. injection Hm as _ _ _ _ _ _ _ _ Hnx _ _.
  assert (Hnone : forall a, heap vm !! a = None -> heap vm0 !! a = None).
  { intros a Ha. destruct (heap vm0 !! a) as [o|] eqn:E; [|reflexivity].
    apply Hsub in E. congruence. }
  split.
  - intros a Ha. apply Hnone, Hfresh. lia.
  - apply Hnone, Hnull.
  - lia.
Qed.

(** [captureUpvalue] on a slot that already has an open upvalue returns that
    upvalue and changes nothing. *)
Lemma captureUpvalue_existing (vm : VM) (local u : Z) :
  open_sorted vm -> u ∈ openUpvalues vm ->
  location_of (heap vm) u = Some local ->
  captureUpvalue local vm = Some (u, vm).
Proof.
  intros (locs & Hs & Hd) Hin Hu.
  destruct (captureUpvalue_walk_spec (heap vm) local _ _ Hs)
    as (before & after & lb & la & Hw & Hl & -> & Hb & Ha & Hgt & Hhd).
  unfold captureUpvalue. unfold_M. rewrite Hw. simpl.
  rewrite Hl in Hin. apply elem_of_app in Hin as [Hin|Hin].
  - destruct (slots_are_elem _ _ _ _ Hb Hin) as (loc & Hloc & Hu').
    rewrite Hu in Hu'. injection Hu' as <-.
    rewrite Forall_forall in Hgt. specialize (Hgt _ Hloc). lia.
  - apply StronglySorted_app in Hd as (_ & _ & Hda).
    destruct Ha as [|u0 x after la' Hu0 Ha']; [inversion Hin|].
    apply elem_of_cons in Hin as [->|Hin].
    + rewrite bool_decide_true by assumption. reflexivity.
    + destruct (slots_are_elem _ _ _ _ Ha' Hin) as (loc & Hloc & Hu').
      rewrite Hu in Hu'. injection Hu' as <-.
      apply descending_cons in Hda as [Hf _].
      rewrite Forall_forall in Hf. specialize (Hf _ Hloc). lia.
Qed.

(** The machine once [captureUpvalue] has linked the upvalue it created
    for [local] between [before] and [after]; [vm0] is the machine after
    the request for its memory. *)
Definition with_upvalue (vm0 : VM) (local : Z) (before after : list Z) : VM :=
  set_upvalues
    (set_objects vm0 (nextObj vm0 :: objects vm0)
       (<[nextObj vm0 := ObjUpvalue (StackSlot local) NIL_VAL]> (heap vm0)))
    (before ++ nextObj vm0 :: after)
    (<[nextObj vm0 := ObjUpvalue (StackSlot local) NIL_VAL]> (heap vm0))
    (nextObj vm0 + 1).

(** [captureUpvalue] on a slot without an open upvalue allocates one and
    links it between the nodes above the slot and the nodes below it. *)
Lemma captureUpvalue_new (vm vm0 : VM) (local : Z) :
  open_sorted vm -> allocator_inv vm ->
  reallocate 0 sizeof_ObjUpvalue vm = Some (tt, vm0) ->
  (forall u, u ∈ openUpvalues vm -> location_of (heap vm) u <> Some local) ->
  exists before after,
    openUpvalues vm = before ++ after
    /\ captureUpvalue local vm
       = Some (nextObj vm, with_upvalue vm0 local before after)
    /\ heap vm !! nextObj vm = None
    /\ open_sorted (with_upvalue vm0 local before after)
    /\ allocator_inv (with_upvalue vm0 local before after)
    /\ exists lb la,
         slots_are (heap vm) before lb /\ slots_are (heap vm) after la
         /\ Forall (fun x => x > local) lb /\ Forall (fun x => x < local) la
         /\ slots_are (heap (with_upvalue vm0 local before after))
              (before ++ nextObj vm :: after) (lb ++ local :: la).
Proof.
  intros (locs & Hs & Hd) Halloc Hre Hnone.
  pose proof (reallocate_reallocated _ _ _ _ Hre) as Hrel.
  pose proof (reallocated_allocator _ _ Hrel Halloc) as [Hfresh0 Hnull0 Hnext0].
  pose proof (reallocated_slots _ _ _ Hrel (alloc_null _ Halloc) Hs) as Hs0.
  destruct Hrel as [Hm _ _].
  unfold machine_of in Hm. injection Hm as _ _ _ _ _ _ Hopen _ Hnx _ _.
  destruct Halloc as [Hfresh Hnull Hnext].
  destruct (captureUpvalue_walk_spec (heap vm) local _ _ Hs)
    as (before & after & lb & la & Hw & Hl & -> & Hb & Ha & Hgt & Hhd).
  assert (Hnew : heap vm !! nextObj vm = None) by (apply Hfresh; lia).
  assert (Hnew0 : heap vm0 !! nextObj vm0 = None) by (apply Hfresh0; lia).
  assert (Hlt : Forall (fun y => y < local) la).
  { apply StronglySorted_app in Hd as (_ & _ & Hda).
    destruct Ha as [|u0 x after la' Hu0 Ha']; [constructor|].
    assert (x <> local).
    { intros ->. apply (Hnone u0); [|assumption].
      rewrite Hl. apply elem_of_app. right. left. }
    apply descending_cons in Hda as [Hf _].
    constructor; [lia|]. eapply Forall_impl; [exact Hf|]. simpl. intros y Hy. lia. }
  assert (Hslots : slots_are (heap (with_upvalue vm0 local before after))
                     (before ++ nextObj vm :: after) (lb ++ local :: la)).
  { rewrite Hl in Hs0.
    apply Forall2_app_inv_l in Hs0 as (lb0 & la0 & Hb0 & Ha0 & Heq).
    assert (length lb0 = length lb).
    { apply Forall2_length in Hb0, Hb. congruence. }
    apply app_inj_1 in Heq as [<- <-]; [|congruence].
    assert (Hnin : nextObj vm0 ∉ before ++ after).
    { rewrite <- Hl. eapply slots_are_not_fresh; [exact Hs|]. congruence. }
    apply not_elem_of_app in Hnin as [Hnb Hna].
    unfold with_upvalue. cbn [heap set_upvalues]. rewrite <- Hnx.
    apply Forall2_app; [apply slots_are_insert_other; assumption|].
    constructor; [|apply slots_are_insert_other; assumption].
    unfold location_of. rewrite lookup_insert_eq. reflexivity. }
  exists before, after.
  split; [assumption|]. split; [|split; [assumption|split; [|split]]].
  - unfold captureUpvalue, newUpvalue, allocateObject, linkObject.
    unfold_M. rewrite Hw. simpl.
    assert (Hfound : match after with
                     | upvalue :: _ =>
                         if bool_decide (location_of (heap vm) upvalue = Some local)
                         then Some upvalue else None
                     | [] => None
                     end = None).
    { destruct after as [|u0 after']; [reflexivity|].
      rewrite bool_decide_false; [reflexivity|].
      apply Hnone. rewrite Hl. apply elem_of_app. right. left. }
    rewrite Hfound. rewrite Hre. simpl. rewrite <- Hnx. reflexivity.
  - exists (lb ++ local :: la). split.
    + unfold with_upvalue at 2. cbn [openUpvalues set_upvalues].
      rewrite Hnx. exact Hslots.
    + apply StronglySorted_app in Hd as (Hcross & Hdb & Hda).
      apply StronglySorted_app. split; [|split].
      * intros x1 x2 H1 H2. rewrite Forall_forall in Hgt, Hlt.
        apply elem_of_cons in H2 as [->|H2].
        -- apply Hgt. assumption.
        -- specialize (Hgt _ H1). specialize (Hlt _ H2). lia.
      * assumption.
      * apply descending_cons. split; [|assumption].
        eapply Forall_impl; [exact Hlt|]. simpl. intros y Hy. lia.
  - split; unfold with_upvalue; cbn [heap nextObj set_upvalues].
    + intros a Ha'. rewrite lookup_insert_ne by lia. apply Hfresh0. lia.
    + rewrite lookup_insert_ne by lia. exact Hnull0.
    + lia.
  - exists lb, la. auto.
Qed.

(** What [closeUpvalues] did to a node it removed: the slot was at or above
    [last], and the upvalue now owns the value the slot held. *)
Definition closed_from (last : Z) (vm vm' : VM) (u loc : Z) : Prop :=
  last <= loc
  /\ exists v, index (stack vm) loc = Some v
               /\ heap vm' !! u = Some (ObjUpvalue ClosedField v).

(** The loop of [closeUpvalues] removes a prefix of the list: the nodes on
    slots at or above [last]; the nodes that stay are on slots below it. *)
Lemma closeUpvalues_loop_spec (last : Z) :
  forall (l locs : list Z) (vm : VM),
    slots_are (heap vm) l locs -> descending locs ->
    Forall (fun loc => 0 <= loc < Z.of_nat (length (stack vm))) locs ->
    exists vm' closed lc lr,
      closeUpvalues_loop last l vm = Some vm'
      /\ l = closed ++ openUpvalues vm' /\ locs = lc ++ lr
      /\ slots_are (heap vm') (openUpvalues vm') lr
      /\ Forall2 (closed_from last vm vm') closed lc
      /\ Forall (fun x => x < last) lr
      /\ stack vm' = stack vm /\ nextObj vm' = nextObj vm
      /\ (forall a, a ∉ l -> heap vm' !! a = heap vm !! a).
Proof.
  induction l as [|u rest IH]; intros locs vm Hs Hd Hr.
  - inversion Hs; subst. exists (set_upvalues vm [] (heap vm) (nextObj vm)), [], [], [].
    simpl. repeat split; try constructor.
  - inversion Hs as [|? loc ? locs' Hu Hrest]; subst.
    apply descending_cons in Hd as [Hbelow Hd'].
    apply Forall_cons in Hr as [Hloc Hr'].
    simpl. rewrite Hu. simpl.
    destruct (Z.geb_spec loc last) as [Hge|Hlt].
    + assert (Hidx : exists v, index (stack vm) loc = Some v).
      { unfold index. destruct (Z.leb_spec0 0 loc); [|lia].
        apply lookup_lt_is_Some. lia. }
      destruct Hidx as [v Hv]. rewrite Hv. simpl.
      assert (Hnin : u ∉ rest).
      { intros Hin. destruct (slots_are_elem _ _ _ _ Hrest Hin) as (loc' & Hl' & Hu').
        rewrite Hu in Hu'. injection Hu' as <-.
        rewrite Forall_forall in Hbelow. specialize (Hbelow _ Hl'). lia. }
      set (vm2 := set_upvalues vm rest
                    (<[u := ObjUpvalue ClosedField v]> (heap vm)) (nextObj vm)).
      destruct (IH locs' vm2) as
        (vm' & closed & lc & lr & Hloop & Hl & Hlocs & Hs' & Hc & Hlr & Hst & Hnx & Hframe).
      { simpl. apply slots_are_insert_other; assumption. }
      { assumption. }
      { assumption. }
      exists vm', (u :: closed), (loc :: lc), lr.
      split; [exact Hloop|]. split; [simpl; congruence|]. split; [simpl; congruence|].
      split; [assumption|]. split.
      { constructor.
        - split; [lia|]. exists v. split; [assumption|].
          rewrite Hframe by assumption. simpl. apply lookup_insert_eq.
        - eapply Forall2_impl; [exact Hc|]. intros u' loc' (Hle & v' & Hv' & Hh).
          split; [assumption|]. exists v'. split; assumption. }
      split; [assumption|]. split; [assumption|]. split; [assumption|].
      intros a Ha. apply not_elem_of_cons in Ha as [Hne Ha].
      rewrite Hframe by assumption. simpl. apply lookup_insert_ne. congruence.
    + exists (set_upvalues vm (u :: rest) (heap vm) (nextObj vm)), [], [], (loc :: locs').
      simpl. split; [reflexivity|]. split; [reflexivity|]. split; [reflexivity|].
      split; [assumption|]. split; [constructor|]. split.
      { constructor; [lia|]. eapply Forall_impl; [exact Hbelow|]. simpl. intros y Hy. lia. }
      repeat split.
Qed.

(** Under the invariant no two nodes of the list are on the same slot. *)
Lemma slots_unique (h : gmap Z Obj) (l locs : list Z) (u1 u2 loc : Z) :
  slots_are h l locs -> descending locs ->
  u1 ∈ l -> u2 ∈ l ->
  location_of h u1 = Some loc -> location_of h u2 = Some loc -> u1 = u2.
Proof.
  induction 1 as [|u x l locs Hu Hrest IH]; intros Hd H1 H2 Hl1 Hl2.
  - inversion H1.
  - apply descending_cons in Hd as [Hbelow Hd'].
    rewrite Forall_forall in Hbelow.
    apply elem_of_cons in H1 as [->|H1]; apply elem_of_cons in H2 as [->|H2].
    + reflexivity.
    + destruct (slots_are_elem _ _ _ _ Hrest H2) as (loc' & Hin & Hl').
      assert (loc' = loc) by congruence. assert (x = loc) by congruence.
      subst. specialize (Hbelow _ Hin). lia.
    + destruct (slots_are_elem _ _ _ _ Hrest H1) as (loc' & Hin & Hl').
      assert (loc' = loc) by congruence. assert (x = loc) by congruence.
      subst. specialize (Hbelow _ Hin). lia.
    + apply IH; assumption.
Qed.

Lemma resetStack_inv (vm vm' : VM) :
  (forall a, nextObj vm <= a -> heap vm !! a = None) ->
  resetStack vm = Some (tt, vm') -> upvalues_inv vm'.
Proof.
  intros Hfresh [= <-]. split; simpl; [|assumption].
  exists []. split; [constructor|]. split; constructor.
Qed.

(** [captureUpvalue], when the request for the memory of a new upvalue
    is served, returns an open upvalue on the slot and keeps the
    invariant. *)
Lemma captureUpvalue_inv (vm vm0 : VM) (local : Z) :
  upvalues_inv vm -> heap vm !! 0 = None -> 0 < nextObj vm ->
  reallocate 0 sizeof_ObjUpvalue vm = Some (tt, vm0) ->
  0 <= local < Z.of_nat (length (stack vm)) ->
  exists u vm',
    captureUpvalue local vm = Some (u, vm')
    /\ upvalues_inv vm'
    /\ u ∈ openUpvalues vm'
    /\ location_of (heap vm') u = Some local
    /\ stack vm' = stack vm
    /\ ((u ∈ openUpvalues vm /\ vm' = vm)
        \/ (heap vm !! u = None
            /\ exists before after,
                 openUpvalues vm = before ++ after
                 /\ openUpvalues vm' = before ++ u :: after)).
Proof.
  intros Hinv Hnull Hnext Hre Hlocal.
  destruct (decide (Exists (fun u => location_of (heap vm) u = Some local)
                           (openUpvalues vm))) as [Hex|Hnex].
  - apply Exists_exists in Hex as (u & Hin & Hu).
    exists u, vm.
    split; [apply captureUpvalue_existing;
            [apply upvalues_inv_sorted|..]; assumption|].
    split; [assumption|]. split; [assumption|]. split; [assumption|].
    split; [reflexivity|].
    left. split; [assumption | reflexivity].
  - pose proof Hinv as [(locs & Hs & Hd & Hr) Hfresh].
    destruct (captureUpvalue_new vm vm0 local (upvalues_inv_sorted _ Hinv)
                {| alloc_fresh := Hfresh; alloc_null := Hnull;
                   alloc_next := Hnext |} Hre)
      as (before & after & Hl & Hc & Hnew & Hsorted & Halloc & Hslots).
    { intros u Hin Hu. apply Hnex. apply Exists_exists. eauto. }
    pose proof (reallocate_reallocated _ _ _ _ Hre) as [Hm _ _].
    unfold machine_of in Hm. injection Hm as _ _ Hst _ _ _ _ _ Hnx _ _.
    destruct Hslots as (lb & la & Hb & Ha & _ & _ & Hs').
    assert (locs = lb ++ la) as ->.
    { apply (slots_are_functional (heap vm) (openUpvalues vm)); [exact Hs|].
      rewrite Hl. apply Forall2_app; assumption. }
    exists (nextObj vm), (with_upvalue vm0 local before after).
    split; [assumption|].
    assert (Hopen : openUpvalues (with_upvalue vm0 local before after)
                    = before ++ nextObj vm :: after).
    { unfold with_upvalue. cbn [openUpvalues set_upvalues]. congruence. }
    split; [|split; [|split; [|split]]].
    + split.
      * exists (lb ++ local :: la). rewrite Hopen.
        split; [exact Hs'|]. split.
        -- destruct Hsorted as (locs' & Hs2 & Hd2). rewrite Hopen in Hs2.
           rewrite (slots_are_functional _ _ _ _ Hs' Hs2). exact Hd2.
        -- unfold with_upvalue. cbn [stack set_upvalues set_objects].
           rewrite Hst. apply Forall_app in Hr as [Hrb Hra].
           apply Forall_app. split; [assumption|]. constructor; assumption.
      * apply Halloc.
    + rewrite Hopen. apply elem_of_app. right. left.
    + unfold with_upvalue. cbn [heap set_upvalues]. unfold location_of.
      rewrite <- Hnx, lookup_insert_eq. reflexivity.
    + unfold with_upvalue. cbn [stack set_upvalues set_objects]. exact Hst.
    + right. split; [assumption|]. exists before, after. auto.
Qed.

Lemma closeUpvalues_inv (vm : VM) (last : Z) :
  upvalues_inv vm ->
  exists vm' closed,
    closeUpvalues last vm = Some (tt, vm')
    /\ upvalues_inv vm'
    /\ openUpvalues vm = closed ++ openUpvalues vm'
    /\ Forall (fun u => exists loc, location_of (heap vm) u = Some loc
                                    /\ closed_from last vm vm' u loc) closed
    /\ Forall (fun u => exists loc, location_of (heap vm') u = Some loc
                                    /\ loc < last) (openUpvalues vm').
Proof.
  intros [(locs & Hs & Hd & Hr) Hfresh].
  destruct (closeUpvalues_loop_spec last _ _ vm Hs Hd Hr)
    as (vm' & closed & lc & lr & Hloop & Hl & -> & Hs' & Hc & Hlr & Hst & Hnx & Hframe).
  exists vm', closed. unfold closeUpvalues. rewrite Hloop. simpl.
  split; [reflexivity|].
  apply StronglySorted_app in Hd as (_ & _ & Hdr).
  apply Forall_app in Hr as [_ Hrr].
  split; [|split; [assumption|split]].
  - split.
    + exists lr. rewrite Hst. auto.
    + intros a Ha. rewrite Hframe; [apply Hfresh; lia|].
      eapply slots_are_not_fresh; [exact Hs|]. apply Hfresh. lia.
  - rewrite Hl in Hs. apply Forall2_app_inv_l in Hs
      as (lc' & lr' & Hsc & Hsr & Heq).
    assert (length lc' = length lc).
    { apply Forall2_length in Hsc, Hc. congruence. }
    apply app_inj_1 in Heq as [-> ->]; [|congruence].
    clear -Hsc Hc. revert Hc. induction Hsc; intros Hc; inversion Hc; subst;
      constructor; eauto.
  - clear -Hs' Hlr. induction Hs'; inversion Hlr; subst; constructor; eauto.
Qed.

(** Whatever [captureUpvalue] returns, the list stays sorted. *)
Lemma captureUpvalue_sorted (vm vm' : VM) (local u : Z) :
  open_sorted vm -> allocator_inv vm ->
  captureUpvalue local vm = Some (u, vm') ->
  open_sorted vm' /\ allocator_inv vm'
  /\ u ∈ openUpvalues vm' /\ location_of (heap vm') u = Some local
  /\ length (stack vm') = length (stack vm).
Proof.
  intros Hsorted Halloc Hc.
  destruct (decide (Exists (fun u => location_of (heap vm) u = Some local)
                           (openUpvalues vm))) as [Hex|Hnex].
  - apply Exists_exists in Hex as (u0 & Hin & Hu).
    rewrite (captureUpvalue_existing vm local u0 Hsorted Hin Hu) in Hc.
    injection Hc as <- <-. auto.
  - destruct (reallocate 0 sizeof_ObjUpvalue vm) as [[[] vm0]|] eqn:Hre.
    + destruct (captureUpvalue_new vm vm0 local Hsorted Halloc Hre)
        as (before & after & Hl & Hc' & Hnew & Hsorted' & Halloc' & _).
      { intros u0 Hin Hu. apply Hnex. apply Exists_exists. eauto. }
      rewrite Hc' in Hc. injection Hc as <- <-.
      pose proof (reallocate_reallocated _ _ _ _ Hre) as [Hm _ _].
      unfold machine_of in Hm. injection Hm as _ _ Hst _ _ _ _ _ Hnx _ _.
      split; [assumption|]. split; [assumption|].
      unfold with_upvalue. cbn [openUpvalues heap stack set_upvalues set_objects].
      split; [rewrite Hnx; apply elem_of_app; right; left|].
      split; [|congruence].
      unfold location_of. rewrite <- Hnx, lookup_insert_eq. reflexivity.
    + exfalso. destruct Hsorted as (locs & Hs & _).
      destruct (captureUpvalue_walk_spec (heap vm) local _ _ Hs)
        as (before & after & lb & la & Hw & Hl & _).
      unfold captureUpvalue, newUpvalue, allocateObject in Hc.
      unfold_M. rewrite Hw in Hc. simpl in Hc.
      assert (Hfound : match after with
                       | upvalue :: _ =>
                           if bool_decide (location_of (heap vm) upvalue = Some local)
                           then Some upvalue else None
                       | [] => None
                       end = None).
      { destruct after as [|u0 after']; [reflexivity|].
        rewrite bool_decide_false; [reflexivity|].
        intros Hu. apply Hnex. apply Exists_exists. exists u0.
        split; [|exact Hu]. rewrite Hl. apply elem_of_app. right. left. }
      rewrite Hfound, Hre in Hc. discriminate.
Qed.

(** Whatever the loop of [closeUpvalues] returns, it has removed a prefix
    of the list, the nodes on slots at or above [last], and written the
    removed nodes only. *)
Lemma closeUpvalues_loop_sorted (last : Z) :
  forall (l locs : list Z) (vm vm' : VM),
    slots_are (heap vm) l locs -> descending locs ->
    closeUpvalues_loop last l vm = Some vm' ->
    exists closed lc lr,
      l = closed ++ openUpvalues vm' /\ locs = lc ++ lr
      /\ slots_are (heap vm') (openUpvalues vm') lr
      /\ Forall2 (closed_from last vm vm') closed lc
      /\ Forall (fun x => x < last) lr
      /\ stack vm' = stack vm /\ nextObj vm' = nextObj vm
      /\ (forall a, a ∉ l -> heap vm' !! a = heap vm !! a).
Proof.
  induction l as [|u rest IH]; intros locs vm vm' Hs Hd Hrun.
  - inversion Hs; subst. simpl in Hrun. injection Hrun as <-.
    exists [], [], []. simpl. repeat split; constructor.
  - inversion Hs as [|? loc ? locs' Hu Hrest]; subst.
    apply descending_cons in Hd as [Hbelow Hd'].
    simpl in Hrun. rewrite Hu in Hrun. simpl in Hrun.
    destruct (Z.geb_spec loc last) as [Hge|Hlt].
    + destruct (index (stack vm) loc) as [v|] eqn:Hv; [|discriminate].
      simpl in Hrun.
      assert (Hnin : u ∉ rest).
      { intros Hin.
        destruct (slots_are_elem _ _ _ _ Hrest Hin) as (loc' & Hl' & Hu').
        rewrite Hu in Hu'. injection Hu' as <-.
        rewrite Forall_forall in Hbelow. specialize (Hbelow _ Hl'). lia. }
      set (vm2 := set_upvalues vm rest
                    (<[u := ObjUpvalue ClosedField v]> (heap vm)) (nextObj vm))
        in Hrun.
      destruct (IH locs' vm2 vm'
                  (slots_are_insert_other _ _ _ u (ObjUpvalue ClosedField v)
                     Hrest Hnin) Hd' Hrun)
        as (closed & lc & lr & Hl & Hlocs & Hs' & Hc & Hlr & Hst & Hnx
            & Hframe).
      exists (u :: closed), (loc :: lc), lr.
      split; [simpl; congruence|]. split; [simpl; congruence|].
      split; [assumption|]. split.
      { constructor.
        - split; [lia|]. exists v. split; [assumption|].
          rewrite Hframe by assumption. simpl. apply lookup_insert_eq.
        - eapply Forall2_impl; [exact Hc|].
          intros u' loc' (Hle & v' & Hv' & Hh).
          split; [assumption|]. exists v'. split; assumption. }
      split; [assumption|]. split; [assumption|]. split; [assumption|].
      intros a Ha. apply not_elem_of_cons in Ha as [Hne Ha].
      rewrite Hframe by assumption. simpl. apply lookup_insert_ne. congruence.
    + injection Hrun as <-.
      exists [], [], (loc :: locs'). simpl.
      split; [reflexivity|]. split; [reflexivity|]. split; [assumption|].
      split; [constructor|]. split.
      { constructor; [lia|]. eapply Forall_impl; [exact Hbelow|].
        simpl. intros y Hy. lia. }
      repeat split.
Qed.

(** Whatever [closeUpvalues] returns, it has closed the upvalues on the
    slots at or above [last], a prefix of the list, and the rest of the
    list is as it was, and sorted. *)
Lemma closeUpvalues_sorted (vm vm' : VM) (last : Z) :
  open_sorted vm -> allocator_inv vm ->
  closeUpvalues last vm = Some (tt, vm') ->
  open_sorted vm' /\ allocator_inv vm'
  /\ length (stack vm') = length (stack vm)
  /\ exists closed,
       openUpvalues vm = closed ++ openUpvalues vm'
       /\ Forall (fun u => exists loc, location_of (heap vm) u = Some loc
                                       /\ closed_from last vm vm' u loc)
            closed
       /\ Forall (fun u => exists loc, location_of (heap vm') u = Some loc
                                       /\ loc < last) (openUpvalues vm').
Proof.
  intros (locs & Hs & Hd) [Hfresh Hnull Hnext] Hrun.
  unfold closeUpvalues in Hrun.
  destruct (closeUpvalues_loop last (openUpvalues vm) vm) as [vm1|] eqn:E;
    [|discriminate].
  simpl in Hrun. injection Hrun as ->.
  destruct (closeUpvalues_loop_sorted last _ _ _ _ Hs Hd E)
    as (closed & lc & lr & Hl & -> & Hs' & Hc & Hlr & Hst & Hnx & Hframe).
  apply StronglySorted_app in Hd as (_ & _ & Hdr).
  split; [exists lr; auto|]. split; [|split; [congruence|]].
  - split.
    + intros a Ha. rewrite Hframe; [apply Hfresh; lia|].
      eapply slots_are_not_fresh; [exact Hs|]. apply Hfresh. lia.
    + rewrite Hframe; [exact Hnull|].
      eapply slots_are_not_fresh; [exact Hs|]. exact Hnull.
    + lia.
  - exists closed. split; [assumption|]. split.
    + rewrite Hl in Hs. apply Forall2_app_inv_l in Hs
        as (lc' & lr' & Hsc & Hsr & Heq).
      assert (length lc' = length lc).
      { apply Forall2_length in Hsc, Hc. congruence. }
      apply app_inj_1 in Heq as [-> ->]; [|congruence].
      clear -Hsc Hc. revert Hc.
      induction Hsc; intros Hc; inversion Hc; subst; constructor; eauto.
    + clear -Hs' Hlr.
      induction Hs'; inversion Hlr; subst; constructor; eauto.
Qed.

End OpenUpvalues.

(** ** The instruction loop keeps the open upvalues sorted. *)
Section RunInvariant.
Import Value Table VM Object Interp Run.

Ltac unfold_M :=
  unfold mbind, M_bind, mret, M_ret, get, put, lift in *.

Create HintDb preserves discriminated.

(** What holds of the machine between two instructions. *)
Record machine_inv (vm : VM) : Prop := {
  inv_sorted : open_sorted vm;
  inv_alloc : allocator_inv vm
}.

(** A step that leaves the list and its nodes alone, and creates objects
    at addresses the allocator hands out. *)
Lemma machine_inv_frame (vm vm' : VM) :
  machine_inv vm ->
  openUpvalues vm' = openUpvalues vm ->
  (forall u, u ∈ openUpvalues vm -> location_of (heap vm) u <> None ->
             heap vm' !! u = heap vm !! u) ->
  (forall a, heap vm !! a = None -> nextObj vm' <= a \/ a = 0 ->
             heap vm' !! a = None) ->
  nextObj vm <= nextObj vm' ->
  machine_inv vm'.
Proof.
  intros [(locs & Hs & Hd) [Hfresh Hnull Hnext]] Ho Hh Hnew Hnx. split.
  - exists locs. rewrite Ho. split; [|exact Hd].
    eapply slots_are_frame; [exact Hs|]. intros u Hin.
    apply Hh; [exact Hin|].
    destruct (slots_are_elem _ _ _ _ Hs Hin) as (loc & _ & Hl). congruence.
  - split.
    + intros a Ha. apply Hnew; [apply Hfresh; lia | left; exact Ha].
    + apply Hnew; [exact Hnull | right; reflexivity].
    + lia.
Qed.

Lemma machine_inv_same (vm vm' : VM) :
  machine_inv vm -> openUpvalues vm' = openUpvalues vm ->
  heap vm' = heap vm -> nextObj vm' = nextObj vm -> machine_inv vm'.
Proof.
  intros Hinv Ho Hh Hn. apply (machine_inv_frame vm); [assumption|assumption| | |lia].
  - intros u _ _. rewrite Hh. reflexivity.
  - intros a Ha _. rewrite Hh. exact Ha.
Qed.

Lemma machine_inv_reset (vm vm' : VM) :
  machine_inv vm -> openUpvalues vm' = [] ->
  heap vm' = heap vm -> nextObj vm' = nextObj vm -> machine_inv vm'.
Proof.
  intros [_ [Hfresh Hnull Hnext]] Ho Hh Hn. split.
  - exists []. rewrite Ho. split; constructor.
  - split; rewrite ?Hh, ?Hn; assumption.
Qed.

(** An action of the machine that keeps the invariant, whatever it
    returns. *)
Definition preserves {A : Type} (m : M A) : Prop :=
  forall vm r vm', machine_inv vm -> m vm = Some (r, vm') -> machine_inv vm'.

Lemma preserves_ret {A : Type} (a : A) : preserves (mret a).
Proof. intros vm r vm' Hinv [= <- <-]. exact Hinv. Qed.

Lemma preserves_lift {A : Type} (o : option A) : preserves (lift o).
Proof.
  intros vm r vm' Hinv H. unfold lift in H. destruct o; [|discriminate].
  injection H as <- <-. exact Hinv.
Qed.

Lemma preserves_bind {A B : Type} (m : M A) (f : A -> M B) :
  preserves m -> (forall a, preserves (f a)) -> preserves (m ≫= f).
Proof.
  intros Hm Hf vm r vm' Hinv H. unfold mbind, M_bind in H.
  destruct (m vm) as [[a vm1]|] eqn:E; [|discriminate].
  exact (Hf a vm1 r vm' (Hm vm a vm1 Hinv E) H).
Qed.

(** The state that [get] returns is one in which the invariant holds,
    and so [put] of a state that differs from it in the stack, the frames
    or the tables keeps the invariant. *)
Lemma preserves_get {B : Type} (k : VM -> M B) :
  (forall x, machine_inv x -> preserves (k x)) -> preserves (get ≫= k).
Proof.
  intros Hk vm r vm' Hinv H. exact (Hk vm Hinv vm r vm' Hinv H).
Qed.

Lemma preserves_put (x : VM) : machine_inv x -> preserves (put x).
Proof. intros Hx vm r vm' _ [= <- <-]. exact Hx. Qed.

Lemma bind_Some {A B : Type} (m : M A) (f : A -> M B) (vm : VM) (r : B)
    (vm' : VM) :
  (m ≫= f) vm = Some (r, vm') ->
  exists a vm1, m vm = Some (a, vm1) /\ f a vm1 = Some (r, vm').
Proof.
  unfold mbind, M_bind. intros H.
  destruct (m vm) as [[a vm1]|]; [|discriminate]. eauto.
Qed.

Lemma deref_Some (p : Z) (vm vm1 : VM) (o : Obj) :
  deref p vm = Some (o, vm1) -> vm1 = vm /\ heap vm !! p = Some o.
Proof.
  unfold deref, mbind, M_bind, get, lift. intros H.
  destruct (heap vm !! p); [|discriminate]. injection H as <- <-. auto.
Qed.

Lemma lift_Some {A : Type} (o : option A) (vm vm1 : VM) (a : A) :
  lift o vm = Some (a, vm1) -> vm1 = vm /\ o = Some a.
Proof.
  unfold lift. intros H. destruct o; [|discriminate].
  injection H as <- <-. auto.
Qed.

Lemma get_Some (vm vm1 x : VM) : get vm = Some (x, vm1) -> x = vm /\ vm1 = vm.
Proof. intros [= <- <-]. auto. Qed.

Ltac inv_same :=
  match goal with
  | H : machine_inv ?x |- machine_inv _ =>
      apply (machine_inv_same x); [exact H | reflexivity..]
  end.

Ltac preserves_step :=
  match goal with
  | |- preserves (mret _) => apply preserves_ret
  | |- preserves (lift _) => apply preserves_lift
  | |- preserves (put _) => apply preserves_put; inv_same
  | |- preserves (mbind _ get) => apply preserves_get; intros ? ?
  | |- preserves (mbind _ _) => apply preserves_bind; [|intros ?]
  | |- preserves (if ?b then _ else _) => destruct b
  | |- preserves (match ?x with _ => _ end) => destruct x
  | |- preserves (let _ := _ in _) => cbv zeta
  | |- preserves _ => solve [auto with preserves]
  end.

Ltac preserves_tac := repeat preserves_step.

(** *** The stack, the frames and the error report. *)

Lemma resetStack_preserves : preserves resetStack.
Proof.
  unfold resetStack. apply preserves_get. intros x Hx.
  apply preserves_put. apply (machine_inv_reset x); [exact Hx|reflexivity..].
Qed.

#[local] Hint Resolve resetStack_preserves : preserves.

Lemma runtimeError_preserves (format : string) (args : list FormatArg) :
  preserves (runtimeError format args).
Proof. unfold runtimeError. preserves_tac. Qed.

Lemma push_preserves (v : Value) : preserves (push v).
Proof. unfold push. preserves_tac. Qed.

Lemma pop_preserves : preserves pop.
Proof. unfold pop. preserves_tac. Qed.

Lemma peek_preserves (distance : Z) : preserves (peek distance).
Proof. unfold peek. preserves_tac. Qed.

Lemma stackTop_set_preserves (i : Z) (v : Value) :
  preserves (stackTop_set i v).
Proof. unfold stackTop_set. preserves_tac. Qed.

Lemma deref_preserves (p : Z) : preserves (deref p).
Proof. unfold deref. preserves_tac. Qed.

#[local] Hint Resolve runtimeError_preserves push_preserves pop_preserves
  peek_preserves stackTop_set_preserves deref_preserves : preserves.

Lemma slot_get_preserves (i : Z) : preserves (slot_get i).
Proof. unfold slot_get. preserves_tac. Qed.

Lemma slot_set_preserves (i : Z) (v : Value) : preserves (slot_set i v).
Proof. unfold slot_set. preserves_tac. Qed.

Lemma current_frame_preserves : preserves current_frame.
Proof. unfold current_frame. preserves_tac. Qed.

Lemma printValue_preserves (v : Value) : preserves (printValue v).
Proof. unfold printValue. preserves_tac. Qed.

Lemma currentChunk_preserves : preserves currentChunk.
Proof. unfold currentChunk. preserves_tac. Qed.

#[local] Hint Resolve slot_get_preserves slot_set_preserves
  current_frame_preserves printValue_preserves currentChunk_preserves
  : preserves.

Lemma READ_BYTE_preserves : preserves READ_BYTE.
Proof. unfold READ_BYTE. preserves_tac. Qed.

#[local] Hint Resolve READ_BYTE_preserves : preserves.

Lemma READ_CONSTANT_preserves : preserves READ_CONSTANT.
Proof. unfold READ_CONSTANT. preserves_tac. Qed.

#[local] Hint Resolve READ_CONSTANT_preserves : preserves.

Lemma READ_STRING_preserves : preserves READ_STRING.
Proof. unfold READ_STRING. preserves_tac. Qed.

Lemma move_ip_preserves (delta : Z) : preserves (move_ip delta).
Proof. unfold move_ip. preserves_tac. Qed.

#[local] Hint Resolve READ_STRING_preserves move_ip_preserves : preserves.

Lemma READ_SHORT_preserves : preserves READ_SHORT.
Proof. unfold READ_SHORT. preserves_tac. Qed.

Lemma chars_of_preserves (p : Z) : preserves (chars_of p).
Proof. unfold chars_of. preserves_tac. Qed.

Lemma isObjType_preserves (v : Value) (type : ObjType) :
  preserves (isObjType v type).
Proof. unfold isObjType. preserves_tac. Qed.

Lemma methods_of_preserves (klass : Z) : preserves (methods_of klass).
Proof. unfold methods_of. preserves_tac. Qed.

Lemma closure_upvalue_preserves (clos slot : Z) :
  preserves (closure_upvalue clos slot).
Proof. unfold closure_upvalue. preserves_tac. Qed.

Lemma upvalueCount_of_preserves (function : Z) :
  preserves (upvalueCount_of function).
Proof. unfold upvalueCount_of. preserves_tac. Qed.

#[local] Hint Resolve READ_SHORT_preserves chars_of_preserves
  isObjType_preserves methods_of_preserves closure_upvalue_preserves
  upvalueCount_of_preserves : preserves.

Lemma call_preserves (clos argCount : Z) : preserves (call clos argCount).
Proof. unfold call. preserves_tac. Qed.

#[local] Hint Resolve call_preserves : preserves.

(** *** Memory. *)

Lemma reallocated_inv (vm vm0 : VM) :
  reallocated vm vm0 -> machine_inv vm -> machine_inv vm0.
Proof.
  intros Hre [(locs & Hs & Hd) Halloc]. split.
  - exists locs. split; [|exact Hd].
    pose proof (reallocated_slots _ _ _ Hre (alloc_null _ Halloc) Hs) as Hs0.
    destruct Hre as [Hm _ _]. unfold machine_of in Hm.
    injection Hm as _ _ _ _ _ _ Hopen _ _ _ _. rewrite Hopen. exact Hs0.
  - eapply reallocated_allocator; eassumption.
Qed.

Lemma reallocate_preserves (oldSize newSize : Z) :
  preserves (reallocate oldSize newSize).
Proof.
  intros vm [] vm' Hinv H.
  exact (reallocated_inv _ _ (reallocate_reallocated _ _ _ _ H) Hinv).
Qed.

Lemma collectGarbage_preserves : preserves collectGarbage.
Proof.
  intros vm [] vm' Hinv H.
  exact (reallocated_inv _ _ (collectGarbage_reallocated _ _ H) Hinv).
Qed.

#[local] Hint Resolve reallocate_preserves : preserves.

Lemma tableSet_memory_preserves (table : Table) :
  preserves (tableSet_memory table).
Proof. unfold tableSet_memory. preserves_tac. Qed.

Lemma linkObject_preserves (o : Obj) : preserves (linkObject o).
Proof.
  unfold linkObject. apply preserves_get. intros x Hx.
  apply preserves_bind; [|intros ?; apply preserves_ret].
  apply preserves_put.
  pose proof (inv_alloc _ Hx) as [Hfresh Hnull Hnext].
  apply (machine_inv_frame x); [exact Hx|reflexivity| | |simpl; lia].
  - intros u _ Hu. simpl. apply lookup_insert_ne. intros <-.
    apply Hu. unfold location_of. rewrite Hfresh by lia. reflexivity.
  - intros a Ha Hge. simpl in *. rewrite lookup_insert_ne by lia. exact Ha.
Qed.

#[local] Hint Resolve tableSet_memory_preserves linkObject_preserves
  : preserves.

Lemma allocateObject_preserves (size : Z) (o : Obj) :
  preserves (allocateObject size o).
Proof. unfold allocateObject. preserves_tac. Qed.

#[local] Hint Resolve allocateObject_preserves : preserves.

Lemma newBoundMethod_preserves (receiver : Value) (method : Z) :
  preserves (newBoundMethod receiver method).
Proof. unfold newBoundMethod. preserves_tac. Qed.

Lemma newClass_preserves (name : Z) : preserves (newClass name).
Proof. unfold newClass. preserves_tac. Qed.

Lemma newClosure_preserves (function : Z) : preserves (newClosure function).
Proof. unfold newClosure. preserves_tac. Qed.

Lemma newInstance_preserves (klass : Z) : preserves (newInstance klass).
Proof. unfold newInstance. preserves_tac. Qed.

#[local] Hint Resolve newBoundMethod_preserves newClass_preserves
  newClosure_preserves newInstance_preserves : preserves.

(** A write to an object that is not an open upvalue. *)
Lemma store_inv (vm vm' : VM) (p : Z) (o : Obj) :
  machine_inv vm -> location_of (heap vm) p = None ->
  store p o vm = Some (tt, vm') -> machine_inv vm'.
Proof.
  intros Hinv Hloc H. unfold store in H. unfold_M.
  destruct (heap vm !! p) as [old|] eqn:Hp; [|discriminate].
  injection H as <-.
  apply (machine_inv_frame vm); [exact Hinv|reflexivity| | |simpl; lia].
  - intros u _ Hu. simpl. apply lookup_insert_ne. intros <-. contradiction.
  - intros a Ha _. simpl. rewrite lookup_insert_ne by congruence. exact Ha.
Qed.

Lemma tableSet_strings_preserves (k : Z) (v : Value) :
  preserves (tableSet_strings k v).
Proof. unfold tableSet_strings. preserves_tac. Qed.

#[local] Hint Resolve tableSet_strings_preserves : preserves.

Lemma allocateString_preserves (chars : string) (length hash : Z) :
  preserves (allocateString chars length hash).
Proof. unfold allocateString. preserves_tac. Qed.

#[local] Hint Resolve allocateString_preserves : preserves.

Lemma takeString_preserves (chars : string) (length : Z) :
  preserves (takeString chars length).
Proof. unfold takeString. preserves_tac. Qed.

Lemma copyString_preserves (chars : string) (length : Z) :
  preserves (copyString chars length).
Proof. unfold copyString. preserves_tac. Qed.

#[local] Hint Resolve takeString_preserves : preserves.

Lemma concatenate_preserves : preserves concatenate.
Proof. unfold concatenate. preserves_tac. Qed.

#[local] Hint Resolve concatenate_preserves : preserves.

(** *** Upvalues. *)

Lemma captureUpvalue_preserves (local : Z) : preserves (captureUpvalue local).
Proof.
  intros vm u vm' [Hs Ha] H.
  destruct (captureUpvalue_sorted vm vm' local u Hs Ha H) as (Hs' & Ha' & _).
  split; assumption.
Qed.

Lemma closeUpvalues_preserves (last : Z) : preserves (closeUpvalues last).
Proof.
  intros vm [] vm' [Hs Ha] H.
  destruct (closeUpvalues_sorted vm vm' last Hs Ha H) as (Hs' & Ha' & _).
  split; assumption.
Qed.

#[local] Hint Resolve captureUpvalue_preserves closeUpvalues_preserves
  : preserves.

Lemma upvalue_get_preserves (upvalue : option Z) :
  preserves (upvalue_get upvalue).
Proof. unfold upvalue_get. preserves_tac. Qed.

(** A write through a closed upvalue is a write to an object that is not
    in the list. *)
Lemma upvalue_set_preserves (upvalue : option Z) (v : Value) :
  preserves (upvalue_set upvalue v).
Proof.
  intros vm r vm' Hinv H. unfold upvalue_set in H.
  apply bind_Some in H as (u & vm1 & Hu & H).
  apply lift_Some in Hu as [-> _].
  apply bind_Some in H as (o & vm1 & Ho & H).
  apply deref_Some in Ho as [-> Ho].
  destruct o as [| | |[slot|] closed| | | |];
    try (unfold lift in H; discriminate H).
  - exact (slot_set_preserves slot v vm r vm' Hinv H).
  - destruct r. eapply (store_inv vm vm' u); [exact Hinv| |exact H].
    unfold location_of. rewrite Ho. reflexivity.
Qed.

Lemma closure_upvalue_set_preserves (clos i : Z) (upvalue : option Z) :
  preserves (closure_upvalue_set clos i upvalue).
Proof.
  intros vm r vm' Hinv H. unfold closure_upvalue_set in H.
  apply bind_Some in H as (c & vm1 & Hc & H).
  apply deref_Some in Hc as [-> Hc].
  destruct c; try (unfold lift in H; discriminate H).
  apply bind_Some in H as (ups & vm1 & Hu & H).
  apply lift_Some in Hu as [-> _].
  destruct r. eapply (store_inv vm vm' clos); [exact Hinv| |exact H].
  unfold location_of. rewrite Hc. reflexivity.
Qed.

#[local] Hint Resolve upvalue_get_preserves upvalue_set_preserves
  closure_upvalue_set_preserves : preserves.

(** *** Tables that are fields of objects. *)

Lemma setField_preserves (instance name : Z) (value : Value) :
  preserves (setField instance name value).
Proof.
  unfold setField.
  apply preserves_bind; [apply deref_preserves|]. intros o.
  destruct o; try apply preserves_lift.
  apply preserves_bind; [apply tableSet_memory_preserves|]. intros _.
  intros vm r vm' Hinv H.
  apply bind_Some in H as (o & vm1 & Ho & H).
  apply deref_Some in Ho as [-> Ho].
  destruct o; try (unfold lift in H; discriminate H).
  apply bind_Some in H as (x & vm1 & Hx & H).
  apply get_Some in Hx as [-> ->].
  apply bind_Some in H as (t & vm1 & Ht & H).
  apply lift_Some in Ht as [-> _].
  apply bind_Some in H as ([] & vm1 & Hst & H).
  injection H as _ <-.
  eapply (store_inv vm vm1 instance); [exact Hinv| |exact Hst].
  unfold location_of. rewrite Ho. reflexivity.
Qed.

Lemma setMethod_preserves (klass name : Z) (value : Value) :
  preserves (setMethod klass name value).
Proof.
  unfold setMethod.
  apply preserves_bind; [apply deref_preserves|]. intros o.
  destruct o; try apply preserves_lift.
  apply preserves_bind; [apply tableSet_memory_preserves|]. intros _.
  intros vm r vm' Hinv H.
  apply bind_Some in H as (o & vm1 & Ho & H).
  apply deref_Some in Ho as [-> Ho].
  destruct o; try (unfold lift in H; discriminate H).
  apply bind_Some in H as (x & vm1 & Hx & H).
  apply get_Some in Hx as [-> ->].
  apply bind_Some in H as (t & vm1 & Ht & H).
  apply lift_Some in Ht as [-> _].
  apply bind_Some in H as ([] & vm1 & Hst & H).
  injection H as _ <-.
  eapply (store_inv vm vm1 klass); [exact Hinv| |exact Hst].
  unfold location_of. rewrite Ho. reflexivity.
Qed.

#[local] Hint Resolve setField_preserves setMethod_preserves : preserves.

Lemma tableAddAll_loop_preserves (fuel : nat) (from to : Z) :
  forall i, preserves (tableAddAll_loop fuel from to i).
Proof.
  induction fuel as [|fuel IH]; intros i; cbn [tableAddAll_loop].
  - apply preserves_lift.
  - preserves_tac; apply IH.
Qed.

Lemma tableAddAll_methods_preserves (from to : Z) :
  preserves (tableAddAll_methods from to).
Proof.
  unfold tableAddAll_methods. preserves_tac.
  apply tableAddAll_loop_preserves.
Qed.

Lemma defineMethod_preserves (name : Z) : preserves (defineMethod name).
Proof.
  unfold defineMethod.
  apply preserves_bind; [apply peek_preserves|]. intros method.
  apply preserves_bind; [apply peek_preserves|]. intros kv.
  cbv zeta.
  intros vm r vm' Hinv H.
  apply bind_Some in H as (o & vm1 & Ho & H).
  apply deref_Some in Ho as [-> Ho].
  destruct o; try (unfold lift in H; discriminate H).
  apply bind_Some in H as (x & vm1 & Hx & H).
  apply get_Some in Hx as [-> ->].
  apply bind_Some in H as (t & vm1 & Ht & H).
  apply lift_Some in Ht as [-> _].
  apply bind_Some in H as ([] & vm1 & Hput & H).
  injection Hput as <-.
  refine (preserves_bind pop (fun _ => mret tt) pop_preserves
            (fun _ => preserves_ret tt) _ r vm' _ H).
  apply (machine_inv_frame vm); [exact Hinv|reflexivity| | |simpl; lia].
  - intros u _ Hu. simpl. apply lookup_insert_ne. intros <-.
    apply Hu. unfold location_of. rewrite Ho. reflexivity.
  - intros a Ha _. simpl. rewrite lookup_insert_ne by congruence. exact Ha.
Qed.

Lemma defineMethod_memory_preserves : preserves defineMethod_memory.
Proof. unfold defineMethod_memory. preserves_tac. Qed.

#[local] Hint Resolve tableAddAll_methods_preserves defineMethod_preserves
  defineMethod_memory_preserves : preserves.

(** *** Calls. *)

Lemma callValue_preserves (callee : Value) (argCount : Z) :
  preserves (callValue callee argCount).
Proof. unfold callValue. preserves_tac. Qed.

Lemma invokeFromClass_preserves (klass name argCount : Z) :
  preserves (invokeFromClass klass name argCount).
Proof. unfold invokeFromClass. preserves_tac. Qed.

#[local] Hint Resolve callValue_preserves invokeFromClass_preserves
  : preserves.

Lemma invoke_preserves (name argCount : Z) : preserves (invoke name argCount).
Proof. unfold invoke. preserves_tac. Qed.

Lemma bindMethod_preserves (klass name : Z) :
  preserves (bindMethod klass name).
Proof. unfold bindMethod. preserves_tac. Qed.

#[local] Hint Resolve invoke_preserves bindMethod_preserves : preserves.

(** *** The cases of [run]. *)

Lemma numbers_on_top_preserves : preserves numbers_on_top.
Proof. unfold numbers_on_top. preserves_tac. Qed.

Lemma strings_on_top_preserves : preserves strings_on_top.
Proof. unfold strings_on_top. preserves_tac. Qed.

#[local] Hint Resolve numbers_on_top_preserves strings_on_top_preserves
  : preserves.

Lemma BINARY_OP_preserves {A : Type} (valueType : A -> Value)
    (op : spec_float -> spec_float -> A) :
  preserves (BINARY_OP valueType op).
Proof. unfold BINARY_OP. preserves_tac. Qed.

Lemma run_OP_GET_GLOBAL_preserves : preserves run_OP_GET_GLOBAL.
Proof. unfold run_OP_GET_GLOBAL. preserves_tac. Qed.

Lemma run_OP_DEFINE_GLOBAL_preserves : preserves run_OP_DEFINE_GLOBAL.
Proof. unfold run_OP_DEFINE_GLOBAL. preserves_tac. Qed.

Lemma run_OP_SET_GLOBAL_preserves : preserves run_OP_SET_GLOBAL.
Proof. unfold run_OP_SET_GLOBAL. preserves_tac. Qed.

Lemma run_OP_GET_PROPERTY_preserves : preserves run_OP_GET_PROPERTY.
Proof. unfold run_OP_GET_PROPERTY. preserves_tac. Qed.

Lemma run_OP_SET_PROPERTY_preserves : preserves run_OP_SET_PROPERTY.
Proof. unfold run_OP_SET_PROPERTY. preserves_tac. Qed.

Lemma run_OP_GET_SUPER_preserves : preserves run_OP_GET_SUPER.
Proof. unfold run_OP_GET_SUPER. preserves_tac. Qed.

Lemma run_OP_ADD_preserves : preserves run_OP_ADD.
Proof. unfold run_OP_ADD. preserves_tac. Qed.

Lemma run_OP_NEGATE_preserves : preserves run_OP_NEGATE.
Proof. unfold run_OP_NEGATE. preserves_tac. Qed.

Lemma run_OP_JUMP_preserves : preserves run_OP_JUMP.
Proof. unfold run_OP_JUMP. preserves_tac. Qed.

Lemma run_OP_JUMP_IF_FALSE_preserves : preserves run_OP_JUMP_IF_FALSE.
Proof. unfold run_OP_JUMP_IF_FALSE. preserves_tac. Qed.

Lemma run_OP_LOOP_preserves : preserves run_OP_LOOP.
Proof. unfold run_OP_LOOP. preserves_tac. Qed.

Lemma run_OP_CALL_preserves : preserves run_OP_CALL.
Proof. unfold run_OP_CALL. preserves_tac. Qed.

Lemma run_OP_INVOKE_preserves : preserves run_OP_INVOKE.
Proof. unfold run_OP_INVOKE. preserves_tac. Qed.

Lemma run_OP_SUPER_INVOKE_preserves : preserves run_OP_SUPER_INVOKE.
Proof. unfold run_OP_SUPER_INVOKE. preserves_tac. Qed.

Lemma run_OP_CLOSURE_upvalue_preserves (clos i : Z) :
  preserves (run_OP_CLOSURE_upvalue clos i).
Proof. unfold run_OP_CLOSURE_upvalue. preserves_tac. Qed.

Lemma for_M_preserves (body : Z -> M unit) (n : nat) :
  (forall i, preserves (body i)) -> forall i, preserves (for_M n i body).
Proof.
  intros Hbody. induction n as [|n IH]; intros i; cbn [for_M].
  - apply preserves_ret.
  - apply preserves_bind; [apply Hbody|]. intros _. apply IH.
Qed.

Lemma run_OP_CLOSURE_preserves : preserves run_OP_CLOSURE.
Proof.
  unfold run_OP_CLOSURE. preserves_tac.
  apply for_M_preserves. apply run_OP_CLOSURE_upvalue_preserves.
Qed.

Lemma run_OP_CLOSE_UPVALUE_preserves : preserves run_OP_CLOSE_UPVALUE.
Proof. unfold run_OP_CLOSE_UPVALUE. preserves_tac. Qed.

Lemma run_OP_RETURN_preserves : preserves run_OP_RETURN.
Proof. unfold run_OP_RETURN. preserves_tac. Qed.

Lemma run_OP_CLASS_preserves : preserves run_OP_CLASS.
Proof. unfold run_OP_CLASS. preserves_tac. Qed.

Lemma run_OP_INHERIT_preserves : preserves run_OP_INHERIT.
Proof. unfold run_OP_INHERIT. preserves_tac. Qed.

#[local] Hint Resolve BINARY_OP_preserves run_OP_GET_GLOBAL_preserves
  run_OP_DEFINE_GLOBAL_preserves run_OP_SET_GLOBAL_preserves
  run_OP_GET_PROPERTY_preserves run_OP_SET_PROPERTY_preserves
  run_OP_GET_SUPER_preserves run_OP_ADD_preserves run_OP_NEGATE_preserves
  run_OP_JUMP_preserves run_OP_JUMP_IF_FALSE_preserves run_OP_LOOP_preserves
  run_OP_CALL_preserves run_OP_INVOKE_preserves run_OP_SUPER_INVOKE_preserves
  run_OP_CLOSURE_preserves run_OP_CLOSE_UPVALUE_preserves
  run_OP_RETURN_preserves run_OP_CLASS_preserves run_OP_INHERIT_preserves
  : preserves.

(** Every case of the [switch] keeps the invariant. *)
Lemma run_case_preserves (instruction : option OpCode) :
  preserves (run_case instruction).
Proof.
  destruct instruction as [[]|]; cbn [run_case]; preserves_tac.
Qed.

Lemma run_step_preserves : preserves run_step.
Proof.
  unfold run_step. apply preserves_bind; [apply READ_BYTE_preserves|].
  intros instruction. apply run_case_preserves.
Qed.

Lemma run_steps_preserves (n : nat) : preserves (run_steps n).
Proof.
  induction n as [|n IH]; cbn [run_steps].
  - apply preserves_ret.
  - apply preserves_bind; [apply run_step_preserves|].
    intros [r|]; [apply preserves_lift | exact IH].
Qed.

Lemma run_preserves (fuel : nat) : preserves (run fuel).
Proof.
  induction fuel as [|fuel IH]; cbn [run].
  - apply preserves_lift.
  - apply preserves_bind; [apply run_step_preserves|].
    intros [r|]; [apply preserves_ret | exact IH].
Qed.

Lemma interpret_function_preserves (function : Z) (fuel : nat) :
  preserves (interpret_function function fuel).
Proof.
  unfold interpret_function. preserves_tac. apply run_preserves.
Qed.

(** C5. The machine starts without open upvalues, in a state in which the
    list [vm.openUpvalues] is sorted; every instruction of [run], whatever
    it is and whether or not it enters the collector, leaves it sorted, so
    that after any number of instructions the slots of the open upvalues
    are strictly descending along the list, and no two upvalues are on
    the same slot.  [captureUpvalue] returns the upvalue that is already
    on the requested slot when there is one, and then changes nothing;
    otherwise, once the memory for it is there, it links a new upvalue on
    that slot between the upvalues above the slot and those below it.
    [closeUpvalues] removes from the head of the list exactly the
    upvalues on slots at or above its boundary, each of which is given
    the value of its slot, and keeps the others; it returns when the
    slots of the list are slots of the stack. *)
Theorem open_upvalues_sorted_unique :
  (forall vm,
      allocator_inv vm -> openUpvalues vm = [] -> machine_inv vm)
  /\ (forall vm r vm',
        machine_inv vm -> run_step vm = Some (r, vm') -> machine_inv vm')
  /\ (forall n vm vm',
        machine_inv vm -> run_steps n vm = Some (tt, vm') -> machine_inv vm')
  /\ (forall vm,
        machine_inv vm ->
        exists locs,
          Forall2 (fun u loc => location_of (heap vm) u = Some loc)
            (openUpvalues vm) locs
          /\ StronglySorted (fun a b => a > b) locs)
  /\ (forall vm u1 u2 loc,
        machine_inv vm -> u1 ∈ openUpvalues vm -> u2 ∈ openUpvalues vm ->
        location_of (heap vm) u1 = Some loc ->
        location_of (heap vm) u2 = Some loc -> u1 = u2)
  /\ (forall vm local u,
        machine_inv vm -> u ∈ openUpvalues vm ->
        location_of (heap vm) u = Some local ->
        captureUpvalue local vm = Some (u, vm))
  /\ (forall vm vm0 local,
        machine_inv vm ->
        reallocate 0 sizeof_ObjUpvalue vm = Some (tt, vm0) ->
        (forall u, u ∈ openUpvalues vm ->
                   location_of (heap vm) u <> Some local) ->
        exists before after vm',
          openUpvalues vm = before ++ after
          /\ Forall (fun u => exists loc, location_of (heap vm) u = Some loc
                                          /\ loc > local) before
          /\ Forall (fun u => exists loc, location_of (heap vm) u = Some loc
                                          /\ loc < local) after
          /\ captureUpvalue local vm = Some (nextObj vm, vm')
          /\ openUpvalues vm' = before ++ nextObj vm :: after
          /\ heap vm !! nextObj vm = None
          /\ location_of (heap vm') (nextObj vm) = Some local
          /\ stack vm' = stack vm
          /\ machine_inv vm')
  /\ (forall vm last vm',
        machine_inv vm -> closeUpvalues last vm = Some (tt, vm') ->
        machine_inv vm'
        /\ exists closed,
             openUpvalues vm = closed ++ openUpvalues vm'
             /\ Forall (fun u => exists loc,
                           location_of (heap vm) u = Some loc
                           /\ closed_from last vm vm' u loc) closed
             /\ Forall (fun u => exists loc,
                           location_of (heap vm') u = Some loc
                           /\ loc < last) (openUpvalues vm'))
  /\ (forall vm last,
        upvalues_inv vm ->
        exists vm', closeUpvalues last vm = Some (tt, vm')
                    /\ upvalues_inv vm').
Proof.
  split.
  { intros vm Halloc Hopen. split; [|exact Halloc].
    exists []. rewrite Hopen. split; constructor. }
  split; [exact run_step_preserves|].
  split.
  { intros n vm vm' Hinv H. exact (run_steps_preserves n vm tt vm' Hinv H). }
  split.
  { intros vm [Hs _]. exact Hs. }
  split.
  { intros vm u1 u2 loc [(locs & Hs & Hd) _].
    eapply slots_unique; eassumption. }
  split.
  { intros vm local u [Hs _]. apply captureUpvalue_existing. exact Hs. }
  split.
  { intros vm vm0 local [Hs Ha] Hre Hnone.
    destruct (captureUpvalue_new vm vm0 local Hs Ha Hre Hnone)
      as (before & after & Hl & Hc & Hnew & Hs' & Ha' & Hslots).
    pose proof (reallocate_reallocated _ _ _ _ Hre) as [Hm _ _].
    unfold machine_of in Hm. injection Hm as _ _ Hst _ _ _ _ _ Hnx _ _.
    destruct Hslots as (lb & la & Hb & Hafter & Hgt & Hlt & _).
    exists before, after, (with_upvalue vm0 local before after).
    split; [assumption|]. split.
    { clear -Hb Hgt. induction Hb as [|u loc l locs Hu _ IH];
        constructor; apply Forall_cons in Hgt as [Hloc Hrest]; eauto. }
    split.
    { clear -Hafter Hlt. induction Hafter as [|u loc l locs Hu _ IH];
        constructor; apply Forall_cons in Hlt as [Hloc Hrest]; eauto. }
    split; [assumption|].
    unfold with_upvalue at 1 2 3.
    cbn [openUpvalues heap stack set_upvalues set_objects].
    split; [congruence|]. split; [assumption|].
    split; [unfold location_of; rewrite <- Hnx, lookup_insert_eq; reflexivity|].
    split; [assumption|]. split; assumption. }
  split.
  { intros vm last vm' [Hs Ha] H.
    destruct (closeUpvalues_sorted vm vm' last Hs Ha H)
      as (Hs' & Ha' & _ & Hclosed).
    split; [split; assumption | exact Hclosed]. }
  intros vm last Hinv.
  destruct (closeUpvalues_inv vm last Hinv) as (vm' & closed & H & Hinv' & _).
  exists vm'. auto.
Qed.

End RunInvariant.

(** A block with three locals and two closures, the first of which is
    dropped before the second is created. *)
Section RunInvariantExamples.
Import Value Table VM Object Interp Run Examples.

(** The machine after [n] instructions of the script. *)
Definition vm_closures_after (n : nat) : VM :=
  match run_steps n vm_closures with
  | Some (_, vm) => vm
  | None => vm_closures
  end.

(** The machine after a request for the memory of an upvalue. *)
Definition after_request (vm : VM) : VM :=
  match reallocate 0 sizeof_ObjUpvalue vm with
  | Some (_, vm0) => vm0
  | None => vm
  end.

(** The machine after [closeUpvalues (last)]. *)
Definition after_close (last : Z) (vm : VM) : VM :=
  match closeUpvalues last vm with
  | Some (_, vm') => vm'
  | None => vm
  end.

(** After [OP_CLOSURE f] the upvalues of [c] and [a] are open.  The
    memory for the closure of [g] is the occasion of a collection, which
    frees the closure of [f] and keeps its upvalues; [OP_CLOSURE g] then
    links the upvalue of [b] between them and takes the upvalue of [a]
    that is there.  A capture of [b] right after [f] was dropped does the
    same, and the first [OP_CLOSE_UPVALUE] closes the upvalue of [c]. *)
Lemma open_upvalues_sorted_unique_witness :
  machine_inv (vm_closures_after 4)
  /\ openUpvalues (vm_closures_after 4) = [4386; 4385]
  /\ heap (vm_closures_after 4) !! 4384
     = Some (ObjClosure fn_f [Some 4385; Some 4386] 2)
  /\ machine_inv (vm_closures_after 6)
  /\ openUpvalues (vm_closures_after 6) = [4386; 4388; 4385]
  /\ map (location_of (heap (vm_closures_after 6)))
       (openUpvalues (vm_closures_after 6)) = [Some 3; Some 2; Some 1]
  /\ heap (vm_closures_after 6) !! 4384 = None
  /\ heap (vm_closures_after 6) !! 4387
     = Some (ObjClosure fn_g [Some 4388; Some 4385] 2)
  /\ captureUpvalue 1 (vm_closures_after 5)
     = Some (4385, vm_closures_after 5)
  /\ (exists before after vm',
        openUpvalues (vm_closures_after 5) = before ++ after
        /\ Forall (fun u => exists loc,
                      location_of (heap (vm_closures_after 5)) u = Some loc
                      /\ loc > 2) before
        /\ Forall (fun u => exists loc,
                      location_of (heap (vm_closures_after 5)) u = Some loc
                      /\ loc < 2) after
        /\ captureUpvalue 2 (vm_closures_after 5)
           = Some (nextObj (vm_closures_after 5), vm')
        /\ openUpvalues vm'
           = before ++ nextObj (vm_closures_after 5) :: after
        /\ heap (vm_closures_after 5) !! nextObj (vm_closures_after 5) = None
        /\ location_of (heap vm') (nextObj (vm_closures_after 5)) = Some 2
        /\ stack vm' = stack (vm_closures_after 5)
        /\ machine_inv vm')
  /\ heap (after_request (vm_closures_after 5)) !! 4384 = None
  /\ (machine_inv (after_close 3 (vm_closures_after 7))
      /\ exists closed,
           openUpvalues (vm_closures_after 7)
           = closed ++ openUpvalues (after_close 3 (vm_closures_after 7))
           /\ Forall (fun u => exists loc,
                         location_of (heap (vm_closures_after 7)) u = Some loc
                         /\ closed_from 3 (vm_closures_after 7)
                              (after_close 3 (vm_closures_after 7)) u loc)
                closed
           /\ Forall (fun u => exists loc,
                         location_of
                           (heap (after_close 3 (vm_closures_after 7))) u
                         = Some loc
                         /\ loc < 3)
                (openUpvalues (after_close 3 (vm_closures_after 7))))
  /\ openUpvalues (after_close 3 (vm_closures_after 7)) = [4388; 4385]
  /\ heap (after_close 3 (vm_closures_after 7)) !! 4386
     = Some (ObjUpvalue ClosedField ONE)
  /\ openUpvalues (vm_closures_after 8) = [4388; 4385].
Proof.
  destruct open_upvalues_sorted_unique
    as (Hstart & Hstep & Hsteps & Hsorted & Hunique & Hexisting & Hnew
        & Hclose & Hreturns).
  assert (Hinv0 : machine_inv vm_closures).
  { apply Hstart; [|reflexivity]. split.
    - intros a Ha. simpl in Ha. simpl. unfold heap_with.
      rewrite !lookup_insert_ne
        by (unfold fn_f, fn_g, str_init, str_clock, native_clock, str_a,
              str_tmp, fn_script, cl_script; lia).
      apply lookup_empty.
    - vm_compute. reflexivity.
    - vm_compute. reflexivity. }
  assert (Hrun : forall n,
             run_steps n vm_closures = Some (tt, vm_closures_after n) ->
             machine_inv (vm_closures_after n)).
  { intros n H. exact (Hsteps n _ _ Hinv0 H). }
  assert (Hinv4 : machine_inv (vm_closures_after 4))
    by (apply Hrun; vm_compute; reflexivity).
  assert (Hinv5 : machine_inv (vm_closures_after 5))
    by (apply Hrun; vm_compute; reflexivity).
  assert (Hinv6 : machine_inv (vm_closures_after 6))
    by (apply Hrun; vm_compute; reflexivity).
  assert (Hinv7 : machine_inv (vm_closures_after 7))
    by (apply Hrun; vm_compute; reflexivity).
  split; [exact Hinv4|].
  split; [vm_compute; reflexivity|].
  split; [vm_compute; reflexivity|].
  split; [exact Hinv6|].
  split; [vm_compute; reflexivity|].
  split; [vm_compute; reflexivity|].
  split; [vm_compute; reflexivity|].
  split; [vm_compute; reflexivity|].
  split.
  { apply (Hexisting _ 1 4385 Hinv5); [|vm_compute; reflexivity].
    replace (openUpvalues (vm_closures_after 5)) with [4386; 4385]
      by (vm_compute; reflexivity).
    apply elem_of_cons. right. apply elem_of_cons. left. reflexivity. }
  split.
  { apply (Hnew _ (after_request (vm_closures_after 5)) 2 Hinv5).
    - vm_compute. reflexivity.
    - replace (openUpvalues (vm_closures_after 5)) with [4386; 4385]
        by (vm_compute; reflexivity).
      intros u Hu.
      apply elem_of_cons in Hu as [->|Hu];
        [vm_compute; discriminate|].
      apply elem_of_cons in Hu as [->|Hu];
        [vm_compute; discriminate|].
      apply not_elem_of_nil in Hu. destruct Hu. }
  split; [vm_compute; reflexivity|].
  split; [|repeat split; vm_compute; reflexivity].
  apply (Hclose (vm_closures_after 7) 3 _ Hinv7).
  vm_compute. reflexivity.
Defined.

End RunInvariantExamples.

(** ** Call dispatch: classes and natives. *)
Section CallDispatch.
Import Value Table VM.

Ltac unfold_M :=
  unfold mbind, M_bind, mret, M_ret, get, put, lift in *.

Lemma tableGet_hash_ext (h1 h2 : Z -> Z) (t : Table) (k : Z) :
  h1 k = h2 k -> tableGet h1 t k = tableGet h2 t k.
Proof. intros H. unfold tableGet, findEntry. rewrite H. reflexivity. Qed.

(** Allocating an object that is not a string at an unused address changes
    the hash of no key. *)
Lemma hashOf_alloc_instance (h : gmap Z Obj) (a klass k : Z) (fields : Table) :
  h !! a = None ->
  hashOf (<[a := ObjInstance klass fields]> h) k = hashOf h k.
Proof.
  intros Hnone. unfold hashOf. destruct (decide (a = k)) as [->|Hne].
  - rewrite lookup_insert_eq, Hnone. reflexivity.
  - rewrite lookup_insert_ne by assumption. reflexivity.
Qed.

Lemma update_Some {A : Type} (l : list A) (i : Z) (x : A) :
  0 <= i < Z.of_nat (length l) ->
  update l i x = Some (<[Z.to_nat i := x]> l).
Proof.
  intros Hi. unfold update.
  destruct (Z.leb_spec0 0 i); [|lia]. destruct (Z.ltb_spec0 i (Z.of_nat (length l))); [|lia].
  reflexivity.
Qed.

Lemma index_insert_eq {A : Type} (l : list A) (i : Z) (x : A) :
  0 <= i < Z.of_nat (length l) ->
  index (<[Z.to_nat i := x]> l) i = Some x.
Proof.
  intros Hi. unfold index. destruct (Z.leb_spec0 0 i); [|lia].
  apply list_lookup_insert_eq. lia.
Qed.

(** What [runtimeError] leaves behind: the message, and a reset stack. *)
Definition failed_with (vm vm' : VM) (format : string) (args : list FormatArg)
    : Prop :=
  errors vm' = errors vm ++ [(format, args)]
  /\ stackTop vm' = 0 /\ frameCount vm' = 0 /\ openUpvalues vm' = []
  /\ globals vm' = globals vm /\ heap vm' = heap vm /\ stack vm' = stack vm.

Lemma runtimeError_spec (vm : VM) (format : string) (args : list FormatArg) :
  exists vm', runtimeError format args vm = Some (tt, vm')
              /\ failed_with vm vm' format args.
Proof. eexists. split; [reflexivity|]. repeat split. Qed.

(** A value that [tableGet] finds is a value of an entry. *)
Lemma tableGet_refers (h : Z -> Z) (t : Table) (k : Z) (v : Value) :
  wf t -> tableGet h t k = Some (Some v) -> IS_OBJ v = true ->
  table_refers t (AS_OBJ v).
Proof.
  intros Hwf H Hobj. unfold tableGet in H.
  destruct (count t =? 0); [discriminate|].
  destruct (findEntry h (entries t) (capacity t) k) as [i|]; [|discriminate].
  simpl in H.
  destruct (entries t !! Z.to_nat i) as [e|] eqn:He; [|discriminate].
  simpl in H. destruct (key e); [|discriminate]. injection H as <-.
  apply (refers_value t _ (Z.of_nat (Z.to_nat i)) e).
  - apply lookup_lt_Some in He. pose proof (wf_len t Hwf). lia.
  - rewrite Nat2Z.id. exact He.
  - exact Hobj.
  - reflexivity.
Qed.

(** The hash of a key that is a root, or is no object, is the same
    after a request for memory. *)
Lemma hashOf_reallocated (vm vm0 : VM) (k : Z) :
  reallocated vm vm0 -> heap vm !! 0 = None -> root vm k ->
  hashOf (heap vm0) k = hashOf (heap vm) k.
Proof.
  intros Hre Hnull Hroot. unfold hashOf.
  rewrite (reallocated_root vm vm0 k Hre Hnull Hroot). reflexivity.
Qed.

(** The machine once [callValue] has created the instance of [klass] and
    stored it in the callee slot; [vm0] is the machine after the request
    for the memory of the instance. *)
Definition with_instance (vm0 : VM) (klass argCount : Z) : VM :=
  set_stack
    (set_objects
       (set_upvalues vm0 (openUpvalues vm0) (heap vm0) (nextObj vm0 + 1))
       (nextObj vm0 :: objects vm0)
       (<[nextObj vm0 := ObjInstance klass initTable]> (heap vm0)))
    (<[Z.to_nat (stackTop vm0 - argCount - 1) := OBJ_VAL (nextObj vm0)]>
       (stack vm0))
    (stackTop vm0).

(** C6. Calling a class, the callee being in its slot below the
    arguments: once the memory for it is there, the callee slot receives
    a fresh instance of the class, and nothing else on the stack changes.
    When the method table of the class has an entry for the cached
    ["init"] string, that closure is called with the same argument count:
    a count that is not the arity of its function is the runtime error
    [Expected %d arguments but got %d], a full call stack is [Stack
    overflow.], and otherwise a frame for the closure is pushed that
    starts at its first instruction and whose slot zero is the callee
    slot, and the dispatch reports success.  Without such an entry the
    call succeeds exactly when the argument count is zero, and a nonzero
    count is a runtime error.  The class, the closure and its function
    are what they were before the request for memory, which may have
    entered the collector. *)
Theorem callValue_class (vm vm0 : VM) (callee : Value) (argCount name : Z)
    (methods : Table) :
  IS_OBJ callee = true ->
  heap vm !! AS_OBJ callee = Some (ObjClass name methods) ->
  index (stack vm) (stackTop vm - argCount - 1) = Some callee ->
  0 <= argCount ->
  allocator_inv vm ->
  wf methods ->
  reallocate 0 sizeof_ObjInstance vm = Some (tt, vm0) ->
  let slot := stackTop vm - argCount - 1 in
  let vm1 := with_instance vm0 (AS_OBJ callee) argCount in
  heap vm !! nextObj vm = None
  /\ index (stack vm1) slot = Some (OBJ_VAL (nextObj vm))
  /\ heap vm1 !! nextObj vm = Some (ObjInstance (AS_OBJ callee) initTable)
  /\ (forall i, i <> slot -> index (stack vm1) i = index (stack vm) i)
  /\ stackTop vm1 = stackTop vm
  /\ exists r,
       tableGet (hashOf (heap vm)) methods (initString vm) = Some r
       /\ match r with
          | Some initializer =>
              forall function upvalues count arity ucount chunk fname,
                IS_OBJ initializer = true ->
                heap vm !! AS_OBJ initializer
                = Some (ObjClosure function upvalues count) ->
                heap vm !! function
                = Some (ObjFunction arity ucount chunk fname) ->
                (argCount <> arity ->
                 exists vm2,
                   callValue callee argCount vm = Some (false, vm2)
                   /\ failed_with vm1 vm2 "Expected %d arguments but got %d"
                        [ArgInt arity; ArgInt argCount])
                /\ (argCount = arity -> frameCount vm = FRAMES_MAX ->
                    exists vm2,
                      callValue callee argCount vm = Some (false, vm2)
                      /\ failed_with vm1 vm2 "Stack overflow." [])
                /\ (argCount = arity -> frameCount vm <> FRAMES_MAX ->
                    0 <= frameCount vm < Z.of_nat (length (frames vm)) ->
                    callValue callee argCount vm
                    = Some (true,
                            set_frames vm1
                              (<[Z.to_nat (frameCount vm) :=
                                   {| closure := AS_OBJ initializer;
                                      ip := 0;
                                      slots := stackTop vm - argCount - 1 |}]>
                                 (frames vm))
                              (frameCount vm + 1)))
          | None =>
              (argCount = 0 -> callValue callee argCount vm = Some (true, vm1))
              /\ (argCount <> 0 ->
                  exists vm2,
                    callValue callee argCount vm = Some (false, vm2)
                    /\ failed_with vm1 vm2 "Expected 0  arguments but got %d."
                         [ArgInt argCount])
          end.
Proof.
  intros Hobj Hclass Hcallee Hargs Halloc Hwf Hre slot vm1.
  pose proof (reallocate_reallocated _ _ _ _ Hre) as Hrel.
  pose proof (reallocated_allocator _ _ Hrel Halloc) as [Hfresh0 _ _].
  pose proof Halloc as [Hfresh Hnull _].
  pose proof Hrel as [Hm Hsub Hreach].
  unfold machine_of in Hm.
  injection Hm as Hframes HframeCount Hstack HstackTop _ HinitString _ _ Hnx
    _ _.
  assert (Hslot : 0 <= slot < Z.of_nat (length (stack vm))).
  { unfold index in Hcallee. fold slot in Hcallee.
    destruct (Z.leb_spec0 0 slot); [|discriminate].
    apply lookup_lt_Some in Hcallee. lia. }
  assert (Hroot : root vm (AS_OBJ callee)).
  { apply (root_stack vm _ slot callee); [unfold slot; lia| |exact Hobj
                                         |reflexivity].
    unfold index in Hcallee. fold slot in Hcallee.
    destruct (0 <=? slot); [exact Hcallee|discriminate]. }
  assert (Hnew : heap vm !! nextObj vm = None) by (apply Hfresh; lia).
  assert (Hnew0 : heap vm0 !! nextObj vm0 = None) by (apply Hfresh0; lia).
  assert (Hclass0 : heap vm0 !! AS_OBJ callee = Some (ObjClass name methods)).
  { rewrite (reallocated_root vm vm0 _ Hrel Hnull Hroot). exact Hclass. }
  assert (Hne : nextObj vm0 <> AS_OBJ callee) by congruence.
  split; [exact Hnew|].
  split.
  { unfold vm1, with_instance. cbn [stack set_stack].
    rewrite HstackTop, Hnx. fold slot. rewrite <- Hstack in Hslot.
    apply index_insert_eq. exact Hslot. }
  split.
  { unfold vm1, with_instance. cbn [heap set_stack set_objects].
    rewrite <- Hnx. apply lookup_insert_eq. }
  split.
  { intros i Hi. unfold vm1, with_instance. cbn [stack set_stack].
    rewrite HstackTop, Hstack. fold slot. unfold index.
    destruct (0 <=? i) eqn:E; [|reflexivity].
    apply list_lookup_insert_ne. apply Z.leb_le in E. lia. }
  split; [exact HstackTop|].
  destruct (tableGet_total (hashOf (heap vm)) methods (initString vm) Hwf)
    as [r Hr].
  exists r. split; [assumption|].
  assert (Hhash : hashOf (heap vm1) (initString vm0)
                  = hashOf (heap vm) (initString vm0)).
  { unfold vm1, with_instance. cbn [heap set_stack set_objects].
    rewrite hashOf_alloc_instance by exact Hnew0. rewrite HinitString.
    apply (hashOf_reallocated vm vm0 _ Hrel Hnull).
    apply root_initString. reflexivity. }
  assert (Hr0 : tableGet (hashOf (heap vm)) methods (initString vm0)
                = Some r) by (rewrite HinitString; exact Hr).
  assert (Hcall : callValue callee argCount vm
    = match r with
      | Some initializer => call (AS_OBJ initializer) argCount vm1
      | None =>
          if negb (argCount =? 0)
          then (runtimeError "Expected 0  arguments but got %d."
                  [ArgInt argCount];; mret false) vm1
          else Some (true, vm1)
      end).
  { unfold callValue. rewrite Hobj.
    unfold deref, newInstance, allocateObject, linkObject, stackTop_set.
    unfold_M. rewrite Hclass. cbn [mbind option_bind].
    rewrite Hre. simpl.
    replace (stackTop vm0 + (- argCount - 1))
      with (stackTop vm0 - argCount - 1) by lia.
    rewrite update_Some by (rewrite Hstack, HstackTop; exact Hslot). simpl.
    rewrite lookup_insert_ne by exact Hne. rewrite Hclass0. simpl.
    rewrite (tableGet_hash_ext _ (hashOf (heap vm)) methods (initString vm0))
      by exact Hhash.
    rewrite Hr0. simpl.
    destruct r; [reflexivity | destruct (argCount =? 0); reflexivity]. }
  rewrite Hcall. destruct r as [initializer|].
  - intros function upvalues count arity ucount chunk fname Hiobj Hclos Hfun.
    assert (Rclos : reachable vm (AS_OBJ initializer)).
    { apply (reachable_ref vm (AS_OBJ callee) _ (ObjClass name methods));
        [apply reachable_root; exact Hroot | exact Hclass|].
      apply refers_class_methods.
      eapply tableGet_refers; eassumption. }
    assert (Rfun : reachable vm function).
    { apply (reachable_ref vm (AS_OBJ initializer) _
               (ObjClosure function upvalues count));
        [exact Rclos | exact Hclos | apply refers_function]. }
    assert (Hclos1 : heap vm1 !! AS_OBJ initializer
                     = Some (ObjClosure function upvalues count)).
    { unfold vm1, with_instance. cbn [heap set_stack set_objects].
      rewrite lookup_insert_ne by congruence.
      rewrite (Hreach Hnull _ Rclos). exact Hclos. }
    assert (Hfun1 : heap vm1 !! function
                    = Some (ObjFunction arity ucount chunk fname)).
    { unfold vm1, with_instance. cbn [heap set_stack set_objects].
      rewrite lookup_insert_ne by congruence.
      rewrite (Hreach Hnull _ Rfun). exact Hfun. }
    assert (Hcall1 : call (AS_OBJ initializer) argCount vm1
              = (if negb (argCount =? arity) then
                   runtimeError "Expected %d arguments but got %d"
                     [ArgInt arity; ArgInt argCount];; mret false
                 else
                   vm ← get;
                   if frameCount vm =? FRAMES_MAX then
                     runtimeError "Stack overflow." [];; mret false
                   else
                     fs ← lift (update (frames vm) (frameCount vm)
                                  {| closure := AS_OBJ initializer; ip := 0;
                                     slots := stackTop vm - argCount - 1 |});
                     put (set_frames vm fs (frameCount vm + 1));;
                     mret true) vm1).
    { unfold call, deref. unfold_M. rewrite Hclos1, Hfun1. reflexivity. }
    rewrite Hcall1. clear Hcall1.
    assert (Hfc1 : frameCount vm1 = frameCount vm) by exact HframeCount.
    assert (Hfs1 : frames vm1 = frames vm) by exact Hframes.
    assert (Hst1 : stackTop vm1 = stackTop vm) by exact HstackTop.
    split; [|split].
    + intros Hneq. destruct (Z.eqb_spec argCount arity); [contradiction|].
      eexists. split; [reflexivity|]. repeat split.
    + intros -> Hfull. rewrite Z.eqb_refl. simpl. unfold_M.
      rewrite Hfc1, Hfull, Z.eqb_refl.
      eexists. split; [reflexivity|]. repeat split.
    + intros -> Hroom Hrange. rewrite Z.eqb_refl. simpl. unfold_M.
      rewrite Hfc1, Hfs1, Hst1.
      destruct (Z.eqb_spec (frameCount vm) FRAMES_MAX); [contradiction|].
      rewrite update_Some by exact Hrange. reflexivity.
  - split.
    + intros ->. reflexivity.
    + intros Hnz. destruct (Z.eqb_spec argCount 0); [contradiction|]. simpl.
      eexists. split; [reflexivity|]. repeat split.
Qed.

(** C10. Calling a native: whatever the argument count, the function is
    invoked on the [argCount] topmost values, the [argCount + 1] slots of the
    call are dropped, the result is pushed, and the dispatch reports success
    without any error; the native [clock] ignores its arguments. *)
Theorem callValue_native (vm : VM) (callee : Value) (argCount : Z)
    (native : NativeFn) :
  IS_OBJ callee = true ->
  heap vm !! AS_OBJ callee = Some (ObjNative native) ->
  0 <= stackTop vm - argCount - 1 < Z.of_nat (length (stack vm)) ->
  (exists vm',
      callValue callee argCount vm = Some (true, vm')
      /\ stackTop vm' = stackTop vm - (argCount + 1) + 1
      /\ index (stack vm') (stackTop vm' - 1)
         = Some (native argCount
                   (take (Z.to_nat argCount)
                      (drop (Z.to_nat (stackTop vm - argCount)) (stack vm))))
      /\ errors vm' = errors vm
      /\ frameCount vm' = frameCount vm /\ frames vm' = frames vm
      /\ heap vm' = heap vm)
  /\ (forall (now : Value) (n m : Z) (args args' : list Value),
        clockNative now n args = now
        /\ clockNative now n args = clockNative now m args').
Proof.
  intros Hobj Hnative Hslot. split; [|intros; split; reflexivity].
  eexists. split.
  - unfold callValue. rewrite Hobj. unfold deref, push. unfold_M.
    rewrite Hnative. simpl.
    replace (stackTop vm - (argCount + 1)) with (stackTop vm - argCount - 1) by lia.
    rewrite update_Some by assumption. simpl. reflexivity.
  - simpl. split; [lia|].
    split.
    + replace (stackTop vm - argCount - 1 + 1 - 1)
        with (stackTop vm - argCount - 1) by lia.
      apply index_insert_eq. assumption.
    + repeat split.
Qed.

(** The machine after a request for the memory of an instance. *)
Definition after_instance_request (vm : VM) : VM :=
  match reallocate 0 sizeof_ObjInstance vm with
  | Some (_, vm0) => vm0
  | None => vm
  end.

(** The call [B(1)] of a class with an initializer of one parameter, in a
    machine that is 8 bytes away from the next collection: the collector
    frees the string ["a"], which nothing refers to, and keeps the class,
    the initializer and its function; the frame of the initializer is
    pushed on the callee slot.  The call [B()] is an error. *)
Lemma callValue_class_witness :
  let vm := set_memory Examples.vm_call_class 2040 2048 in
  let vm0 := after_instance_request vm in
  let vm1 := with_instance vm0 Examples.class_B 1 in
  let vm' := set_memory (Examples.vm_calling [OBJ_VAL Examples.class_B])
               2040 2048 in
  let vm1' := with_instance (after_instance_request vm') Examples.class_B 0 in
  heap vm !! Examples.str_a
  = Some (ObjString 1 "a" (hashString "a"))
  /\ heap vm0 !! Examples.str_a = None
  /\ heap vm0 !! Examples.cl_init = heap vm !! Examples.cl_init
  /\ index (stack vm1) 1 = Some (OBJ_VAL (nextObj vm))
  /\ heap vm1 !! nextObj vm
     = Some (ObjInstance Examples.class_B initTable)
  /\ callValue (OBJ_VAL Examples.class_B) 1 vm
     = Some (true,
             set_frames vm1
               (<[1%nat := {| closure := Examples.cl_init; ip := 0;
                              slots := 1 |}]> (frames vm)) 2)
  /\ exists vm2,
       callValue (OBJ_VAL Examples.class_B) 0 vm' = Some (false, vm2)
       /\ failed_with vm1' vm2 "Expected %d arguments but got %d"
            [ArgInt 1; ArgInt 0].
Proof.
  intros vm vm0 vm1 vm' vm1'.
  assert (Halloc : forall values,
             allocator_inv (set_memory (Examples.vm_calling values) 2040 2048)).
  { intros values. split.
    - intros a Ha. simpl in Ha. simpl. unfold Examples.heap_with.
      rewrite !lookup_insert_ne
        by (unfold Examples.fn_init, Examples.cl_init, Examples.class_B,
              Examples.str_init, Examples.str_clock, Examples.native_clock,
              Examples.str_a, Examples.str_tmp, Examples.fn_script,
              Examples.cl_script; lia).
      apply lookup_empty.
    - vm_compute. reflexivity.
    - vm_compute. reflexivity. }
  assert (Hwf : wf Examples.methods_B).
  { split.
    - vm_compute. reflexivity.
    - right. exists 3. split; [lia | vm_compute; reflexivity].
    - vm_compute. discriminate.
    - vm_compute. discriminate. }
  destruct (callValue_class vm vm0 (OBJ_VAL Examples.class_B) 1
              Examples.str_tmp Examples.methods_B)
    as (_ & Hslot & Hinst & _ & _ & r & Hr & Hcall);
    [reflexivity | vm_compute; reflexivity | vm_compute; reflexivity | lia
    | apply Halloc | exact Hwf | vm_compute; reflexivity |].
  destruct (callValue_class vm' (after_instance_request vm')
              (OBJ_VAL Examples.class_B) 0
              Examples.str_tmp Examples.methods_B)
    as (_ & _ & _ & _ & _ & r' & Hr' & Hcall');
    [reflexivity | vm_compute; reflexivity | vm_compute; reflexivity | lia
    | apply Halloc | exact Hwf | vm_compute; reflexivity |].
  vm_compute in Hr. injection Hr as <-.
  vm_compute in Hr'. injection Hr' as <-.
  destruct (Hcall Examples.fn_init [] 0 1 0 Examples.chunk_init
              (Some Examples.str_init))
    as (_ & _ & Hpush);
    [reflexivity | vm_compute; reflexivity | vm_compute; reflexivity |].
  destruct (Hcall' Examples.fn_init [] 0 1 0 Examples.chunk_init
              (Some Examples.str_init))
    as (Harity & _ & _);
    [reflexivity | vm_compute; reflexivity | vm_compute; reflexivity |].
  split; [vm_compute; reflexivity|].
  split; [vm_compute; reflexivity|].
  split; [vm_compute; reflexivity|].
  split; [exact Hslot|].
  split; [exact Hinst|].
  split.
  - apply Hpush; [reflexivity | vm_compute; discriminate
                 | vm_compute; split; [discriminate | reflexivity]].
  - apply Harity. discriminate.
Defined.

(** The call [clock(1, 2)]. *)
Lemma callValue_native_witness :
  let vm := Examples.vm_call_clock in
  (exists vm',
      callValue (OBJ_VAL Examples.native_clock) 2 vm = Some (true, vm')
      /\ stackTop vm' = stackTop vm - (2 + 1) + 1
      /\ index (stack vm') (stackTop vm' - 1)
         = Some (clockNative Examples.ONE 2
                   (take (Z.to_nat 2)
                      (drop (Z.to_nat (stackTop vm - 2)) (stack vm))))
      /\ errors vm' = errors vm
      /\ frameCount vm' = frameCount vm /\ frames vm' = frames vm
      /\ heap vm' = heap vm)
  /\ (forall (now : Value) (n m : Z) (args args' : list Value),
        clockNative now n args = now
        /\ clockNative now n args = clockNative now m args').
Proof.
  apply (callValue_native Examples.vm_call_clock (OBJ_VAL Examples.native_clock) 2
           (clockNative Examples.ONE)).
  - reflexivity.
  - vm_compute. reflexivity.
  - vm_compute. split; [discriminate | reflexivity].
Defined.

End CallDispatch.

(** ** The compiler: parameter and argument limits. *)
Section CompilerLimits.
Import Token Compiler.

(** Tokens of a parameter list, all on line [ln]. *)
Definition ident (ln : Z) (s : string) : Token :=
  {| Token.type := TOKEN_IDENTIFIER; start := s;
     length := Z.of_nat (String.length s); Token.line := ln |}.

Definition comma (ln : Z) : Token :=
  {| Token.type := TOKEN_COMMA; start := ","; length := 1; Token.line := ln |}.

Definition lparen (ln : Z) : Token :=
  {| Token.type := TOKEN_LEFT_PAREN; start := "("; length := 1; Token.line := ln |}.

Definition rparen (ln : Z) : Token :=
  {| Token.type := TOKEN_RIGHT_PAREN; start := ")"; length := 1; Token.line := ln |}.

(** What the scanner returns after a parameter name: the names still to
    come, each after a comma, then the closing parenthesis and [rest]. *)
Fixpoint tail_stream (ln : Z) (more : list string) (rest : list Token)
    : list Token :=
  match more with
  | [] => rparen ln :: rest
  | n :: more' => comma ln :: ident ln n :: tail_stream ln more' rest
  end.

(** What the scanner returns after the opening parenthesis. *)
Definition param_stream (ln : Z) (names : list string) (rest : list Token)
    : list Token :=
  match names with
  | [] => tail_stream ln [] rest
  | n :: more => ident ln n :: tail_stream ln more rest
  end.

(** The next token is not a scanner error. *)
Definition head_ok (rest : list Token) : Prop :=
  match rest with
  | t :: _ => Token.type t <> TOKEN_ERROR
  | [] => True
  end.

Lemma advance_head (st : State) (t : Token) (ts : list Token) :
  tokens st = t :: ts -> Token.type t <> TOKEN_ERROR ->
  advance st
  = {| tokens := ts; eof_line := eof_line st;
       parser := {| current := t; previous := current (parser st);
                    hadError := hadError (parser st);
                    panicMode := panicMode (parser st) |};
       compiler := compiler st; stderr := stderr st |}.
Proof.
  intros Ht Hne. unfold advance. rewrite Ht. simpl.
  destruct (decide (Token.type t = TOKEN_ERROR)); [contradiction|]. reflexivity.
Qed.

Lemma advance_flags (st : State) :
  head_ok (tokens st) ->
  hadError (parser (advance st)) = hadError (parser st)
  /\ panicMode (parser (advance st)) = panicMode (parser st)
  /\ stderr (advance st) = stderr st
  /\ compiler (advance st) = compiler st
  /\ previous (parser (advance st)) = current (parser st).
Proof.
  intros Hok. destruct (tokens st) as [|t ts] eqn:Ht.
  - unfold advance. rewrite Ht. simpl. auto.
  - rewrite (advance_head st t ts Ht Hok). simpl. auto.
Qed.

(** In panic mode errors are dropped. *)
Lemma errorAt_panic (t : Token) (msg : string) (st : State) :
  panicMode (parser st) = true -> errorAt t msg st = st.
Proof. intros H. unfold errorAt. rewrite H. reflexivity. Qed.

(** The duplicate check of [declareVariable] leaves the state as it is when
    no local of the current scope has the name, and also in panic mode. *)
Lemma declareVariable_loop_unchanged (nm : Token) (st : State) :
  forall n : nat,
    (n <= List.length (locals (compiler st)))%nat ->
    (forall i local, (i < n)%nat -> locals (compiler st) !! i = Some local ->
       identifiersEqual nm (name local) = false
       \/ panicMode (parser st) = true
       \/ (depth local <> -1 /\ depth local < scopeDepth (compiler st))) ->
    declareVariable_loop n nm st = Some st.
Proof.
  induction n as [|i IH]; intros Hlen Hall; [reflexivity|].
  simpl. destruct (locals (compiler st) !! i) as [local|] eqn:Hl.
  2:{ apply lookup_ge_None in Hl. lia. }
  simpl.
  destruct (negb (depth local =? -1) && (depth local <? scopeDepth (compiler st)))
    eqn:Hbreak; [reflexivity|].
  destruct (Hall i local) as [Heq|[Hp|[Hd1 Hd2]]]; [lia | assumption | | |].
  - rewrite Heq. apply IH; [lia|]. intros j l Hj. apply Hall. lia.
  - unfold error. rewrite errorAt_panic by assumption.
    destruct (identifiersEqual nm (name local));
      (apply IH; [lia|]; intros j l Hj; apply Hall; lia).
  - exfalso. apply andb_false_iff in Hbreak as [Hb|Hb].
    + apply negb_false_iff in Hb. apply Z.eqb_eq in Hb. contradiction.
    + apply Z.ltb_ge in Hb. lia.
Qed.

Lemma identifiersEqual_ident (ln ln' : Z) (a b : string) :
  a <> b -> identifiersEqual (ident ln a) (ident ln' b) = false.
Proof.
  intros Hne. unfold identifiersEqual. simpl.
  destruct (negb _); [reflexivity|]. apply String.eqb_neq. assumption.
Qed.

(** Slot zero of the locals, as [initCompiler] claims it. *)
Definition slot_zero (ty : FunctionType) : Local :=
  {| name := {| Token.type := TOKEN_IDENTIFIER;
                start := match ty with TYPE_FUNCTION => "" | _ => "this" end;
                length := match ty with TYPE_FUNCTION => 0 | _ => 4 end;
                Token.line := 0 |};
     depth := 0; isCaptured := false |}.

(** The local of a parameter once it is defined. *)
Definition plocal (ln : Z) (n : string) : Local :=
  {| name := ident ln n; depth := 1; isCaptured := false |}.

(** The state at the head of the parameter loop when the parameters [done]
    have been compiled without error; [cur] is the current token, [ts] the
    tokens to come. *)
Definition params_state (el ln : Z) (p : Token) (c l : list Z)
    (ty : FunctionType) (errs : list (Z * string)) (done : list string)
    (cur : Token) (ts : list Token) : State :=
  {| tokens := ts; eof_line := el;
     parser := {| current := cur; previous := p;
                  hadError := false; panicMode := false |};
     compiler := {| arity := Z.of_nat (List.length done);
                    code := c; lines := l; type := ty;
                    locals := slot_zero ty :: (plocal ln <$> done);
                    localCount := Z.of_nat (List.length done) + 1;
                    scopeDepth := 1 |};
     stderr := errs |}.

Lemma params_declare (el ln : Z) (p : Token) (c l : list Z)
    (ty : FunctionType) (errs : list (Z * string)) (done : list string)
    (a : Z) (n : string) (cur : Token) (ts : list Token) :
  n ∉ done ->
  let st := {| tokens := ts; eof_line := el;
               parser := {| current := cur; previous := ident ln n;
                            hadError := false; panicMode := false |};
               compiler := {| arity := a;
                              code := c; lines := l; type := ty;
                              locals := slot_zero ty :: (plocal ln <$> done);
                              localCount := Z.of_nat (List.length done) + 1;
                              scopeDepth := 1 |};
               stderr := errs |} in
  declareVariable_loop (Z.to_nat (Z.of_nat (List.length done) + 1))
    (ident ln n) st = Some st.
Proof.
  intros Hnin st. apply declareVariable_loop_unchanged.
  - simpl. rewrite length_fmap. lia.
  - intros i local _ Hl. simpl in Hl. destruct i as [|i]; simpl in Hl.
    + injection Hl as <-. right. right. simpl. lia.
    + left. apply list_lookup_fmap_Some in Hl as (d & -> & Hd).
      simpl. apply identifiersEqual_ident. intros ->.
      apply Hnin. eapply list_elem_of_lookup_2. eassumption.
Qed.

Ltac rsimpl :=
  unfold set_current, set_parser, set_compiler, set_locals in *; simpl in *.

Lemma mark_last (x y z : Local) (l : list Local) (i : nat) :
  i = S (List.length l) ->
  (x :: l ++ [y]) !! i = Some y
  /\ <[i := z]> (x :: l ++ [y]) = x :: l ++ [z].
Proof.
  intros ->. simpl. split.
  - apply list_lookup_middle. reflexivity.
  - f_equal. replace (List.length l) with (List.length l + 0)%nat by lia.
    rewrite insert_app_r. reflexivity.
Qed.

(** The state in panic mode: errors have been reported, and the locals are
    only known to be as many as [localCount] says. *)
Definition panic_state (el : Z) (p : Token) (c l : list Z)
    (ty : FunctionType) (errs : list (Z * string)) (a : Z) (ls : list Local)
    (cur : Token) (ts : list Token) : State :=
  {| tokens := ts; eof_line := el;
     parser := {| current := cur; previous := p;
                  hadError := true; panicMode := true |};
     compiler := {| arity := a; code := c; lines := l; type := ty;
                    locals := ls;
                    localCount := Z.of_nat (List.length ls);
                    scopeDepth := 1 |};
     stderr := errs |}.

Section Parameters.
Variable idc : Token -> State -> Z * State.

(** The body of the parameter loop after the test of the arity. *)
Definition parameter_rest (fuel : nat) (st : State) : option State :=
  '(constant, st) ← parseVariable idc "Expect parameter name." st;
  let st := defineVariable constant st in
  let '(more, st) := match_ TOKEN_COMMA st in
  if more then function_parameters idc fuel st else Some st.

Definition bump_arity (st : State) : State :=
  set_compiler st
    {| arity := arity (compiler st) + 1;
       code := code (compiler st);
       lines := lines (compiler st);
       type := type (compiler st);
       locals := locals (compiler st);
       localCount := localCount (compiler st);
       scopeDepth := scopeDepth (compiler st) |}.

Lemma function_parameters_unfold (fuel : nat) (st : State) :
  function_parameters idc (S fuel) st
  = parameter_rest fuel
      (if 255 <? arity (compiler st) + 1
       then errorAtCurrent "Can't have more than 255 parameters." (bump_arity st)
       else bump_arity st).
Proof. reflexivity. Qed.

(** One iteration without error: the parameter becomes a local. *)
Lemma params_body (el ln : Z) (p : Token) (c l : list Z)
    (ty : FunctionType) (errs : list (Z * string)) (done : list string)
    (n : string) (next : Token) (ts : list Token) (fuel : nat) :
  n ∉ done -> Z.of_nat (List.length done) + 1 <= 255 ->
  Token.type next <> TOKEN_ERROR ->
  function_parameters idc (S fuel)
    (params_state el ln p c l ty errs done (ident ln n) (next :: ts))
  = let st' := params_state el ln (ident ln n) c l ty errs (done ++ [n]) next ts in
    if bool_decide (Token.type next = TOKEN_COMMA)
    then function_parameters idc fuel (advance st') else Some st'.
Proof.
  intros Hnin Hle Hnext.
  pose proof (params_declare el ln p c l ty errs done
                (Z.of_nat (List.length done) + 1) n next ts Hnin) as Hdecl.
  cbv zeta in Hdecl.
  unfold params_state.
  rewrite length_app, Nat2Z.inj_add. change (Z.of_nat (List.length [n])) with 1.
  destruct (mark_last (slot_zero ty)
              {| name := ident ln n; depth := -1; isCaptured := false |}
              {| name := ident ln n; depth := 1; isCaptured := false |}
              (plocal ln <$> done)
              (Z.to_nat (Z.of_nat (List.length done) + 1 + 1 - 1)))
    as [Hlook Hins].
  { rewrite length_fmap. lia. }
  remember (Z.of_nat (List.length done)) as k eqn:Hk.
  simpl.
  destruct (Z.ltb_spec 255 (k + 1)) as [|_]; [lia|].
  unfold parseVariable, consume, check. simpl.
  unfold advance. rsimpl.
  destruct (decide (Token.type next = TOKEN_ERROR)) as [|_]; [contradiction|].
  unfold declareVariable. rsimpl.
  rewrite Hdecl. simpl.
  unfold addLocal. rsimpl.
  destruct (Z.eqb_spec (k + 1) UINT8_COUNT) as [He|_];
    [unfold UINT8_COUNT in He; lia|].
  rsimpl. unfold defineVariable. simpl. unfold markInitialized. rsimpl.
  rewrite Hlook. rsimpl. rewrite Hins.
  unfold match_, check. simpl. rewrite fmap_app. simpl.
  destruct (bool_decide (Token.type next = TOKEN_COMMA)); reflexivity.
Qed.

(** The rest of an iteration in panic mode: no further error is reported. *)
Lemma panic_rest (el : Z) (p : Token) (c l : list Z) (ty : FunctionType)
    (errs : list (Z * string)) (a ln : Z) (ls : list Local) (n : string)
    (next : Token) (ts : list Token) (fuel : nat) :
  (1 <= List.length ls)%nat -> Token.type next <> TOKEN_ERROR ->
  exists ls',
    (1 <= List.length ls')%nat
    /\ parameter_rest fuel
         (panic_state el p c l ty errs a ls (ident ln n) (next :: ts))
       = let st' := panic_state el (ident ln n) c l ty errs a ls' next ts in
         if bool_decide (Token.type next = TOKEN_COMMA)
         then function_parameters idc fuel (advance st') else Some st'.
Proof.
  intros Hlen Hnext.
  assert (Hdecl : forall st, panicMode (parser st) = true ->
            declareVariable_loop (Z.to_nat (Z.of_nat (List.length (locals (compiler st)))))
              (ident ln n) st = Some st).
  { intros st Hp. apply declareVariable_loop_unchanged; [lia|]. auto. }
  unfold parameter_rest, panic_state, parseVariable, consume, check. simpl.
  unfold advance. rsimpl.
  destruct (decide (Token.type next = TOKEN_ERROR)) as [|_]; [contradiction|].
  unfold declareVariable. rsimpl.
  match goal with
  | |- context [declareVariable_loop _ _ ?st] =>
      let Hd := fresh "Hd" in
      pose proof (Hdecl st eq_refl) as Hd; simpl in Hd; rewrite Hd; clear Hd
  end.
  simpl. unfold addLocal. rsimpl.
  destruct (Z.eqb_spec (Z.of_nat (List.length ls)) UINT8_COUNT) as [Hfull|Hroom].
  - unfold error, errorAt. rsimpl.
    unfold defineVariable. simpl. unfold markInitialized. rsimpl.
    destruct (ls !! Z.to_nat (Z.of_nat (List.length ls) - 1)) as [local|] eqn:Hl.
    2:{ apply lookup_ge_None in Hl. lia. }
    rsimpl.
    eexists (<[Z.to_nat (Z.of_nat (List.length ls) - 1) := _]> ls).
    split; [rewrite length_insert; assumption|].
    rewrite length_insert.
    unfold match_, check. simpl.
    destruct (bool_decide (Token.type next = TOKEN_COMMA)); reflexivity.
  - rsimpl. unfold defineVariable. simpl. unfold markInitialized. rsimpl.
    replace (Z.to_nat (Z.of_nat (List.length ls) + 1 - 1))
      with (List.length ls + 0)%nat by lia.
    rewrite lookup_app_r by lia.
    replace (List.length ls + 0 - List.length ls)%nat with 0%nat by lia.
    rsimpl. rewrite insert_app_r. simpl.
    eexists (ls ++ [_]).
    split; [rewrite length_app; simpl; lia|].
    rewrite length_app, Nat2Z.inj_add. simpl List.length.
    change (Z.of_nat 1) with 1.
    unfold match_, check. simpl.
    destruct (bool_decide (Token.type next = TOKEN_COMMA)); reflexivity.
Qed.

(** The state at the head of the loop with the parameters [names] still to
    be read: the first is the current token. *)
Definition loop_entry (el ln : Z) (p : Token) (c l : list Z)
    (ty : FunctionType) (errs : list (Z * string)) (done names : list string)
    (rest : list Token) : State :=
  match names with
  | [] => params_state el ln p c l ty errs done (rparen ln) rest
  | x :: xs =>
      params_state el ln p c l ty errs done (ident ln x) (tail_stream ln xs rest)
  end.

Definition panic_entry (el ln : Z) (p : Token) (c l : list Z)
    (ty : FunctionType) (errs : list (Z * string)) (a : Z) (ls : list Local)
    (names : list string) (rest : list Token) : State :=
  match names with
  | [] => panic_state el p c l ty errs a ls (rparen ln) rest
  | x :: xs =>
      panic_state el p c l ty errs a ls (ident ln x) (tail_stream ln xs rest)
  end.

Lemma tail_stream_head (ln : Z) (xs : list string) (rest : list Token) :
  exists next ts, tail_stream ln xs rest = next :: ts
                  /\ Token.type next <> TOKEN_ERROR.
Proof. destruct xs; simpl; eexists _, _; (split; [reflexivity | discriminate]). Qed.

(** The first parameters are compiled without error while their number, with
    those before them, does not exceed 255. *)
Lemma params_prefix (el ln : Z) (c l : list Z) (ty : FunctionType)
    (errs : list (Z * string)) (rest : list Token) (n : string)
    (more : list string) (fuel : nat) :
  forall (pre done : list string) (p : Token),
    NoDup (done ++ pre) ->
    Z.of_nat (List.length done + List.length pre) <= 255 ->
    exists p',
      function_parameters idc (List.length pre + fuel)
        (loop_entry el ln p c l ty errs done (pre ++ n :: more) rest)
      = function_parameters idc fuel
          (loop_entry el ln p' c l ty errs (done ++ pre) (n :: more) rest).
Proof.
  induction pre as [|x pre IH]; intros done p Hnd Hle.
  - exists p. rewrite app_nil_r. reflexivity.
  - simpl app. simpl List.length. simpl Nat.add. unfold loop_entry at 1.
    assert (Hx : x ∉ done).
    { apply NoDup_app in Hnd as (_ & Hd & _). intros Hin. apply (Hd x Hin). left. }
    destruct (pre ++ n :: more) as [|y ys] eqn:Hys.
    { destruct pre; discriminate. }
    simpl tail_stream.
    rewrite params_body; [|assumption|simpl in Hle; lia|discriminate].
    cbv zeta. rewrite bool_decide_true by reflexivity.
    erewrite advance_head; [|reflexivity|discriminate].
    destruct (IH (done ++ [x]) (comma ln)) as [p' Hp'].
    { rewrite <- app_assoc. assumption. }
    { rewrite length_app. simpl in *. lia. }
    exists p'.
    replace (done ++ x :: pre) with ((done ++ [x]) ++ pre)
      by (rewrite <- app_assoc; reflexivity).
    rewrite <- Hp'. reflexivity.
Qed.

(** The last parameter, without error. *)
Lemma params_last (el ln : Z) (p : Token) (c l : list Z) (ty : FunctionType)
    (errs : list (Z * string)) (rest : list Token) (done : list string)
    (n : string) (fuel : nat) :
  n ∉ done -> Z.of_nat (List.length done) + 1 <= 255 ->
  function_parameters idc (S fuel)
    (loop_entry el ln p c l ty errs done [n] rest)
  = Some (params_state el ln (ident ln n) c l ty errs (done ++ [n])
            (rparen ln) rest).
Proof.
  intros Hn Hle. unfold loop_entry. simpl tail_stream.
  rewrite params_body; [|assumption|assumption|discriminate].
  cbv zeta. rewrite bool_decide_false by discriminate. reflexivity.
Qed.

(** In panic mode the loop runs to the closing parenthesis and reports
    nothing more. *)
Lemma params_panic (el ln : Z) (c l : list Z) (ty : FunctionType)
    (errs : list (Z * string)) (rest : list Token) :
  forall (names : list string) (p : Token) (a : Z) (ls : list Local)
         (fuel : nat),
    names <> [] -> (1 <= List.length ls)%nat ->
    (List.length names <= fuel)%nat ->
    exists ls' p',
      (1 <= List.length ls')%nat
      /\ function_parameters idc fuel
           (panic_entry el ln p c l ty errs a ls names rest)
         = Some (panic_state el p' c l ty errs
                   (a + Z.of_nat (List.length names)) ls' (rparen ln) rest).
Proof.
  induction names as [|x xs IH]; intros p a ls fuel Hne Hls Hfuel;
    [contradiction|].
  destruct fuel as [|fuel]; [simpl in Hfuel; lia|].
  unfold panic_entry. rewrite function_parameters_unfold.
  assert (Hbump : (if 255 <? arity (compiler (panic_state el p c l ty errs a ls
                                                (ident ln x) (tail_stream ln xs rest))) + 1
                   then errorAtCurrent "Can't have more than 255 parameters."
                          (bump_arity (panic_state el p c l ty errs a ls
                                         (ident ln x) (tail_stream ln xs rest)))
                   else bump_arity (panic_state el p c l ty errs a ls
                                      (ident ln x) (tail_stream ln xs rest)))
                  = panic_state el p c l ty errs (a + 1) ls
                      (ident ln x) (tail_stream ln xs rest)).
  { destruct (255 <? _); reflexivity. }
  rewrite Hbump. clear Hbump.
  destruct xs as [|y ys].
  - simpl tail_stream.
    destruct (panic_rest el p c l ty errs (a + 1) ln ls x (rparen ln) rest fuel)
      as (ls' & Hls' & Hrest); [assumption|discriminate|].
    rewrite Hrest. cbv zeta. rewrite bool_decide_false by discriminate.
    exists ls', (ident ln x). split; [assumption|]. reflexivity.
  - simpl tail_stream.
    destruct (panic_rest el p c l ty errs (a + 1) ln ls x (comma ln)
                (ident ln y :: tail_stream ln ys rest) fuel)
      as (ls' & Hls' & Hrest); [assumption|discriminate|].
    rewrite Hrest. cbv zeta. rewrite bool_decide_true by reflexivity.
    erewrite advance_head; [|reflexivity|discriminate].
    destruct (IH (comma ln) (a + 1) ls' fuel) as (ls'' & p' & Hls'' & Hrun);
      [discriminate|assumption|simpl in Hfuel |- *; lia|].
    exists ls'', p'. split; [assumption|].
    unfold panic_entry in Hrun.
    transitivity (function_parameters idc fuel
                    (panic_state el (comma ln) c l ty errs (a + 1) ls'
                       (ident ln y) (tail_stream ln ys rest)));
      [reflexivity|].
    rewrite Hrun. do 2 f_equal. simpl List.length. lia.
Qed.

(** The 256th parameter: the error is reported at the current token, and the
    loop goes on in panic mode. *)
Lemma params_overflow (el ln : Z) (p : Token) (c l : list Z)
    (ty : FunctionType) (errs : list (Z * string)) (rest : list Token)
    (done : list string) (n : string) (more : list string) (fuel : nat) :
  Z.of_nat (List.length done) = 255 ->
  function_parameters idc (S fuel)
    (loop_entry el ln p c l ty errs done (n :: more) rest)
  = function_parameters idc (S fuel)
      (panic_entry el ln p c l ty
         (errs ++ [(ln, "Can't have more than 255 parameters."%string)])
         255 (slot_zero ty :: (plocal ln <$> done)) (n :: more) rest).
Proof.
  intros Hlen. rewrite !function_parameters_unfold.
  unfold loop_entry, panic_entry, params_state, panic_state.
  simpl List.length. rewrite length_fmap, Nat2Z.inj_succ, Hlen.
  reflexivity.
Qed.

(** The parameter loop on [names], all different, from the state in which
    [function] enters it. *)
Lemma function_parameters_spec (el ln : Z) (p : Token) (c l : list Z)
    (ty : FunctionType) (errs : list (Z * string)) (rest : list Token)
    (names : list string) (fuel : nat) :
  names <> [] -> NoDup names -> (List.length names <= fuel)%nat ->
  exists st',
    function_parameters idc fuel
      (loop_entry el ln p c l ty errs [] names rest) = Some st'
    /\ tokens st' = rest /\ eof_line st' = el
    /\ current (parser st') = rparen ln
    /\ panicMode (parser st') = hadError (parser st')
    /\ arity (compiler st') = Z.of_nat (List.length names)
    /\ (Z.of_nat (List.length names) <= 255 ->
        hadError (parser st') = false /\ stderr st' = errs)
    /\ (255 < Z.of_nat (List.length names) ->
        hadError (parser st') = true
        /\ stderr st'
           = errs ++ [(ln, "Can't have more than 255 parameters."%string)]).
Proof.
  intros Hne Hnd Hfuel.
  destruct (Z.le_gt_cases (Z.of_nat (List.length names)) 255) as [Hle|Hgt].
  - destruct (exists_last Hne) as (pre & n & ->).
    rewrite length_app in Hfuel, Hle. simpl in Hfuel, Hle.
    destruct (params_prefix el ln c l ty errs rest n [] (fuel - List.length pre)
                pre [] p) as [p' Hpre].
    { simpl. apply NoDup_app in Hnd as (Hp & _). assumption. }
    { simpl. lia. }
    replace (List.length pre + (fuel - List.length pre))%nat with fuel in Hpre by lia.
    rewrite Hpre. simpl app.
    destruct (fuel - List.length pre)%nat as [|f] eqn:Hf; [lia|].
    rewrite params_last.
    + eexists. split; [reflexivity|]. simpl.
      repeat split; try reflexivity; try lia;
        exfalso; rewrite length_app in *; simpl in *; lia.
    + apply NoDup_app in Hnd as (_ & Hd & _). intros Hin. apply (Hd n Hin). left.
    + lia.
  - assert (Hsplit : names = take 255 names ++ drop 255 names)
      by (symmetry; apply take_drop).
    assert (Htake : List.length (take 255 names) = 255%nat)
      by (rewrite length_take; lia).
    destruct (drop 255 names) as [|n more] eqn:Hdrop.
    { apply (f_equal List.length) in Hdrop. rewrite length_drop in Hdrop.
      simpl in Hdrop. lia. }
    assert (Hlen : List.length names = (255 + S (List.length more))%nat).
    { rewrite Hsplit at 1. rewrite length_app, Htake. reflexivity. }
    destruct (params_prefix el ln c l ty errs rest n more (fuel - 255)
                (take 255 names) [] p) as [p' Hpre].
    { simpl. rewrite Hsplit in Hnd. apply NoDup_app in Hnd as (Hp & _). assumption. }
    { simpl. lia. }
    rewrite Htake in Hpre.
    replace (255 + (fuel - 255))%nat with fuel in Hpre by lia.
    rewrite <- Hsplit in Hpre. rewrite Hpre. simpl app.
    destruct (fuel - 255)%nat as [|f] eqn:Hf; [lia|].
    rewrite params_overflow by (rewrite Htake; reflexivity).
    destruct (params_panic el ln c l ty
                (errs ++ [(ln, "Can't have more than 255 parameters."%string)])
                rest (n :: more) p' 255
                (slot_zero ty :: (plocal ln <$> take 255 names)) (S f))
      as (ls' & p'' & Hls' & Hrun).
    { discriminate. }
    { simpl. lia. }
    { simpl. lia. }
    rewrite Hrun. eexists. split; [reflexivity|]. simpl.
    repeat split; try reflexivity; try lia.
Qed.

(** [function], up to the end of the parameter list, on a declaration with
    the parameters [names]. *)
Lemma function_head_spec (st : State) (ln : Z) (ty : FunctionType)
    (names : list string) (rest : list Token) (fuel : nat) :
  current (parser st) = lparen ln ->
  hadError (parser st) = false -> panicMode (parser st) = false ->
  tokens st = param_stream ln names rest ->
  NoDup names -> head_ok rest -> (List.length names <= fuel)%nat ->
  exists st',
    function_head idc fuel ty st = Some st'
    /\ arity (compiler st') = Z.of_nat (List.length names)
    /\ (Z.of_nat (List.length names) <= 255 ->
        hadError (parser st') = false /\ stderr st' = stderr st)
    /\ (255 < Z.of_nat (List.length names) ->
        hadError (parser st') = true
        /\ stderr st'
           = stderr st ++ [(ln, "Can't have more than 255 parameters."%string)]).
Proof.
  destruct st as [ts el [cur prev he pm] comp errs]. simpl.
  intros -> -> -> -> Hnd Hrest Hfuel.
  unfold function_head, initCompiler, beginScope, consume, check. rsimpl.
  destruct names as [|x xs].
  - simpl. unfold advance at 2. rsimpl.
    pose proof (advance_flags
      {| tokens := rest; eof_line := el;
         parser := {| current := rparen ln; previous := lparen ln;
                      hadError := false; panicMode := false |};
         compiler := {| arity := 0; code := []; lines := []; type := ty;
                        locals := [slot_zero ty]; localCount := 1;
                        scopeDepth := 1 |};
         stderr := errs |} Hrest) as (He & _ & Hs & Hc & _).
    eexists. split; [reflexivity|]. simpl in *.
    change (advance _) with (advance
      {| tokens := rest; eof_line := el;
         parser := {| current := rparen ln; previous := lparen ln;
                      hadError := false; panicMode := false |};
         compiler := {| arity := 0; code := []; lines := []; type := ty;
                        locals := [slot_zero ty]; localCount := 1;
                        scopeDepth := 1 |};
         stderr := errs |}).
    rewrite He, Hs, Hc. simpl. repeat split; try reflexivity; lia.
  - simpl param_stream. unfold advance at 1. rsimpl.
    destruct (function_parameters_spec el ln (lparen ln) [] [] ty errs rest
                (x :: xs) fuel) as
      (st1 & Hrun & Hts & Hel & Hcur & Hpm & Har & Hok & Hbad);
      [discriminate|assumption|assumption|].
    match goal with
    | |- context [function_parameters idc fuel ?s] =>
        change s with (loop_entry el ln (lparen ln) [] [] ty errs [] (x :: xs) rest)
    end.
    rewrite Hrun. cbn -[advance]. rewrite Hcur. cbn -[advance].
    assert (Hrest1 : head_ok (tokens st1)) by (rewrite Hts; assumption).
    destruct (advance_flags st1 Hrest1) as (He & _ & Hs & Hc & _).
    exists (advance st1). split.
    { rewrite bool_decide_true by reflexivity.
      unfold advance, set_parser. rewrite Hcur. reflexivity. }
    rewrite He, Hs, Hc. auto.
Qed.

End Parameters.

Section Arguments.
Variable expression : State -> State.

(** An argument compiles without error of its own. *)
Definition flags_kept (s s' : State) : Prop :=
  hadError (parser s') = hadError (parser s)
  /\ panicMode (parser s') = panicMode (parser s)
  /\ stderr s' = stderr s.

(** The test of the argument count after an argument. *)
Definition after_count (argCount : Z) (st : State) : State :=
  if argCount =? 255
  then error "Can't have more than 255 arguments" st else st.

(** [args_run n argCount st st_end]: from [st], with [argCount] arguments
    read so far, the loop of [argumentList] reads [n] more arguments, each
    followed by a comma but the last, and leaves the loop in [st_end]. *)
Inductive args_run : nat -> Z -> State -> State -> Prop :=
| args_last (argCount : Z) (st : State) :
    flags_kept st (expression st) ->
    check TOKEN_COMMA (after_count argCount (expression st)) = false ->
    args_run 1 argCount st (after_count argCount (expression st))
| args_more (n : nat) (argCount : Z) (st st_end : State) :
    flags_kept st (expression st) ->
    check TOKEN_COMMA (after_count argCount (expression st)) = true ->
    head_ok (tokens (after_count argCount (expression st))) ->
    args_run n ((argCount + 1) mod 256)
      (advance (after_count argCount (expression st))) st_end ->
    args_run (S n) argCount st st_end.

Lemma after_count_flags (a : Z) (s : State) :
  panicMode (parser s) = hadError (parser s) ->
  hadError (parser (after_count a s)) = hadError (parser s) || (a =? 255)
  /\ panicMode (parser (after_count a s)) = hadError (parser (after_count a s))
  /\ (a <> 255 -> stderr (after_count a s) = stderr s).
Proof.
  intros Hp. unfold after_count, error, errorAt.
  destruct (Z.eqb_spec a 255) as [->|Hne].
  - rewrite Hp. destruct (hadError (parser s)) eqn:He; simpl;
      rewrite ?He, ?Hp; repeat split; try reflexivity; try assumption;
      intros H; contradiction.
  - rewrite orb_false_r. auto.
Qed.

Lemma argumentList_loop_spec (n : nat) (a : Z) (st st_end : State) :
  args_run n a st st_end ->
  forall fuel : nat,
    0 <= a <= 255 -> panicMode (parser st) = hadError (parser st) ->
    (n <= fuel)%nat ->
    argumentList_loop expression fuel a st
    = Some ((a + Z.of_nat n) mod 256, st_end)
    /\ hadError (parser st_end)
       = hadError (parser st) || (255 <? a + Z.of_nat n)
    /\ panicMode (parser st_end) = hadError (parser st_end)
    /\ (a + Z.of_nat n <= 255 -> stderr st_end = stderr st).
Proof.
  induction 1 as [a st (He & Hp & Hs) Hcheck
                 |n a st st_end (He & Hp & Hs) Hcheck Hok Hrun IH];
    intros fuel Ha Hflags Hfuel.
  - destruct fuel as [|fuel]; [lia|]. simpl argumentList_loop.
    fold (after_count a (expression st)). unfold match_. rewrite Hcheck. simpl.
    destruct (after_count_flags a (expression st)) as (Hh & Hpm & Hst);
      [congruence|].
    split; [reflexivity|].
    split; [|split; [assumption|]].
    + rewrite Hh, He. f_equal.
      destruct (Z.eqb_spec a 255), (Z.ltb_spec 255 (a + Z.of_nat 1));
        lia || reflexivity.
    + intros Hle. rewrite Hst by lia. assumption.
  - destruct fuel as [|fuel]; [lia|]. simpl argumentList_loop.
    fold (after_count a (expression st)). unfold match_. rewrite Hcheck. simpl.
    destruct (after_count_flags a (expression st)) as (Hh & Hpm & Hst);
      [congruence|].
    destruct (advance_flags _ Hok) as (Hae & Hap & Has & _).
    destruct (IH fuel) as (Hloop & Hhe & Hpe & Hse).
    { pose proof (Z.mod_pos_bound (a + 1) 256). lia. }
    { congruence. }
    { lia. }
    rewrite Hloop. split; [|split; [|split]].
    + f_equal. f_equal. rewrite Zplus_mod_idemp_l. f_equal. lia.
    + rewrite Hhe, Hae, Hh, He, <- orb_assoc. f_equal.
      destruct (Z.eqb_spec a 255) as [Heq|Hne].
      * symmetry. apply Z.ltb_lt. lia.
      * rewrite Z.mod_small by lia. simpl orb. f_equal. lia.
    + assumption.
    + intros Hle. rewrite Z.mod_small in Hse by lia.
      rewrite Hse by lia. rewrite Has, Hst by lia. assumption.
Qed.

(** [argumentList] on a call with [n] arguments. *)
Lemma argumentList_spec (n : nat) (st st_end : State) (fuel : nat) :
  check TOKEN_RIGHT_PAREN st = false ->
  args_run n 0 st st_end ->
  check TOKEN_RIGHT_PAREN st_end = true -> head_ok (tokens st_end) ->
  hadError (parser st) = false -> panicMode (parser st) = false ->
  (n <= fuel)%nat ->
  exists argCount st',
    argumentList expression fuel st = Some (argCount, st')
    /\ argCount = Z.of_nat n mod 256
    /\ (Z.of_nat n <= 255 ->
        hadError (parser st') = false /\ argCount = Z.of_nat n
        /\ stderr st' = stderr st)
    /\ (255 < Z.of_nat n -> hadError (parser st') = true).
Proof.
  intros Hopen Hrun Hclose Hok He Hp Hfuel.
  destruct (argumentList_loop_spec n 0 st st_end Hrun fuel)
    as (Hloop & Hhe & Hpe & Hse); [lia|congruence|assumption|].
  rewrite Z.add_0_l in Hloop, Hhe, Hse.
  unfold argumentList. rewrite Hopen. simpl negb. cbv iota.
  rewrite Hloop. simpl. unfold consume. rewrite Hclose.
  destruct (advance_flags st_end Hok) as (Hae & _ & Has & _).
  exists (Z.of_nat n mod 256), (advance st_end).
  split; [reflexivity|]. split; [reflexivity|].
  rewrite Hae, Has, Hhe, He. simpl.
  split.
  - intros Hle. destruct (Z.ltb_spec 255 (Z.of_nat n)); [lia|].
    split; [reflexivity|]. split; [apply Z.mod_small; lia | apply Hse; lia].
  - intros Hgt. destruct (Z.ltb_spec 255 (Z.of_nat n)); [reflexivity|lia].
Qed.

End Arguments.

(** ** Concrete declarations and calls *)

Definition lbrace (ln : Z) : Token :=
  {| Token.type := TOKEN_LEFT_BRACE; start := "{"; length := 1; Token.line := ln |}.

Definition semicolon (ln : Z) : Token :=
  {| Token.type := TOKEN_SEMICOLON; start := ";"; length := 1; Token.line := ln |}.

Definition nil_token (ln : Z) : Token :=
  {| Token.type := TOKEN_NIL; start := "nil"; length := 3; Token.line := ln |}.

(** Two-letter names [aa], [ab], ..., pairwise different below 26 * 26. *)
Definition param_name (i : nat) : string :=
  String (ascii_of_nat (97 + i / 26))
    (String (ascii_of_nat (97 + i mod 26)) EmptyString).

Definition param_names (k : nat) : list string := param_name <$> seq 0 k.

Definition start_state (cur : Token) (toks : list Token) : State :=
  {| tokens := toks; eof_line := 1;
     parser := {| current := cur; previous := cur;
                  hadError := false; panicMode := false |};
     compiler := {| arity := 0; code := []; lines := []; type := TYPE_SCRIPT;
                    locals := []; localCount := 0; scopeDepth := 0 |};
     stderr := [] |}.

(** [fun f(aa, ab, ...) {] with [k] parameters, the compiler standing at
    the opening parenthesis. *)
Definition declaration_state (k : nat) : State :=
  start_state (lparen 1) (param_stream 1 (param_names k) [lbrace 1]).

(** No constant table: every name gets index 0. *)
Definition constant_zero (t : Token) (st : State) : Z * State := (0, st).

(** What [expression] does on the literal [nil] followed by a comma or a
    parenthesis: [parsePrecedence] advances over the token, [literal] emits
    [OP_NIL], and no infix rule applies. *)
Definition nil_literal (st : State) : State := emitByte 1 (advance st).

Fixpoint arg_tail (ln : Z) (k : nat) (rest : list Token) : list Token :=
  match k with
  | O => rest
  | S k' => comma ln :: nil_token ln :: arg_tail ln k' rest
  end.

(** [f(nil, nil, ...);] with [S k] arguments, the compiler standing at the
    first argument. *)
Definition call_state (k : nat) : State :=
  start_state (nil_token 1) (arg_tail 1 k [rparen 1; semicolon 1]).

(** Summary of a compilation: was an error reported, and what was printed. *)
Definition outcome (st : State) : bool * list (Z * string) :=
  (hadError (parser st), stderr st).

Example declaration_255_parameters :
  (fun r => (arity (compiler r), outcome r))
    <$> function_head constant_zero 300 TYPE_FUNCTION (declaration_state 255)
  = Some (255, (false, [])).
Proof. vm_compute. reflexivity. Qed.

Example declaration_256_parameters :
  (fun r => (arity (compiler r), outcome r))
    <$> function_head constant_zero 300 TYPE_FUNCTION (declaration_state 256)
  = Some (256, (true, [(1, "Can't have more than 255 parameters."%string)])).
Proof. vm_compute. reflexivity. Qed.

Example call_255_arguments :
  (fun r => (fst r, outcome (snd r)))
    <$> argumentList nil_literal 300 (call_state 254)
  = Some (255, (false, [])).
Proof. vm_compute. reflexivity. Qed.

Example call_256_arguments :
  (fun r => (fst r, outcome (snd r)))
    <$> argumentList nil_literal 300 (call_state 255)
  = Some (0, (true, [(1, "Can't have more than 255 arguments"%string)])).
Proof. vm_compute. reflexivity. Qed.

(** C7. A function declaration whose parameter list has at most 255 names
    compiles up to its closing parenthesis without a compile error, and one
    with more than 255 names (a 256th parameter) reports the compile error
    "Can't have more than 255 parameters."; likewise the argument list of a
    call with at most 255 arguments compiles without error and returns the
    number of arguments, and a 256th argument sets the compile error flag.
    The parameter names are pairwise different, no token is a scanner error,
    and each argument expression compiles without an error of its own. *)
Theorem compile_arity_limits
    (identifierConstant : Token -> State -> Z * State)
    (expression : State -> State)
    (st : State) (ln : Z) (ty : FunctionType) (names : list string)
    (rest : list Token) (fuel : nat)
    (n : nat) (sa sa_end : State) (fuel_a : nat) :
  current (parser st) = lparen ln ->
  hadError (parser st) = false -> panicMode (parser st) = false ->
  tokens st = param_stream ln names rest ->
  NoDup names -> head_ok rest -> (List.length names <= fuel)%nat ->
  check TOKEN_RIGHT_PAREN sa = false ->
  args_run expression n 0 sa sa_end ->
  check TOKEN_RIGHT_PAREN sa_end = true -> head_ok (tokens sa_end) ->
  hadError (parser sa) = false -> panicMode (parser sa) = false ->
  (n <= fuel_a)%nat ->
  (exists st',
      function_head identifierConstant fuel ty st = Some st'
      /\ arity (compiler st') = Z.of_nat (List.length names)
      /\ (Z.of_nat (List.length names) <= 255 ->
          hadError (parser st') = false /\ stderr st' = stderr st)
      /\ (255 < Z.of_nat (List.length names) ->
          hadError (parser st') = true
          /\ stderr st'
             = stderr st ++ [(ln, "Can't have more than 255 parameters."%string)]))
  /\ (exists argCount sa',
         argumentList expression fuel_a sa = Some (argCount, sa')
         /\ argCount = Z.of_nat n mod 256
         /\ (Z.of_nat n <= 255 ->
             hadError (parser sa') = false /\ argCount = Z.of_nat n
             /\ stderr sa' = stderr sa)
         /\ (255 < Z.of_nat n -> hadError (parser sa') = true)).
Proof.
  intros Hcur He Hp Htok Hnd Hok Hfuel Hopen Hrun Hclose Hoka Hea Hpa Hfa.
  split.
  - apply (function_head_spec identifierConstant st ln ty names rest fuel);
      assumption.
  - apply argumentList_spec with (st_end := sa_end); assumption.
Qed.

Lemma compile_arity_limits_witness :
  (exists st',
      function_head constant_zero 255 TYPE_FUNCTION (declaration_state 255)
      = Some st'
      /\ arity (compiler st') = 255 /\ hadError (parser st') = false)
  /\ (exists argCount sa',
         argumentList nil_literal 3 (call_state 2) = Some (argCount, sa')
         /\ argCount = 3 /\ hadError (parser sa') = false).
Proof.
  destruct (compile_arity_limits constant_zero nil_literal
              (declaration_state 255) 1 TYPE_FUNCTION (param_names 255)
              [lbrace 1] 255
              3 (call_state 2)
              (nil_literal (advance (nil_literal (advance
                 (nil_literal (call_state 2)))))) 3)
    as [(st' & Hrun & Har & Hok & _) (c & sa' & Hargs & Hc & Hfew & _)].
  - reflexivity.
  - reflexivity.
  - reflexivity.
  - reflexivity.
  - apply (bool_decide_unpack (NoDup (param_names 255))). vm_compute. exact I.
  - simpl. discriminate.
  - vm_compute. lia.
  - reflexivity.
  - apply args_more; [repeat split; reflexivity | reflexivity
                     | simpl; discriminate |].
    apply args_more; [repeat split; reflexivity | reflexivity
                     | simpl; discriminate |].
    apply args_last; [repeat split; reflexivity | reflexivity].
  - reflexivity.
  - simpl. discriminate.
  - reflexivity.
  - reflexivity.
  - lia.
  - split.
    + exists st'. split; [exact Hrun|]. split; [exact Har|].
      apply Hok. vm_compute. discriminate.
    + exists c, sa'. split; [exact Hargs|].
      destruct Hfew as (Hh & Hn & _); [simpl; lia|].
      split; [exact Hn | exact Hh].
Defined.

End CompilerLimits.

(** ** The hash table as a finite map *)
Section TableContents.
Import Value Table.
Variable hash : Z -> Z.

(** Some slot of the array holds key [k] with value [v]. *)
Definition holds (ents : list Entry) (k : Z) (v : Value) : Prop :=
  exists j : nat, ents !! j = Some {| key := Some k; value := v |}.

(** Every key is found by a probe for it, in the slot where it lies. *)
Definition probe_sound (ents : list Entry) (cap : Z) : Prop :=
  forall (j : nat) (e : Entry) (k : Z),
    ents !! j = Some e -> key e = Some k ->
    findEntry hash ents cap k = Some (Z.of_nat j).

Record table_inv (t : Table) : Prop := {
  inv_wf : wf t;
  inv_probe : probe_sound (entries t) (capacity t)
}.

Lemma entry_eta (e : Entry) (k : Z) :
  key e = Some k -> e = {| key := Some k; value := value e |}.
Proof. destruct e as [ke ve]. simpl. intros ->. reflexivity. Qed.

Lemma land_nonneg_next (idx cap : Z) : 0 <= idx -> 0 <= Z.land (idx + 1) (cap - 1).
Proof. intros H. apply Z.land_nonneg. left. lia. Qed.

(** The slot a probe returns holds the key looked for, or no key. *)
Lemma findEntry_loop_result (ents : list Entry) (cap k : Z) :
  forall (fuel : nat) (idx : Z) (tomb : option Z) (i : Z),
    0 <= idx ->
    (forall t, tomb = Some t ->
               0 <= t /\ exists e, ents !! Z.to_nat t = Some e /\ key e = None) ->
    findEntry_loop fuel ents cap k idx tomb = Some i ->
    0 <= i /\ exists e, ents !! Z.to_nat i = Some e
                        /\ (key e = Some k \/ key e = None).
Proof.
  induction fuel as [|fuel IH]; intros idx tomb i Hidx Ht H; [discriminate H|].
  simpl in H.
  destruct (ents !! Z.to_nat idx) as [entry|] eqn:Hl; [|discriminate H].
  simpl in H. pose proof (land_nonneg_next idx cap Hidx) as Hnext.
  destruct (key entry) as [k'|] eqn:Hk.
  - destruct (Z.eqb_spec k' k) as [->|Hne].
    + injection H as <-. eauto.
    + eapply IH; eassumption.
  - destruct (IS_NIL (value entry)).
    + destruct tomb as [t|]; injection H as <-.
      * destruct (Ht t eq_refl) as (Ht0 & e & He & Hke). eauto.
      * eauto.
    + eapply IH; [exact Hnext| |exact H].
      intros t. destruct tomb as [t0|]; intros [= <-]; eauto.
Qed.

Lemma findEntry_result (ents : list Entry) (cap k i : Z) :
  0 < cap ->
  findEntry hash ents cap k = Some i ->
  0 <= i /\ exists e, ents !! Z.to_nat i = Some e
                      /\ (key e = Some k \/ key e = None).
Proof.
  unfold findEntry. intros Hcap H.
  eapply findEntry_loop_result; [| |exact H].
  - apply Z.land_nonneg. right. lia.
  - intros t [=].
Qed.

(** Writing key [k] into the slot of a probe for [k] does not disturb the
    probe for another key that is in the table. *)
Lemma findEntry_loop_frame (ents : list Entry) (cap k k' : Z) (v : Value)
    (i : nat) (old : Entry) (j : nat) (e : Entry) :
  k' <> k ->
  ents !! i = Some old -> (key old = Some k \/ key old = None) ->
  ents !! j = Some e -> key e = Some k' ->
  forall (fuel : nat) (idx : Z) (tomb tomb' : option Z),
    0 <= idx -> tomb <> Some (Z.of_nat j) ->
    findEntry_loop fuel ents cap k' idx tomb = Some (Z.of_nat j) ->
    findEntry_loop fuel (<[i := {| key := Some k; value := v |}]> ents)
      cap k' idx tomb' = Some (Z.of_nat j).
Proof.
  intros Hkk Hold Hko Hj Hke.
  assert (Hij : i <> j).
  { intros ->. rewrite Hj in Hold. injection Hold as <-.
    rewrite Hke in Hko. destruct Hko as [[=]|[=]]. congruence. }
  induction fuel as [|fuel IH]; intros idx tomb tomb' Hidx Ht H; [discriminate H|].
  simpl in H |- *.
  destruct (ents !! Z.to_nat idx) as [entry|] eqn:Hl; [|discriminate H].
  simpl in H. pose proof (land_nonneg_next idx cap Hidx) as Hnext.
  assert (Hstop : key entry = None -> idx <> Z.of_nat j).
  { intros Hn ->. rewrite Nat2Z.id in Hl. congruence. }
  destruct (decide (Z.to_nat idx = i)) as [Hi|Hi].
  - subst i. rewrite list_lookup_insert_eq by (eapply lookup_lt_Some; eassumption).
    simpl. destruct (Z.eqb_spec k k') as [->|_]; [contradiction|].
    rewrite Hl in Hold. injection Hold as ->.
    destruct (key old) as [k0|] eqn:Hk0.
    + destruct Hko as [[= ->]|[=]].
      destruct (Z.eqb_spec k k'); [congruence|].
      eapply IH; eassumption.
    + destruct (IS_NIL (value old)).
      * exfalso. destruct tomb as [t|]; injection H as ->.
        -- congruence.
        -- apply (Hstop eq_refl). reflexivity.
      * eapply IH; [exact Hnext| |exact H].
        destruct tomb as [t|]; [assumption|].
        intros [= E]. apply (Hstop eq_refl E).
  - rewrite list_lookup_insert_ne by congruence. rewrite Hl. simpl.
    destruct (key entry) as [k0|] eqn:Hk0.
    + destruct (k0 =? k'); [assumption|]. eapply IH; eassumption.
    + destruct (IS_NIL (value entry)).
      * exfalso. destruct tomb as [t|]; injection H as ->.
        -- congruence.
        -- apply (Hstop eq_refl). reflexivity.
      * eapply IH; [exact Hnext| |exact H].
        destruct tomb as [t|]; [assumption|].
        intros [= E]. apply (Hstop eq_refl E).
Qed.

(** Writing [k] into the slot its probe returned keeps every key where a
    probe finds it. *)
Lemma probe_sound_insert (ents : list Entry) (cap k i : Z) (v : Value) :
  0 < cap ->
  probe_sound ents cap ->
  findEntry hash ents cap k = Some i ->
  probe_sound (<[Z.to_nat i := {| key := Some k; value := v |}]> ents) cap.
Proof.
  intros Hcap Hs Hfind.
  destruct (findEntry_result ents cap k i Hcap Hfind) as (Hi & old & Hold & Hko).
  intros j e k2 Hj Hk2.
  destruct (decide (j = Z.to_nat i)) as [->|Hne].
  - rewrite list_lookup_insert_eq in Hj by (eapply lookup_lt_Some; eassumption).
    injection Hj as <-. simpl in Hk2. injection Hk2 as <-.
    rewrite Z2Nat.id by assumption.
    unfold findEntry in *. eapply findEntry_loop_replay; [assumption| | |exact Hfind].
    + apply Z.land_nonneg. right. lia.
    + discriminate.
  - rewrite list_lookup_insert_ne in Hj by congruence.
    pose proof (Hs j e k2 Hj Hk2) as Hfind2.
    assert (Hkk : k2 <> k).
    { intros ->. rewrite Hfind in Hfind2. injection Hfind2 as ->.
      rewrite Nat2Z.id in Hne. contradiction. }
    unfold findEntry in *.
    eapply findEntry_loop_frame; try eassumption.
    + apply Z.land_nonneg. right. lia.
    + discriminate.
Qed.

(** What the array holds after such a write. *)
Lemma holds_insert (ents : list Entry) (cap k i : Z) (v : Value) :
  0 < cap ->
  probe_sound ents cap ->
  findEntry hash ents cap k = Some i ->
  forall k2 v2,
    holds (<[Z.to_nat i := {| key := Some k; value := v |}]> ents) k2 v2
    <-> (k2 = k /\ v2 = v) \/ (k2 <> k /\ holds ents k2 v2).
Proof.
  intros Hcap Hs Hfind k2 v2.
  destruct (findEntry_result ents cap k i Hcap Hfind) as (Hi & old & Hold & Hko).
  split.
  - intros (j & Hj). destruct (decide (j = Z.to_nat i)) as [->|Hne].
    + rewrite list_lookup_insert_eq in Hj by (eapply lookup_lt_Some; eassumption).
      injection Hj as <- <-. auto.
    + rewrite list_lookup_insert_ne in Hj by congruence.
      destruct (Z.eq_dec k2 k) as [->|Hkk].
      * exfalso. pose proof (Hs j _ k Hj eq_refl) as Hf.
        rewrite Hfind in Hf. injection Hf as ->.
        rewrite Nat2Z.id in Hne. contradiction.
      * right. split; [assumption|]. exists j. assumption.
  - intros [(-> & ->)|(Hkk & j & Hj)].
    + exists (Z.to_nat i).
      apply list_lookup_insert_eq. eapply lookup_lt_Some; eassumption.
    + exists j. rewrite list_lookup_insert_ne; [assumption|].
      intros <-. rewrite Hj in Hold. injection Hold as <-. simpl in Hko.
      destruct Hko as [[=]|[=]]. congruence.
Qed.

(** The key is new exactly when the slot returned holds no key. *)
Lemma findEntry_new_iff (ents : list Entry) (cap k i : Z) (old : Entry) :
  0 < cap ->
  probe_sound ents cap ->
  findEntry hash ents cap k = Some i ->
  ents !! Z.to_nat i = Some old ->
  key old = None <-> forall v, ~ holds ents k v.
Proof.
  intros Hcap Hs Hfind Hold.
  destruct (findEntry_result ents cap k i Hcap Hfind) as (Hi & old' & Hold' & Hko).
  rewrite Hold in Hold'. injection Hold' as <-.
  split.
  - intros Hn v (j & Hj). pose proof (Hs j _ k Hj eq_refl) as Hf.
    rewrite Hfind in Hf. injection Hf as ->. rewrite Nat2Z.id in Hold.
    rewrite Hj in Hold. injection Hold as <-. discriminate Hn.
  - intros Hno. destruct Hko as [Hk|Hk]; [|assumption].
    exfalso. apply (Hno (value old)). exists (Z.to_nat i).
    rewrite Hold. f_equal. apply entry_eta. assumption.
Qed.

(** [tableGet] reads the map the array holds. *)
Lemma tableGet_Some_iff (t : Table) (k : Z) (v : Value) :
  table_inv t ->
  tableGet hash t k = Some (Some v) <-> holds (entries t) k v.
Proof.
  intros [Hwf Hs]. split.
  - unfold tableGet. destruct (Z.eqb_spec (count t) 0) as [|Hc]; [discriminate|].
    destruct (wf_count_zero_or_pow2 t Hwf) as [|(n & Hn & Hcap)]; [contradiction|].
    destruct (findEntry hash (entries t) (capacity t) k) as [i|] eqn:Hf;
      [|discriminate].
    simpl. assert (Hpos : 0 < capacity t).
    { rewrite Hcap. apply Z.pow_pos_nonneg; lia. }
    destruct (findEntry_result _ _ _ _ Hpos Hf) as (Hi & e & He & Hk).
    rewrite He. simpl. destruct (key e) as [k0|] eqn:Hk0; [|discriminate].
    intros [= <-]. destruct Hk as [[= ->]|[=]].
    exists (Z.to_nat i). rewrite He. f_equal. apply entry_eta. assumption.
  - intros (j & Hj). unfold tableGet.
    destruct (Z.eqb_spec (count t) 0) as [Hc|Hc].
    { pose proof (filled_lookup_nonempty _ _ _ Hj eq_refl).
      pose proof (wf_filled t Hwf). lia. }
    rewrite (Hs j _ k Hj eq_refl). simpl. rewrite Nat2Z.id, Hj. reflexivity.
Qed.

Lemma tableGet_None_iff (t : Table) (k : Z) :
  table_inv t ->
  tableGet hash t k = Some None <-> forall v, ~ holds (entries t) k v.
Proof.
  intros Hinv. split.
  - intros Hg v Hh. apply (tableGet_Some_iff t k v Hinv) in Hh. congruence.
  - intros Hno. destruct (tableGet_total hash t k (inv_wf t Hinv)) as [[v|] Hr];
      [|assumption].
    exfalso. apply (Hno v). apply tableGet_Some_iff; assumption.
Qed.

(** Two tables that hold the same bindings for [k] answer alike. *)
Lemma tableGet_ext (t t' : Table) (k : Z) :
  table_inv t -> table_inv t' ->
  (forall v, holds (entries t') k v <-> holds (entries t) k v) ->
  tableGet hash t' k = tableGet hash t k.
Proof.
  intros Hi Hi' Hh.
  destruct (tableGet_total hash t k (inv_wf t Hi)) as [[v|] Hr]; rewrite Hr.
  - apply tableGet_Some_iff; [assumption|]. apply Hh.
    apply tableGet_Some_iff; assumption.
  - apply tableGet_None_iff; [assumption|]. intros v Hv.
    apply Hh in Hv. apply tableGet_Some_iff in Hv; [|assumption]. congruence.
Qed.

Lemma table_inv_initTable : table_inv initTable.
Proof.
  split; [apply wf_initTable|]. intros j e k Hj. destruct j; discriminate Hj.
Qed.


(** Bindings in the first [j] slots of an array. *)
Definition holds_below (ents : list Entry) (j : Z) (k : Z) (v : Value) : Prop :=
  exists j' : nat, Z.of_nat j' < j
                   /\ ents !! j' = Some {| key := Some k; value := v |}.

Lemma holds_below_all (ents : list Entry) (k : Z) (v : Value) :
  holds_below ents (Z.of_nat (length ents)) k v <-> holds ents k v.
Proof.
  split.
  - intros (j & _ & Hj). exists j. assumption.
  - intros (j & Hj). exists j. split; [|assumption].
    apply lookup_lt_Some in Hj. lia.
Qed.

Lemma holds_below_step (ents : list Entry) (j : Z) (entry : Entry) (k : Z) (v : Value) :
  0 <= j -> ents !! Z.to_nat j = Some entry ->
  holds_below ents (j + 1) k v
  <-> entry = {| key := Some k; value := v |} \/ holds_below ents j k v.
Proof.
  intros Hj Hl. split.
  - intros (j' & Hlt & Hj'). destruct (decide (j' = Z.to_nat j)) as [->|Hne].
    + left. congruence.
    + right. exists j'. split; [lia|assumption].
  - intros [->|(j' & Hlt & Hj')].
    + exists (Z.to_nat j). split; [lia|assumption].
    + exists j'. split; [lia|assumption].
Qed.

(** [adjustCapacity] moves every binding to the new array and nothing
    else; in the new array every key is where its probe finds it. *)
Lemma adjustCapacity_inv (t : Table) (n' : Z) :
  table_inv t -> 0 <= n' -> capacity t < 2 ^ n' ->
  exists t', adjustCapacity hash t (2 ^ n') = Some t'
             /\ capacity t' = 2 ^ n'
             /\ Z.of_nat (length (entries t')) = 2 ^ n'
             /\ filled (entries t') <= count t'
             /\ 0 <= count t' <= capacity t
             /\ probe_sound (entries t') (2 ^ n')
             /\ forall k v, holds (entries t') k v <-> holds (entries t) k v.
Proof.
  intros [Hwf Hsound] Hn' Hcap. unfold adjustCapacity.
  assert (Hpos : 0 < 2 ^ n') by (apply Z.pow_pos_nonneg; lia).
  pose proof (wf_len t Hwf) as Hlen.
  destruct (for_loop_inv
    (fun j (st : list Entry * Z) =>
       Z.of_nat (length (fst st)) = 2 ^ n'
       /\ filled (fst st) <= snd st /\ 0 <= snd st <= j
       /\ probe_sound (fst st) (2 ^ n')
       /\ forall k v, holds (fst st) k v <-> holds_below (entries t) j k v)
    (adjustCapacity_body hash (entries t) (2 ^ n'))
    (Z.to_nat (capacity t)) 0
    (replicate (Z.to_nat (2 ^ n')) {| key := None; value := NIL_VAL |}, 0))
    as (st & Hloop & Hlen' & Hf & Hc & Hs' & Hh).
  - simpl. rewrite length_replicate, filled_replicate.
    split; [lia|]. split; [lia|]. split; [lia|]. split.
    + intros j e k Hj Hk. apply lookup_replicate in Hj as [-> _]. discriminate Hk.
    + intros k v. split.
      * intros (j & Hj). apply lookup_replicate in Hj as [[=] _].
      * intros (j & Hlt & _). lia.
  - intros j [ents c] Hj (Hl & Hf & Hc & Hs' & Hh). simpl in Hl, Hf, Hc, Hs', Hh.
    unfold adjustCapacity_body.
    destruct (entries t !! Z.to_nat j) as [entry|] eqn:Hold.
    2:{ apply lookup_ge_None in Hold. lia. }
    simpl. destruct (key entry) as [k|] eqn:Hk.
    + destruct (findEntry_returns hash ents n' k) as (d & Hd & Hdr);
        [assumption..|lia|].
      rewrite Hd. simpl. eexists. split; [reflexivity|]. simpl.
      destruct (ents !! Z.to_nat d) as [old|] eqn:Hdl.
      2:{ apply lookup_ge_None in Hdl. lia. }
      rewrite length_insert, (filled_insert _ _ old) by assumption.
      simpl. split; [assumption|].
      split; [destruct (is_empty old); lia|]. split; [lia|].
      split; [apply probe_sound_insert; assumption|].
      intros k2 v2. rewrite (holds_insert ents (2 ^ n') k d) by assumption.
      rewrite (holds_below_step _ j entry) by (assumption || lia).
      rewrite Hh. split.
      * intros [(-> & ->)|(Hne & Hb)]; [left|right; assumption].
        apply entry_eta. assumption.
      * intros [->|Hb].
        -- simpl in Hk. injection Hk as ->. left. auto.
        -- destruct (Z.eq_dec k2 k) as [->|Hne]; [|right; auto].
           exfalso. destruct Hb as (j' & Hlt & Hj').
           pose proof (Hsound j' _ k Hj' eq_refl) as F1.
           pose proof (Hsound (Z.to_nat j) _ k Hold Hk) as F2.
           rewrite F1 in F2. injection F2 as F2. lia.
    + eexists. split; [reflexivity|]. simpl.
      split; [assumption|]. split; [assumption|]. split; [lia|].
      split; [assumption|].
      intros k2 v2. rewrite (holds_below_step _ j entry) by (assumption || lia).
      rewrite Hh. split; [auto|]. intros [->|Hb]; [discriminate Hk|assumption].
  - rewrite Hloop. simpl. eexists. split; [reflexivity|]. simpl.
    split; [reflexivity|]. split; [assumption|]. split; [assumption|].
    split; [lia|]. split; [assumption|].
    intros k v. rewrite Hh. rewrite Z.add_0_l, Z2Nat.id, <- Hlen by lia.
    apply holds_below_all.
Qed.

(** The table on which [tableSet] probes, after the optional growth: it
    holds the same bindings. *)
Lemma tableSet_grow_inv (t : Table) :
  table_inv t ->
  exists t1 m,
    (if 3 * capacity t <? 4 * (count t + 1)
     then adjustCapacity hash t (GROW_CAPACITY (capacity t))
     else Some t) = Some t1
    /\ 0 <= m /\ capacity t1 = 2 ^ m
    /\ 4 * (count t1 + 1) <= 3 * 2 ^ m
    /\ table_inv t1
    /\ forall k v, holds (entries t1) k v <-> holds (entries t) k v.
Proof.
  intros Hinv. pose proof (inv_wf t Hinv) as Hwf.
  pose proof (filled_bounds (entries t)) as Hfb.
  destruct (Z.ltb_spec (3 * capacity t) (4 * (count t + 1))) as [Hgrow|Hok].
  - destruct (GROW_CAPACITY_pow2 t Hwf) as (n' & Hn' & -> & Hlt & Hld).
    destruct (adjustCapacity_inv t n' Hinv Hn' Hlt)
      as (t' & -> & Hc & Hl & Hf & Hcnt & Hs & Hh).
    exists t', n'. split; [reflexivity|]. split; [assumption|].
    split; [assumption|]. split; [lia|]. split; [|assumption].
    split; [split|]; rewrite ?Hc; try assumption; try lia. right. eauto.
  - destruct (wf_pow2 t Hwf) as [H0|(n & Hn & Hc)].
    { pose proof (wf_filled t Hwf). lia. }
    exists t, n. rewrite <- Hc. split; [reflexivity|]. split; [assumption|].
    split; [reflexivity|]. split; [lia|]. split; [assumption|]. reflexivity.
Qed.


(** [tableSet] as a map update. *)
Lemma tableSet_inv (t : Table) (k : Z) (v : Value) :
  table_inv t ->
  exists isNew t',
    tableSet hash t k v = Some (isNew, t')
    /\ table_inv t'
    /\ (forall k2 v2, holds (entries t') k2 v2
                      <-> (k2 = k /\ v2 = v) \/ (k2 <> k /\ holds (entries t) k2 v2))
    /\ (isNew = true <-> forall v0, ~ holds (entries t) k v0).
Proof.
  intros Hinv.
  destruct (tableSet_spec hash t k v (inv_wf t Hinv)) as (isNew & t' & Hset & Hwf' & _).
  exists isNew, t'. split; [assumption|].
  unfold tableSet in Hset.
  destruct (tableSet_grow_inv t Hinv) as (t1 & m & Hgrow & Hm & Hc & Hld & Hinv1 & Hh1).
  rewrite Hgrow in Hset. simpl in Hset.
  assert (Hpos : 0 < capacity t1) by (rewrite Hc; apply Z.pow_pos_nonneg; lia).
  destruct (findEntry hash (entries t1) (capacity t1) k) as [i|] eqn:Hfind;
    [|discriminate Hset].
  simpl in Hset.
  destruct (entries t1 !! Z.to_nat i) as [old|] eqn:Hold; [|discriminate Hset].
  simpl in Hset. injection Hset as HisNew Ht'.
  pose proof (inv_probe t1 Hinv1) as Hs1.
  split; [|split].
  - split; [assumption|]. subst t'. simpl.
    apply probe_sound_insert; assumption.
  - intros k2 v2. subst t'. simpl.
    rewrite (holds_insert (entries t1) (capacity t1) k i) by assumption.
    rewrite Hh1. reflexivity.
  - rewrite <- HisNew, bool_decide_eq_true.
    rewrite (findEntry_new_iff (entries t1) (capacity t1) k i old) by assumption.
    split; intros H v0 Hv0; apply (H v0); apply Hh1; assumption.
Qed.

(** [tableDelete] as the code has it: the slot keeps its key and its value
    becomes [true]. *)
Lemma tableDelete_inv (t : Table) (k : Z) :
  table_inv t ->
  exists r t',
    tableDelete hash t k = Some (r, t')
    /\ table_inv t'
    /\ count t' = count t /\ capacity t' = capacity t
    /\ (r = false -> t' = t /\ forall v, ~ holds (entries t) k v)
    /\ (r = true ->
        (exists v, holds (entries t) k v)
        /\ forall k2 v2, holds (entries t') k2 v2
                         <-> (k2 = k /\ v2 = BOOL_VAL true)
                             \/ (k2 <> k /\ holds (entries t) k2 v2)).
Proof.
  intros Hinv. pose proof (inv_wf t Hinv) as Hwf.
  pose proof (inv_probe t Hinv) as Hs.
  destruct (tableDelete_wf hash t k Hwf) as (r & t' & Hdel & Hwf').
  exists r, t'. split; [assumption|].
  unfold tableDelete in Hdel.
  destruct (Z.eqb_spec (count t) 0) as [Hc0|Hc].
  { injection Hdel as <- <-. split; [assumption|].
    split; [reflexivity|]. split; [reflexivity|]. split; [|discriminate].
    intros _. split; [reflexivity|]. intros v0 (j & Hj).
    pose proof (filled_lookup_nonempty _ _ _ Hj eq_refl).
    pose proof (wf_filled t Hwf). lia. }
  destruct (wf_count_zero_or_pow2 t Hwf) as [|(n & Hn & Hcap)]; [contradiction|].
  assert (Hpos : 0 < capacity t) by (rewrite Hcap; apply Z.pow_pos_nonneg; lia).
  destruct (findEntry hash (entries t) (capacity t) k) as [i|] eqn:Hfind;
    [|discriminate Hdel].
  simpl in Hdel.
  destruct (entries t !! Z.to_nat i) as [old|] eqn:Hold; [|discriminate Hdel].
  simpl in Hdel.
  destruct (findEntry_result _ _ _ _ Hpos Hfind) as (Hi & old' & Hold' & Hko).
  rewrite Hold in Hold'. injection Hold' as <-.
  destruct (key old) as [k0|] eqn:Hk0.
  - destruct Hko as [[= ->]|[=]]. injection Hdel as <- <-. simpl.
    split; [|split; [reflexivity|split; [reflexivity|split; [discriminate|]]]].
    + split; [assumption|]. simpl. apply probe_sound_insert; assumption.
    + intros _. split.
      * exists (value old), (Z.to_nat i). rewrite Hold. f_equal.
        apply entry_eta. assumption.
      * intros k2 v2. apply (holds_insert (entries t) (capacity t) k i); assumption.
  - injection Hdel as <- <-.
    split; [assumption|]. split; [reflexivity|]. split; [reflexivity|].
    split; [|discriminate]. intros _. split; [reflexivity|].
    apply (findEntry_new_iff (entries t) (capacity t) k i old); assumption.
Qed.


(** No key lies in two slots. *)
Lemma probe_sound_unique (ents : list Entry) (cap k : Z) (j1 j2 : nat)
    (e1 e2 : Entry) :
  probe_sound ents cap ->
  ents !! j1 = Some e1 -> key e1 = Some k ->
  ents !! j2 = Some e2 -> key e2 = Some k -> j1 = j2.
Proof.
  intros Hs H1 K1 H2 K2.
  pose proof (Hs j1 e1 k H1 K1) as F1. pose proof (Hs j2 e2 k H2 K2) as F2.
  rewrite F1 in F2. injection F2 as F2. lia.
Qed.

(** [tableAddAll] as a map union in which [from] wins. *)
Lemma tableAddAll_inv (from to : Table) :
  table_inv from -> table_inv to ->
  exists to',
    tableAddAll hash from to = Some to'
    /\ table_inv to'
    /\ forall k v, holds (entries to') k v
                   <-> holds (entries from) k v
                       \/ ((forall v0, ~ holds (entries from) k v0)
                           /\ holds (entries to) k v).
Proof.
  intros Hfrom Hto. unfold tableAddAll.
  pose proof (wf_len from (inv_wf from Hfrom)) as Hlen.
  pose proof (inv_probe from Hfrom) as Hs.
  destruct (for_loop_inv
    (fun j (tj : Table) =>
       table_inv tj
       /\ forall k v, holds (entries tj) k v
                      <-> holds_below (entries from) j k v
                          \/ ((forall v0, ~ holds_below (entries from) j k v0)
                              /\ holds (entries to) k v))
    (tableAddAll_body hash from)
    (Z.to_nat (capacity from)) 0 to)
    as (to' & Hloop & Hinv' & Hh).
  - split; [assumption|]. intros k v. split.
    + intros H. right. split; [|assumption]. intros v0 (j & Hlt & _). lia.
    + intros [(j & Hlt & _)|[_ H]]; [lia|assumption].
  - intros j tj Hj (Hinvj & Hhj). unfold tableAddAll_body.
    destruct (entries from !! Z.to_nat j) as [entry|] eqn:Hold.
    2:{ apply lookup_ge_None in Hold. lia. }
    simpl.
    assert (Hstep : forall k v,
               holds_below (entries from) (j + 1) k v
               <-> entry = {| key := Some k; value := v |}
                   \/ holds_below (entries from) j k v).
    { intros k v. apply holds_below_step; [lia|assumption]. }
    destruct (key entry) as [k0|] eqn:Hk0.
    + destruct (tableSet_inv tj k0 (value entry) Hinvj)
        as (isNew & t2 & Hset & Hinv2 & Hh2 & _).
      rewrite Hset. simpl. exists t2. split; [reflexivity|].
      split; [assumption|].
      assert (Huniq : forall v0, ~ holds_below (entries from) j k0 v0).
      { intros v0 (j' & Hlt & Hj').
        pose proof (probe_sound_unique _ _ k0 _ _ _ _ Hs Hj' eq_refl Hold Hk0).
        lia. }
      intros k v. rewrite Hh2, Hhj. split.
      * intros [(-> & ->)|(Hne & [Hb|(Hnb & Ht)])].
        -- left. apply Hstep. left. apply entry_eta. assumption.
        -- left. apply Hstep. right. assumption.
        -- right. split; [|assumption]. intros v1 Hv1. apply Hstep in Hv1.
           destruct Hv1 as [->|Hv1]; [simpl in Hk0; congruence|].
           apply (Hnb v1 Hv1).
      * intros [Hb|(Hnb & Ht)].
        -- apply Hstep in Hb. destruct Hb as [->|Hb].
           ++ simpl in Hk0. injection Hk0 as ->. left. auto.
           ++ right. split; [|left; assumption].
              intros ->. apply (Huniq v Hb).
        -- right. split.
           ++ intros ->. apply (Hnb (value entry)). apply Hstep. left.
              apply entry_eta. assumption.
           ++ right. split; [|assumption]. intros v1 Hv1.
              apply (Hnb v1). apply Hstep. right. assumption.
    + exists tj. split; [reflexivity|]. split; [assumption|].
      intros k v. rewrite Hhj. split.
      * intros [Hb|(Hnb & Ht)].
        -- left. apply Hstep. right. assumption.
        -- right. split; [|assumption]. intros v1 Hv1. apply Hstep in Hv1.
           destruct Hv1 as [->|Hv1]; [discriminate Hk0|]. apply (Hnb v1 Hv1).
      * intros [Hb|(Hnb & Ht)].
        -- apply Hstep in Hb. destruct Hb as [->|Hb]; [discriminate Hk0|].
           left. assumption.
        -- right. split; [|assumption]. intros v1 Hv1.
           apply (Hnb v1). apply Hstep. right. assumption.
  - exists to'. split; [assumption|]. split; [assumption|].
    intros k v. rewrite Hh, Z.add_0_l, Z2Nat.id, <- Hlen by lia.
    rewrite holds_below_all. split.
    + intros [H|(Hn & H)]; [left; assumption|right]. split; [|assumption].
      intros v0 Hv0. apply (Hn v0). apply holds_below_all. assumption.
    + intros [H|(Hn & H)]; [left; assumption|right]. split; [|assumption].
      intros v0 Hv0. apply (Hn v0). apply holds_below_all. assumption.
Qed.


(** After [tableSet] the key is bound to the value stored and every other
    key is bound as before, whether or not the array was grown; the table
    stays well-formed with every key where a probe finds it. *)
Theorem tableSet_updates_map (t : Table) (k : Z) (v : Value) :
  table_inv t ->
  exists isNew t',
    tableSet hash t k v = Some (isNew, t')
    /\ table_inv t'
    /\ tableGet hash t' k = Some (Some v)
    /\ forall k', k' <> k -> tableGet hash t' k' = tableGet hash t k'.
Proof.
  intros Hinv.
  destruct (tableSet_inv t k v Hinv) as (isNew & t' & Hset & Hinv' & Hh & _).
  exists isNew, t'. split; [assumption|]. split; [assumption|]. split.
  - apply tableGet_Some_iff; [assumption|]. apply Hh. auto.
  - intros k' Hne. apply tableGet_ext; [assumption..|].
    intros v'. rewrite Hh. split.
    + intros [(-> & _)|(_ & H)]; [contradiction|assumption].
    + intros H. auto.
Qed.

(** [tableSet] returns [true] exactly when the key was not bound before. *)
Theorem tableSet_reports_new_key (t : Table) (k : Z) (v : Value) :
  table_inv t ->
  exists isNew t',
    tableSet hash t k v = Some (isNew, t')
    /\ (isNew = true <-> tableGet hash t k = Some None)
    /\ (isNew = false <-> exists v0, tableGet hash t k = Some (Some v0)).
Proof.
  intros Hinv.
  destruct (tableSet_inv t k v Hinv) as (isNew & t' & Hset & _ & _ & Hnew).
  exists isNew, t'. split; [assumption|].
  rewrite <- (tableGet_None_iff t k Hinv) in Hnew.
  split; [assumption|].
  destruct (tableGet_total hash t k (inv_wf t Hinv)) as [[v0|] Hr]; rewrite Hr in *.
  - split; [eauto|]. intros _. destruct isNew; [|reflexivity].
    destruct Hnew as [Hnew _]. discriminate (Hnew eq_refl).
  - destruct Hnew as [_ Hnew]. rewrite (Hnew eq_refl).
    split; [discriminate|]. intros (v0 & [=]).
Qed.

(** [tableDelete] returns [false] on a key that is not bound and leaves
    the table as it is; on a bound key it returns [true], and the key is
    then bound to [true]; in both cases every other key, the count and the
    capacity are unchanged. *)
Theorem tableDelete_spec (t : Table) (k : Z) :
  table_inv t ->
  exists r t',
    tableDelete hash t k = Some (r, t')
    /\ table_inv t'
    /\ count t' = count t /\ capacity t' = capacity t
    /\ (tableGet hash t k = Some None -> r = false /\ t' = t)
    /\ (forall v, tableGet hash t k = Some (Some v) ->
                  r = true /\ tableGet hash t' k = Some (Some (BOOL_VAL true)))
    /\ forall k', k' <> k -> tableGet hash t' k' = tableGet hash t k'.
Proof.
  intros Hinv.
  destruct (tableDelete_inv t k Hinv)
    as (r & t' & Hdel & Hinv' & Hcnt & Hcap & Hfalse & Htrue).
  exists r, t'. split; [assumption|]. split; [assumption|].
  split; [assumption|]. split; [assumption|].
  destruct r.
  - destruct (Htrue eq_refl) as ((v0 & Hv0) & Hh). split; [|split].
    + intros Hn. destruct (proj1 (tableGet_None_iff t k Hinv) Hn v0 Hv0).
    + intros v _. split; [reflexivity|].
      apply tableGet_Some_iff; [assumption|]. apply Hh. auto.
    + intros k' Hne. apply tableGet_ext; [assumption..|].
      intros v'. rewrite Hh. split.
      * intros [(-> & _)|(_ & H)]; [contradiction|assumption].
      * intros H. auto.
  - destruct (Hfalse eq_refl) as (-> & Hno). split; [auto|]. split; [|reflexivity].
    intros v Hv. apply (tableGet_Some_iff t k v Hinv) in Hv. destruct (Hno v Hv).
Qed.

(** [tableAddAll] copies every binding of [from] into [to]: afterwards a
    key bound in [from] is bound in [to] to the value it has in [from], and
    every other key is bound in [to] as before. *)
Theorem tableAddAll_spec (from to : Table) :
  table_inv from -> table_inv to ->
  exists to',
    tableAddAll hash from to = Some to'
    /\ table_inv to'
    /\ forall k,
         tableGet hash to' k
         = match tableGet hash from k with
           | Some (Some v) => Some (Some v)
           | _ => tableGet hash to k
           end.
Proof.
  intros Hfrom Hto.
  destruct (tableAddAll_inv from to Hfrom Hto) as (to' & Hadd & Hinv' & Hh).
  exists to'. split; [assumption|]. split; [assumption|].
  intros k.
  destruct (tableGet_total hash from k (inv_wf from Hfrom)) as [[v|] Hr]; rewrite Hr.
  - apply tableGet_Some_iff; [assumption|]. apply Hh. left.
    apply tableGet_Some_iff; assumption.
  - pose proof (proj1 (tableGet_None_iff from k Hfrom) Hr) as Hno. clear Hr.
    rename Hno into Hr.
    apply tableGet_ext; [assumption..|]. intros v. rewrite Hh. split.
    + intros [H|(_ & H)]; [destruct (Hr v H)|assumption].
    + intros H. auto.
Qed.

End TableContents.

Section TableContentsExamples.
Import Value Table Examples.

(** The invariant of a concrete table of capacity 8, by evaluation. *)
Ltac table_inv_by_eval :=
  split;
  [ split;
    [ vm_compute; reflexivity
    | right; exists 3; split; [lia | vm_compute; reflexivity]
    | vm_compute; discriminate
    | vm_compute; discriminate ]
  | let j := fresh "j" in
    let e := fresh "e" in
    let k := fresh "k" in
    let Hj := fresh "Hj" in
    let Hk := fresh "Hk" in
    intros j e k Hj Hk;
    do 8 (destruct j as [|j];
          [ vm_compute in Hj; injection Hj as <-;
            first [ discriminate Hk
                  | injection Hk as <-; vm_compute; reflexivity ] |]);
    vm_compute in Hj; discriminate Hj ].

Lemma tableSet_updates_map_witness :
  exists isNew t',
    tableSet string_hash globals_init str_a ONE = Some (isNew, t')
    /\ table_inv string_hash t'
    /\ tableGet string_hash t' str_a = Some (Some ONE)
    /\ forall k', k' <> str_a ->
                  tableGet string_hash t' k' = tableGet string_hash globals_init k'.
Proof. apply tableSet_updates_map. table_inv_by_eval. Defined.

Lemma tableSet_reports_new_key_witness :
  exists isNew t',
    tableSet string_hash globals_a str_a TWO = Some (isNew, t')
    /\ (isNew = true <-> tableGet string_hash globals_a str_a = Some None)
    /\ (isNew = false
        <-> exists v0, tableGet string_hash globals_a str_a = Some (Some v0)).
Proof. apply tableSet_reports_new_key. table_inv_by_eval. Defined.

Lemma tableDelete_spec_witness :
  exists r t',
    tableDelete string_hash globals_a str_a = Some (r, t')
    /\ table_inv string_hash t'
    /\ count t' = count globals_a /\ capacity t' = capacity globals_a
    /\ (tableGet string_hash globals_a str_a = Some None -> r = false /\ t' = globals_a)
    /\ (forall v, tableGet string_hash globals_a str_a = Some (Some v) ->
                  r = true
                  /\ tableGet string_hash t' str_a = Some (Some (BOOL_VAL true)))
    /\ forall k', k' <> str_a ->
                  tableGet string_hash t' k' = tableGet string_hash globals_a k'.
Proof. apply tableDelete_spec. table_inv_by_eval. Defined.

Lemma tableAddAll_spec_witness :
  exists to',
    tableAddAll string_hash globals_a methods_B = Some to'
    /\ table_inv string_hash to'
    /\ forall k,
         tableGet string_hash to' k
         = match tableGet string_hash globals_a k with
           | Some (Some v) => Some (Some v)
           | _ => tableGet string_hash methods_B k
           end.
Proof. apply tableAddAll_spec; table_inv_by_eval. Defined.

End TableContentsExamples.

(** ** String interning *)
Section Interning.
Import Value Table VM Object.

Ltac unfold_M :=
  unfold mbind, M_bind, mret, M_ret, get, put, lift in *.

(** The object at [p] is the string [cs], with the length and the hash
    that [copyString] and [takeString] give it. *)
Definition is_string (h : gmap Z Obj) (p : Z) (cs : string) : Prop :=
  h !! p = Some (ObjString (Z.of_nat (String.length cs)) cs (hashString cs)).

(** The keys of a table are strings of the heap, no two with the same
    characters. *)
Record interned (h : gmap Z Obj) (ents : list Entry) : Prop := {
  int_keys : forall k v, holds ents k v -> exists cs, is_string h k cs;
  int_inj : forall k1 k2 v1 v2 cs,
      holds ents k1 v1 -> holds ents k2 v2 ->
      is_string h k1 cs -> is_string h k2 cs -> k1 = k2
}.

Lemma substring_full (s : string) : String.substring 0 (String.length s) s = s.
Proof. induction s as [|c s IH]; simpl; [reflexivity|]. rewrite IH. reflexivity. Qed.

Lemma memcmp_eq_full (a b : string) :
  String.length a = String.length b ->
  memcmp_eq a b (Z.of_nat (String.length b)) = true <-> a = b.
Proof.
  intros Hlen. unfold memcmp_eq. rewrite Nat2Z.id.
  rewrite <- Hlen at 1. rewrite !substring_full. apply String.eqb_eq.
Qed.

Lemma is_string_hashOf (h : gmap Z Obj) (p : Z) (cs : string) :
  is_string h p cs -> hashOf h p = hashString cs.
Proof. unfold is_string, hashOf. intros ->. reflexivity. Qed.

(** The test of [tableFindString] on a key that is a string. *)
Lemma string_test (h : gmap Z Obj) (k : Z) (kcs chars : string) :
  is_string h k kcs ->
  forall klength kchars khash,
    h !! k = Some (ObjString klength kchars khash) ->
    (klength =? Z.of_nat (String.length chars))
    && (khash =? hashString chars)
    && memcmp_eq kchars chars (Z.of_nat (String.length chars)) = true
    <-> kcs = chars.
Proof.
  unfold is_string. intros -> klength kchars khash [= <- <- <-]. split.
  - intros H. apply andb_prop in H as [H Hm]. apply andb_prop in H as [Hl _].
    apply Z.eqb_eq in Hl. apply memcmp_eq_full in Hm; [assumption|lia].
  - intros ->. rewrite !Z.eqb_refl. simpl. apply memcmp_eq_full; reflexivity.
Qed.

(** Where a probe for the key [p] finds it, the search for its characters
    finds [p]. *)
Lemma tableFindString_loop_finds (h : gmap Z Obj) (ents : list Entry)
    (cap p : Z) (cs : string) (j : nat) (v : Value) :
  interned h ents ->
  ents !! j = Some {| key := Some p; value := v |} ->
  is_string h p cs ->
  forall (fuel : nat) (idx : Z) (tomb : option Z),
    tomb <> Some (Z.of_nat j) ->
    findEntry_loop fuel ents cap p idx tomb = Some (Z.of_nat j) ->
    tableFindString_loop fuel h ents cap cs (Z.of_nat (String.length cs))
      (hashString cs) idx = Some (Some p).
Proof.
  intros Hint Hj Hp.
  induction fuel as [|fuel IH]; intros idx tomb Ht H; [discriminate H|].
  simpl in H |- *.
  destruct (ents !! Z.to_nat idx) as [entry|] eqn:Hl; [|discriminate H].
  simpl in H |- *.
  destruct (key entry) as [k'|] eqn:Hk.
  - destruct (int_keys h ents Hint k' (value entry)) as [kcs Hkcs].
    { exists (Z.to_nat idx). rewrite Hl. f_equal. apply entry_eta. assumption. }
    pose proof Hkcs as Hobj. unfold is_string in Hobj. rewrite Hobj. simpl.
    destruct ((Z.of_nat (String.length kcs) =? Z.of_nat (String.length cs))
              && (hashString kcs =? hashString cs)
              && memcmp_eq kcs cs (Z.of_nat (String.length cs))) eqn:Htest.
    + apply (string_test h k' kcs cs Hkcs _ _ _ Hobj) in Htest. subst kcs.
      f_equal. f_equal.
      eapply (int_inj h ents Hint k' p); try eassumption.
      * exists (Z.to_nat idx). rewrite Hl. f_equal. apply entry_eta. assumption.
      * exists j. eassumption.
    + destruct (Z.eqb_spec k' p) as [->|Hne].
      * exfalso. assert (kcs = cs) by (unfold is_string in *; congruence).
        apply (string_test h p kcs cs Hkcs _ _ _ Hobj) in H0. congruence.
      * eapply IH; eassumption.
  - destruct (IS_NIL (value entry)).
    + exfalso. destruct tomb as [t|]; injection H as ->.
      * congruence.
      * rewrite Nat2Z.id in Hl. rewrite Hj in Hl. injection Hl as <-.
        discriminate Hk.
    + eapply IH; [|exact H]. destruct tomb as [t|]; [assumption|].
      intros [= ->]. rewrite Nat2Z.id in Hl. rewrite Hj in Hl.
      injection Hl as <-. discriminate Hk.
Qed.

(** The search returns as soon as its walk meets a truly empty slot, and
    what it returns is a key with the characters looked for. *)
Lemma tableFindString_loop_returns (h : gmap Z Obj) (ents : list Entry)
    (n : Z) (chars : string) (p : nat) (e : Entry) :
  interned h ents ->
  0 <= n -> Z.of_nat (length ents) = 2 ^ n ->
  ents !! p = Some e -> is_empty e = true ->
  forall (fuel : nat) (idx : Z),
    0 <= idx < 2 ^ n ->
    dist (2 ^ n) idx (Z.of_nat p) < Z.of_nat fuel ->
    exists r,
      tableFindString_loop fuel h ents (2 ^ n) chars
        (Z.of_nat (String.length chars)) (hashString chars) idx = Some r
      /\ forall k, r = Some k ->
                   (exists v, holds ents k v) /\ is_string h k chars.
Proof.
  intros Hint Hn Hlen Hp He.
  assert (Hpr : Z.of_nat p < 2 ^ n).
  { apply lookup_lt_Some in Hp. lia. }
  induction fuel as [|fuel IH]; intros idx Hidx Hd.
  - unfold dist in Hd. destruct (idx <=? Z.of_nat p) eqn:E;
      [apply Z.leb_le in E | apply Z.leb_gt in E]; lia.
  - simpl.
    destruct (ents !! Z.to_nat idx) as [entry|] eqn:Hl.
    2:{ apply lookup_ge_None in Hl. lia. }
    simpl.
    assert (Hnext : is_empty entry = false ->
              exists r,
                tableFindString_loop fuel h ents (2 ^ n) chars
                  (Z.of_nat (String.length chars)) (hashString chars)
                  (Z.land (idx + 1) (2 ^ n - 1)) = Some r
                /\ forall k, r = Some k ->
                             (exists v, holds ents k v) /\ is_string h k chars).
    { intros Hne.
      assert (Hneq : idx <> Z.of_nat p).
      { intros ->. rewrite Nat2Z.id in Hl. congruence. }
      apply IH.
      - rewrite next_index by lia. destruct (Z.eqb_spec (idx + 1) (2 ^ n)); lia.
      - rewrite next_index by lia. unfold dist in *.
        destruct (Z.eqb_spec (idx + 1) (2 ^ n));
          destruct (Z.leb_spec0 idx (Z.of_nat p));
          repeat match goal with
                 | |- context [?a <=? ?b] => destruct (Z.leb_spec0 a b)
                 end; lia. }
    destruct (key entry) as [k'|] eqn:Hk.
    + assert (Hholds : holds ents k' (value entry)).
      { exists (Z.to_nat idx). rewrite Hl. f_equal. apply entry_eta. assumption. }
      destruct (int_keys h ents Hint k' (value entry) Hholds) as [kcs Hkcs].
      pose proof Hkcs as Hobj. unfold is_string in Hobj. rewrite Hobj. simpl.
      destruct ((Z.of_nat (String.length kcs) =? Z.of_nat (String.length chars))
                && (hashString kcs =? hashString chars)
                && memcmp_eq kcs chars (Z.of_nat (String.length chars))) eqn:Htest.
      * apply (string_test h k' kcs chars Hkcs _ _ _ Hobj) in Htest. subst kcs.
        eexists. split; [reflexivity|]. intros k [= <-]. eauto.
      * apply Hnext. unfold is_empty. rewrite Hk. reflexivity.
    + destruct (IS_NIL (value entry)) eqn:Hnil.
      * eexists. split; [reflexivity|]. intros k [=].
      * apply Hnext. unfold is_empty. rewrite Hnil. apply andb_false_r.
Qed.


(** [tableFindString] returns on every table of interned strings: a key
    of the table that has the characters looked for, or [NULL] when no key
    has them. *)
Lemma tableFindString_correct (h : gmap Z Obj) (t : Table) (chars : string) :
  table_inv (hashOf h) t -> interned h (entries t) ->
  exists r,
    tableFindString h t chars (Z.of_nat (String.length chars)) (hashString chars)
    = Some r
    /\ match r with
       | Some p =>
           (exists v, tableGet (hashOf h) t p = Some (Some v))
           /\ is_string h p chars
       | None =>
           forall p v, tableGet (hashOf h) t p = Some (Some v) ->
                       ~ is_string h p chars
       end.
Proof.
  intros Hinv Hint. pose proof (inv_wf (hashOf h) t Hinv) as Hwf. unfold tableFindString.
  destruct (Z.eqb_spec (count t) 0) as [Hc0|Hc].
  { exists None. split; [reflexivity|]. intros p v Hg.
    unfold tableGet in Hg. rewrite Hc0 in Hg. discriminate Hg. }
  destruct (wf_count_zero_or_pow2 t Hwf) as [|(n & Hn & Hcap)]; [contradiction|].
  pose proof (wf_len t Hwf) as Hlen. rewrite Hcap in Hlen.
  destruct (filled_lt_empty_slot (entries t)) as (q & e & Hq & He).
  { pose proof (wf_filled_lt t n Hwf Hn Hcap). lia. }
  pose proof (first_index n (hashString chars) Hn) as Hfirst.
  destruct (tableFindString_loop_returns h (entries t) n chars q e Hint Hn Hlen
              Hq He (Z.to_nat (2 ^ n)) (Z.land (hashString chars) (2 ^ n - 1)))
    as (r & Hr & Hsound); [assumption| |].
  { apply lookup_lt_Some in Hq. unfold dist.
    destruct (Z.leb_spec0 (Z.land (hashString chars) (2 ^ n - 1)) (Z.of_nat q)); lia. }
  exists r. rewrite Hcap. split; [assumption|].
  destruct r as [p|].
  - destruct (Hsound p eq_refl) as ((v & Hv) & Hs). split; [|assumption].
    exists v. apply tableGet_Some_iff; assumption.
  - intros p v Hg Hs. apply (tableGet_Some_iff (hashOf h) t p v Hinv) in Hg.
    destruct Hg as (j & Hj).
    pose proof (inv_probe (hashOf h) t Hinv j _ p Hj eq_refl) as Hfind.
    unfold findEntry in Hfind. rewrite (is_string_hashOf h p chars Hs), Hcap in Hfind.
    rewrite (tableFindString_loop_finds h (entries t) (2 ^ n) p chars j v Hint Hj Hs
               _ _ None) in Hr; [discriminate Hr|discriminate|assumption].
Qed.

(** The intern table of a machine: every key is where a probe finds it,
    the keys are strings of the heap, no two with the same characters, and
    the allocator hands out unused addresses. *)
Record strings_inv (vm : VM) : Prop := {
  str_table : table_inv (hashOf (heap vm)) (strings vm);
  str_interned : interned (heap vm) (entries (strings vm));
  str_fresh : forall p, nextObj vm <= p -> heap vm !! p = None
}.

Lemma table_inv_hash_ext (h1 h2 : Z -> Z) (t : Table) :
  (forall k v, holds (entries t) k v -> h2 k = h1 k) ->
  table_inv h1 t -> table_inv h2 t.
Proof.
  intros Hext [Hwf Hs]. split; [assumption|].
  intros j e k Hj Hk. unfold findEntry. rewrite (Hext k (value e)).
  - apply (Hs j e k Hj Hk).
  - exists j. rewrite Hj. f_equal. apply entry_eta. assumption.
Qed.






(** The machines that differ in the counter of allocated bytes only. *)
Definition same_but_bytes (vm vm' : VM) : Prop :=
  machine_of vm' = machine_of vm /\ heap vm' = heap vm
  /\ strings vm' = strings vm /\ objects vm' = objects vm
  /\ nextGC vm' = nextGC vm.


Lemma same_but_bytes_trans (vm1 vm2 vm3 : VM) :
  same_but_bytes vm1 vm2 -> same_but_bytes vm2 vm3 -> same_but_bytes vm1 vm3.
Proof.
  intros (A1 & A2 & A3 & A4 & A5) (B1 & B2 & B3 & B4 & B5).
  repeat split; congruence.
Qed.













(** [tableFindString] returns on every table of interned strings; it
    returns a key of the table that has the characters looked for, and
    [NULL] exactly when no key has them. *)
Theorem tableFindString_spec (h : gmap Z Obj) (t : Table) (chars : string) :
  table_inv (hashOf h) t -> interned h (entries t) ->
  exists r,
    tableFindString h t chars (Z.of_nat (String.length chars)) (hashString chars)
    = Some r
    /\ (forall p, r = Some p ->
                  (exists v, tableGet (hashOf h) t p = Some (Some v))
                  /\ is_string h p chars)
    /\ (r = None
        <-> forall p v, tableGet (hashOf h) t p = Some (Some v) ->
                        ~ is_string h p chars).
Proof.
  intros Hinv Hint.
  destruct (tableFindString_correct h t chars Hinv Hint) as (r & Hfind & Hr).
  exists r. split; [assumption|]. destruct r as [p|].
  - split; [intros p' [= <-]; assumption|]. split; [discriminate|].
    intros Hno. destruct Hr as ((v & Hv) & Hs). destruct (Hno p v Hv Hs).
  - split; [discriminate|]. split; auto.
Qed.


End Interning.

Section InterningExamples.
Import Value Table VM Object Examples.
Local Open Scope string_scope.

(** The machine inside a script with the strings ["a"] and ["tmp"] on top
    of the stack. *)
Definition vm_two_strings : VM :=
  vm_in_script empty_chunk 0 globals_init
    [OBJ_VAL str_a; OBJ_VAL str_tmp].

(** Case analysis on the slot of a binding of a concrete table of capacity
    8. *)
Ltac holds_cases H tac :=
  let j := fresh "j" in
  unfold holds in H; destruct H as [j H];
  do 8 (destruct j as [|j];
        [vm_compute in H;
         first [discriminate H | injection H as <- <-; tac]|]);
  vm_compute in H; discriminate H.

Ltac string_of_key :=
  idtac;
  match goal with
  | |- exists cs, is_string ?h ?k cs =>
      match eval vm_compute in (h !! k) with
      | Some (ObjString _ ?cs _) => exists cs; vm_compute; reflexivity
      end
  end.

(** The characters of a string object at a concrete address. *)
Ltac chars_of_key S :=
  match type of S with
  | is_string ?h ?k ?cs =>
      let o := eval vm_compute in (h !! k) in
      let E := fresh "E" in
      assert (E : h !! k = o) by (vm_compute; reflexivity);
      unfold is_string in S; rewrite E in S; clear E;
      injection S as _ S _
  end.

Ltac strings_inv_by_eval :=
  split;
  [ split;
    [ split;
      [ vm_compute; reflexivity
      | right; exists 3; split; [lia | vm_compute; reflexivity]
      | vm_compute; discriminate
      | vm_compute; discriminate ]
    | let j := fresh "j" in
      let e := fresh "e" in
      let k := fresh "k" in
      let Hj := fresh "Hj" in
      let Hk := fresh "Hk" in
      intros j e k Hj Hk;
      do 8 (destruct j as [|j];
            [ vm_compute in Hj; injection Hj as <-;
              first [ discriminate Hk
                    | injection Hk as <-; vm_compute; reflexivity ] |]);
      vm_compute in Hj; discriminate Hj ]
  | split;
    [ let k := fresh "k" in
      let v := fresh "v" in
      let H := fresh "H" in
      intros k v H; holds_cases H string_of_key
    | let S1 := fresh "S" in
      let S2 := fresh "S" in
      let H1 := fresh "H" in
      let H2 := fresh "H" in
      intros ? ? ? ? ? H1 H2 S1 S2;
      holds_cases H1
        ltac:(idtac; holds_cases H2
                ltac:(idtac;
                      first [ reflexivity
                            | exfalso; chars_of_key S1; chars_of_key S2;
                              congruence ])) ]
  | let p := fresh "p" in
    let Hp := fresh "Hp" in
    intros p Hp;
    unfold vm_two_strings, vm_assign, vm_in_script in *;
    cbn [heap nextObj] in *;
    unfold heap_with, str_init, str_clock, native_clock, str_a, str_tmp,
      fn_script, cl_script;
    rewrite !lookup_insert_ne by lia;
    apply lookup_empty ].

Lemma tableFindString_spec_witness :
  exists r,
    tableFindString (heap vm_assign) (strings vm_assign) "tmp"
      (Z.of_nat (String.length "tmp")) (hashString "tmp") = Some r
    /\ (forall p, r = Some p ->
                  (exists v, tableGet (hashOf (heap vm_assign)) (strings vm_assign) p
                             = Some (Some v))
                  /\ is_string (heap vm_assign) p "tmp")
    /\ (r = None
        <-> forall p v, tableGet (hashOf (heap vm_assign)) (strings vm_assign) p
                        = Some (Some v) ->
                        ~ is_string (heap vm_assign) p "tmp").
Proof.
  assert (H : strings_inv vm_assign) by strings_inv_by_eval.
  apply tableFindString_spec; apply H.
Defined.






End InterningExamples.

(** ** The NaN-boxed representation *)
Section ValueRepresentation.
Import Value.

Lemma lor_1 (v : Z) : Z.lor v 1 = v + 1 - v mod 2.
Proof.
  pose proof (Z.add_lor_land v 1) as H.
  change 1 with (Z.ones 1) in H at 2. rewrite Z.land_ones in H by lia.
  change (2 ^ 1) with 2 in H. lia.
Qed.

Lemma IS_BOOL_iff (v : Value) :
  IS_BOOL v = true <-> v = TRUE_VAL \/ v = FALSE_VAL.
Proof.
  unfold IS_BOOL. rewrite Z.eqb_eq, lor_1. split.
  - intros H. pose proof (Z.mod_pos_bound v 2 ltac:(lia)) as Hm.
    assert (Hc : v mod 2 = 0 \/ v mod 2 = 1) by lia.
    destruct Hc as [Hc|Hc]; rewrite Hc in H.
    + right. change FALSE_VAL with (TRUE_VAL - 1). lia.
    + left. lia.
  - intros [->| ->]; reflexivity.
Qed.

Lemma testbit_63_of_obj (v : Value) : IS_OBJ v = true -> Z.testbit v 63 = true.
Proof.
  unfold IS_OBJ. intros H%Z.eqb_eq.
  apply (f_equal (fun x => Z.testbit x 63)) in H.
  rewrite Z.land_spec in H.
  change (Z.testbit (Z.lor QNAN SIGN_BIT) 63) with true in H.
  rewrite andb_true_r in H. assumption.
Qed.

Lemma obj_not_bool_nil (v : Value) :
  IS_OBJ v = true -> IS_BOOL v = false /\ IS_NIL v = false.
Proof.
  intros Hobj. split.
  - destruct (IS_BOOL v) eqn:E; [|reflexivity].
    apply IS_BOOL_iff in E as [->| ->]; discriminate Hobj.
  - destruct (IS_NIL v) eqn:E; [|reflexivity].
    unfold IS_NIL in E. apply Z.eqb_eq in E. subst v. discriminate Hobj.
Qed.

(** A value is of at most one kind: the tests [IS_BOOL], [IS_NIL],
    [IS_NUMBER] and [IS_OBJ] exclude each other. *)
Theorem value_kinds_exclusive (v : Value) :
  (IS_BOOL v = true ->
   IS_NIL v = false /\ IS_NUMBER v = false /\ IS_OBJ v = false)
  /\ (IS_NIL v = true ->
      IS_BOOL v = false /\ IS_NUMBER v = false /\ IS_OBJ v = false)
  /\ (IS_NUMBER v = true ->
      IS_BOOL v = false /\ IS_NIL v = false /\ IS_OBJ v = false)
  /\ (IS_OBJ v = true ->
      IS_BOOL v = false /\ IS_NIL v = false /\ IS_NUMBER v = false).
Proof.
  assert (Hb : IS_BOOL v = true ->
               IS_NIL v = false /\ IS_NUMBER v = false /\ IS_OBJ v = false).
  { intros H. apply IS_BOOL_iff in H as [->| ->]; repeat split; reflexivity. }
  assert (Hn : IS_NIL v = true ->
               IS_BOOL v = false /\ IS_NUMBER v = false /\ IS_OBJ v = false).
  { unfold IS_NIL. intros ->%Z.eqb_eq. repeat split; reflexivity. }
  assert (Ho : IS_OBJ v = true -> IS_NUMBER v = false).
  { apply is_obj_not_number. }
  split; [assumption|]. split; [assumption|]. split.
  - intros Hnum. repeat split.
    + destruct (IS_BOOL v) eqn:E; [|reflexivity].
      destruct (Hb eq_refl) as (_ & H & _). congruence.
    + destruct (IS_NIL v) eqn:E; [|reflexivity].
      destruct (Hn eq_refl) as (_ & H & _). congruence.
    + destruct (IS_OBJ v) eqn:E; [|reflexivity].
      specialize (Ho eq_refl). congruence.
  - intros Hobj. destruct (obj_not_bool_nil v Hobj) as [H1 H2].
    repeat split; [assumption|assumption|apply Ho; assumption].
Qed.

Lemma AS_OBJ_mod (v : Value) : AS_OBJ v = v mod 2 ^ 50.
Proof.
  unfold AS_OBJ.
  change (uint64_not (Z.lor SIGN_BIT QNAN)) with (Z.ones 50).
  apply Z.land_ones. lia.
Qed.

Lemma AS_OBJ_of_OBJ_VAL (p : Z) : AS_OBJ (OBJ_VAL p) = p mod 2 ^ 50.
Proof.
  unfold AS_OBJ, OBJ_VAL.
  change (uint64_not (Z.lor SIGN_BIT QNAN)) with (Z.ones 50).
  rewrite Z.land_lor_distr_l.
  change (Z.land (Z.lor SIGN_BIT QNAN) (Z.ones 50)) with 0.
  rewrite Z.lor_0_l. apply Z.land_ones. lia.
Qed.

Lemma IS_OBJ_OBJ_VAL (p : Z) : IS_OBJ (OBJ_VAL p) = true.
Proof.
  unfold IS_OBJ, OBJ_VAL. apply Z.eqb_eq.
  rewrite Z.land_lor_distr_l.
  change (Z.lor QNAN SIGN_BIT) with (Z.lor SIGN_BIT QNAN).
  rewrite Z.land_diag. apply Z.bits_inj'. intros n Hn.
  rewrite Z.lor_spec, Z.land_spec.
  destruct (Z.testbit (Z.lor SIGN_BIT QNAN) n), (Z.testbit p n); reflexivity.
Qed.

(** [OBJ_VAL] and [AS_OBJ]: a pointer comes back from its value exactly
    when it fits in the 50 bits below the quiet-NaN bits; values of
    different pointers in that range are different, and every value that
    [OBJ_VAL] returns is an object and nothing else. *)
Theorem OBJ_VAL_round_trip (p q : Z) :
  0 <= p -> 0 <= q ->
  (AS_OBJ (OBJ_VAL p) = p <-> p < 2 ^ 50)
  /\ (p < 2 ^ 50 -> q < 2 ^ 50 -> OBJ_VAL p = OBJ_VAL q -> p = q)
  /\ IS_OBJ (OBJ_VAL p) = true
  /\ IS_NUMBER (OBJ_VAL p) = false
  /\ IS_BOOL (OBJ_VAL p) = false
  /\ IS_NIL (OBJ_VAL p) = false.
Proof.
  intros Hp Hq. split; [|split].
  - rewrite AS_OBJ_of_OBJ_VAL. split.
    + intros H. pose proof (Z.mod_pos_bound p (2 ^ 50) ltac:(lia)). lia.
    + intros H. apply Z.mod_small. lia.
  - intros Hp' Hq' H. apply (f_equal AS_OBJ) in H.
    rewrite !AS_OBJ_of_OBJ_VAL, !Z.mod_small in H by lia. assumption.
  - pose proof (IS_OBJ_OBJ_VAL p) as Ho.
    destruct (obj_not_bool_nil (OBJ_VAL p) Ho) as [Hb Hn].
    pose proof (is_obj_not_number (OBJ_VAL p) Ho) as Hnum. auto.
Qed.

(** The object at address 4192. *)
Lemma OBJ_VAL_round_trip_witness :
  (AS_OBJ (OBJ_VAL 4192) = 4192 <-> 4192 < 2 ^ 50)
  /\ (4192 < 2 ^ 50 -> 4224 < 2 ^ 50 -> OBJ_VAL 4192 = OBJ_VAL 4224 -> 4192 = 4224)
  /\ IS_OBJ (OBJ_VAL 4192) = true
  /\ IS_NUMBER (OBJ_VAL 4192) = false
  /\ IS_BOOL (OBJ_VAL 4192) = false
  /\ IS_NIL (OBJ_VAL 4192) = false.
Proof. apply (OBJ_VAL_round_trip 4192 4224); lia. Defined.

End ValueRepresentation.

(** ** The machine: calls, globals, return and methods *)
Section MachineSteps.
Import Value Table VM Interp.

Ltac unfold_M :=
  unfold mbind, M_bind, mret, M_ret, get, put, lift in *.

(** [call] checks the number of arguments against the arity of the
    function, then the depth of the call stack against [FRAMES_MAX]; only
    then does it push a frame, which starts at the first instruction and
    whose slot zero is the callee below the arguments. *)
Theorem call_checks_arity_and_depth (vm : VM) (clos argCount f n arity u : Z)
    (ups : list (option Z)) (chunk : Chunk) (nm : option Z) :
  heap vm !! clos = Some (ObjClosure f ups n) ->
  heap vm !! f = Some (ObjFunction arity u chunk nm) ->
  Z.of_nat (length (frames vm)) = FRAMES_MAX ->
  0 <= frameCount vm <= FRAMES_MAX ->
  (argCount <> arity ->
   exists vm',
     call clos argCount vm = Some (false, vm')
     /\ failed_with vm vm' "Expected %d arguments but got %d"
          [ArgInt arity; ArgInt argCount])
  /\ (argCount = arity -> frameCount vm = FRAMES_MAX ->
      exists vm',
        call clos argCount vm = Some (false, vm')
        /\ failed_with vm vm' "Stack overflow." [])
  /\ (argCount = arity -> frameCount vm < FRAMES_MAX ->
      exists vm',
        call clos argCount vm = Some (true, vm')
        /\ frameCount vm' = frameCount vm + 1
        /\ index (frames vm') (frameCount vm)
           = Some {| closure := clos; ip := 0;
                     slots := stackTop vm - argCount - 1 |}
        /\ (forall i, i <> frameCount vm ->
                      index (frames vm') i = index (frames vm) i)
        /\ stack vm' = stack vm /\ stackTop vm' = stackTop vm
        /\ errors vm' = errors vm /\ heap vm' = heap vm
        /\ globals vm' = globals vm).
Proof.
  intros Hc Hf Hlen Hfc.
  assert (Hcall : call clos argCount vm
                  = (if negb (argCount =? arity) then
                       runtimeError "Expected %d arguments but got %d"
                         [ArgInt arity; ArgInt argCount];; mret false
                     else
                       vm ← get;
                       if frameCount vm =? FRAMES_MAX then
                         runtimeError "Stack overflow." [];; mret false
                       else
                         fs ← lift (update (frames vm) (frameCount vm)
                                      {| closure := clos; ip := 0;
                                         slots := stackTop vm - argCount - 1 |});
                         put (set_frames vm fs (frameCount vm + 1));;
                         mret true) vm).
  { unfold call, deref. unfold_M. rewrite Hc, Hf. reflexivity. }
  rewrite Hcall. clear Hcall. split; [|split].
  - intros Hne. destruct (Z.eqb_spec argCount arity); [contradiction|].
    eexists. split; [reflexivity|]. repeat split.
  - intros -> Hfull. rewrite Z.eqb_refl. simpl. unfold_M.
    rewrite Hfull, Z.eqb_refl. eexists. split; [reflexivity|]. repeat split.
  - intros -> Hroom. rewrite Z.eqb_refl. simpl. unfold_M.
    destruct (Z.eqb_spec (frameCount vm) FRAMES_MAX); [lia|].
    rewrite update_Some by lia.
    eexists. split; [reflexivity|]. simpl.
    split; [reflexivity|]. split; [apply index_insert_eq; lia|].
    split; [|repeat split].
    intros i Hi. unfold index. destruct (0 <=? i) eqn:E; [|reflexivity].
    apply list_lookup_insert_ne. apply Z.leb_le in E. lia.
Qed.

(** The objects the [switch] of [callValue] has no case for. *)
Definition not_callable (o : Obj) : Prop :=
  match o with
  | ObjFunction _ _ _ _ | ObjString _ _ _ | ObjUpvalue _ _ | ObjInstance _ _ => True
  | _ => False
  end.

(** Calling what is not a closure, a class, a bound method or a native is
    a runtime error: a number, a boolean, nil, and also a string, an
    instance, a bare function or an upvalue. *)
Theorem callValue_rejects_non_callable (vm : VM) (callee : Value) (argCount : Z) :
  IS_OBJ callee = false
  \/ (exists o, heap vm !! AS_OBJ callee = Some o /\ not_callable o) ->
  exists vm',
    callValue callee argCount vm = Some (false, vm')
    /\ failed_with vm vm' "Can only call functions and classes." [].
Proof.
  intros H. unfold callValue.
  destruct (IS_OBJ callee) eqn:Hobj.
  - destruct H as [[=]|(o & Ho & Hnc)].
    unfold deref. unfold_M. rewrite Ho.
    destruct o; simpl in Hnc; try contradiction;
      (eexists; split; [reflexivity|repeat split]).
  - eexists. split; [reflexivity|]. repeat split.
Qed.


(** Only [nil] and [false] are falsey: every number (zero too) and every
    object (the empty string too) is truthy, and so is [true]. *)
Theorem isFalsey_only_nil_and_false :
  (forall v : Value, isFalsey v = true <-> v = NIL_VAL \/ v = BOOL_VAL false)
  /\ (forall v : Value, IS_NUMBER v = true -> isFalsey v = false)
  /\ (forall v : Value, IS_OBJ v = true -> isFalsey v = false).
Proof.
  assert (Hiff : forall v : Value,
             isFalsey v = true <-> v = NIL_VAL \/ v = BOOL_VAL false).
  { intros v. unfold isFalsey. split.
    - intros H. apply orb_prop in H as [H|H].
      + left. apply Z.eqb_eq. exact H.
      + right. apply andb_prop in H as [Hb Hn].
        apply IS_BOOL_iff in Hb as [->| ->]; [discriminate Hn|reflexivity].
    - intros [->| ->]; reflexivity. }
  split; [assumption|]. split.
  - intros v Hn. destruct (isFalsey v) eqn:E; [|reflexivity].
    apply Hiff in E as [->| ->]; discriminate Hn.
  - intros v Ho. destruct (isFalsey v) eqn:E; [|reflexivity].
    apply Hiff in E as [->| ->]; discriminate Ho.
Qed.

(** [OP_GET_GLOBAL] pushes the value the name is bound to, and on a name
    that is not bound it reports [Undefined variable] with the name and
    stops with a runtime error; the globals are not changed. *)
Theorem get_global_reads_binding (vm vm1 : VM) (name klen khash : Z)
    (chars : string) :
  wf (globals vm) ->
  READ_STRING vm = Some (name, vm1) ->
  heap vm !! name = Some (ObjString klen chars khash) ->
  0 <= stackTop vm < Z.of_nat (length (stack vm)) ->
  exists r vm',
    tableGet (hashOf (heap vm)) (globals vm) name = Some r
    /\ globals vm' = globals vm
    /\ match r with
       | Some v =>
           run_OP_GET_GLOBAL vm = Some (None, vm')
           /\ stackTop vm' = stackTop vm + 1
           /\ index (stack vm') (stackTop vm) = Some v
           /\ (forall i, i <> stackTop vm ->
                         index (stack vm') i = index (stack vm) i)
           /\ errors vm' = errors vm
       | None =>
           run_OP_GET_GLOBAL vm = Some (Some INTERPRET_RUNTIME_ERROR, vm')
           /\ errors vm'
              = errors vm ++ [("Undefined variable '%s'."%string, [ArgStr chars])]
           /\ stackTop vm' = 0 /\ frameCount vm' = 0
       end.
Proof.
  intros Hwf Hread Hname Htop.
  destruct (READ_STRING_inv _ _ _ Hread) as [fs ->].
  destruct (tableGet_total (hashOf (heap vm)) (globals vm) name Hwf) as [r Hr].
  exists r. unfold run_OP_GET_GLOBAL. unfold_M. rewrite Hread. simpl.
  rewrite Hr. destruct r as [v|].
  - unfold push. unfold_M. simpl. rewrite update_Some by assumption.
    eexists. split; [reflexivity|]. split; cycle 1.
    + split; [reflexivity|]. simpl. split; [reflexivity|].
      split; [apply index_insert_eq; assumption|]. split; [|reflexivity].
      intros i Hi. unfold index. destruct (0 <=? i) eqn:E; [|reflexivity].
      apply list_lookup_insert_ne. apply Z.leb_le in E. lia.
    + reflexivity.
  - unfold chars_of, deref. unfold_M. simpl. rewrite Hname.
    eexists. split; [reflexivity|]. split; cycle 1.
    + split; [reflexivity|]. repeat split.
    + reflexivity.
Qed.

(** [OP_SET_GLOBAL] on a name that is bound: the name is bound to the
    value on top of the stack, which stays there; no error is raised and
    no other global changes. *)
Theorem set_global_assigns_bound_name (vm vm1 : VM) (name : Z) (v old : Value) :
  table_inv (hashOf (heap vm)) (globals vm) ->
  READ_STRING vm = Some (name, vm1) ->
  VM.peek 0 vm1 = Some (v, vm1) ->
  tableGet (hashOf (heap vm)) (globals vm) name = Some (Some old) ->
  exists vm',
    run_OP_SET_GLOBAL vm = Some (None, vm')
    /\ tableGet (hashOf (heap vm')) (globals vm') name = Some (Some v)
    /\ (forall k, k <> name ->
                  tableGet (hashOf (heap vm')) (globals vm') k
                  = tableGet (hashOf (heap vm)) (globals vm) k)
    /\ table_inv (hashOf (heap vm')) (globals vm')
    /\ stack vm' = stack vm /\ stackTop vm' = stackTop vm
    /\ errors vm' = errors vm.
Proof.
  intros Hinv Hread Hpeek Hold.
  destruct (READ_STRING_inv _ _ _ Hread) as [fs ->].
  destruct (tableSet_inv (hashOf (heap vm)) (globals vm) name v Hinv)
    as (isNew & g & Hset & Hinv' & Hh & Hnew).
  assert (HisNew : isNew = false).
  { destruct isNew; [|reflexivity].
    destruct Hnew as [Hnew _].
    apply (tableGet_Some_iff _ _ _ _ Hinv) in Hold.
    destruct (Hnew eq_refl old Hold). }
  subst isNew.
  eexists. split; [|split; [|split; [|split]]].
  - unfold run_OP_SET_GLOBAL. unfold_M. rewrite Hread, Hpeek. simpl.
    rewrite Hset. simpl. reflexivity.
  - simpl. apply tableGet_Some_iff; [assumption|]. apply Hh. auto.
  - simpl. intros k Hk. apply tableGet_ext; [assumption..|].
    intros v'. rewrite Hh. split.
    + intros [(-> & _)|(_ & H)]; [contradiction|assumption].
    + intros H. auto.
  - simpl. assumption.
  - simpl. auto.
Qed.


(** [closeUpvalues] touches the list of open upvalues and the heap
    only. *)
Lemma closeUpvalues_loop_frame (last : Z) :
  forall (l : list Z) (vm vm' : VM),
    closeUpvalues_loop last l vm = Some vm' ->
    frames vm' = frames vm /\ frameCount vm' = frameCount vm
    /\ stack vm' = stack vm /\ stackTop vm' = stackTop vm
    /\ globals vm' = globals vm /\ strings vm' = strings vm
    /\ errors vm' = errors vm /\ nextObj vm' = nextObj vm.
Proof.
  induction l as [|u rest IH]; intros vm vm' H; simpl in H.
  - injection H as <-. repeat split.
  - destruct (location_of (heap vm) u) as [loc|]; [|discriminate H]. simpl in H.
    destruct (loc >=? last).
    + destruct (index (stack vm) loc) as [v|]; [|discriminate H]. simpl in H.
      apply IH in H. simpl in H. exact H.
    + injection H as <-. repeat split.
Qed.

(** [OP_RETURN] in a function called from another one: the frame is
    dropped, the upvalues on its slots are closed, and the callee with its
    arguments and locals is replaced on the stack by the result.  In the
    outermost frame the script stops with [INTERPRET_OK], the result and
    the script closure popped. *)
Theorem return_replaces_frame_by_result (vm : VM) (frame : CallFrame)
    (result : Value) :
  upvalues_inv vm ->
  index (frames vm) (frameCount vm - 1) = Some frame ->
  0 <= slots frame < stackTop vm - 1 ->
  stackTop vm <= Z.of_nat (length (stack vm)) ->
  index (stack vm) (stackTop vm - 1) = Some result ->
  exists r vm',
    run_OP_RETURN vm = Some (r, vm')
    /\ upvalues_inv vm'
    /\ frameCount vm' = frameCount vm - 1
    /\ frames vm' = frames vm
    /\ errors vm' = errors vm
    /\ Forall (fun u => exists loc, location_of (heap vm') u = Some loc
                                    /\ loc < slots frame) (openUpvalues vm')
    /\ (frameCount vm <> 1 ->
        r = None
        /\ stackTop vm' = slots frame + 1
        /\ index (stack vm') (slots frame) = Some result
        /\ forall i, i <> slots frame ->
                     index (stack vm') i = index (stack vm) i)
    /\ (frameCount vm = 1 ->
        r = Some INTERPRET_OK
        /\ stackTop vm' = stackTop vm - 2 /\ stack vm' = stack vm).
Proof.
  intros Hinv Hframe Hslots Htop Hres.
  set (vm0 := set_stack vm (stack vm) (stackTop vm - 1)).
  assert (Hinv0 : upvalues_inv vm0).
  { destruct Hinv as [H1 H2]. split; assumption. }
  destruct (closeUpvalues_inv vm0 (slots frame) Hinv0)
    as (vm1 & closed & Hclose & Hinv1 & _ & _ & Hbelow).
  assert (Hfr : frames vm1 = frames vm /\ frameCount vm1 = frameCount vm
                /\ stack vm1 = stack vm /\ stackTop vm1 = stackTop vm - 1
                /\ globals vm1 = globals vm /\ strings vm1 = strings vm
                /\ errors vm1 = errors vm /\ nextObj vm1 = nextObj vm).
  { unfold closeUpvalues in Hclose.
    destruct (closeUpvalues_loop (slots frame) (openUpvalues vm0) vm0)
      as [vm1'|] eqn:Hloop; [|discriminate Hclose].
    injection Hclose as <-. apply closeUpvalues_loop_frame in Hloop. exact Hloop. }
  destruct Hfr as (Hf1 & Hfc1 & Hs1 & Ht1 & _ & _ & He1 & _).
  assert (Hrun : run_OP_RETURN vm
                 = (vm ← get;
                    put (set_frames vm (frames vm) (frameCount vm - 1));;
                    vm ← get;
                    if frameCount vm =? 0 then pop;; mret (Some INTERPRET_OK)
                    else put (set_stack vm (stack vm) (slots frame));;
                         push result;; mret None) vm1).
  { unfold run_OP_RETURN, pop. unfold_M. rewrite Hframe. simpl.
    rewrite Hres. fold vm0. rewrite Hclose. reflexivity. }
  rewrite Hrun. clear Hrun. unfold_M. simpl.
  destruct (Z.eqb_spec (frameCount vm1 - 1) 0) as [Hz|Hnz].
  - unfold pop. unfold_M. simpl.
    assert (Hi : exists x, index (stack vm1) (stackTop vm1 - 1) = Some x).
    { rewrite Hs1, Ht1. unfold index.
      destruct (Z.leb_spec0 0 (stackTop vm - 1 - 1)); [|lia].
      apply lookup_lt_is_Some. lia. }
    destruct Hi as [x ->].
    eexists _, _. split; [reflexivity|]. simpl.
    split; [destruct Hinv1 as [H1 H2]; split; assumption|].
    split; [lia|]. split; [assumption|]. split; [assumption|].
    split; [assumption|]. split; [intros; lia|].
    intros _. split; [reflexivity|]. split; [lia|assumption].
  - unfold push. unfold_M. simpl.
    rewrite update_Some by (rewrite Hs1; lia).
    eexists _, _. split; [reflexivity|]. simpl.
    split.
    { destruct Hinv1 as [(locs & H1 & H2 & H3) H4]. split; [|assumption].
      exists locs. simpl. rewrite length_insert. auto. }
    split; [lia|]. split; [assumption|]. split; [assumption|].
    split; [assumption|]. split; [|intros; lia].
    intros _. split; [reflexivity|]. split; [reflexivity|].
    rewrite Hs1. split; [apply index_insert_eq; lia|].
    intros i Hi. unfold index. destruct (0 <=? i) eqn:E; [|reflexivity].
    apply list_lookup_insert_ne. apply Z.leb_le in E. lia.
Qed.


Lemma hashOf_insert_class (h : gmap Z Obj) (k x a c : Z) (b d : Table) :
  h !! k = Some (ObjClass a b) ->
  hashOf (<[k := ObjClass c d]> h) x = hashOf h x.
Proof.
  intros Hk. unfold hashOf. destruct (decide (k = x)) as [->|Hne].
  - rewrite lookup_insert_eq, Hk. reflexivity.
  - rewrite lookup_insert_ne by assumption. reflexivity.
Qed.

(** [defineMethod] binds the name to the closure on top of the stack in
    the method table of the class below it, pops the closure, and leaves
    the other methods alone; [invokeFromClass] on that class and name then
    calls exactly this closure. *)
Theorem defined_method_is_invoked (vm : VM) (name cname argCount : Z)
    (method kv : Value) (methods : Table) :
  VM.peek 0 vm = Some (method, vm) ->
  VM.peek 1 vm = Some (kv, vm) ->
  heap vm !! AS_OBJ kv = Some (ObjClass cname methods) ->
  table_inv (hashOf (heap vm)) methods ->
  exists vm' methods',
    defineMethod name vm = Some (tt, vm')
    /\ heap vm' = <[AS_OBJ kv := ObjClass cname methods']> (heap vm)
    /\ table_inv (hashOf (heap vm')) methods'
    /\ tableGet (hashOf (heap vm')) methods' name = Some (Some method)
    /\ (forall k, k <> name ->
                  tableGet (hashOf (heap vm')) methods' k
                  = tableGet (hashOf (heap vm)) methods k)
    /\ stackTop vm' = stackTop vm - 1 /\ stack vm' = stack vm
    /\ errors vm' = errors vm
    /\ invokeFromClass (AS_OBJ kv) name argCount vm'
       = call (AS_OBJ method) argCount vm'.
Proof.
  intros Hp0 Hp1 Hclass Hinv.
  destruct (tableSet_inv (hashOf (heap vm)) methods name method Hinv)
    as (isNew & m' & Hset & Hinv' & Hh & _).
  assert (Htop : index (stack vm) (stackTop vm - 1) = Some method).
  { rewrite peek_eq in Hp0.
    replace (stackTop vm - 1 - 0) with (stackTop vm - 1) in Hp0 by lia.
    destruct (index (stack vm) (stackTop vm - 1)); [|discriminate].
    injection Hp0 as ->. reflexivity. }
  set (h' := <[AS_OBJ kv := ObjClass cname m']> (heap vm)).
  assert (Hhash : forall x, hashOf h' x = hashOf (heap vm) x).
  { intros x. eapply hashOf_insert_class. eassumption. }
  assert (Hinv2 : table_inv (hashOf h') m').
  { eapply table_inv_hash_ext; [|exact Hinv']. intros k v _. apply Hhash. }
  assert (Hget : forall k, tableGet (hashOf h') m' k
                           = tableGet (hashOf (heap vm)) m' k).
  { intros k. apply tableGet_hash_ext. apply Hhash. }
  exists (set_stack (set_upvalues vm (openUpvalues vm) h' (nextObj vm))
            (stack vm) (stackTop vm - 1)), m'.
  split; [|split; [reflexivity|split; [assumption|split; [|split;
    [|split; [reflexivity|split; [reflexivity|split; [reflexivity|]]]]]]]].
  - unfold defineMethod, deref, pop. unfold_M. rewrite Hp0, Hp1, Hclass, Hset.
    simpl. rewrite Htop. reflexivity.
  - simpl. rewrite Hget. apply tableGet_Some_iff; [assumption|]. apply Hh. auto.
  - simpl. intros k Hk. rewrite Hget. apply tableGet_ext; [assumption..|].
    intros v'. rewrite Hh. split.
    + intros [(-> & _)|(_ & H)]; [contradiction|assumption].
    + intros H. auto.
  - unfold invokeFromClass, deref. unfold_M. simpl.
    unfold h' at 1. rewrite lookup_insert_eq.
    rewrite Hget.
    assert (Hm : tableGet (hashOf (heap vm)) m' name = Some (Some method)).
    { apply tableGet_Some_iff; [assumption|]. apply Hh. auto. }
    rewrite Hm. reflexivity.
Qed.

End MachineSteps.

Section MachineStepsExamples.
Import Value Table VM Interp Examples.

(** The invariant of a concrete table of capacity 8, by evaluation. *)
Ltac table_inv_by_eval :=
  split;
  [ split;
    [ vm_compute; reflexivity
    | right; exists 3; split; [lia | vm_compute; reflexivity]
    | vm_compute; discriminate
    | vm_compute; discriminate ]
  | let j := fresh "j" in
    let e := fresh "e" in
    let k := fresh "k" in
    let Hj := fresh "Hj" in
    let Hk := fresh "Hk" in
    intros j e k Hj Hk;
    do 8 (destruct j as [|j];
          [ vm_compute in Hj; injection Hj as <-;
            first [ discriminate Hk
                  | injection Hk as <-; vm_compute; reflexivity ] |]);
    vm_compute in Hj; discriminate Hj ].

(** The script calls the closure of [init] with one argument. *)
Definition vm_call_closure : VM := vm_calling [OBJ_VAL cl_init; ONE].

Lemma call_checks_arity_and_depth_witness :
  (1 <> 1 ->
   exists vm',
     call cl_init 1 vm_call_closure = Some (false, vm')
     /\ failed_with vm_call_closure vm' "Expected %d arguments but got %d"
          [ArgInt 1; ArgInt 1])
  /\ (1 = 1 -> frameCount vm_call_closure = FRAMES_MAX ->
      exists vm',
        call cl_init 1 vm_call_closure = Some (false, vm')
        /\ failed_with vm_call_closure vm' "Stack overflow." [])
  /\ (1 = 1 -> frameCount vm_call_closure < FRAMES_MAX ->
      exists vm',
        call cl_init 1 vm_call_closure = Some (true, vm')
        /\ frameCount vm' = frameCount vm_call_closure + 1
        /\ index (frames vm') (frameCount vm_call_closure)
           = Some {| closure := cl_init; ip := 0;
                     slots := stackTop vm_call_closure - 1 - 1 |}
        /\ (forall i, i <> frameCount vm_call_closure ->
                      index (frames vm') i = index (frames vm_call_closure) i)
        /\ stack vm' = stack vm_call_closure
        /\ stackTop vm' = stackTop vm_call_closure
        /\ errors vm' = errors vm_call_closure
        /\ heap vm' = heap vm_call_closure
        /\ globals vm' = globals vm_call_closure).
Proof.
  apply (call_checks_arity_and_depth vm_call_closure cl_init 1 fn_init 0 1 0 []
           chunk_init (Some str_init)).
  - reflexivity.
  - reflexivity.
  - reflexivity.
  - vm_compute. split; discriminate.
Defined.

Lemma callValue_rejects_non_callable_witness :
  exists vm',
    callValue ONE 0 vm_call_class = Some (false, vm')
    /\ failed_with vm_call_class vm' "Can only call functions and classes." [].
Proof. apply callValue_rejects_non_callable. left. reflexivity. Defined.

(** [print a;] compiles to [OP_GET_GLOBAL 0; OP_PRINT; OP_NIL; OP_RETURN]. *)
Definition chunk_read : Chunk :=
  {| code := [7; 0; 24; 1; 33];
     lines := replicate 5 1;
     constants := [OBJ_VAL str_a];
     chunk_capacity := 8; constants_capacity := 8 |}.

(** The machine about to read the operand of [OP_GET_GLOBAL], [a] being
    bound to 1. *)
Definition vm_read : VM := vm_in_script chunk_read 1 globals_a [].

Lemma get_global_reads_binding_witness :
  exists r vm',
    tableGet (hashOf (heap vm_read)) (globals vm_read) str_a = Some r
    /\ globals vm' = globals vm_read
    /\ match r with
       | Some v =>
           run_OP_GET_GLOBAL vm_read = Some (None, vm')
           /\ stackTop vm' = stackTop vm_read + 1
           /\ index (stack vm') (stackTop vm_read) = Some v
           /\ (forall i, i <> stackTop vm_read ->
                         index (stack vm') i = index (stack vm_read) i)
           /\ errors vm' = errors vm_read
       | None =>
           run_OP_GET_GLOBAL vm_read = Some (Some INTERPRET_RUNTIME_ERROR, vm')
           /\ errors vm'
              = errors vm_read
                ++ [("Undefined variable '%s'."%string, [ArgStr "a"])]
           /\ stackTop vm' = 0 /\ frameCount vm' = 0
       end.
Proof.
  eapply (get_global_reads_binding vm_read _ str_a 1 _ "a").
  - split.
    + vm_compute; reflexivity.
    + right. exists 3. split; [lia | vm_compute; reflexivity].
    + vm_compute. discriminate.
    + vm_compute. discriminate.
  - vm_compute. reflexivity.
  - vm_compute. reflexivity.
  - vm_compute. split; [discriminate|reflexivity].
Defined.

(** [a = 2;] where [a] is bound to 1: the machine about to read the
    operand of [OP_SET_GLOBAL]. *)
Definition vm_reassign : VM := vm_in_script chunk_assign 3 globals_a [TWO].

Lemma set_global_assigns_bound_name_witness :
  exists vm',
    run_OP_SET_GLOBAL vm_reassign = Some (None, vm')
    /\ tableGet (hashOf (heap vm')) (globals vm') str_a = Some (Some TWO)
    /\ (forall k, k <> str_a ->
                  tableGet (hashOf (heap vm')) (globals vm') k
                  = tableGet (hashOf (heap vm_reassign)) (globals vm_reassign) k)
    /\ table_inv (hashOf (heap vm')) (globals vm')
    /\ stack vm' = stack vm_reassign /\ stackTop vm' = stackTop vm_reassign
    /\ errors vm' = errors vm_reassign.
Proof.
  eapply (set_global_assigns_bound_name vm_reassign _ str_a TWO ONE).
  - table_inv_by_eval.
  - vm_compute. reflexivity.
  - vm_compute. reflexivity.
  - vm_compute. reflexivity.
Defined.

(** The end of a script: the result of the script on top of the stack. *)
Lemma return_replaces_frame_by_result_witness :
  exists r vm',
    run_OP_RETURN vm_call_class = Some (r, vm')
    /\ upvalues_inv vm'
    /\ frameCount vm' = frameCount vm_call_class - 1
    /\ frames vm' = frames vm_call_class
    /\ errors vm' = errors vm_call_class
    /\ Forall (fun u => exists loc,
                   location_of (heap vm') u = Some loc
                   /\ loc < slots {| closure := cl_script; ip := 6; slots := 0 |})
         (openUpvalues vm')
    /\ (frameCount vm_call_class <> 1 ->
        r = None
        /\ stackTop vm'
           = slots {| closure := cl_script; ip := 6; slots := 0 |} + 1
        /\ index (stack vm')
             (slots {| closure := cl_script; ip := 6; slots := 0 |}) = Some ONE
        /\ forall i,
             i <> slots {| closure := cl_script; ip := 6; slots := 0 |} ->
             index (stack vm') i = index (stack vm_call_class) i)
    /\ (frameCount vm_call_class = 1 ->
        r = Some INTERPRET_OK
        /\ stackTop vm' = stackTop vm_call_class - 2
        /\ stack vm' = stack vm_call_class).
Proof.
  apply (return_replaces_frame_by_result vm_call_class
           {| closure := cl_script; ip := 6; slots := 0 |} ONE).
  - split.
    + exists []. split; [constructor|]. split; constructor.
    + intros a Ha. unfold vm_call_class, vm_calling in *.
      cbn [heap nextObj] in *. unfold heap_with.
      rewrite !lookup_insert_ne
        by (unfold str_init, str_clock, native_clock, str_a, str_tmp,
              fn_script, cl_script, fn_init, cl_init, class_B; lia).
      apply lookup_empty.
  - reflexivity.
  - vm_compute. split; [discriminate|reflexivity].
  - vm_compute. discriminate.
  - reflexivity.
Defined.

(** The class [B] and the closure of [init] above it on the stack. *)
Definition vm_define_method : VM := vm_calling [OBJ_VAL class_B; OBJ_VAL cl_init].

Lemma defined_method_is_invoked_witness :
  exists vm' methods',
    defineMethod str_a vm_define_method = Some (tt, vm')
    /\ heap vm'
       = <[AS_OBJ (OBJ_VAL class_B) := ObjClass str_tmp methods']>
           (heap vm_define_method)
    /\ table_inv (hashOf (heap vm')) methods'
    /\ tableGet (hashOf (heap vm')) methods' str_a
       = Some (Some (OBJ_VAL cl_init))
    /\ (forall k, k <> str_a ->
                  tableGet (hashOf (heap vm')) methods' k
                  = tableGet (hashOf (heap vm_define_method)) methods_B k)
    /\ stackTop vm' = stackTop vm_define_method - 1
    /\ stack vm' = stack vm_define_method
    /\ errors vm' = errors vm_define_method
    /\ invokeFromClass (AS_OBJ (OBJ_VAL class_B)) str_a 0 vm'
       = call (AS_OBJ (OBJ_VAL cl_init)) 0 vm'.
Proof.
  apply (defined_method_is_invoked vm_define_method str_a str_tmp 0
           (OBJ_VAL cl_init) (OBJ_VAL class_B) methods_B).
  - vm_compute. reflexivity.
  - vm_compute. reflexivity.
  - vm_compute. reflexivity.
  - table_inv_by_eval.
Defined.

End MachineStepsExamples.

(** ** Jumps: the compiler's encoding and the machine's decoding *)
Section Jumps.
Import Value Table VM Interp Compiler Emit.

Ltac unfold_M :=
  unfold mbind, M_bind, mret, M_ret, get, put, lift in *.

(** The current frame runs the code [c] and its instruction pointer is at
    offset [pc]. *)
Definition frame_at (vm : VM) (c : list Z) (pc : Z) : Prop :=
  exists frame f ups n a u chunk nm,
    index (frames vm) (frameCount vm - 1) = Some frame
    /\ ip frame = pc
    /\ heap vm !! closure frame = Some (ObjClosure f ups n)
    /\ heap vm !! f = Some (ObjFunction a u chunk nm)
    /\ VM.code chunk = c.

(** Two machines that differ in the instruction pointer of the current
    frame at most. *)
Definition same_but_ip (vm vm' : VM) : Prop :=
  exists fs, vm' = set_frames vm fs (frameCount vm).

Lemma same_but_ip_trans (a b c : VM) :
  same_but_ip a b -> same_but_ip b c -> same_but_ip a c.
Proof. intros [f1 ->] [f2 ->]. exists f2. reflexivity. Qed.

Lemma index_Some_bound {A : Type} (l : list A) (i : Z) (x : A) :
  index l i = Some x -> 0 <= i < Z.of_nat (length l).
Proof.
  unfold index. destruct (Z.leb_spec0 0 i); [|discriminate].
  intros H%lookup_lt_Some. lia.
Qed.

Lemma currentChunk_at (vm : VM) (c : list Z) (pc : Z) :
  frame_at vm c pc ->
  exists chunk, currentChunk vm = Some (chunk, vm) /\ VM.code chunk = c.
Proof.
  intros (frame & f & ups & n & a & u & chunk & nm & Hf & _ & Hc & Hfn & Hcode).
  exists chunk. unfold currentChunk, deref. unfold_M.
  rewrite Hf, Hc, Hfn. auto.
Qed.

Lemma move_ip_spec (vm : VM) (c : list Z) (pc delta : Z) :
  frame_at vm c pc ->
  exists vm', move_ip delta vm = Some (tt, vm')
              /\ frame_at vm' c (pc + delta) /\ same_but_ip vm vm'.
Proof.
  intros (frame & f & ups & n & a & u & chunk & nm & Hf & Hip & Hc & Hfn & Hcode).
  pose proof (index_Some_bound _ _ _ Hf) as Hb.
  unfold move_ip. unfold_M. rewrite Hf.
  rewrite update_Some by assumption.
  eexists. split; [reflexivity|]. split.
  - exists {| closure := closure frame; ip := ip frame + delta;
              slots := slots frame |}, f, ups, n, a, u, chunk, nm.
    simpl. rewrite index_insert_eq by assumption.
    repeat split; try assumption. lia.
  - eexists. reflexivity.
Qed.

Lemma READ_SHORT_spec (vm : VM) (c : list Z) (pc hi lo : Z) :
  frame_at vm c pc ->
  index c pc = Some hi -> index c (pc + 1) = Some lo ->
  exists vm',
    READ_SHORT vm = Some (Z.lor (Z.shiftl hi 8) lo mod 2 ^ 16, vm')
    /\ frame_at vm' c (pc + 2) /\ same_but_ip vm vm'.
Proof.
  intros Hat Hhi Hlo.
  destruct (currentChunk_at vm c pc Hat) as (chunk & Hcur & Hcode).
  destruct (move_ip_spec vm c pc 2 Hat) as (vm' & Hmove & Hat' & Hsame).
  exists vm'. unfold READ_SHORT. unfold_M. rewrite Hcur, Hmove.
  destruct Hat' as (frame & f & ups & n & a & u & chunk' & nm
                    & Hf & Hip & Hc & Hfn & Hcode').
  rewrite Hf, Hcode, Hip.
  replace (pc + 2 - 2) with pc by lia. replace (pc + 2 - 1) with (pc + 1) by lia.
  rewrite Hhi, Hlo. split; [reflexivity|]. split; [|assumption].
  exists frame, f, ups, n, a, u, chunk', nm. auto.
Qed.

(** Two bytes written by the compiler decode to the number they were
    taken from. *)
Lemma decode_bytes (j : Z) :
  0 <= j <= UINT16_MAX ->
  Z.lor (Z.shiftl (Z.land (Z.shiftr j 8) 255) 8) (Z.land j 255) mod 2 ^ 16 = j.
Proof.
  intros Hj. unfold UINT16_MAX in Hj.
  change 255 with (Z.ones 8). rewrite !Z.land_ones by lia.
  rewrite Z.shiftr_div_pow2, Z.shiftl_mul_pow2 by lia.
  change (2 ^ 8) with 256.
  assert (Hq : 0 <= j / 256 < 256).
  { split; [apply Z.div_pos; lia|apply Z.div_lt_upper_bound; lia]. }
  rewrite (Z.mod_small (j / 256)) by lia.
  pose proof (Z.mod_pos_bound j 256 ltac:(lia)) as Hr.
  assert (Hland : Z.land (j / 256 * 256) (j mod 256) = 0).
  { apply Z.bits_inj'. intros n Hn. rewrite Z.land_spec, Z.bits_0.
    destruct (Z.lt_ge_cases n 8) as [Hlt|Hge].
    - replace (j / 256 * 256) with (Z.shiftl (j / 256) 8)
        by (rewrite Z.shiftl_mul_pow2 by lia; reflexivity).
      rewrite Z.shiftl_spec_low by assumption. reflexivity.
    - change 256 with (2 ^ 8) at 3.
      rewrite (Z.mod_pow2_bits_high j 8 n) by lia. apply andb_false_r. }
  pose proof (Z.add_lor_land (j / 256 * 256) (j mod 256)) as Hadd.
  rewrite Hland in Hadd.
  pose proof (Z.div_mod j 256 ltac:(lia)).
  rewrite Z.mod_small; lia.
Qed.


Lemma index_app_at {A : Type} (pre rest : list A) (k : nat) :
  index (pre ++ rest) (Z.of_nat (length pre) + Z.of_nat k) = rest !! k.
Proof.
  unfold index. destruct (Z.leb_spec0 0 (Z.of_nat (length pre) + Z.of_nat k)); [|lia].
  rewrite lookup_app_r by lia. f_equal. lia.
Qed.

Lemma update_app_at {A : Type} (pre rest : list A) (k : nat) (x : A) :
  (k < length rest)%nat ->
  update (pre ++ rest) (Z.of_nat (length pre) + Z.of_nat k) x
  = Some (pre ++ <[k := x]> rest).
Proof.
  intros Hk. rewrite update_Some by (rewrite length_app; lia).
  f_equal. replace (Z.to_nat (Z.of_nat (length pre) + Z.of_nat k))
    with (length pre + k)%nat by lia.
  apply insert_app_r.
Qed.

Lemma emitByte_code (b : Z) (st : State) :
  code (compiler (emitByte b st)) = code (compiler st) ++ [b]
  /\ parser (emitByte b st) = parser st
  /\ stderr (emitByte b st) = stderr st
  /\ tokens (emitByte b st) = tokens st.
Proof. repeat split. Qed.

Lemma error_code (msg : string) (st : State) :
  compiler (error msg st) = compiler st.
Proof. unfold error, errorAt. destruct (panicMode (parser st)); reflexivity. Qed.

Lemma error_code_if (b : bool) (msg : string) (st : State) :
  compiler (if b then error msg st else st) = compiler st.
Proof. destruct b; [apply error_code|reflexivity]. Qed.

(** [emitJump] appends the instruction and two placeholder bytes, and
    returns the offset of the first of the two. *)
Lemma emitJump_spec (op : Z) (st : State) :
  fst (emitJump op st) = count st + 1
  /\ code (compiler (snd (emitJump op st))) = (code (compiler st) ++ [op]) ++ [255; 255]
  /\ parser (snd (emitJump op st)) = parser st
  /\ stderr (snd (emitJump op st)) = stderr st.
Proof.
  unfold emitJump, count. simpl. rewrite !length_app. simpl.
  split; [lia|]. rewrite <- !app_assoc. auto.
Qed.

(** [patchJump] on the offset of two bytes followed by [body]. *)
Lemma patchJump_spec (pre body : list Z) (x y : Z) (st : State) :
  code (compiler st) = pre ++ [x; y] ++ body ->
  let jump := Z.of_nat (length body) in
  exists st',
    patchJump (Z.of_nat (length pre)) st = Some st'
    /\ code (compiler st')
       = pre ++ [Z.land (Z.shiftr jump 8) 255; Z.land jump 255] ++ body
    /\ (jump <= UINT16_MAX -> parser st' = parser st /\ stderr st' = stderr st)
    /\ (UINT16_MAX < jump -> panicMode (parser st) = false ->
        hadError (parser st') = true
        /\ stderr st'
           = stderr st ++ [(Token.line (previous (parser st)),
                            "Too much code to jump over;"%string)]).
Proof.
  intros Hcode jump. unfold patchJump.
  assert (Hjump : count st - Z.of_nat (length pre) - 2 = jump).
  { unfold count. rewrite Hcode, !length_app. simpl. unfold jump. lia. }
  rewrite Hjump.
  set (st1 := if UINT16_MAX <? jump
              then error "Too much code to jump over;" st else st).
  assert (Hc1 : compiler st1 = compiler st).
  { unfold st1. destruct (UINT16_MAX <? jump); [apply error_code|reflexivity]. }
  rewrite Hc1, Hcode.
  pose proof (update_app_at pre ([x; y] ++ body) 0
                (Z.land (Z.shiftr jump 8) 255)) as U1.
  rewrite Z.add_0_r in U1. rewrite U1 by (simpl; lia). simpl.
  pose proof (update_app_at pre
                (Z.land (Z.shiftr jump 8) 255 :: y :: body) 1
                (Z.land jump 255)) as U2.
  change (Z.of_nat 1) with 1 in U2. rewrite U2 by (simpl; lia). simpl.
  eexists. split; [reflexivity|]. split.
  { unfold set_code. simpl. reflexivity. }
  unfold set_code, set_compiler. simpl. unfold st1. split.
  - intros Hle. destruct (Z.ltb_spec UINT16_MAX jump); [lia|]. auto.
  - intros Hgt Hp. destruct (Z.ltb_spec UINT16_MAX jump); [|lia].
    unfold error, errorAt. rewrite Hp. simpl. auto.
Qed.

(** A forward jump, once patched, skips exactly the code emitted between
    [emitJump] and [patchJump]: the machine that reads the operand of the
    instruction moves to the first byte after that code, and
    [OP_JUMP_IF_FALSE] does so when the value on top of the stack is
    falsey and goes on behind the operand otherwise.  More than 65535
    bytes in between are reported as a compile error. *)
Theorem patched_jump_skips_body (op : Z) (body : list Z) (st0 st2 : State) :
  code (compiler st2) = code (compiler (snd (emitJump op st0))) ++ body ->
  exists st3,
    patchJump (fst (emitJump op st0)) st2 = Some st3
    /\ length (code (compiler st3)) = length (code (compiler st2))
    /\ (Z.of_nat (length body) <= UINT16_MAX ->
        parser st3 = parser st2 /\ stderr st3 = stderr st2
        /\ forall vm,
            frame_at vm (code (compiler st3)) (count st0 + 1) ->
            (exists vm',
                run_OP_JUMP vm = Some (None, vm')
                /\ frame_at vm' (code (compiler st3)) (count st3)
                /\ same_but_ip vm vm')
            /\ (forall v, VM.peek 0 vm = Some (v, vm) ->
                  exists vm',
                    run_OP_JUMP_IF_FALSE vm = Some (None, vm')
                    /\ frame_at vm' (code (compiler st3))
                         (if isFalsey v then count st3 else count st0 + 3)
                    /\ same_but_ip vm vm'))
    /\ (UINT16_MAX < Z.of_nat (length body) ->
        panicMode (parser st2) = false -> hadError (parser st3) = true).
Proof.
  intros Hcode.
  destruct (emitJump_spec op st0) as (Hoff & Hc1 & _ & _).
  rewrite Hc1 in Hcode. rewrite Hoff.
  set (pre := code (compiler st0) ++ [op]) in *.
  assert (Hpre : Z.of_nat (length pre) = count st0 + 1).
  { unfold pre, count. rewrite length_app. simpl. lia. }
  rewrite <- app_assoc in Hcode.
  destruct (patchJump_spec pre body 255 255 st2 Hcode)
    as (st3 & Hpatch & Hc3 & Hok & Herr).
  exists st3. rewrite <- Hpre. split; [assumption|].
  split; [rewrite Hc3, Hcode, !length_app; reflexivity|].
  split; [|intros Hgt Hp; apply Herr; assumption].
  intros Hle. destruct (Hok Hle) as [Hp Hs].
  split; [assumption|]. split; [assumption|].
  set (j := Z.of_nat (length body)) in *.
  assert (Hend : count st3 = Z.of_nat (length pre) + 2 + j).
  { unfold count, j. rewrite Hc3, !length_app. simpl. lia. }
  assert (Hread : forall vm,
             frame_at vm (code (compiler st3)) (Z.of_nat (length pre)) ->
             exists vm', READ_SHORT vm = Some (j, vm')
                         /\ frame_at vm' (code (compiler st3))
                              (Z.of_nat (length pre) + 2)
                         /\ same_but_ip vm vm').
  { intros vm Hat.
    destruct (READ_SHORT_spec vm _ _ (Z.land (Z.shiftr j 8) 255) (Z.land j 255) Hat)
      as (vm' & Hr & Hat' & Hsame).
    - rewrite Hc3. pose proof (index_app_at pre
        ([Z.land (Z.shiftr j 8) 255; Z.land j 255] ++ body) 0) as H.
      rewrite Z.add_0_r in H. exact H.
    - rewrite Hc3. exact (index_app_at pre
        ([Z.land (Z.shiftr j 8) 255; Z.land j 255] ++ body) 1).
    - exists vm'. rewrite decode_bytes in Hr by (unfold j; lia). auto. }
  intros vm Hat. destruct (Hread vm Hat) as (vm1 & Hr & Hat1 & Hsame1). split.
  - destruct (move_ip_spec vm1 _ _ j Hat1) as (vm2 & Hm & Hat2 & Hsame2).
    exists vm2. unfold run_OP_JUMP. unfold_M. rewrite Hr, Hm.
    split; [reflexivity|]. rewrite Hend. split; [assumption|].
    eapply same_but_ip_trans; eassumption.
  - intros v Hpeek.
    assert (Hpeek1 : VM.peek 0 vm1 = Some (v, vm1)).
    { destruct Hsame1 as [fs ->]. unfold VM.peek in *. unfold_M. simpl.
      destruct (index (stack vm) (stackTop vm - 1 - 0)); [|discriminate].
      injection Hpeek as ->. reflexivity. }
    unfold run_OP_JUMP_IF_FALSE. unfold_M. rewrite Hr, Hpeek1.
    destruct (isFalsey v).
    + destruct (move_ip_spec vm1 _ _ j Hat1) as (vm2 & Hm & Hat2 & Hsame2).
      exists vm2. rewrite Hm. split; [reflexivity|]. rewrite Hend.
      split; [assumption|]. eapply same_but_ip_trans; eassumption.
    + exists vm1. split; [reflexivity|].
      replace (count st0 + 3) with (Z.of_nat (length pre) + 2) by lia. auto.
Qed.

(** [emitLoop] emits a backward jump to [loopStart]: the machine that
    reads its operand moves to offset [loopStart].  A distance of more
    than 65535 bytes is reported as a compile error. *)
Theorem emitted_loop_jumps_back (loopStart : Z) (st : State) :
  0 <= loopStart <= count st ->
  code (compiler (emitLoop loopStart st))
  = code (compiler st)
    ++ [OP_LOOP; Z.land (Z.shiftr (count st - loopStart + 3) 8) 255;
        Z.land (count st - loopStart + 3) 255]
  /\ (count st - loopStart + 3 <= UINT16_MAX ->
      parser (emitLoop loopStart st) = parser st
      /\ stderr (emitLoop loopStart st) = stderr st
      /\ forall vm,
          frame_at vm (code (compiler (emitLoop loopStart st))) (count st + 1) ->
          exists vm',
            run_OP_LOOP vm = Some (None, vm')
            /\ frame_at vm' (code (compiler (emitLoop loopStart st))) loopStart
            /\ same_but_ip vm vm')
  /\ (UINT16_MAX < count st - loopStart + 3 ->
      panicMode (parser st) = false ->
      hadError (parser (emitLoop loopStart st)) = true).
Proof.
  intros Hstart.
  set (st' := emitLoop loopStart st).
  set (offset := count st - loopStart + 3).
  assert (Hoff : count (emitByte OP_LOOP st) - loopStart + 2 = offset).
  { unfold count, offset. simpl. rewrite length_app. simpl. unfold count. lia. }
  assert (Hcode : code (compiler st')
                  = code (compiler st)
                    ++ [OP_LOOP; Z.land (Z.shiftr offset 8) 255;
                        Z.land offset 255]).
  { unfold st', emitLoop. rewrite Hoff. simpl.
    rewrite error_code_if. simpl. rewrite <- !app_assoc. reflexivity. }
  split; [assumption|]. split.
  - intros Hle.
    assert (Hst : parser st' = parser st /\ stderr st' = stderr st).
    { unfold st', emitLoop. rewrite Hoff.
      destruct (Z.ltb_spec UINT16_MAX offset); [lia|]. auto. }
    destruct Hst as [Hp Hs]. split; [assumption|]. split; [assumption|].
    intros vm Hat.
    set (pre := code (compiler st) ++ [OP_LOOP]).
    assert (Hpre : Z.of_nat (length pre) = count st + 1).
    { unfold pre, count. rewrite length_app. simpl. lia. }
    assert (Hc : code (compiler st')
                 = pre ++ [Z.land (Z.shiftr offset 8) 255; Z.land offset 255]).
    { rewrite Hcode. unfold pre. rewrite <- app_assoc. reflexivity. }
    rewrite <- Hpre in Hat.
    destruct (READ_SHORT_spec vm _ _ (Z.land (Z.shiftr offset 8) 255)
                (Z.land offset 255) Hat) as (vm1 & Hr & Hat1 & Hsame1).
    + rewrite Hc. pose proof (index_app_at pre
        [Z.land (Z.shiftr offset 8) 255; Z.land offset 255] 0) as H.
      rewrite Z.add_0_r in H. exact H.
    + rewrite Hc. exact (index_app_at pre
        [Z.land (Z.shiftr offset 8) 255; Z.land offset 255] 1).
    + rewrite decode_bytes in Hr by (unfold offset; lia).
      destruct (move_ip_spec vm1 _ _ (- offset) Hat1) as (vm2 & Hm & Hat2 & Hsame2).
      exists vm2. unfold run_OP_LOOP. unfold_M. rewrite Hr, Hm.
      split; [reflexivity|]. split; [|eapply same_but_ip_trans; eassumption].
      replace loopStart with (Z.of_nat (length pre) + 2 + - offset)
        by (unfold offset; lia).
      assumption.
  - intros Hgt Hp. unfold st', emitLoop. rewrite Hoff.
    destruct (Z.ltb_spec UINT16_MAX offset); [|lia].
    simpl. unfold error, errorAt. simpl. rewrite Hp. reflexivity.
Qed.

End Jumps.

Section JumpExamples.
Import Value Table VM Interp Compiler Emit.

(** A compiler that has emitted nothing yet. *)
Definition fresh_state : State :=
  {| tokens := []; eof_line := 1;
     parser := {| current := {| Token.type := Token.TOKEN_EOF;
                                Token.start := ""; Token.length := 0;
                                Token.line := 1 |};
                  previous := {| Token.type := Token.TOKEN_EOF;
                                 Token.start := ""; Token.length := 0;
                                 Token.line := 1 |};
                  hadError := false; panicMode := false |};
     compiler := {| arity := 0; code := []; lines := []; type := TYPE_SCRIPT;
                    locals := []; localCount := 0; scopeDepth := 0 |};
     stderr := [] |}.

(** A jump over two [OP_POP] instructions. *)
Definition jump_emitted : State :=
  emitByte OP_POP (emitByte OP_POP (snd (emitJump OP_JUMP fresh_state))).

Lemma patched_jump_skips_body_witness :
  exists st3,
    patchJump (fst (emitJump OP_JUMP fresh_state)) jump_emitted = Some st3
    /\ length (code (compiler st3)) = length (code (compiler jump_emitted))
    /\ (Z.of_nat (length [OP_POP; OP_POP]) <= UINT16_MAX ->
        parser st3 = parser jump_emitted /\ stderr st3 = stderr jump_emitted
        /\ forall vm,
            frame_at vm (code (compiler st3)) (count fresh_state + 1) ->
            (exists vm',
                run_OP_JUMP vm = Some (None, vm')
                /\ frame_at vm' (code (compiler st3)) (count st3)
                /\ same_but_ip vm vm')
            /\ (forall v, VM.peek 0 vm = Some (v, vm) ->
                  exists vm',
                    run_OP_JUMP_IF_FALSE vm = Some (None, vm')
                    /\ frame_at vm' (code (compiler st3))
                         (if isFalsey v then count st3
                          else count fresh_state + 3)
                    /\ same_but_ip vm vm'))
    /\ (UINT16_MAX < Z.of_nat (length [OP_POP; OP_POP]) ->
        panicMode (parser jump_emitted) = false -> hadError (parser st3) = true).
Proof.
  apply (patched_jump_skips_body OP_JUMP [OP_POP; OP_POP] fresh_state jump_emitted).
  reflexivity.
Defined.

(** A loop whose body is the two [OP_POP] instructions at offsets 3
    and 4. *)
Lemma emitted_loop_jumps_back_witness :
  code (compiler (emitLoop 3 jump_emitted))
  = code (compiler jump_emitted)
    ++ [OP_LOOP; Z.land (Z.shiftr (count jump_emitted - 3 + 3) 8) 255;
        Z.land (count jump_emitted - 3 + 3) 255]
  /\ (count jump_emitted - 3 + 3 <= UINT16_MAX ->
      parser (emitLoop 3 jump_emitted) = parser jump_emitted
      /\ stderr (emitLoop 3 jump_emitted) = stderr jump_emitted
      /\ forall vm,
          frame_at vm (code (compiler (emitLoop 3 jump_emitted)))
            (count jump_emitted + 1) ->
          exists vm',
            run_OP_LOOP vm = Some (None, vm')
            /\ frame_at vm' (code (compiler (emitLoop 3 jump_emitted))) 3
            /\ same_but_ip vm vm')
  /\ (UINT16_MAX < count jump_emitted - 3 + 3 ->
      panicMode (parser jump_emitted) = false ->
      hadError (parser (emitLoop 3 jump_emitted)) = true).
Proof.
  apply (emitted_loop_jumps_back 3 jump_emitted).
  vm_compute. split; discriminate.
Defined.

End JumpExamples.

(** ** The scanner: termination and bounds *)
Section ScannerProgress.
Import Token Scanner.

(** The scanner stands inside its source text, the terminating NUL
    included. *)
Definition in_bounds (sc : Scanner) : Prop :=
  0 <= current sc <= Z.of_nat (String.length (source sc)).

Lemma get_beyond (s : string) (n : nat) :
  (String.length s <= n)%nat -> String.get n s = None.
Proof.
  revert n. induction s as [|c s IH]; intros n Hn; [reflexivity|].
  destruct n as [|n]; simpl in *; [lia|]. apply IH. lia.
Qed.

Lemma charAt_beyond (s : string) (i : Z) :
  Z.of_nat (String.length s) <= i -> charAt s i = NUL.
Proof. intros H. unfold charAt. rewrite get_beyond by lia. reflexivity. Qed.

Lemma not_at_end_lt (sc : Scanner) :
  in_bounds sc -> isAtEnd sc = false ->
  current sc < Z.of_nat (String.length (source sc)).
Proof.
  intros [H0 H1] Hend.
  destruct (Z.lt_ge_cases (current sc) (Z.of_nat (String.length (source sc))))
    as [|Hge]; [assumption|].
  unfold isAtEnd in Hend. rewrite charAt_beyond in Hend by assumption.
  discriminate Hend.
Qed.

(** A scanner that has moved forward inside the same source. *)
Record moved (sc sc' : Scanner) : Prop := {
  mv_source : source sc' = source sc;
  mv_current : current sc <= current sc';
  mv_bounds : in_bounds sc';
  mv_line : line sc <= line sc'
}.

Lemma moved_refl (sc : Scanner) : in_bounds sc -> moved sc sc.
Proof. intros H. split; [reflexivity|lia|assumption|lia]. Qed.

Lemma moved_trans (a b c : Scanner) : moved a b -> moved b c -> moved a c.
Proof.
  intros [S1 C1 B1 L1] [S2 C2 B2 L2].
  split; [congruence|lia|assumption|lia].
Qed.

(** One step over a character that is not the terminating NUL. *)
Lemma moved_step (sc sc' : Scanner) :
  in_bounds sc -> isAtEnd sc = false ->
  source sc' = source sc -> current sc' = current sc + 1 ->
  line sc <= line sc' -> moved sc sc'.
Proof.
  intros Hb Hend Hs Hc Hl. pose proof (not_at_end_lt sc Hb Hend).
  destruct Hb. split; [assumption|lia| |assumption].
  unfold in_bounds. rewrite Hs, Hc. lia.
Qed.

(** A loop that consumes one character per iteration and goes on only
    while it does not stand at the end returns within the fuel the model
    gives it. *)
Lemma while_loop_moves (cond : Scanner -> bool) (body : Scanner -> Scanner) :
  (forall s, cond s = true -> isAtEnd s = false) ->
  (forall s, source (body s) = source s /\ start (body s) = start s
             /\ current (body s) = current s + 1 /\ line s <= line (body s)) ->
  forall (fuel : nat) (sc : Scanner),
    in_bounds sc ->
    Z.of_nat (String.length (source sc)) - current sc < Z.of_nat fuel ->
    exists sc',
      while_loop fuel cond body sc = Some sc'
      /\ moved sc sc' /\ start sc' = start sc /\ cond sc' = false.
Proof.
  intros Hcond Hbody. induction fuel as [|fuel IH]; intros sc Hb Hfuel.
  - destruct Hb. lia.
  - simpl. destruct (cond sc) eqn:Hc.
    + destruct (Hbody sc) as (Hs & Hst & Hcur & Hl).
      assert (Hm : moved sc (body sc)).
      { apply moved_step; auto. }
      destruct (IH (body sc)) as (sc' & Hloop & Hm' & Hst' & Hc').
      * apply Hm.
      * rewrite Hs, Hcur. lia.
      * exists sc'. split; [assumption|]. split; [|split; [congruence|assumption]].
        eapply moved_trans; eassumption.
    + exists sc. split; [reflexivity|]. split; [apply moved_refl; assumption|].
      split; [reflexivity|assumption].
Qed.

Lemma scan_fuel_enough (sc : Scanner) :
  in_bounds sc ->
  Z.of_nat (String.length (source sc)) - current sc < Z.of_nat (scan_fuel sc).
Proof. intros [H0 H1]. unfold scan_fuel. lia. Qed.

Lemma advance_body :
  forall s, source (snd (advance s)) = source s
            /\ start (snd (advance s)) = start s
            /\ current (snd (advance s)) = current s + 1
            /\ line s <= line (snd (advance s)).
Proof. intros s. simpl. repeat split; lia. Qed.

Lemma peek_not_NUL (s : Scanner) :
  Ascii.eqb (peek s) NUL = false -> isAtEnd s = false.
Proof. intros H. exact H. Qed.

Lemma isAlpha_NUL : isAlpha NUL = false.
Proof. reflexivity. Qed.

Lemma isDigit_NUL : isDigit NUL = false.
Proof. reflexivity. Qed.

Lemma pred_not_NUL (p : ascii -> bool) (s : Scanner) :
  p NUL = false -> p (peek s) = true -> isAtEnd s = false.
Proof.
  intros Hn Hp. unfold isAtEnd. fold (peek s).
  destruct (Ascii.eqb_spec (peek s) NUL) as [E|]; [|reflexivity].
  rewrite E in Hp. congruence.
Qed.


Lemma skipWhitespace_loop_moves (fuel : nat) (sc : Scanner) :
  in_bounds sc ->
  Z.of_nat (String.length (source sc)) - current sc < Z.of_nat fuel ->
  exists sc',
    skipWhitespace_loop fuel sc = Some sc'
    /\ moved sc sc' /\ start sc' = start sc.
Proof.
  revert sc. induction fuel as [|fuel IH]; intros sc Hb Hfuel.
  - destruct Hb. lia.
  - cbn [skipWhitespace_loop]. cbv zeta.
    destruct (Ascii.eqb (peek sc) " " || Ascii.eqb (peek sc) "013"
              || Ascii.eqb (peek sc) "009") eqn:Hws.
    { assert (Hend : isAtEnd sc = false).
      { unfold isAtEnd. fold (peek sc).
        destruct (Ascii.eqb_spec (peek sc) NUL) as [E|]; [|reflexivity].
        rewrite E in Hws. discriminate Hws. }
      assert (Hm : moved sc (set_current sc (current sc + 1))).
      { apply moved_step; simpl; auto; lia. }
      destruct (IH (set_current sc (current sc + 1))) as (sc' & Hl & Hm' & Hs).
      - apply Hm.
      - simpl. lia.
      - exists sc'. split; [exact Hl|]. split; [|exact Hs].
        eapply moved_trans; eassumption. }
    destruct (Ascii.eqb (peek sc) "010") eqn:Hnl.
    { assert (Hend : isAtEnd sc = false).
      { unfold isAtEnd. fold (peek sc).
        destruct (Ascii.eqb_spec (peek sc) NUL) as [E|]; [|reflexivity].
        rewrite E in Hnl. discriminate Hnl. }
      set (sc1 := snd (advance _)).
      assert (Hm : moved sc sc1).
      { apply moved_step; simpl; auto; lia. }
      destruct (IH sc1) as (sc' & Hl & Hm' & Hs).
      - apply Hm.
      - simpl. lia.
      - exists sc'. split; [exact Hl|]. split; [|exact Hs].
        eapply moved_trans; eassumption. }
    destruct (Ascii.eqb (peek sc) "/");
      [destruct (Ascii.eqb (peekNext sc) "/")|].
    + destruct (while_loop_moves
                  (fun s => negb (Ascii.eqb (peek s) "010") && negb (isAtEnd s))
                  (fun s => snd (advance s))) with (fuel := scan_fuel sc) (sc := sc)
        as (sc' & Hl & Hm & Hs & _).
      * intros s Hc. apply andb_prop in Hc. destruct Hc as [_ Hc].
        apply negb_true_iff in Hc. exact Hc.
      * apply advance_body.
      * assumption.
      * apply scan_fuel_enough; assumption.
      * exists sc'. split; [exact Hl|]. split; assumption.
    + exists sc. split; [reflexivity|]. split; [apply moved_refl; assumption|reflexivity].
    + exists sc. split; [reflexivity|]. split; [apply moved_refl; assumption|reflexivity].
Qed.

Lemma skipWhitespace_moves (sc : Scanner) :
  in_bounds sc ->
  exists sc', skipWhitespace sc = Some sc' /\ moved sc sc' /\ start sc' = start sc.
Proof.
  intros Hb. apply skipWhitespace_loop_moves; [assumption|].
  apply scan_fuel_enough; assumption.
Qed.

(** What a call of [scanToken] that started at [sc] has produced. *)
Record scanned (sc : Scanner) (tok : Token) (sc' : Scanner) : Prop := {
  sd_moved : moved sc sc';
  sd_start : current sc <= start sc' <= current sc';
  sd_line : Token.line tok = line sc';
  sd_lexeme :
    type tok <> TOKEN_ERROR ->
    Token.start tok
    = String.substring (Z.to_nat (start sc')) (Z.to_nat (current sc' - start sc'))
        (source sc')
    /\ Token.length tok = current sc' - start sc';
  sd_progress :
    if decide (type tok = TOKEN_EOF)
    then isAtEnd sc' = true /\ start sc' = current sc'
    else start sc' < current sc'
}.

Lemma scanned_makeToken (sc sc' : Scanner) (ty : TokenType) :
  ty <> TOKEN_EOF ->
  moved sc sc' -> current sc <= start sc' < current sc' ->
  scanned sc (makeToken ty sc') sc'.
Proof.
  intros Hty Hm Hs. split; simpl; auto; [lia|].
  destruct (decide (ty = TOKEN_EOF)); [contradiction|lia].
Qed.

Lemma scanned_errorToken (sc sc' : Scanner) (msg : string) :
  moved sc sc' -> current sc <= start sc' < current sc' ->
  scanned sc (errorToken msg sc') sc'.
Proof.
  intros Hm Hs. split; simpl; auto; [lia|contradiction|].
  destruct (decide (TOKEN_ERROR = TOKEN_EOF)); [discriminate|lia].
Qed.

Lemma match_moves (c : ascii) (sc : Scanner) :
  in_bounds sc ->
  moved sc (snd (match_ c sc)) /\ start (snd (match_ c sc)) = start sc.
Proof.
  intros Hb. unfold match_. destruct (isAtEnd sc) eqn:Hend; simpl.
  - split; [apply moved_refl; assumption|reflexivity].
  - destruct (negb _); simpl.
    + split; [apply moved_refl; assumption|reflexivity].
    + split; [|reflexivity]. apply moved_step; simpl; auto; lia.
Qed.

Lemma identifierType_not_special (sc : Scanner) :
  identifierType sc <> TOKEN_EOF /\ identifierType sc <> TOKEN_ERROR.
Proof.
  unfold identifierType, checkKeyword.
  repeat match goal with
         | |- context [if ?b then _ else _] => destruct b
         end; split; discriminate.
Qed.

Lemma identifier_scanned (sc0 sc : Scanner) :
  moved sc0 sc -> current sc0 <= start sc < current sc ->
  exists tok sc', identifier sc = Some (tok, sc') /\ scanned sc0 tok sc'
                  /\ type tok <> TOKEN_ERROR /\ type tok <> TOKEN_EOF.
Proof.
  intros Hm Hs. unfold identifier.
  destruct (while_loop_moves (fun s => isAlpha (peek s) || isDigit (peek s))
              (fun s => snd (advance s))) with (fuel := scan_fuel sc) (sc := sc)
    as (sc' & Hl & Hm' & Hst & _).
  - intros s Hc. apply orb_prop in Hc.
    destruct Hc as [Hc|Hc];
      [apply (pred_not_NUL isAlpha)|apply (pred_not_NUL isDigit)];
      auto using isAlpha_NUL, isDigit_NUL.
  - apply advance_body.
  - apply Hm.
  - apply scan_fuel_enough, Hm.
  - rewrite Hl. cbn [mbind option_bind]. do 2 eexists. split; [reflexivity|].
    destruct (identifierType_not_special sc') as [H1 H2].
    split; [|split; assumption].
    apply scanned_makeToken; [assumption|eapply moved_trans; eassumption|].
    destruct Hm'. lia.
Qed.

Lemma number_scanned (sc0 sc : Scanner) :
  moved sc0 sc -> current sc0 <= start sc < current sc ->
  exists sc', number sc = Some (makeToken TOKEN_NUMBER sc', sc')
              /\ scanned sc0 (makeToken TOKEN_NUMBER sc') sc'.
Proof.
  intros Hm Hs. unfold number.
  assert (Hd : forall s, isDigit (peek s) = true -> isAtEnd s = false).
  { intros s. apply (pred_not_NUL isDigit), isDigit_NUL. }
  destruct (while_loop_moves (fun s => isDigit (peek s))
              (fun s => snd (advance s)) Hd advance_body (scan_fuel sc) sc)
    as (sc1 & Hl & Hm1 & Hst1 & _).
  - apply Hm.
  - apply scan_fuel_enough, Hm.
  - rewrite Hl. cbn [mbind option_bind].
    destruct (Ascii.eqb (peek sc1) "." && isDigit (peekNext sc1)) eqn:Hdot.
    + apply andb_prop in Hdot. destruct Hdot as [Hdot _].
      assert (Hend : isAtEnd sc1 = false).
      { unfold isAtEnd. fold (peek sc1).
        destruct (Ascii.eqb_spec (peek sc1) NUL) as [E|]; [|reflexivity].
        rewrite E in Hdot. discriminate Hdot. }
      assert (Hm2 : moved sc1 (set_current sc1 (current sc1 + 1))).
      { apply moved_step; simpl; auto; try lia. apply Hm1. }
      destruct (while_loop_moves (fun s => isDigit (peek s))
                  (fun s => snd (advance s)) Hd advance_body
                  (scan_fuel sc1) (set_current sc1 (current sc1 + 1)))
        as (sc2 & Hl2 & Hm3 & Hst2 & _).
      * apply Hm2.
      * apply (scan_fuel_enough (set_current sc1 (current sc1 + 1))), Hm2.
      * change (set_current sc1 (current sc1 + 1)) with (snd (advance sc1)) in Hl2.
        rewrite Hl2. cbn [mbind option_bind]. eexists. split; [reflexivity|].
        apply scanned_makeToken; [discriminate| |].
        -- eapply moved_trans; [eassumption|].
           eapply moved_trans; [eassumption|].
           eapply moved_trans; eassumption.
        -- simpl in Hst2. destruct Hm1, Hm2, Hm3. simpl in *. lia.
    + cbn [mbind option_bind]. eexists. split; [reflexivity|].
      apply scanned_makeToken; [discriminate| |].
      * eapply moved_trans; eassumption.
      * destruct Hm1. lia.
Qed.

Lemma string_scanned (sc0 sc : Scanner) :
  moved sc0 sc -> current sc0 <= start sc < current sc ->
  exists tok sc', string_ sc = Some (tok, sc') /\ scanned sc0 tok sc'.
Proof.
  intros Hm Hs. unfold string_.
  match goal with
  | |- context [while_loop _ ?c ?b sc] =>
      destruct (while_loop_moves c b) with (fuel := scan_fuel sc) (sc := sc)
        as (sc1 & Hl & Hm1 & Hst1 & _)
  end.
  - intros s Hc. apply andb_prop in Hc. destruct Hc as [_ Hc].
    apply negb_true_iff in Hc. exact Hc.
  - intros s. destruct (Ascii.eqb (peek s) "010"); simpl; repeat split; lia.
  - apply Hm.
  - apply scan_fuel_enough, Hm.
  - rewrite Hl. cbn [mbind option_bind]. destruct (isAtEnd sc1) eqn:Hend.
    + do 2 eexists. split; [reflexivity|].
      apply scanned_errorToken; [eapply moved_trans; eassumption|].
      destruct Hm1. lia.
    + do 2 eexists. split; [reflexivity|].
      assert (Hm2 : moved sc1 (set_current sc1 (current sc1 + 1))).
      { apply moved_step; simpl; auto; try lia. apply Hm1. }
      apply scanned_makeToken; [discriminate| |].
      * eapply moved_trans; [eassumption|]. eapply moved_trans; eassumption.
      * simpl. destruct Hm1. lia.
Qed.

Lemma scanToken_scanned (sc : Scanner) :
  in_bounds sc -> exists tok sc', scanToken sc = Some (tok, sc') /\ scanned sc tok sc'.
Proof.
  intros Hb. unfold scanToken.
  destruct (skipWhitespace_moves sc Hb) as (sc1 & Hskip & Hm1 & _).
  rewrite Hskip. cbn [mbind option_bind]. cbv zeta.
  set (sc2 := {| source := source sc1; start := current sc1;
                 current := current sc1; line := line sc1 |}).
  assert (Hm2 : moved sc sc2).
  { destruct Hm1. split; auto. }
  destruct (isAtEnd sc2) eqn:Hend.
  { do 2 eexists. split; [reflexivity|]. split; simpl; auto.
    destruct Hm2. simpl in *. lia. }
  unfold advance. set (c := charAt (source sc2) (current sc2)).
  set (sc3 := set_current sc2 (current sc2 + 1)).
  assert (Hm3 : moved sc sc3).
  { eapply moved_trans; [exact Hm2|].
    apply moved_step; simpl; auto; try lia. apply Hm2. }
  assert (Hs3 : current sc <= start sc3 < current sc3).
  { simpl. destruct Hm1. lia. }
  destruct (isAlpha c).
  { destruct (identifier_scanned sc sc3 Hm3 Hs3) as (tok & sc' & H1 & H2 & _).
    exists tok, sc'. split; assumption. }
  destruct (isDigit c).
  { destruct (number_scanned sc sc3 Hm3 Hs3) as (sc' & H1 & H2).
    exists (makeToken TOKEN_NUMBER sc'), sc'. split; assumption. }
  repeat match goal with
  | |- exists tok sc', (if Ascii.eqb c ?x then _ else _) = _ /\ _ =>
      lazymatch x with
      | "034"%char => fail
      | _ => destruct (Ascii.eqb c x)
      end;
      [first
         [do 2 eexists; split; [reflexivity|];
          apply scanned_makeToken; [discriminate|assumption|assumption]
         |destruct (match_moves "=" sc3) as [Hm4 Hs4]; [apply Hm3|];
          destruct (match_ "=" sc3) as [m sc4]; cbn [snd] in Hm4, Hs4;
          do 2 eexists; split; [reflexivity|];
          apply scanned_makeToken;
            [destruct m; discriminate
            |exact (moved_trans _ _ _ Hm3 Hm4)
            |rewrite Hs4; destruct Hm4; lia]]|]
  end.
  destruct (Ascii.eqb c "034").
  { apply string_scanned; assumption. }
  do 2 eexists. split; [reflexivity|].
  apply scanned_errorToken; assumption.
Qed.

(** [scanToken] always returns, on any scanner that stands inside its
    source: it stays inside the source, never moves backwards and never
    loses a line; the token is on the line the scanner has reached; a
    token other than an error is the piece of source between [start] and
    [current], which is not empty unless the token is [TOKEN_EOF]; and
    [TOKEN_EOF] is returned at the end of the source only.  So each call
    either consumes at least one character or reports the end. *)
Theorem scanToken_progress (sc : Scanner) :
  in_bounds sc ->
  exists tok sc',
    scanToken sc = Some (tok, sc')
    /\ source sc' = source sc
    /\ in_bounds sc'
    /\ current sc <= start sc' <= current sc'
    /\ line sc <= line sc'
    /\ Token.line tok = line sc'
    /\ (type tok <> TOKEN_ERROR ->
        Token.start tok
        = String.substring (Z.to_nat (start sc'))
            (Z.to_nat (current sc' - start sc')) (source sc')
        /\ Token.length tok = current sc' - start sc')
    /\ (type tok = TOKEN_EOF -> isAtEnd sc' = true /\ start sc' = current sc')
    /\ (type tok <> TOKEN_EOF -> current sc < current sc').
Proof.
  intros Hb.
  destruct (scanToken_scanned sc Hb) as (tok & sc' & Hrun & [Hm Hs Hl Hlex Hp]).
  exists tok, sc'. destruct Hm as [H1 H2 H3 H4].
  split; [exact Hrun|]. split; [exact H1|]. split; [exact H3|].
  split; [exact Hs|]. split; [exact H4|]. split; [exact Hl|].
  split; [exact Hlex|].
  destruct (decide (type tok = TOKEN_EOF)) as [E|N].
  - split; [intros _; exact Hp|contradiction].
  - split; [contradiction|intros _; lia].
Qed.

End ScannerProgress.

(** ** The scanner: the lexemes it cuts out of the source *)
Section Lexemes.
Import Token Scanner.

(** Every character of [s] satisfies [p]. *)
Fixpoint string_forall (p : ascii -> bool) (s : string) : bool :=
  match s with
  | EmptyString => true
  | String c s' => p c && string_forall p s'
  end.

(** The sum of [delta c] over the characters [c] of [s]. *)
Fixpoint sum_delta (delta : ascii -> Z) (s : string) : Z :=
  match s with
  | EmptyString => 0
  | String c s' => delta c + sum_delta delta s'
  end.

(** The number of newline characters of [s]. *)
Definition count_newlines (s : string) : Z :=
  sum_delta (fun c => if Ascii.eqb c "010" then 1 else 0) s.

(** The first character of [s], the terminating NUL if [s] is empty. *)
Definition first_char (s : string) : ascii := charAt s 0.

Definition second_char (s : string) : ascii := charAt s 1.

Definition strlen (s : string) : Z := Z.of_nat (String.length s).

Lemma strlen_nonneg (s : string) : 0 <= strlen s.
Proof. unfold strlen. lia. Qed.

Lemma strlen_cons (c : ascii) (s : string) : strlen (String c s) = 1 + strlen s.
Proof. unfold strlen. simpl String.length. lia. Qed.

Lemma strlen_app (a b : string) : strlen (a +:+ b) = strlen a + strlen b.
Proof.
  induction a as [|c a IH]; [reflexivity|].
  change (String c a +:+ b) with (String c (a +:+ b)).
  rewrite !strlen_cons, IH. lia.
Qed.

Lemma app_assoc_string (a b c : string) : (a +:+ b) +:+ c = a +:+ (b +:+ c).
Proof.
  induction a as [|x a IH]; [reflexivity|].
  change (String x ((a +:+ b) +:+ c) = String x (a +:+ (b +:+ c))).
  rewrite IH. reflexivity.
Qed.

Lemma app_snoc (a : string) (c : ascii) (b : string) :
  a +:+ String c b = (a +:+ String c EmptyString) +:+ b.
Proof. rewrite app_assoc_string. reflexivity. Qed.

Lemma charAt_app_r (a b : string) (i : Z) :
  0 <= i -> charAt (a +:+ b) (strlen a + i) = charAt b i.
Proof.
  intros Hi. unfold charAt, strlen.
  replace (Z.to_nat (Z.of_nat (String.length a) + i))
    with (Z.to_nat i + String.length a)%nat by lia.
  rewrite <- append_correct2. reflexivity.
Qed.

Lemma charAt_cons_0 (c : ascii) (s : string) : charAt (String c s) 0 = c.
Proof. reflexivity. Qed.

Lemma charAt_cons_1 (c : ascii) (s : string) : charAt (String c s) 1 = charAt s 0.
Proof. reflexivity. Qed.

Lemma substring_app_prefix (w b : string) :
  String.substring 0 (String.length w) (w +:+ b) = w.
Proof.
  induction w as [|c w IH].
  - destruct b; reflexivity.
  - change (String c (String.substring 0 (String.length w) (w +:+ b))
            = String c w).
    rewrite IH. reflexivity.
Qed.

Lemma substring_app_mid (a w b : string) :
  String.substring (String.length a) (String.length w) (a +:+ w +:+ b) = w.
Proof.
  induction a as [|c a IH].
  - exact (substring_app_prefix w b).
  - exact IH.
Qed.

(** The scanner stands in [source sc] right after [pre], with [rest]
    ahead. *)
Definition ahead (sc : Scanner) (pre rest : string) : Prop :=
  source sc = pre +:+ rest /\ current sc = strlen pre.

Lemma ahead_peek (sc : Scanner) (pre rest : string) :
  ahead sc pre rest -> peek sc = first_char rest.
Proof.
  intros [Hs Hc]. unfold peek, first_char. rewrite Hs, Hc.
  rewrite <- (Z.add_0_r (strlen pre)). apply charAt_app_r. lia.
Qed.

Lemma ahead_next (sc : Scanner) (pre rest : string) :
  ahead sc pre rest ->
  charAt (source sc) (current sc + 1) = second_char rest.
Proof.
  intros [Hs Hc]. unfold second_char. rewrite Hs, Hc.
  apply charAt_app_r. lia.
Qed.

Lemma ahead_step (sc sc' : Scanner) (pre : string) (c : ascii) (rest : string) :
  ahead sc pre (String c rest) ->
  source sc' = source sc -> current sc' = current sc + 1 ->
  ahead sc' (pre +:+ String c EmptyString) rest.
Proof.
  intros [Hs Hc] Hs' Hc'. split.
  - rewrite Hs', Hs. apply app_snoc.
  - rewrite Hc', Hc, strlen_app, strlen_cons. unfold strlen. simpl. lia.
Qed.

(** A loop that consumes the characters satisfying [p], counting lines by
    [delta], run on a source that has the run [run] of such characters
    ahead, followed by a character that does not satisfy [p]. *)
Lemma while_loop_run (p : ascii -> bool) (delta : ascii -> Z)
    (cond : Scanner -> bool) (body : Scanner -> Scanner) :
  (forall s, cond s = p (peek s)) ->
  (forall s, source (body s) = source s /\ start (body s) = start s
             /\ current (body s) = current s + 1
             /\ line (body s) = line s + delta (peek s)) ->
  forall (run : string) (fuel : nat) (sc : Scanner) (pre rest : string),
    ahead sc pre (run +:+ rest) ->
    string_forall p run = true -> p (first_char rest) = false ->
    (String.length run < fuel)%nat ->
    exists sc',
      while_loop fuel cond body sc = Some sc'
      /\ ahead sc' (pre +:+ run) rest /\ source sc' = source sc
      /\ start sc' = start sc
      /\ line sc' = line sc + sum_delta delta run.
Proof.
  intros Hcond Hbody. induction run as [|c run IH];
    intros fuel sc pre rest Ha Hall Hrest Hfuel.
  - destruct fuel as [|fuel]; [simpl in Hfuel; lia|]. simpl.
    rewrite Hcond, (ahead_peek sc pre rest Ha), Hrest.
    exists sc. split; [reflexivity|]. split; [|repeat split; lia].
    destruct Ha as [Hs Hc]. split.
    + rewrite app_assoc_string. exact Hs.
    + rewrite strlen_app. unfold strlen at 2. simpl. lia.
  - destruct fuel as [|fuel]; [simpl in Hfuel; lia|].
    simpl in Hall. apply andb_prop in Hall. destruct Hall as [Hc Hall].
    cbn [while_loop].
    rewrite Hcond, (ahead_peek sc pre _ Ha).
    change (first_char (String c run +:+ rest)) with c. rewrite Hc.
    destruct (Hbody sc) as (Hs1 & Hst1 & Hc1 & Hl1).
    destruct (IH fuel (body sc) (pre +:+ String c EmptyString) rest)
      as (sc' & Hloop & Ha' & Hs' & Hst' & Hl').
    + eapply ahead_step; eauto.
    + exact Hall.
    + exact Hrest.
    + simpl in Hfuel. lia.
    + exists sc'. split; [exact Hloop|].
      rewrite <- app_snoc in Ha'.
      split; [exact Ha'|]. split; [congruence|]. split; [congruence|].
      rewrite Hl', Hl1, (ahead_peek sc pre _ Ha).
      change (first_char (String c run +:+ rest)) with c. simpl. lia.
Qed.

Lemma sum_delta_zero (s : string) : sum_delta (fun _ => 0) s = 0.
Proof. induction s as [|c s IH]; [reflexivity|]. simpl. exact IH. Qed.

Lemma advance_run_body :
  forall s, source (snd (advance s)) = source s
            /\ start (snd (advance s)) = start s
            /\ current (snd (advance s)) = current s + 1
            /\ line (snd (advance s)) = line s + (fun _ : ascii => 0) (peek s).
Proof. intros s. simpl. repeat split; lia. Qed.

Lemma scanner_eta (sc : Scanner) (src : string) (st cur ln : Z) :
  source sc = src -> start sc = st -> current sc = cur -> line sc = ln ->
  sc = {| source := src; start := st; current := cur; line := ln |}.
Proof. destruct sc. simpl. intros -> -> -> ->. reflexivity. Qed.

Lemma fuel_covers (sc : Scanner) (pre run rest : string) :
  source sc = pre +:+ run +:+ rest ->
  (String.length run < scan_fuel sc)%nat.
Proof.
  intros Hs. unfold scan_fuel. rewrite Hs.
  pose proof (strlen_app pre (run +:+ rest)) as H1.
  pose proof (strlen_app run rest) as H2. unfold strlen in *. lia.
Qed.

(** Blank characters, as [skipWhitespace] sees them. *)
Definition isBlank (c : ascii) : bool :=
  Ascii.eqb c " " || Ascii.eqb c "013" || Ascii.eqb c "009" || Ascii.eqb c "010".

Lemma skipWhitespace_loop_run (ws : string) :
  forall (fuel : nat) (sc : Scanner) (pre rest : string),
    ahead sc pre (ws +:+ rest) ->
    string_forall isBlank ws = true ->
    isBlank (first_char rest) = false -> first_char rest <> "/"%char ->
    (String.length ws < fuel)%nat ->
    skipWhitespace_loop fuel sc
    = Some {| source := source sc; start := start sc;
              current := current sc + strlen ws;
              line := line sc + count_newlines ws |}.
Proof.
  induction ws as [|c ws IH]; intros fuel sc pre rest Ha Hall Hrest Hslash Hfuel.
  - destruct fuel as [|fuel]; [simpl in Hfuel; lia|].
    cbn [skipWhitespace_loop]. cbv zeta.
    rewrite (ahead_peek sc pre rest Ha).
    unfold isBlank in Hrest. apply orb_false_elim in Hrest.
    destruct Hrest as [Hrest Hnl]. rewrite Hrest, Hnl.
    destruct (Ascii.eqb_spec (first_char rest) "/") as [E|_]; [contradiction|].
    f_equal. apply scanner_eta; try reflexivity; unfold strlen, count_newlines; simpl; lia.
  - destruct fuel as [|fuel]; [simpl in Hfuel; lia|].
    simpl in Hall. apply andb_prop in Hall. destruct Hall as [Hc Hall].
    cbn [skipWhitespace_loop]. cbv zeta.
    rewrite (ahead_peek sc pre _ Ha).
    change (first_char (String c ws +:+ rest)) with c.
    unfold isBlank in Hc.
    destruct (Ascii.eqb c " " || Ascii.eqb c "013" || Ascii.eqb c "009") eqn:Hb.
    + erewrite IH; cycle 1.
      * eapply ahead_step; [exact Ha|reflexivity|reflexivity].
      * exact Hall.
      * exact Hrest.
      * exact Hslash.
      * simpl in Hfuel. lia.
      * f_equal. apply scanner_eta; simpl; try reflexivity.
        -- rewrite strlen_cons. lia.
        -- unfold count_newlines. cbn [sum_delta].
           destruct (Ascii.eqb_spec c "010") as [->|]; [discriminate Hb|lia].
    + simpl in Hc. rewrite Hc.
      erewrite IH; cycle 1.
      * eapply ahead_step; [exact Ha|reflexivity|reflexivity].
      * exact Hall.
      * exact Hrest.
      * exact Hslash.
      * simpl in Hfuel. lia.
      * f_equal. apply scanner_eta; simpl; try reflexivity.
        -- rewrite strlen_cons. lia.
        -- unfold count_newlines. cbn [sum_delta]. rewrite Hc. lia.
Qed.


Definition isAlnum (c : ascii) : bool := isAlpha c || isDigit c.

Lemma alpha_facts (c : ascii) :
  isAlpha c = true ->
  isBlank c = false /\ Ascii.eqb c "/" = false /\ Ascii.eqb c NUL = false.
Proof.
  destruct c as [[] [] [] [] [] [] [] []]; intros H;
    try discriminate H; repeat split.
Qed.

Lemma digit_facts (c : ascii) :
  isDigit c = true ->
  isBlank c = false /\ Ascii.eqb c "/" = false /\ Ascii.eqb c NUL = false
  /\ isAlpha c = false.
Proof.
  destruct c as [[] [] [] [] [] [] [] []]; intros H;
    try discriminate H; repeat split.
Qed.

Lemma skipWhitespace_stays (sc : Scanner) :
  isBlank (peek sc) = false -> Ascii.eqb (peek sc) "/" = false ->
  skipWhitespace sc = Some sc.
Proof.
  intros Hb Hs. unfold skipWhitespace, scan_fuel.
  cbn [skipWhitespace_loop]. cbv zeta.
  unfold isBlank in Hb. apply orb_false_elim in Hb. destruct Hb as [Hb Hnl].
  rewrite Hb, Hnl, Hs. reflexivity.
Qed.

(** The scanner as [scanToken] hands it to [identifier], [number] and
    [string]: the lexeme starts where the scanner stood, and its first
    character is consumed. *)
Definition first_consumed (sc : Scanner) : Scanner :=
  {| source := source sc; start := current sc;
     current := current sc + 1; line := line sc |}.

Lemma scanToken_alpha (sc : Scanner) :
  isAlpha (peek sc) = true -> scanToken sc = identifier (first_consumed sc).
Proof.
  intros H. destruct (alpha_facts _ H) as (Hb & Hs & Hn).
  unfold scanToken. rewrite (skipWhitespace_stays sc Hb Hs).
  cbn [mbind option_bind]. cbv zeta.
  unfold isAtEnd, advance. cbn [source current start line set_current].
  fold (peek sc). rewrite Hn, H. reflexivity.
Qed.

Lemma scanToken_digit (sc : Scanner) :
  isDigit (peek sc) = true -> scanToken sc = number (first_consumed sc).
Proof.
  intros H. destruct (digit_facts _ H) as (Hb & Hs & Hn & Ha).
  unfold scanToken. rewrite (skipWhitespace_stays sc Hb Hs).
  cbn [mbind option_bind]. cbv zeta.
  unfold isAtEnd, advance. cbn [source current start line set_current].
  fold (peek sc). rewrite Hn, Ha, H. reflexivity.
Qed.

Lemma scanToken_quote (sc : Scanner) :
  peek sc = "034"%char -> scanToken sc = string_ (first_consumed sc).
Proof.
  intros H. unfold scanToken. rewrite (skipWhitespace_stays sc);
    [|rewrite H; reflexivity|rewrite H; reflexivity].
  cbn [mbind option_bind]. cbv zeta.
  unfold isAtEnd, advance. cbn [source current start line set_current].
  fold (peek sc). rewrite H. reflexivity.
Qed.

Lemma ahead_first_consumed (sc : Scanner) (pre : string) (c : ascii)
    (rest : string) :
  ahead sc pre (String c rest) ->
  ahead (first_consumed sc) (pre +:+ String c EmptyString) rest.
Proof. intros Ha. eapply ahead_step; [exact Ha|reflexivity|reflexivity]. Qed.

Lemma makeToken_lexeme (ty : TokenType) (pre w rest : string) (ln : Z) :
  makeToken ty {| source := pre +:+ w +:+ rest; start := strlen pre;
                  current := strlen pre + strlen w; line := ln |}
  = {| type := ty; Token.start := w; length := strlen w; Token.line := ln |}.
Proof.
  unfold makeToken. cbn [source start current line]. f_equal.
  - unfold strlen.
    replace (Z.to_nat (Z.of_nat (String.length pre))) with (String.length pre)
      by lia.
    replace (Z.to_nat (Z.of_nat (String.length pre) + Z.of_nat (String.length w)
                       - Z.of_nat (String.length pre)))
      with (String.length w) by lia.
    apply substring_app_mid.
  - lia.
Qed.


Definition scanner_at (pre rest : string) (st ln : Z) : Scanner :=
  {| source := pre +:+ rest; start := st; current := strlen pre; line := ln |}.

Definition scanned_to (pre lexeme rest : string) (ln : Z) : Scanner :=
  {| source := pre +:+ lexeme +:+ rest; start := strlen pre;
     current := strlen pre + strlen lexeme; line := ln |}.

Definition lexeme_token (ty : TokenType) (lexeme : string) (ln : Z) : Token :=
  {| type := ty; Token.start := lexeme; length := strlen lexeme;
     Token.line := ln |}.

Lemma ahead_scanner_at (pre rest : string) (st ln : Z) :
  ahead (scanner_at pre rest st ln) pre rest.
Proof. split; reflexivity. Qed.

(** [skipWhitespace] on a run of blanks, tabs, carriage returns and
    newlines that is followed by a character which is neither one of these
    nor a slash: the scanner stops right behind the run, and its line
    counter has advanced by the number of newlines in the run. *)
Theorem skipWhitespace_run (pre ws rest : string) (st ln : Z) :
  string_forall isBlank ws = true ->
  isBlank (first_char rest) = false -> first_char rest <> "/"%char ->
  skipWhitespace (scanner_at pre (ws +:+ rest) st ln)
  = Some {| source := pre +:+ ws +:+ rest; start := st;
            current := strlen pre + strlen ws;
            line := ln + count_newlines ws |}.
Proof.
  intros Hall Hrest Hslash. unfold skipWhitespace.
  erewrite skipWhitespace_loop_run; [reflexivity| | | | |].
  - apply ahead_scanner_at.
  - exact Hall.
  - exact Hrest.
  - exact Hslash.
  - apply (fuel_covers _ pre ws rest). reflexivity.
Qed.

Lemma isDigit_loop (sc : Scanner) (pre run rest : string) :
  ahead sc pre (run +:+ rest) ->
  string_forall isDigit run = true -> isDigit (first_char rest) = false ->
  exists sc',
    while_loop (scan_fuel sc) (fun s => isDigit (peek s))
      (fun s => snd (advance s)) sc = Some sc'
    /\ ahead sc' (pre +:+ run) rest /\ source sc' = source sc
    /\ start sc' = start sc /\ line sc' = line sc.
Proof.
  intros Ha Hall Hrest.
  destruct (while_loop_run isDigit (fun _ => 0) (fun s => isDigit (peek s))
              (fun s => snd (advance s)) (fun s => eq_refl) advance_run_body
              run (scan_fuel sc) sc pre rest Ha Hall Hrest)
    as (sc' & Hl & Ha' & Hs & Hst & Hln).
  - apply (fuel_covers _ pre run rest), Ha.
  - exists sc'. rewrite sum_delta_zero in Hln.
    repeat split; try assumption; try apply Ha'. lia.
Qed.

(** A run of digits that is followed neither by a digit nor by a dot and a
    digit is scanned as one [TOKEN_NUMBER] whose lexeme is the run; in
    particular a dot that no digit follows is left to the next token. *)
Theorem number_integer_scanned (pre : string) (d : ascii) (ds rest : string)
    (st ln : Z) :
  isDigit d = true -> string_forall isDigit ds = true ->
  isDigit (first_char rest) = false ->
  (first_char rest = "."%char -> isDigit (second_char rest) = false) ->
  scanToken (scanner_at pre (String d ds +:+ rest) st ln)
  = Some (lexeme_token TOKEN_NUMBER (String d ds) ln,
          scanned_to pre (String d ds) rest ln).
Proof.
  intros Hd Hds Hrest Hdot.
  set (sc := scanner_at pre (String d ds +:+ rest) st ln).
  assert (Ha : ahead sc pre (String d (ds +:+ rest))) by apply ahead_scanner_at.
  rewrite scanToken_digit by (rewrite (ahead_peek _ _ _ Ha); exact Hd).
  apply ahead_first_consumed in Ha.
  destruct (isDigit_loop _ _ _ _ Ha Hds Hrest) as (sc1 & Hl & Ha1 & Hs1 & Hst1 & Hln1).
  unfold number. rewrite Hl. cbn [mbind option_bind].
  assert (Hno : Ascii.eqb (peek sc1) "." && isDigit (peekNext sc1) = false).
  { rewrite (ahead_peek _ _ _ Ha1).
    destruct (Ascii.eqb_spec (first_char rest) ".") as [E|]; [|reflexivity].
    unfold peekNext, isAtEnd. fold (peek sc1).
    rewrite (ahead_peek _ _ _ Ha1), E. cbn [Ascii.eqb andb].
    simpl Ascii.eqb. cbv iota.
    rewrite (ahead_next _ _ _ Ha1). apply Hdot, E. }
  rewrite Hno. cbn [mbind option_bind].
  assert (E : sc1 = scanned_to pre (String d ds) rest ln).
  { destruct Ha1 as [_ Hc1]. apply scanner_eta.
    - rewrite Hs1. reflexivity.
    - rewrite Hst1. reflexivity.
    - rewrite Hc1, app_assoc_string, strlen_app. reflexivity.
    - rewrite Hln1. reflexivity. }
  rewrite E. unfold scanned_to. rewrite makeToken_lexeme. reflexivity.
Qed.


Lemma first_char_app (c : ascii) (a b : string) :
  first_char (String c a +:+ b) = c.
Proof. reflexivity. Qed.

Lemma first_char_app_nonempty (a b : string) :
  first_char a <> NUL -> first_char (a +:+ b) = first_char a.
Proof. destruct a as [|c a]; [intros H; contradiction H; reflexivity|reflexivity]. Qed.

(** Digits, a dot and digits again, followed by a character that is not
    a digit, are scanned as one [TOKEN_NUMBER] whose lexeme has the dot
    and the fraction in it. *)
Theorem number_fraction_scanned (pre : string) (d : ascii) (ds : string)
    (d' : ascii) (ds' rest : string) (st ln : Z) :
  isDigit d = true -> string_forall isDigit ds = true ->
  isDigit d' = true -> string_forall isDigit ds' = true ->
  isDigit (first_char rest) = false ->
  scanToken (scanner_at pre ((String d ds +:+ String "." (String d' ds')) +:+ rest)
               st ln)
  = Some (lexeme_token TOKEN_NUMBER (String d ds +:+ String "." (String d' ds')) ln,
          scanned_to pre (String d ds +:+ String "." (String d' ds')) rest ln).
Proof.
  intros Hd Hds Hd' Hds' Hrest.
  set (lexeme := String d ds +:+ String "." (String d' ds')).
  set (sc := scanner_at pre (lexeme +:+ rest) st ln).
  assert (Hsrc : lexeme +:+ rest
                 = String d (ds +:+ String "." (String d' (ds' +:+ rest)))).
  { unfold lexeme. rewrite app_assoc_string. reflexivity. }
  assert (Ha : ahead sc pre (String d (ds +:+ String "." (String d' (ds' +:+ rest))))).
  { rewrite <- Hsrc. apply ahead_scanner_at. }
  rewrite scanToken_digit by (rewrite (ahead_peek _ _ _ Ha); exact Hd).
  apply ahead_first_consumed in Ha.
  destruct (isDigit_loop _ _ _ _ Ha Hds eq_refl)
    as (sc1 & Hl & Ha1 & Hs1 & Hst1 & Hln1).
  unfold number. rewrite Hl. cbn [mbind option_bind].
  assert (Hend1 : isAtEnd sc1 = false).
  { unfold isAtEnd. fold (peek sc1). rewrite (ahead_peek _ _ _ Ha1). reflexivity. }
  assert (Hyes : Ascii.eqb (peek sc1) "." && isDigit (peekNext sc1) = true).
  { rewrite (ahead_peek _ _ _ Ha1). unfold peekNext. rewrite Hend1.
    rewrite (ahead_next _ _ _ Ha1). exact Hd'. }
  rewrite Hyes.
  assert (Ha2 : ahead (snd (advance sc1))
                  ((pre +:+ String d EmptyString) +:+ ds +:+ String "." EmptyString)
                  (String d' ds' +:+ rest)).
  { rewrite <- app_assoc_string.
    eapply ahead_step; [exact Ha1|reflexivity|reflexivity]. }
  assert (Hds2 : string_forall isDigit (String d' ds') = true).
  { simpl. rewrite Hd', Hds'. reflexivity. }
  destruct (while_loop_run isDigit (fun _ => 0) (fun s => isDigit (peek s))
              (fun s => snd (advance s)) (fun s => eq_refl) advance_run_body
              (String d' ds') (scan_fuel sc1) (snd (advance sc1)) _ rest
              Ha2 Hds2 Hrest)
    as (sc2 & Hl2 & Ha3 & Hs2 & Hst2 & Hln2).
  { destruct Ha2 as [Hsrc2 _]. cbn [advance snd set_current source] in Hsrc2.
    exact (fuel_covers sc1 _ (String d' ds') rest Hsrc2). }
  rewrite Hl2. cbn [mbind option_bind].
  rewrite sum_delta_zero in Hln2.
  assert (E : sc2 = scanned_to pre lexeme rest ln).
  { destruct Ha3 as [_ Hc3]. apply scanner_eta.
    - rewrite Hs2. cbn [advance snd set_current source]. rewrite Hs1.
      cbn [first_consumed source sc scanner_at]. reflexivity.
    - rewrite Hst2. cbn [advance snd set_current start]. rewrite Hst1. reflexivity.
    - rewrite Hc3. unfold lexeme. rewrite !strlen_app, !strlen_cons.
      change (strlen EmptyString) with 0. lia.
    - rewrite Hln2. cbn [advance snd set_current line]. rewrite Hln1.
      simpl. lia. }
  rewrite E. unfold scanned_to. rewrite makeToken_lexeme. reflexivity.
Qed.

(** A character that may stand inside a string literal. *)
Definition inString (c : ascii) : bool :=
  negb (Ascii.eqb c "034") && negb (Ascii.eqb c NUL).

Definition string_body (s : Scanner) : Scanner :=
  snd (advance (if Ascii.eqb (peek s) "010"
                then {| source := source s; start := start s;
                        current := current s; line := line s + 1 |}
                else s)).

Lemma string_body_spec :
  forall s, source (string_body s) = source s
            /\ start (string_body s) = start s
            /\ current (string_body s) = current s + 1
            /\ line (string_body s)
               = line s + (fun c : ascii => if Ascii.eqb c "010" then 1 else 0)
                            (peek s).
Proof.
  intros s. unfold string_body.
  destruct (Ascii.eqb (peek s) "010"); simpl; repeat split; lia.
Qed.

Lemma string_loop (sc : Scanner) (pre body rest : string) :
  ahead sc pre (body +:+ rest) ->
  string_forall inString body = true -> inString (first_char rest) = false ->
  exists sc',
    while_loop (scan_fuel sc)
      (fun s => negb (Ascii.eqb (peek s) "034") && negb (isAtEnd s))
      string_body sc = Some sc'
    /\ ahead sc' (pre +:+ body) rest /\ source sc' = source sc
    /\ start sc' = start sc /\ line sc' = line sc + count_newlines body.
Proof.
  intros Ha Hall Hrest.
  apply (while_loop_run inString _ _ string_body (fun s => eq_refl)
           string_body_spec body (scan_fuel sc) sc pre rest Ha Hall Hrest).
  apply (fuel_covers _ pre body rest), Ha.
Qed.

(** A string literal: a double quote, a body without double quote, and
    the closing double quote are scanned as one [TOKEN_STRING] whose
    lexeme has both quotes in it.  The body may span lines: the line
    counter advances by its newlines, and the token is reported on the
    line of the closing quote. *)
Theorem string_terminated_scanned (pre body rest : string) (st ln : Z) :
  string_forall inString body = true ->
  scanToken (scanner_at pre ((String "034" body +:+ String "034" EmptyString)
                             +:+ rest) st ln)
  = Some (lexeme_token TOKEN_STRING
            (String "034" body +:+ String "034" EmptyString)
            (ln + count_newlines body),
          scanned_to pre (String "034" body +:+ String "034" EmptyString) rest
            (ln + count_newlines body)).
Proof.
  intros Hbody.
  set (lexeme := String "034" body +:+ String "034" EmptyString).
  set (sc := scanner_at pre (lexeme +:+ rest) st ln).
  assert (Hsrc : lexeme +:+ rest = String "034" (body +:+ String "034" rest)).
  { unfold lexeme. rewrite app_assoc_string. reflexivity. }
  assert (Ha : ahead sc pre (String "034" (body +:+ String "034" rest))).
  { rewrite <- Hsrc. apply ahead_scanner_at. }
  rewrite scanToken_quote by (rewrite (ahead_peek _ _ _ Ha); reflexivity).
  apply ahead_first_consumed in Ha.
  destruct (string_loop _ _ _ _ Ha Hbody eq_refl)
    as (sc1 & Hl & Ha1 & Hs1 & Hst1 & Hln1).
  unfold string_. fold string_body. rewrite Hl. cbn [mbind option_bind].
  assert (Hend1 : isAtEnd sc1 = false).
  { unfold isAtEnd. fold (peek sc1). rewrite (ahead_peek _ _ _ Ha1). reflexivity. }
  rewrite Hend1. cbv zeta.
  assert (E : snd (advance sc1)
              = scanned_to pre lexeme rest (ln + count_newlines body)).
  { destruct Ha1 as [_ Hc1]. apply scanner_eta.
    - cbn [advance snd set_current source]. rewrite Hs1.
      cbn [first_consumed source sc scanner_at]. reflexivity.
    - cbn [advance snd set_current start]. rewrite Hst1. reflexivity.
    - cbn [advance snd set_current current]. rewrite Hc1.
      unfold lexeme. rewrite !strlen_app, !strlen_cons.
      change (strlen EmptyString) with 0. lia.
    - cbn [advance snd set_current line]. rewrite Hln1. reflexivity. }
  rewrite E. unfold scanned_to. rewrite makeToken_lexeme. reflexivity.
Qed.

(** A double quote with no closing quote up to the end of the source:
    the scanner consumes the rest of the source and returns the error
    token [Unterminated string.], on the line of the end of the source. *)
Theorem string_unterminated_scanned (pre body : string) (st ln : Z) :
  string_forall inString body = true ->
  scanToken (scanner_at pre (String "034" body) st ln)
  = Some ({| type := TOKEN_ERROR; Token.start := "Unterminated string.";
             length := 20; Token.line := ln + count_newlines body |},
          {| source := pre +:+ String "034" body; start := strlen pre;
             current := strlen pre + 1 + strlen body;
             line := ln + count_newlines body |}).
Proof.
  intros Hbody.
  set (sc := scanner_at pre (String "034" body) st ln).
  assert (Hsrc : String "034" body = String "034" (body +:+ EmptyString)).
  { f_equal. induction body as [|c b IH]; [reflexivity|].
    simpl in Hbody. apply andb_prop in Hbody.
    change (String c b = String c (b +:+ EmptyString)).
    f_equal. apply IH, Hbody. }
  assert (Ha : ahead sc pre (String "034" (body +:+ EmptyString))).
  { rewrite <- Hsrc. apply ahead_scanner_at. }
  rewrite scanToken_quote by (rewrite (ahead_peek _ _ _ Ha); reflexivity).
  apply ahead_first_consumed in Ha.
  destruct (string_loop _ _ _ _ Ha Hbody eq_refl)
    as (sc1 & Hl & Ha1 & Hs1 & Hst1 & Hln1).
  unfold string_. fold string_body. rewrite Hl. cbn [mbind option_bind].
  assert (Hend1 : isAtEnd sc1 = true).
  { unfold isAtEnd. fold (peek sc1). rewrite (ahead_peek _ _ _ Ha1). reflexivity. }
  rewrite Hend1.
  assert (E : sc1 = {| source := pre +:+ String "034" body; start := strlen pre;
                       current := strlen pre + 1 + strlen body;
                       line := ln + count_newlines body |}).
  { destruct Ha1 as [_ Hc1]. apply scanner_eta.
    - rewrite Hs1. reflexivity.
    - rewrite Hst1. reflexivity.
    - rewrite Hc1. rewrite !strlen_app, strlen_cons.
      change (strlen EmptyString) with 0. lia.
    - rewrite Hln1. reflexivity. }
  rewrite E. reflexivity.
Qed.


(** The reserved words of the language and their token types. *)
Definition reserved_words : list (string * TokenType) :=
  [("and", TOKEN_AND); ("class", TOKEN_CLASS); ("else", TOKEN_ELSE);
   ("false", TOKEN_FALSE); ("for", TOKEN_FOR); ("fun", TOKEN_FUN);
   ("if", TOKEN_IF); ("nil", TOKEN_NIL); ("or", TOKEN_OR);
   ("print", TOKEN_PRINT); ("return", TOKEN_RETURN); ("super", TOKEN_SUPER);
   ("this", TOKEN_THIS); ("true", TOKEN_TRUE); ("var", TOKEN_VAR);
   ("while", TOKEN_WHILE)]%string.

Fixpoint lookup_word (w : string) (l : list (string * TokenType)) : TokenType :=
  match l with
  | [] => TOKEN_IDENTIFIER
  | (k, ty) :: l' => if String.eqb w k then ty else lookup_word w l'
  end.

Definition reserved_type (w : string) : TokenType := lookup_word w reserved_words.

Lemma substring_all (w : string) : String.substring 0 (String.length w) w = w.
Proof.
  induction w as [|c w IH]; [reflexivity|].
  change (String c (String.substring 0 (String.length w) w) = String c w).
  rewrite IH. reflexivity.
Qed.

Lemma tail_test (w r : string) (lenW m : Z) :
  lenW - strlen w = m - strlen r ->
  (lenW =? m) && String.eqb (String.substring 0 (String.length r) w) r
  = String.eqb w r.
Proof.
  intros H. destruct (Z.eqb_spec lenW m) as [E|N].
  - assert (Hl : String.length r = String.length w) by (unfold strlen in H; lia).
    rewrite Hl, substring_all. reflexivity.
  - symmetry. apply String.eqb_neq. intros ->. lia.
Qed.

Lemma substring_inner (w b : string) :
  forall a n : nat,
    (a + n <= String.length w)%nat ->
    String.substring a n (w +:+ b) = String.substring a n w.
Proof.
  induction w as [|c w IH]; intros a n H.
  - simpl in H. assert (a = 0%nat) by lia. assert (n = 0%nat) by lia.
    subst. destruct b; reflexivity.
  - destruct a as [|a].
    + destruct n as [|n]; [reflexivity|].
      change (String c (String.substring 0 n (w +:+ b))
              = String c (String.substring 0 n w)).
      rewrite (IH 0%nat n) by (simpl in H; lia). reflexivity.
    + change (String.substring a n (w +:+ b) = String.substring a n w).
      apply IH. simpl in H. lia.
Qed.

Lemma substring_skip (pre s : string) (a n : nat) :
  String.substring (String.length pre + a) n (pre +:+ s) = String.substring a n s.
Proof. induction pre as [|c pre IH]; [reflexivity|exact IH]. Qed.

Lemma checkKeyword_word (pre word rest : string) (ln a n : Z) (r : string)
    (ty : TokenType) :
  0 <= a -> 0 <= n ->
  checkKeyword a n r ty (scanned_to pre word rest ln)
  = if (strlen word =? a + n)
       && String.eqb (String.substring (Z.to_nat a) (Z.to_nat n) word) r
    then ty else TOKEN_IDENTIFIER.
Proof.
  intros Ha Hn. unfold checkKeyword. cbn [scanned_to source start current].
  replace (strlen pre + strlen word - strlen pre) with (strlen word) by lia.
  destruct (Z.eqb_spec (strlen word) (a + n)) as [E|]; [|reflexivity].
  cbn [andb].
  replace (Z.to_nat (strlen pre + a))
    with (String.length pre + Z.to_nat a)%nat by (unfold strlen; lia).
  rewrite substring_skip, substring_inner; [reflexivity|].
  unfold strlen in E. lia.
Qed.

Lemma identifier_loop (sc : Scanner) (pre run rest : string) :
  ahead sc pre (run +:+ rest) ->
  string_forall isAlnum run = true -> isAlnum (first_char rest) = false ->
  exists sc',
    while_loop (scan_fuel sc) (fun s => isAlpha (peek s) || isDigit (peek s))
      (fun s => snd (advance s)) sc = Some sc'
    /\ ahead sc' (pre +:+ run) rest /\ source sc' = source sc
    /\ start sc' = start sc /\ line sc' = line sc.
Proof.
  intros Ha Hall Hrest.
  destruct (while_loop_run isAlnum (fun _ => 0)
              (fun s => isAlpha (peek s) || isDigit (peek s))
              (fun s => snd (advance s)) (fun s => eq_refl) advance_run_body
              run (scan_fuel sc) sc pre rest Ha Hall Hrest)
    as (sc' & Hl & Ha' & Hs & Hst & Hln).
  - apply (fuel_covers _ pre run rest), Ha.
  - exists sc'. rewrite sum_delta_zero in Hln.
    repeat split; try assumption; try apply Ha'. lia.
Qed.

Ltac keyword_tail :=
  repeat match goal with
  | |- context [Z.to_nat ?z] =>
      let v := eval cbv in (Z.to_nat z) in change (Z.to_nat z) with v
  end;
  cbn [String.substring];
  rewrite ?strlen_cons;
  match goal with
  | |- context [(?l =? ?m) && String.eqb (String.substring 0 ?n ?w) ?r] =>
      replace ((l =? m) && String.eqb (String.substring 0 n w) r)
        with (String.eqb w r)
        by (symmetry; apply (tail_test w r l m);
            rewrite ?strlen_cons; unfold strlen; simpl String.length; lia)
  end;
  cbn [String.eqb Ascii.eqb Bool.eqb andb];
  match goal with
  | |- context [String.eqb ?w ?r] => destruct (String.eqb w r); reflexivity
  end.

Lemma identifierType_word (pre : string) (c0 : ascii) (w rest : string) (ln : Z) :
  identifierType (scanned_to pre (String c0 w) rest ln)
  = reserved_type (String c0 w).
Proof.
  unfold identifierType. cbv zeta.
  rewrite !checkKeyword_word by lia.
  cbn [scanned_to source start current].
  replace (strlen pre + strlen (String c0 w) - strlen pre)
    with (strlen (String c0 w)) by lia.
  assert (H0 : charAt (pre +:+ String c0 w +:+ rest) (strlen pre) = c0).
  { rewrite <- (Z.add_0_r (strlen pre)). rewrite charAt_app_r by lia.
    reflexivity. }
  assert (H1 : charAt (pre +:+ String c0 w +:+ rest) (strlen pre + 1)
               = charAt (w +:+ rest) 0).
  { rewrite charAt_app_r by lia. reflexivity. }
  rewrite H0, H1. clear H0 H1.
  unfold reserved_type, reserved_words. cbn [lookup_word String.eqb].
  repeat match goal with
  | |- (if Ascii.eqb c0 ?x then _ else _) = _ =>
      destruct (Ascii.eqb_spec c0 x) as [->|_];
        [first
           [keyword_tail
           |destruct w as [|c1 w];
            [reflexivity|];
            rewrite !strlen_cons;
            replace (1 <? 1 + (1 + strlen w)) with true
              by (symmetry; apply Z.ltb_lt; pose proof (strlen_nonneg w); lia);
            change (charAt (String c1 w +:+ rest) 0) with c1;
            cbn [String.eqb];
            repeat match goal with
            | |- (if Ascii.eqb c1 ?y then _ else _) = _ =>
                destruct (Ascii.eqb_spec c1 y) as [->|_];
                  [keyword_tail|cbv iota]
            end;
            reflexivity]|cbv iota]
  end.
  reflexivity.
Qed.


(** A letter or underscore followed by letters, digits and underscores
    is scanned up to the first character that is none of these, as one
    token whose lexeme is that word; its type is the one of the reserved
    word if the word is one of the sixteen reserved words, and
    [TOKEN_IDENTIFIER] otherwise (so for [fo], [fork] or [classy]). *)
Theorem identifier_scanned_word (pre : string) (c0 : ascii) (w rest : string)
    (st ln : Z) :
  isAlpha c0 = true -> string_forall isAlnum w = true ->
  isAlnum (first_char rest) = false ->
  scanToken (scanner_at pre (String c0 w +:+ rest) st ln)
  = Some (lexeme_token (reserved_type (String c0 w)) (String c0 w) ln,
          scanned_to pre (String c0 w) rest ln).
Proof.
  intros Hc Hw Hrest.
  set (sc := scanner_at pre (String c0 w +:+ rest) st ln).
  assert (Ha : ahead sc pre (String c0 (w +:+ rest))) by apply ahead_scanner_at.
  rewrite scanToken_alpha by (rewrite (ahead_peek _ _ _ Ha); exact Hc).
  apply ahead_first_consumed in Ha.
  destruct (identifier_loop _ _ _ _ Ha Hw Hrest)
    as (sc1 & Hl & Ha1 & Hs1 & Hst1 & Hln1).
  unfold identifier. rewrite Hl. cbn [mbind option_bind].
  assert (E : sc1 = scanned_to pre (String c0 w) rest ln).
  { destruct Ha1 as [_ Hc1]. apply scanner_eta.
    - rewrite Hs1. reflexivity.
    - rewrite Hst1. reflexivity.
    - rewrite Hc1, app_assoc_string, strlen_app. reflexivity.
    - rewrite Hln1. reflexivity. }
  rewrite E, identifierType_word. unfold scanned_to.
  rewrite makeToken_lexeme. reflexivity.
Qed.

End Lexemes.

Section ScannerExamples.
Import Token Scanner Examples.

Lemma scanToken_progress_witness :
  exists tok sc',
    scanToken (initScanner source_comment) = Some (tok, sc')
    /\ source sc' = source (initScanner source_comment)
    /\ in_bounds sc'
    /\ current (initScanner source_comment) <= start sc' <= current sc'
    /\ line (initScanner source_comment) <= line sc'
    /\ Token.line tok = line sc'
    /\ (type tok <> TOKEN_ERROR ->
        Token.start tok
        = String.substring (Z.to_nat (start sc'))
            (Z.to_nat (current sc' - start sc')) (source sc')
        /\ Token.length tok = current sc' - start sc')
    /\ (type tok = TOKEN_EOF -> isAtEnd sc' = true /\ start sc' = current sc')
    /\ (type tok <> TOKEN_EOF -> current (initScanner source_comment) < current sc').
Proof.
  apply (scanToken_progress (initScanner source_comment)).
  vm_compute. split; discriminate.
Defined.

(** A blank, a newline and a tab between [x] and [y]. *)
Definition blanks : string := String " " (String "010" (String "009" EmptyString)).

Lemma skipWhitespace_run_witness :
  skipWhitespace (scanner_at "x" (blanks +:+ "y") 0 1)
  = Some {| source := "x" +:+ blanks +:+ "y"; start := 0;
            current := strlen "x" + strlen blanks;
            line := 1 + count_newlines blanks |}.
Proof.
  apply (skipWhitespace_run "x" blanks "y" 0 1).
  - reflexivity.
  - reflexivity.
  - discriminate.
Defined.

Lemma number_integer_scanned_witness :
  scanToken (scanner_at "x = " (String "4" "2" +:+ ";") 0 1)
  = Some (lexeme_token TOKEN_NUMBER (String "4" "2") 1,
          scanned_to "x = " (String "4" "2") ";" 1).
Proof.
  apply (number_integer_scanned "x = " "4" "2" ";" 0 1).
  - reflexivity.
  - reflexivity.
  - reflexivity.
  - discriminate.
Defined.

Lemma number_fraction_scanned_witness :
  scanToken (scanner_at "x = "
               ((String "3" "" +:+ String "." (String "1" "4")) +:+ ";") 0 1)
  = Some (lexeme_token TOKEN_NUMBER (String "3" "" +:+ String "." (String "1" "4")) 1,
          scanned_to "x = " (String "3" "" +:+ String "." (String "1" "4")) ";" 1).
Proof.
  apply (number_fraction_scanned "x = " "3" "" "1" "4" ";" 0 1); reflexivity.
Defined.

Lemma string_terminated_scanned_witness :
  scanToken (scanner_at "x = "
               ((String "034" "hi" +:+ String "034" EmptyString) +:+ ";") 0 1)
  = Some (lexeme_token TOKEN_STRING
            (String "034" "hi" +:+ String "034" EmptyString)
            (1 + count_newlines "hi"),
          scanned_to "x = " (String "034" "hi" +:+ String "034" EmptyString) ";"
            (1 + count_newlines "hi")).
Proof. apply (string_terminated_scanned "x = " "hi" ";" 0 1). reflexivity. Defined.

Lemma string_unterminated_scanned_witness :
  scanToken (scanner_at "x = " (String "034" "hi") 0 1)
  = Some ({| type := TOKEN_ERROR; Token.start := "Unterminated string.";
             length := 20; Token.line := 1 + count_newlines "hi" |},
          {| source := "x = " +:+ String "034" "hi"; start := strlen "x = ";
             current := strlen "x = " + 1 + strlen "hi";
             line := 1 + count_newlines "hi" |}).
Proof. apply (string_unterminated_scanned "x = " "hi" 0 1). reflexivity. Defined.

Lemma identifier_scanned_word_witness :
  scanToken (scanner_at "" (String "w" "hile" +:+ " (x)") 0 1)
  = Some (lexeme_token (reserved_type (String "w" "hile")) (String "w" "hile") 1,
          scanned_to "" (String "w" "hile") " (x)" 1).
Proof.
  apply (identifier_scanned_word "" "w" "hile" " (x)" 0 1); reflexivity.
Defined.

End ScannerExamples.

(** ** The compiler: tokens, scopes and local variables *)
Section Scopes.
Import Token Compiler Emit.

Definition is_error_token (t : Token) : Prop := Token.type t = TOKEN_ERROR.

Lemma advance_loop_panicking (errs : list Token) (t : Token) (rest : list Token)
    (st : State) :
  Forall is_error_token errs -> Token.type t <> TOKEN_ERROR ->
  panicMode (parser st) = true ->
  advance_loop (errs ++ t :: rest) st = set_current st t rest.
Proof.
  intros Herrs Ht. revert st. induction Herrs as [|e errs He _ IH]; intros st Hp.
  - simpl. destruct (decide (Token.type t = TOKEN_ERROR)); [contradiction|].
    reflexivity.
  - simpl. destruct (decide (Token.type e = TOKEN_ERROR)); [|contradiction].
    unfold errorAtCurrent, errorAt. cbn [set_current parser panicMode].
    rewrite Hp. rewrite IH by exact Hp. reflexivity.
Qed.

(** [advance] skips the error tokens that the scanner returns before the
    next proper token and makes that token the current one.  Only the
    first of these errors is reported, with its message and line, and none
    if the parser is in panic mode already. *)
Theorem advance_skips_errors (st : State) (e : Token) (errs : list Token)
    (t : Token) (rest : list Token) :
  tokens st = e :: errs ++ t :: rest ->
  Forall is_error_token (e :: errs) -> Token.type t <> TOKEN_ERROR ->
  advance st
  = {| tokens := rest; eof_line := eof_line st;
       parser := {| current := t;
                    previous := current (parser st);
                    hadError := hadError (parser st)
                                || negb (panicMode (parser st));
                    panicMode := true |};
       compiler := compiler st;
       stderr := stderr st
                 ++ (if panicMode (parser st) then []
                     else [(Token.line e, Token.start e)]) |}.
Proof.
  intros Htok Herrs Ht. apply Forall_cons in Herrs. destruct Herrs as [He Herrs].
  unfold advance. rewrite Htok. cbn [advance_loop].
  destruct (decide (Token.type e = TOKEN_ERROR)); [|contradiction].
  unfold errorAtCurrent, errorAt. cbn [set_current set_parser parser panicMode].
  destruct (panicMode (parser st)) eqn:Hp.
  - rewrite advance_loop_panicking; [|assumption|assumption|reflexivity].
    unfold set_current. cbn. rewrite orb_false_r, app_nil_r. reflexivity.
  - rewrite advance_loop_panicking; [|assumption|assumption|reflexivity].
    unfold set_current. cbn. rewrite orb_true_r. reflexivity.
Qed.


Lemma error_compiler (msg : string) (st : State) :
  compiler (error msg st) = compiler st.
Proof. unfold error, errorAt. destruct (panicMode (parser st)); reflexivity. Qed.

Lemma error_twice (msg msg' : string) (st : State) :
  error msg' (error msg st) = error msg st.
Proof.
  unfold error, errorAt. destruct (panicMode (parser st)) eqn:Hp.
  - rewrite Hp. reflexivity.
  - reflexivity.
Qed.

(** A local that [declareVariable] takes to belong to the scope being
    compiled, and one at which its loop stops. *)
Definition in_scope (d : Z) (l : Local) : Prop := depth l = -1 \/ d <= depth l.

Definition encloses (d : Z) (l : Local) : Prop := depth l <> -1 /\ depth l < d.

Definition same_name (nm : Token) (l : Local) : bool :=
  identifiersEqual nm (name l).

Definition duplicate_msg : string :=
  "Already a variable with this name in this scope.".

Lemma declareVariable_loop_scope (nm : Token) (outer : list Local) :
  forall (inner suffix : list Local) (st : State),
    locals (compiler st) = outer ++ inner ++ suffix ->
    Forall (in_scope (scopeDepth (compiler st))) inner ->
    match last outer with
    | Some l => encloses (scopeDepth (compiler st)) l
    | None => True
    end ->
    declareVariable_loop (List.length (outer ++ inner)) nm st
    = Some (if existsb (same_name nm) inner then error duplicate_msg st else st).
Proof.
  induction inner as [|l inner IH] using rev_ind; intros suffix st Hloc Hin Hout.
  - rewrite app_nil_r. simpl existsb. simpl in Hloc.
    destruct outer as [|o outer _] using rev_ind; [reflexivity|].
    rewrite last_snoc in Hout. destruct Hout as [H1 H2].
    rewrite length_app. simpl List.length.
    replace (List.length outer + 1)%nat with (S (List.length outer)) by lia.
    cbn [declareVariable_loop]. rewrite Hloc, <- app_assoc. cbn [app].
    rewrite (list_lookup_middle outer _ o (List.length outer) eq_refl).
    cbn [mbind option_bind].
    replace (depth o =? -1) with false
      by (symmetry; apply Z.eqb_neq; exact H1).
    replace (depth o <? scopeDepth (compiler st)) with true
      by (symmetry; apply Z.ltb_lt; exact H2).
    reflexivity.
  - destruct (proj1 (Forall_app _ _ _) Hin) as [Hin' Hl].
    rewrite Forall_singleton in Hl.
    rewrite app_assoc, length_app. simpl List.length.
    replace (List.length (outer ++ inner) + 1)%nat
      with (S (List.length (outer ++ inner))) by lia.
    cbn [declareVariable_loop].
    assert (Hloc' : locals (compiler st) = outer ++ inner ++ l :: suffix).
    { rewrite Hloc, <- app_assoc. reflexivity. }
    rewrite Hloc', app_assoc.
    rewrite (list_lookup_middle (outer ++ inner) _ l _ eq_refl).
    cbn [mbind option_bind].
    assert (Hgo : negb (depth l =? -1) && (depth l <? scopeDepth (compiler st))
                  = false).
    { unfold in_scope in Hl. destruct Hl as [Hl|Hl].
      - rewrite Hl. reflexivity.
      - apply andb_false_iff. right. apply Z.ltb_ge. exact Hl. }
    rewrite Hgo. rewrite existsb_app. simpl existsb. rewrite orb_false_r.
    fold (same_name nm l).
    destruct (same_name nm l) eqn:Hsame.
    + rewrite (IH (l :: suffix)).
      * fold duplicate_msg. rewrite error_twice, orb_true_r.
        destruct (existsb (same_name nm) inner); reflexivity.
      * rewrite error_compiler. exact Hloc'.
      * rewrite error_compiler. exact Hin'.
      * rewrite error_compiler. exact Hout.
    + rewrite orb_false_r. apply (IH (l :: suffix)); assumption.
Qed.

(** [declareVariable] in a local scope compares the name with the locals
    of the scope being compiled only: a local of that scope with the same
    name is reported as [Already a variable with this name in this scope.],
    a local of an enclosing scope is shadowed without complaint.  The
    variable is added in either case. *)
Theorem declareVariable_scope (st : State) (outer inner : list Local) :
  scopeDepth (compiler st) <> 0 ->
  locals (compiler st) = outer ++ inner ->
  localCount (compiler st) = Z.of_nat (List.length (outer ++ inner)) ->
  Forall (in_scope (scopeDepth (compiler st))) inner ->
  match last outer with
  | Some l => encloses (scopeDepth (compiler st)) l
  | None => True
  end ->
  declareVariable st
  = Some (addLocal (previous (parser st))
            (if existsb (same_name (previous (parser st))) inner
             then error duplicate_msg st else st)).
Proof.
  intros Hd Hloc Hcount Hin Hout. unfold declareVariable.
  replace (scopeDepth (compiler st) =? 0) with false
    by (symmetry; apply Z.eqb_neq; exact Hd).
  cbv zeta. rewrite Hcount, Nat2Z.id.
  rewrite (declareVariable_loop_scope _ outer inner [] st); auto.
  rewrite app_nil_r. exact Hloc.
Qed.

(** [resolveLocal] returns the slot of the last local with the name. *)
Lemma resolveLocal_loop_absent (nm : Token) (ls : list Local) (st : State) :
  forall n : nat,
    (n <= List.length ls)%nat ->
    existsb (same_name nm) (take n ls) = false ->
    resolveLocal_loop n ls nm st = Some (-1, st).
Proof.
  induction n as [|n IH]; intros Hn Hex; [reflexivity|].
  cbn [resolveLocal_loop].
  destruct (lookup_lt_is_Some_2 ls n) as [l Hl]; [lia|].
  rewrite Hl. cbn [mbind option_bind].
  rewrite (take_S_r ls n l Hl), existsb_app in Hex.
  apply orb_false_elim in Hex. destruct Hex as [Hex Hl'].
  simpl in Hl'. rewrite orb_false_r in Hl'. unfold same_name in Hl'.
  rewrite Hl'. apply IH; [lia|exact Hex].
Qed.

Lemma resolveLocal_loop_found (nm : Token) (st : State)
    (before : list Local) (l : Local) :
  same_name nm l = true ->
  forall after suffix : list Local,
    existsb (same_name nm) after = false ->
    resolveLocal_loop (List.length (before ++ l :: after))
      (before ++ l :: after ++ suffix) nm st
    = Some (Z.of_nat (List.length before),
            if depth l =? -1
            then error "Can't read local variable in its own initializer." st
            else st).
Proof.
  intros Hl. induction after as [|a after IH] using rev_ind; intros suffix Hafter.
  - rewrite length_app. simpl List.length.
    replace (List.length before + 1)%nat with (S (List.length before)) by lia.
    cbn [resolveLocal_loop app].
    rewrite (list_lookup_middle before _ l _ eq_refl).
    cbn [mbind option_bind]. unfold same_name in Hl. rewrite Hl. reflexivity.
  - rewrite existsb_app in Hafter. apply orb_false_elim in Hafter.
    destruct Hafter as [Hafter Ha]. simpl in Ha. rewrite orb_false_r in Ha.
    replace (before ++ l :: after ++ [a]) with ((before ++ l :: after) ++ [a])
      by (rewrite <- app_assoc; reflexivity).
    rewrite length_app. simpl List.length.
    replace (List.length (before ++ l :: after) + 1)%nat
      with (S (List.length (before ++ l :: after))) by lia.
    cbn [resolveLocal_loop].
    replace (before ++ l :: (after ++ [a]) ++ suffix)
      with ((before ++ l :: after) ++ a :: suffix)
      by (rewrite <- !app_assoc; reflexivity).
    rewrite (list_lookup_middle (before ++ l :: after) _ a _ eq_refl).
    cbn [mbind option_bind]. unfold same_name in Ha. rewrite Ha.
    replace ((before ++ l :: after) ++ a :: suffix)
      with (before ++ l :: after ++ a :: suffix)
      by (rewrite <- !app_assoc; reflexivity).
    apply IH. exact Hafter.
Qed.

(** [resolveLocal] returns the slot of the last declared local with the
    name, so that an inner declaration shadows an outer one, and -1 if
    there is none.  A local that is found while still uninitialised is
    reported as read in its own initializer, and its slot is returned all
    the same. *)
Theorem resolveLocal_finds_innermost (c : Compiler) (nm : Token) (st : State) :
  localCount c = Z.of_nat (List.length (locals c)) ->
  (existsb (same_name nm) (locals c) = false ->
   resolveLocal c nm st = Some (-1, st))
  /\ (forall (before : list Local) (l : Local) (after : list Local),
        locals c = before ++ l :: after ->
        same_name nm l = true ->
        existsb (same_name nm) after = false ->
        resolveLocal c nm st
        = Some (Z.of_nat (List.length before),
                if depth l =? -1
                then error "Can't read local variable in its own initializer." st
                else st)).
Proof.
  intros Hcount. split.
  - intros Hex. unfold resolveLocal. rewrite Hcount, Nat2Z.id.
    apply resolveLocal_loop_absent; [lia|].
    rewrite firstn_all. exact Hex.
  - intros before l after Hloc Hl Hafter. unfold resolveLocal.
    rewrite Hcount, Nat2Z.id, Hloc.
    pose proof (resolveLocal_loop_found nm st before l Hl after [] Hafter) as H.
    rewrite app_nil_r in H. exact H.
Qed.

(** The instruction [endScope] emits for a local that goes out of
    scope. *)
Definition drop_op (l : Local) : Z :=
  if isCaptured l then OP_CLOSE_UPVALUE else OP_POP.

Lemma endScope_loop (keep : list Local) :
  forall (dropped : list Local) (st : State) (fuel : nat),
    locals (compiler st) = keep ++ dropped ->
    localCount (compiler st) = Z.of_nat (List.length (keep ++ dropped)) ->
    Forall (fun l => scopeDepth (compiler st) < depth l) dropped ->
    match last keep with
    | Some l => depth l <= scopeDepth (compiler st)
    | None => True
    end ->
    (List.length dropped < fuel)%nat ->
    exists st',
      while_loop fuel endScope_cond endScope_body st = Some st'
      /\ locals (compiler st') = keep
      /\ localCount (compiler st') = Z.of_nat (List.length keep)
      /\ scopeDepth (compiler st') = scopeDepth (compiler st)
      /\ code (compiler st') = code (compiler st) ++ map drop_op (rev dropped)
      /\ parser st' = parser st /\ stderr st' = stderr st
      /\ tokens st' = tokens st.
Proof.
  induction dropped as [|l dropped IH] using rev_ind;
    intros st fuel Hloc Hcount Hdrop Hkeep Hfuel.
  - rewrite app_nil_r in *. destruct fuel as [|fuel]; [simpl in Hfuel; lia|].
    cbn [while_loop].
    assert (Hc : endScope_cond st = false).
    { unfold endScope_cond. rewrite Hcount, Hloc.
      destruct keep as [|k keep _] using rev_ind; [reflexivity|].
      rewrite last_snoc in Hkeep. rewrite length_app. simpl List.length.
      replace (Z.to_nat (Z.of_nat (List.length keep + 1) - 1))
        with (List.length keep) by lia.
      rewrite (list_lookup_middle keep [] k _ eq_refl).
      apply andb_false_iff. right.
      change ((depth k >? scopeDepth (compiler st)) = false).
      rewrite Z.gtb_ltb. apply Z.ltb_ge. exact Hkeep. }
    rewrite Hc. exists st.
    repeat split; try assumption; try reflexivity.
  - destruct fuel as [|fuel];
      [rewrite length_app in Hfuel; simpl in Hfuel; lia|].
    destruct (proj1 (Forall_app _ _ _) Hdrop) as [Hdrop' Hl].
    rewrite Forall_singleton in Hl.
    assert (Hlast : locals (compiler st)
                    !! Z.to_nat (localCount (compiler st) - 1) = Some l).
    { rewrite Hcount, Hloc, app_assoc, length_app. simpl List.length.
      replace (Z.to_nat (Z.of_nat (List.length (keep ++ dropped) + 1) - 1))
        with (List.length (keep ++ dropped)) by lia.
      apply (list_lookup_middle (keep ++ dropped) [] l _ eq_refl). }
    cbn [while_loop].
    assert (Hc : endScope_cond st = true).
    { unfold endScope_cond. rewrite Hlast. apply andb_true_iff. split.
      - apply Z.ltb_lt. rewrite Hcount, app_assoc, length_app. simpl. lia.
      - rewrite Z.gtb_ltb. apply Z.ltb_lt. exact Hl. }
    rewrite Hc.
    assert (Htake : take (Z.to_nat (localCount (compiler st) - 1))
                      (locals (compiler st)) = keep ++ dropped).
    { rewrite Hcount, Hloc, app_assoc, length_app. simpl List.length.
      replace (Z.to_nat (Z.of_nat (List.length (keep ++ dropped) + 1) - 1))
        with (List.length (keep ++ dropped)) by lia.
      apply take_app_length. }
    destruct (IH (endScope_body st) fuel) as (st' & Hrun & H1 & H2 & H3 & H4 & H5 & H6 & H7).
    + unfold endScope_body. rewrite Hlast. cbv zeta.
      destruct (isCaptured l); cbn; exact Htake.
    + unfold endScope_body. rewrite Hlast. cbv zeta.
      destruct (isCaptured l); cbn; rewrite Hcount, app_assoc, !length_app;
        simpl List.length; lia.
    + unfold endScope_body. rewrite Hlast. cbv zeta.
      destruct (isCaptured l); cbn; exact Hdrop'.
    + unfold endScope_body. rewrite Hlast. cbv zeta.
      destruct (isCaptured l); cbn; exact Hkeep.
    + rewrite length_app in Hfuel. simpl in Hfuel. lia.
    + exists st'. split; [exact Hrun|].
      split; [exact H1|]. split; [exact H2|].
      split; [rewrite H3; unfold endScope_body; rewrite Hlast; cbv zeta;
              destruct (isCaptured l); reflexivity|].
      split; [|split; [|split]].
      * rewrite H4, rev_app_distr. simpl rev. cbn [app map].
        unfold endScope_body. rewrite Hlast. cbv zeta. unfold drop_op.
        destruct (isCaptured l); cbn; rewrite <- app_assoc; reflexivity.
      * rewrite H5. unfold endScope_body. rewrite Hlast. cbv zeta.
        destruct (isCaptured l); reflexivity.
      * rewrite H6. unfold endScope_body. rewrite Hlast. cbv zeta.
        destruct (isCaptured l); reflexivity.
      * rewrite H7. unfold endScope_body. rewrite Hlast. cbv zeta.
        destruct (isCaptured l); reflexivity.
Qed.


(** [endScope] drops exactly the locals of the scope that ends, the last
    declared first, and emits one instruction for each: [OP_CLOSE_UPVALUE]
    for a local captured by a closure and [OP_POP] for any other.  The
    locals of the enclosing scopes stay. *)
Theorem endScope_drops_scope (st : State) (keep dropped : list Local) :
  locals (compiler st) = keep ++ dropped ->
  localCount (compiler st) = Z.of_nat (List.length (keep ++ dropped)) ->
  Forall (fun l => scopeDepth (compiler st) <= depth l) dropped ->
  match last keep with
  | Some l => depth l < scopeDepth (compiler st)
  | None => True
  end ->
  exists st',
    endScope st = Some st'
    /\ locals (compiler st') = keep
    /\ localCount (compiler st') = Z.of_nat (List.length keep)
    /\ scopeDepth (compiler st') = scopeDepth (compiler st) - 1
    /\ code (compiler st') = code (compiler st) ++ map drop_op (rev dropped)
    /\ parser st' = parser st /\ stderr st' = stderr st
    /\ tokens st' = tokens st.
Proof.
  intros Hloc Hcount Hdrop Hkeep. unfold endScope. cbv zeta.
  cbn [set_compiler compiler localCount].
  match goal with
  | |- context [while_loop ?f _ _ ?s] =>
      destruct (endScope_loop keep dropped s f)
        as (st' & Hrun & H1 & H2 & H3 & H4 & H5 & H6 & H7)
  end.
  - exact Hloc.
  - exact Hcount.
  - cbn. eapply Forall_impl; [exact Hdrop|]. intros l Hl. cbn in Hl. lia.
  - cbn. destruct (last keep); [lia|exact I].
  - rewrite Hcount, length_app. lia.
  - exists st'. split; [exact Hrun|]. repeat split; assumption.
Qed.

End Scopes.

Section ScopeExamples.
Import Token Compiler Emit.

Definition identifier_token (nm : string) : Token :=
  {| Token.type := TOKEN_IDENTIFIER; start := nm;
     length := Z.of_nat (String.length nm); Token.line := 1 |}.

Definition error_token (msg : string) : Token :=
  {| Token.type := TOKEN_ERROR; start := msg;
     length := Z.of_nat (String.length msg); Token.line := 1 |}.

Definition local_var (nm : string) (d : Z) (captured : bool) : Local :=
  {| name := identifier_token nm; depth := d; isCaptured := captured |}.

(** A compiler inside a block at depth [d], just behind the identifier
    [nm], with the locals [ls]. *)
Definition block_state (nm : string) (d : Z) (ls : list Local)
    (toks : list Token) : State :=
  {| tokens := toks; eof_line := 1;
     parser := {| current := identifier_token nm;
                  previous := identifier_token nm;
                  hadError := false; panicMode := false |};
     compiler := {| arity := 0; code := []; lines := []; type := TYPE_SCRIPT;
                    locals := ls; localCount := Z.of_nat (List.length ls);
                    scopeDepth := d |};
     stderr := [] |}.

(** Two characters the scanner rejects, then an identifier. *)
Definition state_errors : State :=
  block_state "a" 0 []
    [error_token "Unexpected character."; error_token "Unexpected character.";
     identifier_token "b"; identifier_token "c"].

Lemma advance_skips_errors_witness :
  advance state_errors
  = {| tokens := [identifier_token "c"]; eof_line := eof_line state_errors;
       parser := {| current := identifier_token "b";
                    previous := current (parser state_errors);
                    hadError := hadError (parser state_errors)
                                || negb (panicMode (parser state_errors));
                    panicMode := true |};
       compiler := compiler state_errors;
       stderr := stderr state_errors
                 ++ (if panicMode (parser state_errors) then []
                     else [(Token.line (error_token "Unexpected character."),
                            Token.start (error_token "Unexpected character."))]) |}.
Proof.
  apply (advance_skips_errors state_errors (error_token "Unexpected character.")
           [error_token "Unexpected character."] (identifier_token "b")
           [identifier_token "c"]).
  - reflexivity.
  - repeat constructor.
  - discriminate.
Defined.

(** [{ var a; { var b; var a] : the second [a] is declared in the inner
    block, where [b] is the only local so far. *)
Definition state_shadow : State :=
  block_state "a" 2 [local_var "" 0 false; local_var "a" 1 false;
                     local_var "b" 2 false] [].

Lemma declareVariable_scope_witness :
  declareVariable state_shadow
  = Some (addLocal (previous (parser state_shadow))
            (if existsb (same_name (previous (parser state_shadow)))
                  [local_var "b" 2 false]
             then error duplicate_msg state_shadow else state_shadow)).
Proof.
  apply (declareVariable_scope state_shadow
           [local_var "" 0 false; local_var "a" 1 false] [local_var "b" 2 false]).
  - discriminate.
  - reflexivity.
  - reflexivity.
  - constructor; [right; simpl; lia|constructor].
  - simpl. split; [discriminate|reflexivity].
Defined.

Lemma resolveLocal_finds_innermost_witness :
  (existsb (same_name (identifier_token "a")) (locals (compiler state_shadow))
   = false ->
   resolveLocal (compiler state_shadow) (identifier_token "a") state_shadow
   = Some (-1, state_shadow))
  /\ (forall (before : list Local) (l : Local) (after : list Local),
        locals (compiler state_shadow) = before ++ l :: after ->
        same_name (identifier_token "a") l = true ->
        existsb (same_name (identifier_token "a")) after = false ->
        resolveLocal (compiler state_shadow) (identifier_token "a") state_shadow
        = Some (Z.of_nat (List.length before),
                if depth l =? -1
                then error "Can't read local variable in its own initializer."
                       state_shadow
                else state_shadow)).
Proof.
  apply (resolveLocal_finds_innermost (compiler state_shadow)
           (identifier_token "a") state_shadow).
  reflexivity.
Defined.

(** The end of the inner block of [{ var a; { var b; var c; }]: [b] has
    been captured by a closure. *)
Definition state_block_end : State :=
  block_state "c" 2 [local_var "" 0 false; local_var "a" 1 false;
                     local_var "b" 2 true; local_var "c" 2 false] [].

Lemma endScope_drops_scope_witness :
  exists st',
    endScope state_block_end = Some st'
    /\ locals (compiler st') = [local_var "" 0 false; local_var "a" 1 false]
    /\ localCount (compiler st')
       = Z.of_nat (List.length [local_var "" 0 false; local_var "a" 1 false])
    /\ scopeDepth (compiler st') = scopeDepth (compiler state_block_end) - 1
    /\ code (compiler st')
       = code (compiler state_block_end)
         ++ map drop_op (rev [local_var "b" 2 true; local_var "c" 2 false])
    /\ parser st' = parser state_block_end
    /\ stderr st' = stderr state_block_end
    /\ tokens st' = tokens state_block_end.
Proof.
  apply (endScope_drops_scope state_block_end
           [local_var "" 0 false; local_var "a" 1 false]
           [local_var "b" 2 true; local_var "c" 2 false]).
  - reflexivity.
  - reflexivity.
  - repeat constructor; simpl; lia.
  - simpl. lia.
Defined.

End ScopeExamples.
